(** * The partial renderer of react-lightyear: traversal engine, synchronous
    and asynchronous readers

    A shallow embedding of [ReactDOMServerRenderer] and
    [ReactDOMServerRendererAsync] (ReactPartialRenderer.js): the frame stack,
    the provider stacks that save and restore context values, the reader loop
    of [read], the reader loop of [readAsync] with its queue of strings and
    promises, and the child renderers that resume a suspended subtree. *)

From Stdlib Require Import ZArith String List.
From stdpp Require Import gmap strings list.

Set Warnings "-register-all".


Open Scope Z_scope.
Open Scope nat_scope.

(** ** Identifiers and values *)

Abbreviation ThreadID := nat.
(** A [ReactContext] object is an array of current values indexed by thread
    id; a context is identified by a number. *)
Abbreviation CtxId := nat.
(** The thenables thrown by suspending components. *)
Abbreviation PromiseId := nat.
(** The values stored in contexts. *)
Abbreviation Value := string.

(** ** Collaborators of the renderer

    [escapeTextForBrowser] and [createMarkupForRoot] are imported by the
    renderer from modules of their own; the renderer only calls them. *)
Class Encoder := {
  escapeTextForBrowser : string -> string;
  createMarkupForRoot : string;
}.

(** What [renderDOM] needs to know of one host element; each field is the
    result of a call that depends on the element's type and props only. *)
Record HostElement := mkHost {
  h_type : string;           (* element.type, verbatim *)
  h_tag : string;            (* element.type.toLowerCase() *)
  h_validTag : bool;         (* VALID_TAG_REGEX.test(tag) *)
  h_selectValue : option string;
                             (* props.value != null ? props.value : props.defaultValue *)
  h_validProps : bool;       (* the textarea invariants and assertValidProps *)
  h_attributes : option string -> string;
                             (* the attribute loop of createOpenTagMarkup; an
                                option reads the current select value *)
  h_omittedClose : bool;     (* omittedCloseTags.hasOwnProperty(tag) *)
  h_innerMarkup : option string;
                             (* getNonChildrenInnerMarkup(props), with the
                                newline of newlineEatingTags in front *)
}.

(** ** Nodes

    The children the renderer walks.  A component is given by what its render
    does: return a child, throw a thenable until that thenable has settled, or
    throw something else. *)
Inductive Node :=
| Text (text : string)                    (* a string or a number: '' + child *)
| Empty                                   (* null or false *)
| Fragment (children : list Node)         (* an array, a fragment, strict mode,
                                             concurrent mode, profiler, suspense
                                             list, forward ref, memo *)
| Host (h : HostElement) (children : list Node)
| Suspense (fallback : option (list Node)) (children : list Node)
| Provider (context : CtxId) (value : Value) (children : list Node)
| Consumer (context : CtxId) (children : Value -> list Node)
| Lazy (p : PromiseId) (body : Node)      (* a lazy component, pending on p *)
| Composite (body : Node)                 (* render returns body *)
| Suspending (p : PromiseId) (body : Node)(* render throws p until p settled *)
| Failing (e : string).                   (* render throws e, not a thenable *)

(** ** Frames *)

Inductive FrameType :=
| TyNull                       (* type: null *)
| TyTag (tag : string)         (* type: tag *)
| TyProvider (context : CtxId) (* type: provider, a provider element *)
| TyConsumer                   (* type: nextChild, a consumer element *)
| TySuspense.                  (* type: REACT_SUSPENSE_TYPE *)

Inductive Frame := mkFrame {
  f_type : FrameType;
  f_children : list Node;
  childIndex : nat;
  fallbackFrame : option Frame;
  footer : string;
}.

Definition plainFrame (children : list Node) : Frame :=
  mkFrame TyNull children 0 None "".

Definition advance (f : Frame) : Frame :=
  mkFrame (f_type f) (f_children f) (S (childIndex f)) (fallbackFrame f) (footer f).

(** ** Errors *)

Inductive Error :=
| NoFallbackUI          (* 'A React component suspended while rendering, but no
                            fallback UI was specified.' *)
| NoFallbackFrame       (* 'ReactDOMServer did not find an internal fallback
                            frame for Suspense.' *)
| ProtocolError         (* validateContextBounds *)
| InvalidTag            (* 'Invalid tag: %s' *)
| InvalidProps          (* assertValidProps and the textarea invariants *)
| InvalidElementType    (* 'Element type is invalid' *)
| Thrown (e : string)   (* a value thrown by a component *)
| TypeError             (* a property of undefined was read or written *)
| Unsettled.            (* a promise awaited by flattenAndResolveQueue rejected:
                            no handler is attached, the promise of readAsync
                            never settles *)

(** ** The world outside the renderer objects *)

Record World := mkWorld {
  slots : gmap (nat * nat) string;  (* context[threadID], by (context, threadID) *)
  live : list nat;                  (* thread ids handed out and not given back *)
  released : list nat;              (* every freeThreadID(id), latest first *)
  settled : list nat;               (* thenables that have resolved *)
}.

Definition setSlots (w : World) (s : gmap (nat * nat) string) : World :=
  mkWorld s (live w) (released w) (settled w).

(** Modelled from the spec: ReactThreadIDAllocator is imported and not part of
    the sources.  allocate() returns a small non-negative integer not held by
    any live session; release(id) returns it to the free pool. *)
Definition lowestFree (held : list nat) : nat :=
  default (length held)
    (snd <$> list_find (fun n => bool_decide (n ∉ held)) (seq 0 (S (length held)))).

Definition allocThreadID (w : World) : nat * World :=
  let id := lowestFree (live w) in
  (id, mkWorld (slots w) (id :: live w) (released w) (settled w)).

Definition freeThreadID (id : nat) (w : World) : World :=
  mkWorld (slots w) (filter (fun n => n ≠ id) (live w)) (id :: released w) (settled w).

(** Modelled from the spec: validateContextBounds is imported and not part of
    the sources.  It fails with a protocol error if the slot of the context
    has not been initialised for this thread id. *)
Definition validateContextBounds (context threadID : nat) (w : World) : bool :=
  bool_decide (is_Some (slots w !! (context, threadID))).

(** context[threadID] = value; undefined is the absent slot. *)
Definition writeSlot (context threadID : nat) (v : option string) (w : World) : World :=
  match v with
  | Some x => setSlots w (<[(context, threadID) := x]> (slots w))
  | None => setSlots w (delete (context, threadID) (slots w))
  end.

Definition readSlot (context threadID : nat) (w : World) : option string :=
  slots w !! (context, threadID).

(** ** JavaScript arrays *)

(** a[i] = x, on an array whose holes and nulls are [None]. *)
Definition arraySet {A} (a : list (option A)) (i : nat) (x : option A) : list (option A) :=
  if decide (i < length a) then <[i := x]> a
  else (a ++ replicate (i - length a) None ++ [x])%list.

(** a[i], undefined and null both [None].  A negative index names a property
    that is not an element; no array of the renderer is ever given one, since
    [contextIndex] only drops below zero when a pop has no matching push. *)
Definition arrayGet {A} (a : list (option A)) (i : Z) : option A :=
  if decide (0 <= i)%Z then mjoin (a !! Z.to_nat i) else None.

(** ** Renderers *)

(** The object built by [getClonedRenderContext]. *)
Record RenderContext := mkRenderContext {
  rc_threadID : nat;
  rc_currentSelectValue : option string;
  rc_previousWasTextNode : bool;
  rc_contextIndex : Z;
  rc_contextStack : list (option nat);
  rc_contextValues : list (option string);
  rc_contextValueStack : list (option string);
}.

(** What an [outQueue] holds: strings and promises.  A promise is either the
    roll-up of a finished Suspense boundary,
    [resolvePromisesWithFooter(promises, footer).then(join)], or the promise
    returned by [renderEventually], [err.then(() => child renderer ...)]. *)
Inductive Chunk :=
| Str (s : string)
| Boundary (parts : list Chunk) (footer : string)
| Resume (p : nat) (child : Node) (static : bool) (rc : RenderContext).

(** The fields of [ReactDOMServerRenderer] and, for the asynchronous
    subclass, [outQueue] and [isChildRenderer] (which a synchronous renderer
    does not have: [!this.isChildRenderer] is true there).  The top of
    [stack] is the head of the list. *)
Record Renderer := mkRenderer {
  threadID : nat;
  stack : list Frame;
  exhausted : bool;
  currentSelectValue : option string;
  previousWasTextNode : bool;
  makeStaticMarkup : bool;
  suspenseDepth : nat;
  contextIndex : Z;
  contextStack : list (option nat);
  contextValueStack : list (option string);
  outQueue : list (list Chunk);
  isChildRenderer : bool;
}.

Definition setStack (r : Renderer) (s : list Frame) : Renderer :=
  mkRenderer (threadID r) s (exhausted r) (currentSelectValue r)
    (previousWasTextNode r) (makeStaticMarkup r) (suspenseDepth r)
    (contextIndex r) (contextStack r) (contextValueStack r) (outQueue r)
    (isChildRenderer r).

Definition setExhausted (r : Renderer) (b : bool) : Renderer :=
  mkRenderer (threadID r) (stack r) b (currentSelectValue r)
    (previousWasTextNode r) (makeStaticMarkup r) (suspenseDepth r)
    (contextIndex r) (contextStack r) (contextValueStack r) (outQueue r)
    (isChildRenderer r).

Definition setCurrentSelectValue (r : Renderer) (v : option string) : Renderer :=
  mkRenderer (threadID r) (stack r) (exhausted r) v
    (previousWasTextNode r) (makeStaticMarkup r) (suspenseDepth r)
    (contextIndex r) (contextStack r) (contextValueStack r) (outQueue r)
    (isChildRenderer r).

Definition setPreviousWasTextNode (r : Renderer) (b : bool) : Renderer :=
  mkRenderer (threadID r) (stack r) (exhausted r) (currentSelectValue r)
    b (makeStaticMarkup r) (suspenseDepth r)
    (contextIndex r) (contextStack r) (contextValueStack r) (outQueue r)
    (isChildRenderer r).

Definition setSuspenseDepth (r : Renderer) (d : nat) : Renderer :=
  mkRenderer (threadID r) (stack r) (exhausted r) (currentSelectValue r)
    (previousWasTextNode r) (makeStaticMarkup r) d
    (contextIndex r) (contextStack r) (contextValueStack r) (outQueue r)
    (isChildRenderer r).

Definition setContexts (r : Renderer) (i : Z) (cs : list (option nat))
    (vs : list (option string)) : Renderer :=
  mkRenderer (threadID r) (stack r) (exhausted r) (currentSelectValue r)
    (previousWasTextNode r) (makeStaticMarkup r) (suspenseDepth r)
    i cs vs (outQueue r) (isChildRenderer r).

Definition setOutQueue (r : Renderer) (q : list (list Chunk)) : Renderer :=
  mkRenderer (threadID r) (stack r) (exhausted r) (currentSelectValue r)
    (previousWasTextNode r) (makeStaticMarkup r) (suspenseDepth r)
    (contextIndex r) (contextStack r) (contextValueStack r) q
    (isChildRenderer r).

Definition pushFrame (r : Renderer) (f : Frame) : Renderer :=
  setStack r (f :: stack r).

(** The state an operation leaves behind, also when it throws. *)
Inductive Result (S : Type) :=
| Ok (s : S)
| Fail (e : Error) (s : S).
Arguments Ok {S} s.
Arguments Fail {S} e s.

(** ** The provider stacks *)

(** [pushProvider(provider)], for a provider of [context] with prop [value]. *)
Definition pushProvider (context : nat) (value : string) (r : Renderer) (w : World)
    : Result (Renderer * World) :=
  let index := (contextIndex r + 1)%Z in
  let r1 := setContexts r index (contextStack r) (contextValueStack r) in
  if validateContextBounds context (threadID r) w then
    let previousValue := readSlot context (threadID r) w in
    let r2 :=
      if decide (0 <= index)%Z then
        setContexts r1 index
          (arraySet (contextStack r) (Z.to_nat index) (Some context))
          (arraySet (contextValueStack r) (Z.to_nat index) previousValue)
      else r1 in
    Ok (r2, writeSlot context (threadID r) (Some value) w)
  else Fail ProtocolError (r1, w).

(** [popProvider(provider)]. The provider is only compared in development
    builds, for the 'Unexpected pop.' warning. *)
Definition popProvider (r : Renderer) (w : World) : Result (Renderer * World) :=
  let index := contextIndex r in
  let context := arrayGet (contextStack r) index in
  let previousValue := arrayGet (contextValueStack r) index in
  let r1 :=
    if decide (0 <= index)%Z then
      setContexts r (index - 1)%Z
        (arraySet (contextStack r) (Z.to_nat index) None)
        (arraySet (contextValueStack r) (Z.to_nat index) None)
    else setContexts r (index - 1)%Z (contextStack r) (contextValueStack r) in
  match context with
  | Some c => Ok (r1, writeSlot c (threadID r) previousValue w)
  | None => Fail TypeError (r1, w)
  end.

(** The loop of [clearProviders], from [index = n - 1] down to 0. *)
Fixpoint clearProvidersFrom (n : nat) (r : Renderer) (w : World) : Result World :=
  match n with
  | O => Ok w
  | S index =>
      match arrayGet (contextStack r) (Z.of_nat index) with
      | Some c =>
          clearProvidersFrom index r
            (writeSlot c (threadID r)
               (arrayGet (contextValueStack r) (Z.of_nat index)) w)
      | None => Fail TypeError w
      end
  end.

Definition clearProviders (r : Renderer) (w : World) : Result World :=
  clearProvidersFrom (Z.to_nat (contextIndex r + 1)) r w.

(** ** Rendering one child *)

(** What a call leaves: a returned string, a thrown thenable, or another
    thrown value. *)
Inductive Completion :=
| Returned (s : string)
| ThrewThenable (p : nat)
| ThrewError (e : Error).

(** What [resolve] ends with: the first child that is not an element whose
    type is a function, or what a component threw on the way. *)
Inductive Resolution :=
| ResolvedTo (child : Node)
| ResolveThenable (p : nat)
| ResolveError (e : Error).

Definition isSettled (p : nat) (w : World) : bool := bool_decide (p ∈ settled w).

Fixpoint resolve (child : Node) (w : World) : Resolution :=
  match child with
  | Composite body => resolve body w
  | Suspending p body => if isSettled p w then resolve body w else ResolveThenable p
  | Failing e => ResolveError (Thrown e)
  | _ => ResolvedTo child
  end.

(** [flattenTopLevelChildren(children)]. *)
Definition flattenTopLevelChildren (children : Node) : list Node :=
  match children with
  | Fragment cs => cs
  | Empty => []
  | _ => [children]
  end.

(** The markup written when a Suspense boundary opens, when it closes, when
    its fallback replaces it, and between two text nodes. *)
Definition suspenseOpen : string := "<!--$-->".
Definition suspenseClose : string := "<!--/$-->".
Definition suspenseFallback : string := "<!--$!-->".
Definition textSeparator : string := "<!-- -->".

(** Modelled from the spec: the feature flag is imported from
    shared/ReactFeatureFlags, which is not part of the sources; the spec
    describes the engine with support for suspension switched on. *)
Definition enableSuspenseServerRenderer : bool := true.

Section Render.
Context `{Encoder}.

Definition createOpenTagMarkup (h : HostElement) (selectValue : option string)
    (makeStatic isRootElement : bool) : string :=
  let ret := "<" +:+ h_type h +:+ h_attributes h selectValue in
  if makeStatic then ret
  else if isRootElement then ret +:+ " " +:+ createMarkupForRoot
  else ret.

(** [renderDOM(element, context, parentNamespace)].  The namespaces only
    reach development warnings and the frame, never the markup. *)
Definition renderDOM (h : HostElement) (children : list Node)
    (r : Renderer) (w : World) : Completion * Renderer * World :=
  if negb (h_validTag h) then (ThrewError InvalidTag, r, w)
  else
    let r1 :=
      if decide (h_tag h = "select")
      then setCurrentSelectValue r (h_selectValue h) else r in
    if negb (h_validProps h) then (ThrewError InvalidProps, r1, w)
    else
      let out := createOpenTagMarkup h (currentSelectValue r1) (makeStaticMarkup r1)
                   (bool_decide (length (stack r1) = 1) && negb (isChildRenderer r1)) in
      let '(out, foot) :=
        if h_omittedClose h then (out +:+ "/>", "")
        else (out +:+ ">", "</" +:+ h_type h +:+ ">") in
      let '(out, children) :=
        match h_innerMarkup h with
        | Some innerMarkup => (out +:+ innerMarkup, [])
        | None => (out, children)
        end in
      let frame := mkFrame (TyTag (h_tag h)) children 0 None foot in
      (Returned out, setPreviousWasTextNode (pushFrame r1 frame) false, w).

(** [render(child, context, parentNamespace)]. *)
Definition render (child : Node) (r : Renderer) (w : World)
    : Completion * Renderer * World :=
  match child with
  | Text text =>
      if decide (text = "") then (Returned "", r, w)
      else if makeStaticMarkup r then (Returned (escapeTextForBrowser text), r, w)
      else if previousWasTextNode r
      then (Returned (textSeparator +:+ escapeTextForBrowser text), r, w)
      else (Returned (escapeTextForBrowser text), setPreviousWasTextNode r true, w)
  | _ =>
      match resolve child w with
      | ResolveThenable p => (ThrewThenable p, r, w)
      | ResolveError e => (ThrewError e, r, w)
      | ResolvedTo nextChild =>
          match nextChild with
          | Empty => (Returned "", r, w)
          | Text _ => (Returned "", pushFrame r (plainFrame [nextChild]), w)
          | Fragment nextChildren =>
              (Returned "", pushFrame r (plainFrame nextChildren), w)
          | Host h children => renderDOM h children r w
          | Suspense fallback nextChildren =>
              if enableSuspenseServerRenderer then
                match fallback with
                | None => (Returned "", pushFrame r (plainFrame nextChildren), w)
                | Some fallbackChildren =>
                    let fallbackFrame :=
                      mkFrame TyNull fallbackChildren 0 None suspenseClose in
                    let frame :=
                      mkFrame TySuspense nextChildren 0 (Some fallbackFrame)
                        suspenseClose in
                    (Returned suspenseOpen,
                     setSuspenseDepth (pushFrame r frame) (S (suspenseDepth r)), w)
                end
              else (ThrewError InvalidElementType, r, w)
          | Provider context value nextChildren =>
              let frame := mkFrame (TyProvider context) nextChildren 0 None "" in
              match pushProvider context value r w with
              | Ok (r1, w1) => (Returned "", pushFrame r1 frame, w1)
              | Fail e (r1, w1) => (ThrewError e, r1, w1)
              end
          | Consumer context children =>
              if validateContextBounds context (threadID r) w then
                match readSlot context (threadID r) w with
                | Some nextValue =>
                    let frame := mkFrame TyConsumer (children nextValue) 0 None "" in
                    (Returned "", pushFrame r frame, w)
                | None => (ThrewError ProtocolError, r, w)
                end
              else (ThrewError ProtocolError, r, w)
          | Lazy p body =>
              if isSettled p w
              then (Returned "", pushFrame r (plainFrame [body]), w)
              else (ThrewThenable p, r, w)
          | Composite _ | Suspending _ _ | Failing _ =>
              (ThrewError InvalidElementType, r, w)
          end
      end
  end.

End Render.

(** ** The synchronous renderer *)

(** [new ReactDOMServerRenderer(children, makeStaticMarkup)]. *)
Definition newRenderer (children : Node) (makeStatic : bool) (w : World)
    : Renderer * World :=
  let topFrame := plainFrame (flattenTopLevelChildren children) in
  let '(id, w1) := allocThreadID w in
  (mkRenderer id [topFrame] false None false makeStatic 0 (-1)%Z [] [] [] false, w1).

(** [destroy()] of [ReactDOMServerRenderer]. *)
Definition destroy (r : Renderer) (w : World) : Result (Renderer * World) :=
  if exhausted r then Ok (r, w)
  else
    let r1 := setExhausted r true in
    match clearProviders r1 w with
    | Ok w1 => Ok (r1, freeThreadID (threadID r1) w1)
    | Fail e w1 => Fail e (r1, w1)
    end.

(** The number of bytes asked of a reader. *)
Inductive Bytes :=
| Finite (n : nat)
| Infinity.

(** [length < bytes]. *)
Definition below (len : nat) (bytes : Bytes) : bool :=
  match bytes with
  | Finite n => len <? n
  | Infinity => true
  end.

(** The array [out] of [read]: one string for each open Suspense boundary,
    [None] for a hole. *)
Definition jsString (x : option string) : string := default "undefined" x.

(** [out[d] += s]. *)
Definition outAdd (out : list (option string)) (d : nat) (s : string)
    : list (option string) :=
  arraySet out d (Some (jsString (mjoin (out !! d)) +:+ s)).

(** [out.pop()]: the value popped and what is left. *)
Definition outPop (out : list (option string)) : option string * list (option string) :=
  (mjoin (last out), removelast out).

(** The local variables of [read] next to the renderer and the world. *)
Record ReadState := mkReadState {
  rs_renderer : Renderer;
  rs_world : World;
  rs_out : list (option string);
  rs_suspended : bool;
}.

(** How one turn of a reader's loop ends. *)
Inductive Step (S : Type) :=
| Continue (s : S)
| Break (s : S)
| Throw (e : Error) (s : S).
Arguments Continue {S} s.
Arguments Break {S} s.
Arguments Throw {S} e s.

(** How a run of a loop ends: it left the loop, it threw, or the fuel of the
    model ran out. *)
Inductive Run (S : Type) :=
| Finished (s : S)
| Crashed (e : Error) (s : S)
| OutOfFuel.
Arguments Finished {S} s.
Arguments Crashed {S} e s.
Arguments OutOfFuel {S}.

Definition frameDone (frame : Frame) : bool :=
  length (f_children frame) <=? childIndex frame.

Section Readers.
Context `{Encoder}.

(** One turn of the [while] loop of [read], after its test. *)
Definition readStep (st : ReadState) : Step ReadState :=
  let r := rs_renderer st in
  let w := rs_world st in
  let out := rs_out st in
  let suspended := rs_suspended st in
  match stack r with
  | [] =>
      Break (mkReadState (setExhausted r true) (freeThreadID (threadID r) w)
               out suspended)
  | frame :: rest =>
      if suspended || frameDone frame then
        let foot := footer frame in
        let r1 := if decide (foot = "") then r else setPreviousWasTextNode r false in
        let r2 := setStack r1 rest in
        let flush r3 w3 out3 :=
          Continue (mkReadState r3 w3 (outAdd out3 (suspenseDepth r3) foot) suspended) in
        match f_type frame with
        | TyTag tag =>
            if decide (tag = "select")
            then flush (setCurrentSelectValue r2 None) w out
            else flush r2 w out
        | TyProvider _ =>
            match popProvider r2 w with
            | Ok (r3, w3) => flush r3 w3 out
            | Fail e (r3, w3) => Throw e (mkReadState r3 w3 out suspended)
            end
        | TySuspense =>
            let r3 := setSuspenseDepth r2 (pred (suspenseDepth r2)) in
            let '(buffered, out1) := outPop out in
            if suspended then
              match fallbackFrame frame with
              | Some fallback =>
                  Continue (mkReadState (pushFrame r3 fallback) w
                              (outAdd out1 (suspenseDepth r3) suspenseFallback) false)
              | None => Throw NoFallbackFrame (mkReadState r3 w out1 false)
              end
            else flush r3 w (outAdd out1 (suspenseDepth r3) (jsString buffered))
        | TyNull | TyConsumer => flush r2 w out
        end
      else
        match f_children frame !! childIndex frame with
        | None => Throw TypeError st
        | Some child =>
            let r1 := setStack r (advance frame :: rest) in
            let finish r2 w2 outBuffer suspended2 :=
              let out1 :=
                if length out <=? suspenseDepth r2 then (out ++ [Some ""])%list else out in
              Continue (mkReadState r2 w2 (outAdd out1 (suspenseDepth r2) outBuffer)
                          suspended2) in
            match render child r1 w with
            | (Returned s, r2, w2) => finish r2 w2 s suspended
            | (ThrewThenable p, r2, w2) =>
                if enableSuspenseServerRenderer then
                  if 0 <? suspenseDepth r2 then finish r2 w2 "" true
                  else Throw NoFallbackUI (mkReadState r2 w2 out suspended)
                else Throw InvalidElementType (mkReadState r2 w2 out suspended)
            | (ThrewError e, r2, w2) => Throw e (mkReadState r2 w2 out suspended)
            end
        end
  end.

(** [out[0].length], which throws when [out[0]] is undefined. *)
Definition out0Length (out : list (option string)) : option nat :=
  String.length <$> mjoin (head out).

(** [while (out[0].length < bytes) { ... }]. *)
Fixpoint readLoop (fuel : nat) (bytes : Bytes) (st : ReadState) : Run ReadState :=
  match fuel with
  | O => OutOfFuel
  | S fuel' =>
      match out0Length (rs_out st) with
      | None => Crashed TypeError st
      | Some len =>
          if below len bytes then
            match readStep st with
            | Continue st' => readLoop fuel' bytes st'
            | Break st' => Finished st'
            | Throw e st' => Crashed e st'
            end
          else Finished st
      end
  end.

(** [read(bytes)]: the string returned ([None] is null), and the renderer and
    the world it leaves. *)
Definition read (fuel : nat) (bytes : Bytes) (r : Renderer) (w : World)
    : Run (option string * Renderer * World) :=
  if exhausted r then Finished (None, r, w)
  else
    match readLoop fuel bytes (mkReadState r w [Some ""] false) with
    | Finished st => Finished (mjoin (head (rs_out st)), rs_renderer st, rs_world st)
    | Crashed e st => Crashed e (None, rs_renderer st, rs_world st)
    | OutOfFuel => OutOfFuel
    end.

End Readers.

(** ** The asynchronous renderer *)

(** [getClonedRenderContext()]. *)
Definition getClonedRenderContext (r : Renderer) (w : World) : RenderContext :=
  let contextValues :=
    map (fun context =>
           match context with
           | Some c => readSlot c (threadID r) w
           | None => None
           end) (contextStack r) in
  mkRenderContext (threadID r) (currentSelectValue r) (previousWasTextNode r)
    (contextIndex r) (contextStack r) contextValues (contextValueStack r).

(** The loop of the constructor that writes the cloned context values back
    into the contexts, from index [i] on. *)
Fixpoint restoreContextValues (tid : nat) (cs : list (option nat))
    (values : list (option string)) (i : nat) (w : World) : World :=
  match cs with
  | [] => w
  | context :: cs' =>
      let w1 :=
        match context with
        | Some c => writeSlot c tid (mjoin (values !! i)) w
        | None => w
        end in
      restoreContextValues tid cs' values (S i) w1
  end.

(** [new ReactDOMServerRendererAsync(children, makeStaticMarkup,
    renderContext)]; [super] allocates a thread id in either case. *)
Definition newRendererAsync (children : Node) (makeStatic : bool)
    (renderContext : option RenderContext) (w : World) : Renderer * World :=
  let '(r, w1) := newRenderer children makeStatic w in
  let r1 := setOutQueue r [[Str ""]] in
  match renderContext with
  | None => (r1, w1)
  | Some rc =>
      let r2 :=
        mkRenderer (rc_threadID rc) (stack r1) (exhausted r1)
          (rc_currentSelectValue rc) (rc_previousWasTextNode rc)
          (makeStaticMarkup r1) (suspenseDepth r1) (rc_contextIndex rc)
          (rc_contextStack rc) (rc_contextValueStack rc) (outQueue r1) true in
      (r2, restoreContextValues (rc_threadID rc) (rc_contextStack rc)
             (rc_contextValues rc) 0 w1)
  end.

(** [destroy()] of [ReactDOMServerRendererAsync]. *)
Definition destroyAsync (r : Renderer) (w : World) : Result (Renderer * World) :=
  if exhausted r then Ok (r, w)
  else
    let r1 := setExhausted r true in
    match clearProviders r1 w with
    | Ok w1 =>
        if isChildRenderer r1 then Ok (r1, w1)
        else Ok (r1, freeThreadID (threadID r1) w1)
    | Fail e w1 => Fail e (r1, w1)
    end.

(** [stringOrPromise.then], truthy for a promise. *)
Definition isPromise (c : Chunk) : bool :=
  match c with
  | Str _ => false
  | _ => true
  end.

(** [pushToOutQueue(stringOrPromise)] on [outQueue] at depth [d]; [None] when
    a property of undefined is read. *)
Definition pushToOutQueue (x : Chunk) (d : nat) (q : list (list Chunk))
    : option (list (list Chunk)) :=
  match q !! d with
  | None => None
  | Some level =>
      match x with
      | Str s =>
          match last level with
          | None => None
          | Some (Str s0) =>
              Some (<[d := (removelast level ++ [Str (s0 +:+ s)])%list]> q)
          | Some _ => Some (<[d := (level ++ [x])%list]> q)
          end
      | _ => Some (<[d := (level ++ [x])%list]> q)
      end
  end.

Section AsyncReader.
Context `{Encoder}.

(** [renderEventually(child, frame, canSuspend)]: the string or the promise
    it returns, or what it throws. *)
Definition renderEventually (child : Node) (canSuspend : bool)
    (r : Renderer) (w : World) : Result Chunk * Renderer * World :=
  match render child r w with
  | (Returned s, r1, w1) => (Ok (Str s), r1, w1)
  | (ThrewThenable p, r1, w1) =>
      if canSuspend then
        (Ok (Resume p child (makeStaticMarkup r1) (getClonedRenderContext r1 w1)),
         r1, w1)
      else (Fail NoFallbackUI (Str ""), r1, w1)
  | (ThrewError e, r1, w1) => (Fail e (Str ""), r1, w1)
  end.

(** One turn of the [while] loop of [readAsync], after its test. *)
Definition readAsyncStep (r : Renderer) (w : World) : Step (Renderer * World) :=
  match stack r with
  | [] => Break (setExhausted r true, freeThreadID (threadID r) w)
  | frame :: rest =>
      if frameDone frame then
        let foot := footer frame in
        let r1 := if decide (foot = "") then r else setPreviousWasTextNode r false in
        let r2 := setStack r1 rest in
        let flush r3 w3 :=
          match pushToOutQueue (Str foot) (suspenseDepth r3) (outQueue r3) with
          | Some q => Continue (setOutQueue r3 q, w3)
          | None => Throw TypeError (r3, w3)
          end in
        match f_type frame with
        | TyTag tag =>
            if decide (tag = "select")
            then flush (setCurrentSelectValue r2 None) w
            else flush r2 w
        | TyProvider _ =>
            match popProvider r2 w with
            | Ok (r3, w3) => flush r3 w3
            | Fail e (r3, w3) => Throw e (r3, w3)
            end
        | TySuspense =>
            let r3 := setSuspenseDepth r2 (pred (suspenseDepth r2)) in
            match last (outQueue r3) with
            | None => Throw TypeError (r3, w)
            | Some suspenseResults =>
                let r4 := setOutQueue r3 (removelast (outQueue r3)) in
                let suspenseBoundaryPromise := Boundary suspenseResults foot in
                match pushToOutQueue suspenseBoundaryPromise (suspenseDepth r4)
                        (outQueue r4) with
                | Some q => Continue (setOutQueue r4 q, w)
                | None => Throw TypeError (r4, w)
                end
            end
        | TyNull | TyConsumer => flush r2 w
        end
      else
        match f_children frame !! childIndex frame with
        | None => Throw TypeError (r, w)
        | Some child =>
            let r1 := setStack r (advance frame :: rest) in
            let canSuspend := (0 <? suspenseDepth r1) || isChildRenderer r1 in
            match renderEventually child canSuspend r1 w with
            | (Ok renderResult, r2, w2) =>
                let r3 :=
                  if length (outQueue r2) <=? suspenseDepth r2
                  then setOutQueue r2 (outQueue r2 ++ [[Str ""]])%list
                  else r2 in
                match pushToOutQueue renderResult (suspenseDepth r3) (outQueue r3) with
                | Some q => Continue (setOutQueue r3 q, w2)
                | None => Throw TypeError (r3, w2)
                end
            | (Fail e _, r2, w2) => Throw e (r2, w2)
            end
        end
  end.

(** [this.outQueue[0][0].length < bytes]; [None] when a property of undefined
    is read.  The length of a promise is undefined and the test is false. *)
Definition queueBelow (q : list (list Chunk)) (bytes : Bytes) : option bool :=
  match q with
  | [] => None
  | [] :: _ => None
  | (Str s :: _) :: _ => Some (below (String.length s) bytes)
  | (_ :: _) :: _ => Some false
  end.

(** [while (!this.exhausted && this.outQueue[0][0].length < bytes) { ... }]. *)
Fixpoint readAsyncLoop (fuel : nat) (bytes : Bytes) (r : Renderer) (w : World)
    : Run (Renderer * World) :=
  match fuel with
  | O => OutOfFuel
  | S fuel' =>
      if exhausted r then Finished (r, w)
      else
        match queueBelow (outQueue r) bytes with
        | None => Crashed TypeError (r, w)
        | Some false => Finished (r, w)
        | Some true =>
            match readAsyncStep r w with
            | Continue (r', w') => readAsyncLoop fuel' bytes r' w'
            | Break s => Finished s
            | Throw e s => Crashed e s
            end
        end
  end.

(** *** Awaiting the queue

    A promise of the queue is awaited where the reader awaits it: the
    roll-up of a boundary awaits its parts in order, and a promise returned
    by [renderEventually] settles its thenable and runs the child renderer.
    [await] is the awaiting of one promise: the markup it resolves to ([None]
    is null) or its rejection. *)

Definition joinMarkup (values : list (option string)) (foot : string) : string :=
  foldr (fun v acc => default "" v +:+ acc) foot values.

(** [Promise.all(promises)]. *)
Fixpoint awaitAll (await : Chunk -> World -> Run (option string * World))
    (parts : list Chunk) (w : World) : Run (list (option string) * World) :=
  match parts with
  | [] => Finished ([], w)
  | c :: parts' =>
      match await c w with
      | Finished (v, w1) =>
          match awaitAll await parts' w1 with
          | Finished (vs, w2) => Finished (v :: vs, w2)
          | Crashed e s => Crashed e s
          | OutOfFuel => OutOfFuel
          end
      | Crashed e (_, w1) => Crashed e ([], w1)
      | OutOfFuel => OutOfFuel
      end
  end.

Definition isInfinity (bytes : Bytes) : bool :=
  match bytes with
  | Infinity => true
  | Finite _ => false
  end.

(** [flattenAndResolveQueue(queue, bytes, cb)] when [queue[0][0]] is the
    string [s0] and [rest] follows it in [queue[0]]: the string passed to
    [cb] and the new [queue[0]]. *)
Fixpoint flattenFrom (await : Chunk -> World -> Run (option string * World))
    (bytes : Bytes) (s0 : string) (rest : list Chunk) (w : World)
    : Run (string * list Chunk * World) :=
  match rest with
  | c :: rest' =>
      if below (String.length s0) bytes then
        match c with
        | Str s1 => flattenFrom await bytes (s0 +:+ s1) rest' w
        | _ =>
            if negb (isInfinity bytes) && (0 <? String.length s0)
            then Finished (s0, Str "" :: rest, w)
            else
              match await c w with
              | Finished (markup, w1) =>
                  flattenFrom await bytes (s0 +:+ default "null" markup) rest' w1
              | Crashed e (_, w1) => Crashed Unsettled ("", Str s0 :: rest, w1)
              | OutOfFuel => OutOfFuel
              end
        end
      else Finished (s0, Str "" :: rest, w)
  | [] =>
      if String.length s0 =? 0 then Finished ("", [Str s0], w)
      else Finished (s0, [Str ""], w)
  end.

Definition flattenAndResolveQueue (await : Chunk -> World -> Run (option string * World))
    (bytes : Bytes) (q : list (list Chunk)) (w : World)
    : Run (option string * list (list Chunk) * World) :=
  match q with
  | [] => Crashed TypeError (None, q, w)
  | [] :: _ => Crashed TypeError (None, q, w)
  | (Str s0 :: rest) :: levels =>
      match flattenFrom await bytes s0 rest w with
      | Finished (result, level, w1) => Finished (Some result, level :: levels, w1)
      | Crashed e (_, level, w1) => Crashed e (None, level :: levels, w1)
      | OutOfFuel => OutOfFuel
      end
  | (c :: rest) :: levels =>
      match await c w with
      | Finished (result, w1) => Finished (result, (Str "" :: rest) :: levels, w1)
      | Crashed e (_, w1) => Crashed e (None, (Str "" :: rest) :: levels, w1)
      | OutOfFuel => OutOfFuel
      end
  end.

(** [this.exhausted && this.outQueue[0].length === 1 &&
    this.outQueue[0][0].length === 0]. *)
Definition drained (r : Renderer) : option bool :=
  if exhausted r then
    match outQueue r with
    | [] => None
    | [Str s] :: _ => Some (String.length s =? 0)
    | _ :: _ => Some false
    end
  else Some false.

(** [readAsync(bytes)], given how a promise of the queue is awaited. *)
Definition readAsyncWith (await : Chunk -> World -> Run (option string * World))
    (fuel : nat) (bytes : Bytes) (r : Renderer) (w : World)
    : Run (option string * Renderer * World) :=
  match drained r with
  | None => Crashed TypeError (None, r, w)
  | Some true => Finished (None, r, w)
  | Some false =>
      match readAsyncLoop fuel bytes r w with
      | Finished (r1, w1) =>
          match flattenAndResolveQueue await bytes (outQueue r1) w1 with
          | Finished (result, q, w2) => Finished (result, setOutQueue r1 q, w2)
          | Crashed e (_, q, w2) => Crashed e (None, setOutQueue r1 q, w2)
          | OutOfFuel => OutOfFuel
          end
      | Crashed e (r1, w1) => Crashed e (None, r1, w1)
      | OutOfFuel => OutOfFuel
      end
  end.

Definition settle (p : nat) (w : World) : World :=
  mkWorld (slots w) (live w) (released w) (p :: settled w).

(** The value of a promise of the queue under one schedule: no thenable
    resolves before the loop of the parent has ended, and each promise
    settles when it is awaited, in the order of the queue.  The promise that
    [renderEventually] returned for a suspended child then settles its
    thenable and runs the child renderer to its end.  What does not depend
    on the schedule is stated of [awaitWith], where the promise of a
    suspended child settles to anything at all. *)
Fixpoint awaitChunk (fuel : nat) (c : Chunk) (w : World) : Run (option string * World) :=
  match fuel with
  | O => OutOfFuel
  | S fuel' =>
      match c with
      | Str s => Finished (Some s, w)
      | Boundary parts foot =>
          match awaitAll (awaitChunk fuel') parts w with
          | Finished (values, w1) => Finished (Some (joinMarkup values foot), w1)
          | Crashed e (_, w1) => Crashed e (None, w1)
          | OutOfFuel => OutOfFuel
          end
      | Resume p child static rc =>
          let '(renderer, w1) := newRendererAsync child static (Some rc) (settle p w) in
          match readAsyncWith (awaitChunk fuel') fuel' Infinity renderer w1 with
          | Finished (markup, renderer1, w2) =>
              match destroyAsync renderer1 w2 with
              | Ok (_, w3) => Finished (markup, w3)
              | Fail e (_, w3) => Crashed e (None, w3)
              end
          | Crashed e (_, renderer1, w2) =>
              match destroyAsync renderer1 w2 with
              | Ok (_, w3) => Crashed e (None, w3)
              | Fail e' (_, w3) => Crashed e' (None, w3)
              end
          | OutOfFuel => OutOfFuel
          end
      end
  end.

(** [readAsync(bytes)]. *)
Definition readAsync (fuel : nat) (bytes : Bytes) (r : Renderer) (w : World)
    : Run (option string * Renderer * World) :=
  readAsyncWith (awaitChunk fuel) fuel bytes r w.

End AsyncReader.

(** ** Reading a renderer to the end *)

Section Drivers.
Context `{Encoder}.

(** The strings of the calls [read(bytes)] up to the first null, joined. *)
Fixpoint readAll (fuel : nat) (bytes : Bytes) (r : Renderer) (w : World)
    : Run (string * Renderer * World) :=
  match fuel with
  | O => OutOfFuel
  | S fuel' =>
      match read fuel' bytes r w with
      | Finished (None, r1, w1) => Finished ("", r1, w1)
      | Finished (Some s, r1, w1) =>
          match readAll fuel' bytes r1 w1 with
          | Finished (rest, r2, w2) => Finished (s +:+ rest, r2, w2)
          | Crashed e s' => Crashed e s'
          | OutOfFuel => OutOfFuel
          end
      | Crashed e (_, r1, w1) => Crashed e ("", r1, w1)
      | OutOfFuel => OutOfFuel
      end
  end.

(** The strings of the calls [readAsync(bytes)] up to the first null,
    joined. *)
Fixpoint readAllAsync (fuel : nat) (bytes : Bytes) (r : Renderer) (w : World)
    : Run (string * Renderer * World) :=
  match fuel with
  | O => OutOfFuel
  | S fuel' =>
      match readAsync fuel' bytes r w with
      | Finished (None, r1, w1) => Finished ("", r1, w1)
      | Finished (Some s, r1, w1) =>
          match readAllAsync fuel' bytes r1 w1 with
          | Finished (rest, r2, w2) => Finished (s +:+ rest, r2, w2)
          | Crashed e s' => Crashed e s'
          | OutOfFuel => OutOfFuel
          end
      | Crashed e (_, r1, w1) => Crashed e ("", r1, w1)
      | OutOfFuel => OutOfFuel
      end
  end.

End Drivers.

(** ** A concrete encoder and concrete trees *)

Module Demo.

#[export] Instance encoder : Encoder :=
  {| escapeTextForBrowser := fun s => s; createMarkupForRoot := "data-reactroot" |}.

Definition emptyWorld : World := mkWorld ∅ [] [] [].

Definition element (tag : string) : HostElement :=
  mkHost tag tag true None true (fun _ => "") false None.

End Demo.

(** ** Notions used by the statements *)

(** The number of times [id] was given back with [freeThreadID]. *)
Definition releases (id : nat) (w : World) : nat :=
  length (filter (fun n => n = id) (released w)).

(** What a reader produced in the end: the joined strings or the error
    thrown; [None] when the fuel of the model ran out. *)
Definition outcome (x : Run (string * Renderer * World)) : option (string + Error) :=
  match x with
  | Finished (s, _, _) => Some (inl s)
  | Crashed e _ => Some (inr e)
  | OutOfFuel => None
  end.

Section Notions.
Context `{Encoder}.

(** The resolution of [child] reports pending: rendering it throws the
    thenable [p]. *)
Definition pendingOn (child : Node) (w : World) (p : nat) : Prop :=
  forall r, render child r w = (ThrewThenable p, r, w).

End Notions.

(** ** Concrete sessions *)

Module Examples.
Import Demo.

(** A synchronous session whose only child is pending, at the start of
    [read]. *)
Definition pendingChild : Node := Suspending 1 (Text "late").

Definition pendingRoot : ReadState :=
  mkReadState (fst (newRenderer pendingChild false emptyWorld))
    (snd (newRenderer pendingChild false emptyWorld)) [Some ""] false.

(** The same, one boundary down. *)
Definition pendingInside : ReadState :=
  mkReadState
    (setSuspenseDepth (fst (newRenderer pendingChild false emptyWorld)) 1)
    (snd (newRenderer pendingChild false emptyWorld)) [Some ""; Some suspenseOpen] false.

(** An asynchronous top-level session whose only child is pending. *)
Definition pendingRootAsync : Renderer * World :=
  newRendererAsync pendingChild false None emptyWorld.

(** The same session with one boundary open. *)
Definition pendingInsideAsync : Renderer :=
  setOutQueue (setSuspenseDepth (fst pendingRootAsync) 1) [[Str ""]; [Str suspenseOpen]].

(** Two text nodes next to each other, with static markup. *)
Definition twoTexts : Node := Fragment [Text "a"; Text "b"].

(** A renderer that has just written a text node. *)
Definition afterText : Renderer :=
  setPreviousWasTextNode (fst (newRenderer twoTexts false emptyWorld)) true.

(** The render context a parent with thread id 0 and no open provider
    clones, and the child renderer that resumes a subtree from it while the
    parent holds its id. *)
Definition parentContext : RenderContext :=
  mkRenderContext 0 None false (-1)%Z [] [] [].

Definition parentAlive : World := mkWorld ∅ [0] [] [].

Definition resumedChild : Renderer * World :=
  newRendererAsync (Text "late") false (Some parentContext) parentAlive.

(** A boundary whose second child is pending, between two text nodes. *)
Definition boundaryWithPending : Node :=
  Fragment [Text "a";
            Suspense (Some [Text "fb"]) [Text "p"; pendingChild; Text "q"];
            Text "c"].

(** A boundary around a provider whose only child is pending and reads the
    context once it is resumed. *)
Definition readsContext : Node := Consumer 1 (fun v => [Text v]).

Definition providerWithPending : Node :=
  Suspense (Some [Text "fb"]) [Provider 1 "v" [Suspending 1 readsContext]].

(** A world where the slot of context 1 for thread 0 holds its default
    value. *)
Definition defaultWorld : World := mkWorld {[ (1, 0) := "d" ]} [] [] [].

(** The render context cloned when that child suspended under the provider,
    and the child renderer that resumes it once the thenable has settled: by
    then the parent has left the provider, restored the slot and released its
    id. *)
Definition snapshot : RenderContext :=
  mkRenderContext 0 None false 0 [Some 1] [Some "v"] [Some "d"].

Definition resumedWorld : World := mkWorld {[ (1, 0) := "d" ]} [] [0] [1].

Definition resumedConsumer : Renderer * World :=
  newRendererAsync (Suspending 1 readsContext) false (Some snapshot) resumedWorld.

(** The session of [twoTexts] without static markup, at the start of [read]
    and after the turn that renders the first text. *)
Definition twoTextsStart : ReadState :=
  mkReadState (fst (newRenderer twoTexts false emptyWorld))
    (snd (newRenderer twoTexts false emptyWorld)) [Some ""] false.

Definition twoTextsNext : ReadState :=
  match readStep twoTextsStart with
  | Continue st => st
  | _ => twoTextsStart
  end.

(** A text before a boundary that starts with a text. *)
Definition textThenBoundary : Node :=
  Fragment [Text "a"; Suspense (Some [Text "fb"]) [Text "p"]].

(** An element around a boundary whose first child is pending and is
    followed by a text. *)
Definition pendingThenText : Node :=
  Host (element "div") [Suspense (Some [Text "fb"]) [pendingChild; Text "q"]].

(** A tree with a boundary and an element and no pending node. *)
Definition settledTree : Node :=
  Fragment [Text "a";
            Suspense (Some [Text "fb"]) [Host (element "div") [Text "p"; Text "q"]];
            Text "c"].

End Examples.

(** ** The provider entries of a session *)

(** The contexts of the provider frames of a stack, top first. *)
Fixpoint providersOf (s : list Frame) : list nat :=
  match s with
  | [] => []
  | frame :: s' =>
      match f_type frame with
      | TyProvider c => c :: providersOf s'
      | _ => providersOf s'
      end
  end.

(** The frames a boundary holds in reserve are the ones [render] builds:
    plain frames with no fallback of their own. *)
Definition plainFallback (frame : Frame) : Prop :=
  match fallbackFrame frame with
  | Some fb => f_type fb = TyNull /\ fallbackFrame fb = None
  | None => True
  end.

(** Every provider frame on the stack has its entry on the provider stacks,
    in the same order, and nothing else is open: entry [i] holds the context
    of the [i]-th provider frame from the bottom, and [contextIndex] is the
    index of the last one. *)
Definition scopeMatches (r : Renderer) : Prop :=
  contextIndex r = (Z.of_nat (length (providersOf (stack r))) - 1)%Z
  /\ (forall i c, reverse (providersOf (stack r)) !! i = Some c ->
                  arrayGet (contextStack r) (Z.of_nat i) = Some c)
  /\ Forall plainFallback (stack r).

(** [clearProviders] would put the slots back to [saved]. *)
Definition restoresTo (saved : gmap (nat * nat) string) (r : Renderer) (w : World) : Prop :=
  exists w', clearProviders r w = Ok w' /\ slots w' = saved.

Section Lifetime.
Context `{Encoder}.

(** The states a synchronous session goes through, each with the errors
    that the calls before it have thrown, the last one first: calls of
    [read] that return, calls of [read] that throw, calls of [destroy] that
    return and calls of [destroy] that throw. *)
Inductive lifetime (r0 : Renderer) (w0 : World)
    : list Error -> Renderer -> World -> Prop :=
| life_start : lifetime r0 w0 [] r0 w0
| life_read errors r w fuel bytes out r' w' :
    lifetime r0 w0 errors r w ->
    read fuel bytes r w = Finished (out, r', w') ->
    lifetime r0 w0 errors r' w'
| life_read_throws errors r w fuel bytes e out r' w' :
    lifetime r0 w0 errors r w ->
    read fuel bytes r w = Crashed e (out, r', w') ->
    lifetime r0 w0 (e :: errors) r' w'
| life_destroy errors r w r' w' :
    lifetime r0 w0 errors r w ->
    destroy r w = Ok (r', w') ->
    lifetime r0 w0 errors r' w'
| life_destroy_throws errors r w e r' w' :
    lifetime r0 w0 errors r w ->
    destroy r w = Fail e (r', w') ->
    lifetime r0 w0 (e :: errors) r' w'.

End Lifetime.

(** What holds of a session with thread id [tid] between two turns of its
    reader, when the slots were [saved] before it started. *)
Definition scopeInv (saved : gmap (nat * nat) string) (tid : nat)
    (r : Renderer) (w : World) : Prop :=
  threadID r = tid /\ scopeMatches r /\ restoresTo saved r w.

(** What holds of a session over its lifetime, when [base] counts the
    releases of its id before it started. *)
Definition sessionInv (saved : gmap (nat * nat) string) (tid base : nat)
    (r : Renderer) (w : World) : Prop :=
  threadID r = tid
  /\ releases tid w = base + (if exhausted r then 1 else 0)
  /\ (if exhausted r then slots w = saved else scopeMatches r /\ restoresTo saved r w).

Module ScopeExample.
Import Demo.

(** A provider of context 1 around two text nodes, in a world where the slot
    of context 1 for thread 0 holds its default. *)
Definition tree : Node := Provider 1 "v" [Text "x"; Text "y"].

Definition before : World := mkWorld {[ (1, 0) := "d" ]} [] [] [].

Definition start : Renderer * World := newRenderer tree false before.

(** The session after one call [read(1)]: the provider is open. *)
Definition middle : Renderer * World :=
  match read 3 (Finite 1) (fst start) (snd start) with
  | Finished (_, r, w) => (r, w)
  | _ => start
  end.

(** A provider of context 2 under the provider of context 1, in the same
    world: the slot of context 2 has not been initialised for thread 0. *)
Definition nested : Node := Provider 1 "v" [Text "x"; Provider 2 "u" [Text "y"]].

Definition nestedStart : Renderer * World := newRenderer nested false before.

(** The session after the call [read(Infinity)] that throws the protocol
    error. *)
Definition rejected : Renderer * World :=
  match read 6 Infinity (fst nestedStart) (snd nestedStart) with
  | Crashed _ (_, r, w) => (r, w)
  | _ => nestedStart
  end.

(** The session after the call of [destroy] that follows. *)
Definition afterDestroy : Renderer * World :=
  match destroy (fst rejected) (snd rejected) with
  | Ok s => s
  | Fail _ s => s
  end.

End ScopeExample.

(** ** Turns of the synchronous reader *)

Section Turns.
Context `{Encoder}.

(** [n] turns of the loop of [read], whatever the number of bytes asked. *)
Fixpoint readSteps (n : nat) (st : ReadState) : Step ReadState :=
  match n with
  | O => Continue st
  | S n' =>
      match readStep st with
      | Continue st' => readSteps n' st'
      | other => other
      end
  end.

End Turns.

(** ** The value of a queue *)

(** The string a promise of the queue resolves to, given the markup
    [resumed] that each child renderer ends up with. *)
Fixpoint chunkValue (resumed : nat -> Node -> bool -> RenderContext -> string)
    (c : Chunk) : string :=
  match c with
  | Str s => s
  | Boundary parts foot =>
      foldr (fun part acc => chunkValue resumed part +:+ acc) foot parts
  | Resume p child static rc => resumed p child static rc
  end.

Definition levelValue (resumed : nat -> Node -> bool -> RenderContext -> string)
    (level : list Chunk) : string :=
  foldr (fun part acc => chunkValue resumed part +:+ acc) "" level.

(** The levels of the queue from the outermost to the innermost, joined:
    what the queue holds of the final output. *)
Definition queueValue (resumed : nat -> Node -> bool -> RenderContext -> string)
    (q : list (list Chunk)) : string :=
  foldr (fun level acc => levelValue resumed level +:+ acc) "" q.

(** The world and the renderer a call leaves, and the value it returns. *)
Definition worldOf {A} (x : Run (A * Renderer * World)) : option World :=
  match x with
  | Finished (_, _, w) => Some w
  | Crashed _ (_, _, w) => Some w
  | OutOfFuel => None
  end.

Definition rendererOf {A} (x : Run (A * Renderer * World)) : option Renderer :=
  match x with
  | Finished (_, r, _) => Some r
  | Crashed _ (_, r, _) => Some r
  | OutOfFuel => None
  end.

Definition returned {A} (x : Run (A * Renderer * World)) : option A :=
  match x with
  | Finished (a, _, _) => Some a
  | _ => None
  end.

(** The world after the [destroy] that follows a call of [readAsync] that
    returned, as in the promise that resumes a child. *)
Definition thenDestroyed (x : Run (option string * Renderer * World)) : option World :=
  match x with
  | Finished (_, r, w) =>
      match destroyAsync r w with
      | Ok (_, w') => Some w'
      | Fail _ (_, w') => Some w'
      end
  | _ => None
  end.

Module FallbackExample.
Import Demo.

(** A boundary around an element whose second child is pending. *)
Definition tree : Node :=
  Fragment [Text "a";
            Suspense (Some [Text "fb"])
              [Host (element "div") [Text "p"; Examples.pendingChild; Text "q"]];
            Text "c"].

(** The session at the start of [read], and after the five turns that take
    it to the pending child: the text "a", the boundary, the element, the
    text "p" and the pending child have been rendered. *)
Definition start : ReadState :=
  mkReadState (fst (newRenderer tree false emptyWorld))
    (snd (newRenderer tree false emptyWorld)) [Some ""] false.

Definition suspendedState : ReadState :=
  match readSteps 5 start with
  | Continue st => st
  | _ => start
  end.

(** Its stack: the frame of the element, the frame of the boundary, the top
    frame. *)
Definition inner : list Frame := take 1 (stack (rs_renderer suspendedState)).
Definition boundary : Frame :=
  default (plainFrame []) (stack (rs_renderer suspendedState) !! 1).
Definition rest : list Frame := drop 2 (stack (rs_renderer suspendedState)).
Definition fallback : Frame := default (plainFrame []) (fallbackFrame boundary).

End FallbackExample.

(** ** Trees with no pending node *)

(** No node of the tree reports pending when the thenables of [done] have
    settled: every component that suspends, and every lazy component, waits
    for a thenable of [done]. *)
Inductive noPending (done : list nat) : Node -> Prop :=
| np_text text : noPending done (Text text)
| np_empty : noPending done Empty
| np_fragment children :
    Forall (noPending done) children -> noPending done (Fragment children)
| np_host h children :
    Forall (noPending done) children -> noPending done (Host h children)
| np_suspense fallback children :
    Forall (noPending done) (default [] fallback) ->
    Forall (noPending done) children ->
    noPending done (Suspense fallback children)
| np_provider context value children :
    Forall (noPending done) children ->
    noPending done (Provider context value children)
| np_consumer context children :
    (forall v, Forall (noPending done) (children v)) ->
    noPending done (Consumer context children)
| np_lazy p body :
    p ∈ done -> noPending done body -> noPending done (Lazy p body)
| np_composite body : noPending done body -> noPending done (Composite body)
| np_suspending p body :
    p ∈ done -> noPending done body -> noPending done (Suspending p body)
| np_failing e : noPending done (Failing e).

(** ** What the two readers share in one turn *)

(** The part of a turn of either loop that does not touch the output: the
    stack is found empty, a frame ends, a boundary frame ends, the next child
    is rendered, or the turn throws before any output. *)
Inductive Turn :=
| TurnBreak (r : Renderer) (w : World)
| TurnFooter (r : Renderer) (w : World) (foot : string)
| TurnBoundary (r : Renderer) (w : World) (foot : string) (fallback : option Frame)
| TurnRender (c : Completion) (r : Renderer) (w : World)
| TurnThrow (e : Error) (r : Renderer) (w : World).

Section Turn.
Context `{Encoder}.

Definition turn (suspended : bool) (r : Renderer) (w : World) : Turn :=
  match stack r with
  | [] => TurnBreak (setExhausted r true) (freeThreadID (threadID r) w)
  | frame :: rest =>
      if suspended || frameDone frame then
        let foot := footer frame in
        let r1 := if decide (foot = "") then r else setPreviousWasTextNode r false in
        let r2 := setStack r1 rest in
        match f_type frame with
        | TyTag tag =>
            if decide (tag = "select")
            then TurnFooter (setCurrentSelectValue r2 None) w foot
            else TurnFooter r2 w foot
        | TyProvider _ =>
            match popProvider r2 w with
            | Ok (r3, w3) => TurnFooter r3 w3 foot
            | Fail e (r3, w3) => TurnThrow e r3 w3
            end
        | TySuspense =>
            TurnBoundary (setSuspenseDepth r2 (pred (suspenseDepth r2))) w foot
              (fallbackFrame frame)
        | TyNull | TyConsumer => TurnFooter r2 w foot
        end
      else
        match f_children frame !! childIndex frame with
        | None => TurnThrow TypeError r w
        | Some child =>
            match render child (setStack r (advance frame :: rest)) w with
            | (c, r2, w2) => TurnRender c r2 w2
            end
        end
  end.

(** [n] turns of the loop of [readAsync], whatever the number of bytes
    asked. *)
Fixpoint readAsyncSteps (n : nat) (r : Renderer) (w : World) : Step (Renderer * World) :=
  match n with
  | O => Continue (r, w)
  | S n' =>
      match readAsyncStep r w with
      | Continue (r', w') => readAsyncSteps n' r' w'
      | other => other
      end
  end.

End Turn.

(** The first string of [out] with [pre] in front. *)
Definition addPrefix (pre : string) (st : ReadState) : ReadState :=
  mkReadState (rs_renderer st) (rs_world st)
    (match rs_out st with
     | Some s :: out => Some (pre +:+ s) :: out
     | out => out
     end)
    (rs_suspended st).

(** A promise of the queue that no child renderer stands behind, and how
    deep the boundaries are nested in it. *)
Fixpoint pureChunk (c : Chunk) : Prop :=
  match c with
  | Str _ => True
  | Boundary parts _ => foldr (fun part acc => pureChunk part /\ acc) True parts
  | Resume _ _ _ _ => False
  end.

Fixpoint chunkDepth (c : Chunk) : nat :=
  match c with
  | Str _ => 0
  | Boundary parts _ => S (foldr (fun part acc => Nat.max (chunkDepth part) acc) 0 parts)
  | Resume _ _ _ _ => 0
  end.

(** The value of a promise with no child renderer behind it. *)
Definition pureValue : Chunk -> string := chunkValue (fun _ _ _ _ => "").
Definition pureLevel : list Chunk -> string := levelValue (fun _ _ _ _ => "").

(** [turn] on a renderer whose queue is [q]. *)
Definition turnWithQueue (q : list (list Chunk)) (t : Turn) : Turn :=
  match t with
  | TurnBreak r w => TurnBreak (setOutQueue r q) w
  | TurnFooter r w foot => TurnFooter (setOutQueue r q) w foot
  | TurnBoundary r w foot fallback => TurnBoundary (setOutQueue r q) w foot fallback
  | TurnRender c r w => TurnRender c (setOutQueue r q) w
  | TurnThrow e r w => TurnThrow e (setOutQueue r q) w
  end.

(** Every child still to render, in every frame of the stack, has no pending
    node. *)
Definition noPendingStack (done : list nat) (s : list Frame) : Prop :=
  Forall (fun frame => Forall (noPending done) (f_children frame)) s.

(** The number of boundary frames of a stack. *)
Fixpoint boundariesOf (s : list Frame) : nat :=
  match s with
  | [] => 0
  | frame :: s' =>
      match f_type frame with
      | TySuspense => S (boundariesOf s')
      | _ => boundariesOf s'
      end
  end.

(** What holds of [read] between two turns on a tree with no pending node:
    nothing has suspended, the suspense depth counts the boundary frames, and
    [out] holds one string for each depth up to the current one. *)
Definition runInv (done : list nat) (st : ReadState) : Prop :=
  rs_suspended st = false
  /\ noPendingStack done (stack (rs_renderer st))
  /\ settled (rs_world st) = done
  /\ suspenseDepth (rs_renderer st) = boundariesOf (stack (rs_renderer st))
  /\ exists strs, rs_out st = Some <$> strs
                  /\ length strs = S (suspenseDepth (rs_renderer st)).

(** The first string of a list with [pre] in front. *)
Definition prefixFirst (pre : string) (strs : list string) : list string :=
  match strs with
  | s :: strs' => (pre +:+ s) :: strs'
  | [] => []
  end.

Section Chunks.
Context `{Encoder}.

(** What [readAll] makes of the loop of its first [read]. *)
Definition finishRead (x : Run ReadState) (fuel : nat) (bytes : Bytes)
    : Run (string * Renderer * World) :=
  match x with
  | Finished st =>
      match mjoin (head (rs_out st)) with
      | None => Finished ("", rs_renderer st, rs_world st)
      | Some s =>
          match readAll fuel bytes (rs_renderer st) (rs_world st) with
          | Finished (rest, r2, w2) => Finished (s +:+ rest, r2, w2)
          | Crashed e s' => Crashed e s'
          | OutOfFuel => OutOfFuel
          end
      end
  | Crashed e st => Crashed e ("", rs_renderer st, rs_world st)
  | OutOfFuel => OutOfFuel
  end.

End Chunks.

(** ** Runs that end *)

Definition mapStep {A B} (f : A -> B) (x : Step A) : Step B :=
  match x with
  | Continue s => Continue (f s)
  | Break s => Break (f s)
  | Throw e s => Throw e (f s)
  end.

(** The string [read] returns from the state [st]. *)
Definition finalString (st : ReadState) : string :=
  default "" (mjoin (head (rs_out st))).

(** Every list of children that a frame can hold when [child] is rendered
    satisfies [P]. *)
Fixpoint kidsAll (P : list Node -> Prop) (child : Node) : Prop :=
  match child with
  | Text _ => P [child]
  | Empty => True
  | Fragment children => P children
  | Host _ children => P children /\ P []
  | Suspense _ children => P children
  | Provider _ _ children => P children
  | Consumer _ children => forall v, P (children v)
  | Lazy _ body => P [body]
  | Composite body => kidsAll P body
  | Suspending _ body => kidsAll P body
  | Failing _ => True
  end.

Section Halting.
Context `{Encoder}.

(** The run of [read] from [st] comes back to the stack [s0], or throws. *)
Definition unwinds (st : ReadState) (s0 : list Frame) : Prop :=
  exists n,
    (exists e stE, readSteps n st = Throw e stE)
    \/ (exists st', readSteps n st = Continue st' /\ stack (rs_renderer st') = s0).

(** Once [child] is rendered, the run comes back to the stack it was
    rendered on, or throws. *)
Definition rendersThrough (done : list nat) (child : Node) : Prop :=
  forall r w s r' w' st',
    render child r w = (Returned s, r', w') ->
    rs_renderer st' = r' -> rs_world st' = w' -> runInv done st' ->
    unwinds st' (stack r).

(** The run of [read] from [st] ends: the stack is found empty or a turn
    throws. *)
Definition halts (st : ReadState) : Prop :=
  exists n,
    match readSteps n st with
    | Continue _ => False
    | _ => True
    end.

End Halting.

(** While a boundary is open, the loop of [read(bytes)] goes on: the first
    string of [out] is shorter than [bytes]. *)
Definition headBelow (bytes : Bytes) (st : ReadState) : Prop :=
  0 < suspenseDepth (rs_renderer st) ->
  exists s, mjoin (head (rs_out st)) = Some s /\ below (String.length s) bytes = true.

(** ** The queue of the asynchronous reader on a tree with no pending node *)

(** A level of the queue starts with a string and holds only strings and
    roll-ups of boundaries, nested at most [D] deep. *)
Definition pureLevelOk (D : nat) (level : list Chunk) : Prop :=
  (exists s0 rest, level = Str s0 :: rest)
  /\ Forall (fun c => pureChunk c /\ chunkDepth c <= D) level.

Definition pureQueue (D : nat) (q : list (list Chunk)) : Prop :=
  Forall (pureLevelOk D) q.

(** The queue [q] holds, level by level, what [out] holds in the state [st]
    of [read], but for [pre] that was returned already. *)
Definition asyncRel (D : nat) (pre : string) (q : list (list Chunk))
    (st : ReadState) : Prop :=
  rs_out st = Some <$> prefixFirst pre (pureLevel <$> q) /\ pureQueue D q.

Section AsyncChunks.
Context `{Encoder}.

(** What [readAllAsync] makes of the loop of its first [readAsync]. *)
Definition finishAsync (x : Run (Renderer * World)) (fuel : nat) (bytes : Bytes)
    : Run (string * Renderer * World) :=
  match x with
  | Finished (r1, w1) =>
      match flattenAndResolveQueue (awaitChunk fuel) bytes (outQueue r1) w1 with
      | Finished (None, q, w2) => Finished ("", setOutQueue r1 q, w2)
      | Finished (Some s, q, w2) =>
          match readAllAsync fuel bytes (setOutQueue r1 q) w2 with
          | Finished (rest, r2, w3) => Finished (s +:+ rest, r2, w3)
          | Crashed e s' => Crashed e s'
          | OutOfFuel => OutOfFuel
          end
      | Crashed e (_, q, w2) => Crashed e ("", setOutQueue r1 q, w2)
      | OutOfFuel => OutOfFuel
      end
  | Crashed e (r1, w1) => Crashed e ("", r1, w1)
  | OutOfFuel => OutOfFuel
  end.

End AsyncChunks.

(** ** The turns that set and clear the previous-was-text flag *)

(** The child that the next turn of a session renders, when it renders one:
    the stack is not empty, no child has suspended and the top frame has a
    child left. *)
Definition nextChild (suspended : bool) (r : Renderer) : option Node :=
  match stack r with
  | [] => None
  | frame :: _ =>
      if suspended || frameDone frame then None
      else f_children frame !! childIndex frame
  end.

(** The frame that the next turn ends, when it ends one. *)
Definition endingFrame (suspended : bool) (r : Renderer) : option Frame :=
  match stack r with
  | [] => None
  | frame :: _ => if suspended || frameDone frame then Some frame else None
  end.

(** The next turn renders the non-empty text leaf [text]. *)
Definition textTurn (suspended : bool) (r : Renderer) (text : string) : Prop :=
  nextChild suspended r = Some (Text text) /\ text <> "".

(** The next turn writes the open tag of a host element, or ends a frame
    whose footer is not empty: a closing tag or the closing marker of a
    boundary. *)
Definition clearingTurn (suspended : bool) (r : Renderer) (w : World) : Prop :=
  (exists frame, endingFrame suspended r = Some frame /\ footer frame <> "")
  \/ (exists child h children,
        nextChild suspended r = Some child
        /\ resolve child w = ResolvedTo (Host h children)).

(** The two fields after one turn of either reader, where [r'] is the
    renderer that the turn leaves. *)
Definition flagStep (suspended : bool) (r : Renderer) (w : World) (r' : Renderer) : Prop :=
  makeStaticMarkup r' = makeStaticMarkup r
  /\ previousWasTextNode r'
     = match endingFrame suspended r, nextChild suspended r with
       | Some frame, _ =>
           if decide (footer frame = "") then previousWasTextNode r else false
       | None, Some (Text text) =>
           if decide (text = "") then previousWasTextNode r
           else if makeStaticMarkup r then previousWasTextNode r else true
       | None, Some child =>
           match resolve child w with
           | ResolvedTo (Host _ _) => false
           | _ => previousWasTextNode r
           end
       | None, None => previousWasTextNode r
       end.

(** ** The order of the asynchronous output *)

(** A promise of the queue, whenever the thenables of the suspended children
    resolve.  [resume] is what the promise that [renderEventually] returned
    for a suspended child, [err.then(() => ...)], settles to, given all that
    happened before: it stands for the schedule and for the run of the child
    renderer.  The roll-up of a boundary is
    [resolvePromisesWithFooter(promises, footer).then(join)], as in
    [awaitChunk]. *)
Fixpoint awaitWith
    (resume : nat -> Node -> bool -> RenderContext -> World
              -> Run (option string * World))
    (c : Chunk) (w : World) {struct c} : Run (option string * World) :=
  match c with
  | Str s => Finished (Some s, w)
  | Boundary parts foot =>
      match awaitAll (awaitWith resume) parts w with
      | Finished (values, w1) => Finished (Some (joinMarkup values foot), w1)
      | Crashed e (_, w1) => Crashed e (None, w1)
      | OutOfFuel => OutOfFuel
      end
  | Resume p child static rc => resume p child static rc w
  end.

(** The words of the specification for the promise of a boundary: every
    buffered fragment is awaited, and the values are joined in the order of
    insertion with the closing marker last.  [leaf] is what the promise of a
    suspended child resolves to. *)
Inductive joinsInOrder
    (leaf : nat -> Node -> bool -> RenderContext -> option string -> Prop)
    : Chunk -> option string -> Prop :=
| joins_string s : joinsInOrder leaf (Str s) (Some s)
| joins_boundary parts foot values :
    Forall2 (joinsInOrder leaf) parts values ->
    joinsInOrder leaf (Boundary parts foot)
      (Some (String.concat "" (default "" <$> values) +:+ foot))
| joins_resumed p child static rc v :
    leaf p child static rc v ->
    joinsInOrder leaf (Resume p child static rc) v.

(** What holds of an asynchronous renderer between two turns of
    [readAsync]: the suspense depth counts the boundary frames, the queue
    has one buffer for each depth up to the current one, and every buffer
    starts with a string. *)
Definition queueInv (r : Renderer) : Prop :=
  exhausted r = false
  /\ suspenseDepth r = boundariesOf (stack r)
  /\ Forall plainFallback (stack r)
  /\ length (outQueue r) = S (suspenseDepth r)
  /\ Forall (fun level => exists s rest, level = Str s :: rest) (outQueue r).

Section Order.
Context `{Encoder}.

(** What the next turn of the loop of [readAsync] pushes to the queue: the
    footer of the frame that ends, or what [renderEventually] returned for
    the next child. *)
Definition turnChunk (r : Renderer) (w : World) : option Chunk :=
  match stack r with
  | [] => None
  | frame :: rest =>
      if frameDone frame then Some (Str (footer frame))
      else
        match f_children frame !! childIndex frame with
        | None => None
        | Some child =>
            let r1 := setStack r (advance frame :: rest) in
            let canSuspend := (0 <? suspenseDepth r1) || isChildRenderer r1 in
            match renderEventually child canSuspend r1 w with
            | (Ok renderResult, _, _) => Some renderResult
            | (Fail _ _, _, _) => None
            end
        end
  end.

(** What [n] turns push, in the order of the turns. *)
Fixpoint turnChunks (n : nat) (r : Renderer) (w : World) : list Chunk :=
  match n with
  | O => []
  | S n' =>
      match turnChunk r w, readAsyncStep r w with
      | Some x, Continue (r', w') => x :: turnChunks n' r' w'
      | _, _ => []
      end
  end.

End Order.

Module OrderExample.
Import Demo.

(** The asynchronous session of [Examples.boundaryWithPending], at its start
    and when the stack is found empty. *)
Definition start : Renderer * World :=
  newRendererAsync Examples.boundaryWithPending false None emptyWorld.

Definition finish : Renderer * World :=
  match readAsyncSteps 9 (fst start) (snd start) with
  | Break x => x
  | _ => start
  end.

(** Every suspended child ends up with the markup "late". *)
Definition late (p : nat) (child : Node) (static : bool) (rc : RenderContext) : string :=
  "late".

Definition resumeLate (p : nat) (child : Node) (static : bool) (rc : RenderContext)
    (w : World) : Run (option string * World) :=
  Finished (Some "late", w).

End OrderExample.

(** * Further definitions *)

From Stdlib Require Import Ascii.

(** ** The renderer between two calls of [read] *)

(** No Suspense boundary is open: the suspense depth is 0 and no boundary
    frame is on the stack (and the frames held in reserve are plain, as
    [render] builds them). *)
Definition atRest (r : Renderer) : Prop :=
  suspenseDepth r = 0
  /\ boundariesOf (stack r) = 0
  /\ Forall plainFallback (stack r).

(** What holds between two turns of the loop of [read]: the suspense depth
    counts the boundary frames, [out] holds one string for each depth up to
    the current one, and the suspended flag is only set under a boundary. *)
Definition betweenTurns (st : ReadState) : Prop :=
  suspenseDepth (rs_renderer st) = boundariesOf (stack (rs_renderer st))
  /\ Forall plainFallback (stack (rs_renderer st))
  /\ (exists strs, rs_out st = Some <$> strs
                   /\ length strs = S (suspenseDepth (rs_renderer st)))
  /\ (rs_suspended st = true -> 0 < suspenseDepth (rs_renderer st)).

Module MoreExamples.
Import Demo.

(** The first call [read(1)] on two text nodes. *)
Definition firstChunk : option string * Renderer * World :=
  match read 3 (Finite 1)
          (fst (newRenderer Examples.twoTexts false emptyWorld))
          (snd (newRenderer Examples.twoTexts false emptyWorld)) with
  | Finished x => x
  | _ => (None, fst (newRenderer Examples.twoTexts false emptyWorld), emptyWorld)
  end.

(** The first call [read(2)] on a tree whose boundary falls back. *)
Definition firstFallbackChunk : option string * Renderer * World :=
  match read 12 (Finite 2)
          (fst (newRenderer Examples.boundaryWithPending false emptyWorld))
          (snd (newRenderer Examples.boundaryWithPending false emptyWorld)) with
  | Finished x => x
  | _ => (None, fst (newRenderer Examples.boundaryWithPending false emptyWorld),
          emptyWorld)
  end.

(** A consumer before, inside and after a provider of its context, the
    provider inside an element; and, before the last consumer, a boundary
    around a provider that holds a text and a pending component. *)
Definition contextTree : Node :=
  Fragment [Consumer 1 (fun v => [Text v]);
            Host (element "div")
              [Provider 1 "v" [Consumer 1 (fun v => [Text v]); Text "w"]];
            Suspense (Some [Text "fb"])
              [Provider 1 "x" [Text "p"; Examples.pendingChild]];
            Consumer 1 (fun v => [Text v])].

End MoreExamples.

(** ** Tags that are safe to write *)

Definition isAsciiLetter (c : ascii) : bool :=
  let n := nat_of_ascii c in
  ((65 <=? n) && (n <=? 90)) || ((97 <=? n) && (n <=? 122)).

Definition isAsciiDigit (c : ascii) : bool :=
  let n := nat_of_ascii c in (48 <=? n) && (n <=? 57).

(** The class [[a-zA-Z:_\.\-\d]] of [VALID_TAG_REGEX]. *)
Definition isTagChar (c : ascii) : bool :=
  isAsciiLetter c || isAsciiDigit c
  || bool_decide (c ∈ [":"; "_"; "."; "-"]%char).

(** [VALID_TAG_REGEX.test(tag)], for [/^[a-zA-Z][a-zA-Z:_\.\-\d]*$/]. *)
Definition validTagRegex (tag : string) : bool :=
  match tag with
  | EmptyString => false
  | String c rest => isAsciiLetter c && forallb isTagChar (list_ascii_of_string rest)
  end.

(** [validateDangerousTag(tag)], on [validatedTagCache], an object used as a
    set of tags.  Its method [hasOwnProperty] is looked up on the object
    itself: once the key "hasOwnProperty" is set (to [true]) the call is a
    type error. *)
Definition validateDangerousTag (tag : string) (validatedTagCache : gset string)
    : Result (gset string) :=
  if decide ("hasOwnProperty" ∈ validatedTagCache) then Fail TypeError validatedTagCache
  else if decide (tag ∈ validatedTagCache) then Ok validatedTagCache
  else if validTagRegex tag then Ok ({[tag]} ∪ validatedTagCache)
  else Fail InvalidTag validatedTagCache.

(** The characters that end a tag name, or start an attribute, in markup:
    space, tab, line feed, carriage return, and / > < = ' and the double
    quote. *)
Definition tagBreakers : list ascii :=
  [" "; "009"; "010"; "013"; "/"; ">"; "<"; "="; "'"; "034"]%char.

(** What holds of the cache of validated tags. *)
Definition tagCacheOk (cache : gset string) : Prop :=
  ("hasOwnProperty" ∉ cache) /\ forall tag, tag ∈ cache -> validTagRegex tag = true.

(** ** Style attributes *)

Section Styles.
(** Imported by the renderer: [hyphenateStyleName(name)] and
    [dangerousStyleValue(name, value, isCustomProperty)], and the values a
    style can have. *)
Variable StyleValue : Type.
Variable hyphenateStyleName : string -> string.
Variable dangerousStyleValue : string -> StyleValue -> bool -> string.

(** [processStyleName(styleName)], on [styleNameCache], an object used as a
    map from style names to hyphenated names.  As for the cache of tags, the
    key "hasOwnProperty" hides the method; an assignment to the key
    "__proto__" of a string does nothing. *)
Definition processStyleName (styleName : string) (styleNameCache : gmap string string)
    : Result (string * gmap string string) :=
  if decide ("hasOwnProperty" ∈ dom styleNameCache)
  then Fail TypeError ("", styleNameCache)
  else
    match styleNameCache !! styleName with
    | Some result => Ok (result, styleNameCache)
    | None =>
        let result := hyphenateStyleName styleName in
        Ok (result,
            if decide (styleName = "__proto__") then styleNameCache
            else <[styleName := result]> styleNameCache)
    end.

(** [styleName.indexOf('--') === 0]. *)
Definition isCustomProperty (styleName : string) : bool := String.prefix "--" styleName.

(** The loop of [createMarkupForStyles] over the own properties of [styles],
    in the order of [for ... in]; a value that is null or undefined is
    [None]. *)
Fixpoint serializeStyles (styles : list (string * option StyleValue))
    (serialized delimiter : string) (cache : gmap string string)
    : Result (string * gmap string string) :=
  match styles with
  | [] => Ok (serialized, cache)
  | (styleName, styleValue) :: styles' =>
      match styleValue with
      | None => serializeStyles styles' serialized delimiter cache
      | Some v =>
          let custom := isCustomProperty styleName in
          match (if custom then Ok (styleName, cache)
                 else processStyleName styleName cache) with
          | Ok (name, cache1) =>
              let serialized1 := serialized +:+ ((delimiter +:+ name) +:+ ":") in
              serializeStyles styles'
                (serialized1 +:+ dangerousStyleValue styleName v custom) ";" cache1
          | Fail e (_, cache1) => Fail e (serialized, cache1)
          end
      end
  end.

(** [createMarkupForStyles(styles)]; [styles.hasOwnProperty] is looked up on
    [styles] itself, where a style named "hasOwnProperty" hides the
    method. *)
Definition createMarkupForStyles (styles : list (string * option StyleValue))
    (cache : gmap string string) : Result (option string * gmap string string) :=
  if bool_decide ("hasOwnProperty" ∈ styles.*1) then Fail TypeError (None, cache)
  else
    match serializeStyles styles "" "" cache with
    | Ok (serialized, cache1) =>
        Ok (if decide (serialized = "") then None else Some serialized, cache1)
    | Fail e (_, cache1) => Fail e (None, cache1)
    end.

(** What holds of the cache of style names. *)
Definition styleCacheOk (cache : gmap string string) : Prop :=
  ("hasOwnProperty" ∉ dom cache)
  /\ forall name result, cache !! name = Some result -> result = hyphenateStyleName name.

(** One declaration of the attribute. *)
Definition styleDeclaration (style : string * option StyleValue) : option string :=
  match style with
  | (styleName, Some v) =>
      let custom := isCustomProperty styleName in
      Some (((if custom then styleName else hyphenateStyleName styleName) +:+ ":")
            +:+ dangerousStyleValue styleName v custom)
  | (_, None) => None
  end.

End Styles.

(** The declarations written one after the other as the loop of
    [createMarkupForStyles] writes them: [delimiter] before the first, a
    semicolon before each later one. *)
Fixpoint joinFrom (delimiter : string) (declarations : list string) : string :=
  match declarations with
  | [] => ""
  | d :: ds => (delimiter +:+ d) +:+ joinFrom ";" ds
  end.

(** ** The update queue of a mounting component

    [processChild] gives every class instance an updater of its own: the
    closures [enqueueSetState], [enqueueReplaceState] and
    [enqueueForceUpdate] over the variables [queue] and [replace].  After
    componentWillMount the queue is folded into [inst.state] with
    [Object.assign].  Objects are shared and [Object.assign] writes into its
    first argument, so the objects live in a heap and a state is an address
    of it. *)
Module UpdateQueue.

(** The own enumerable properties of an object, the ones [Object.assign]
    reads and writes. *)
Abbreviation Obj V := (gmap string V).

(** An object of the heap.  A function has [call]: what it returns, called
    as [partial.call(inst, nextState, element.props, publicContext)], for
    the own properties of [nextState] ([None] for null and undefined); the
    instance, the props and the context are the same at every call of one
    mount.  The result is the own properties of the object returned, [None]
    for null and undefined: the loop only tests it against null and passes
    it to [Object.assign] as a source. *)
Record Cell (V : Type) := mkCell {
  props : Obj V;
  call : option (option (Obj V) -> option (Obj V));
}.
Arguments mkCell {V} props call.
Arguments props {V} c.
Arguments call {V} c.

Abbreviation Heap V := (gmap nat (Cell V)).

Section Objects.
Context {V : Type}.
Implicit Types (h : Heap V) (target : Obj V).

(** A state or a partial state: undefined, null, or the object (a function
    too) at an address of the heap. *)
Inductive StateValue :=
| Undefined
| Null
| Ref (a : nat).

(** The own properties [Object.assign] reads off a source; a source that is
    null or undefined is skipped. *)
Definition ownProperties h (v : StateValue) : option (Obj V) :=
  match v with
  | Ref a => props <$> h !! a
  | Undefined | Null => None
  end.

(** [Object.assign(target, source)] on the properties of [target]: every
    own property of the source is written with [target[key] = value].  On an
    object that has no own property __proto__ that key reaches the setter of
    Object.prototype and makes no own property. *)
Definition assign target (source : option (Obj V)) : Obj V :=
  match source with
  | None => target
  | Some s =>
      if decide ("__proto__" ∈ dom target) then s ∪ target
      else delete "__proto__" s ∪ target
  end.

(** [typeof partial === 'function' ? partial.call(inst, nextState,
    element.props, publicContext) : partial], as the source [Object.assign]
    is given; [None] when it is null or undefined. *)
Definition partialStateOf h (partial nextState : StateValue) : option (Obj V) :=
  match partial with
  | Ref a =>
      match h !! a with
      | Some c =>
          match call c with
          | Some f => f (ownProperties h nextState)
          | None => Some (props c)
          end
      | None => None
      end
  | Undefined | Null => None
  end.

(** The variables [queue] and [replace] the closures of one updater share. *)
Record Updater := mkUpdater {
  queue : option (list StateValue);   (* None: null *)
  replace : bool;
}.

(** [let queue = []; let replace = false;] *)
Definition newUpdater : Updater := mkUpdater (Some []) false.

(** [enqueueForceUpdate(publicInstance)]: a warning at most. *)
Definition enqueueForceUpdate (u : Updater) : Updater := u.

(** [enqueueReplaceState(publicInstance, completeState)]. *)
Definition enqueueReplaceState (completeState : StateValue) (u : Updater) : Updater :=
  mkUpdater (Some [completeState]) true.

(** [enqueueSetState(publicInstance, currentPartialState)]. *)
Definition enqueueSetState (currentPartialState : StateValue) (u : Updater) : Updater :=
  match queue u with
  | None => u                          (* warnNoop; return null *)
  | Some q => mkUpdater (Some (q ++ [currentPartialState])) (replace u)
  end.

(** The loop over [oldQueue], from index [i] on: [partials] is what is left
    of the queue. *)
Fixpoint applyPartials (partials : list StateValue) (nextState : StateValue)
    (dontMutate : bool) h : Result (StateValue * Heap V) :=
  match partials with
  | [] => Ok (nextState, h)
  | partial :: rest =>
      match partialStateOf h partial nextState with
      | None => applyPartials rest nextState dontMutate h
      | Some partialState =>
          if dontMutate then
            (* nextState = Object.assign({}, nextState, partialState) *)
            let a := fresh (dom h) in
            let o := assign (assign ∅ (ownProperties h nextState)) (Some partialState) in
            applyPartials rest (Ref a) false (<[a := mkCell o None]> h)
          else
            (* Object.assign(nextState, partialState) *)
            match nextState with
            | Ref a =>
                applyPartials rest nextState false
                  (alter (fun c => mkCell (assign (props c) (Some partialState)) (call c))
                     a h)
            | Undefined | Null => Fail TypeError (nextState, h)
            end
      end
  end.

(** The block [if (queue.length) { ... } else { queue = null; }] that
    follows componentWillMount, on [inst.state]: the updater, the state of
    the instance and the heap it leaves. *)
Definition processQueue (u : Updater) (state : StateValue) h
    : Result (Updater * StateValue * Heap V) :=
  match queue u with
  | None => Fail TypeError (u, state, h)      (* queue.length of null *)
  | Some [] => Ok (mkUpdater None (replace u), state, h)
  | Some ((first :: rest) as oldQueue) =>
      let oldReplace := replace u in
      let u' := mkUpdater None false in
      if oldReplace && bool_decide (length oldQueue = 1) then Ok (u', first, h)
      else
        let nextState := if oldReplace then first else state in
        match applyPartials (if oldReplace then rest else oldQueue) nextState true h with
        | Ok (nextState', h') => Ok (u', nextState', h')
        | Fail e (_, h') => Fail e (u', state, h')
        end
  end.

(** What a lifecycle method does with the updater. *)
Inductive Call :=
| SetState (partialState : StateValue)
| ReplaceState (completeState : StateValue)
| ForceUpdate.

Definition perform (u : Updater) (c : Call) : Updater :=
  match c with
  | SetState partialState => enqueueSetState partialState u
  | ReplaceState completeState => enqueueReplaceState completeState u
  | ForceUpdate => enqueueForceUpdate u
  end.

(** componentWillMount making [calls], one after the other, and the block
    that follows it. *)
Definition mount (calls : list Call) (state : StateValue) h
    : Result (Updater * StateValue * Heap V) :=
  processQueue (foldl perform newUpdater calls) state h.

(** *** What the calls amount to *)

Definition isReplace (c : Call) : bool :=
  match c with
  | ReplaceState _ => true
  | SetState _ | ForceUpdate => false
  end.

(** The state the partial states are merged into: the argument of the last
    replaceState, [state] when there is none. *)
Fixpoint baseState (calls : list Call) (state : StateValue) : StateValue :=
  match calls with
  | [] => state
  | ReplaceState completeState :: calls' => baseState calls' completeState
  | _ :: calls' => baseState calls' state
  end.

(** The arguments of the calls of setState that no replaceState follows. *)
Fixpoint partialsSince (calls : list Call) : list StateValue :=
  match calls with
  | [] => []
  | SetState partialState :: calls' =>
      if existsb isReplace calls' then partialsSince calls'
      else partialState :: partialsSince calls'
  | _ :: calls' => partialsSince calls'
  end.

(** One partial state merged into a copy of the properties [acc]. *)
Definition merge h (acc : option (Obj V)) (partial : StateValue) : option (Obj V) :=
  let source :=
    match partial with
    | Ref a =>
        match h !! a with
        | Some (mkCell _ (Some f)) => f acc
        | Some (mkCell ps None) => Some ps
        | None => None
        end
    | Undefined | Null => None
    end in
  match source with
  | None => acc
  | Some partialState => Some (assign (assign ∅ acc) (Some partialState))
  end.

(** A value that is an object is an object of the heap. *)
Definition allocated h (v : StateValue) : Prop :=
  match v with
  | Ref a => a ∈ dom h
  | Undefined | Null => True
  end.

End Objects.

End UpdateQueue.

(** ** The markup of a tree

    What the synchronous renderer writes for a tree, by recursion on the
    tree.  The renderer walks the tree with a stack of frames and carries two
    fields from one child to the next, [previousWasTextNode] and
    [currentSelectValue]; below they are [prev] and [sel], passed from child
    to child in the order of the document.  The children of a provider are
    written in the world in which the slot of the context holds the value of
    the provider; a consumer is written for the value its slot holds.  When
    a component waits for a thenable that has not settled, nothing its
    boundary has written so far is kept: the nearest Suspense element with a
    fallback around it is written as the marker of a suspended boundary and
    its fallback.  [root] tells whether the child is one of the top frame.
    A component that throws, a host element that [renderDOM] rejects and a
    context whose slot [validateContextBounds] rejects end the walk with
    the error. *)

(** What a subtree comes to: its markup and the two fields after it; or a
    pending component with no boundary around it in the subtree, and
    [currentSelectValue] once the frames of the subtree are gone; or the
    error that is thrown. *)
Inductive Written :=
| Wrote (s : string) (prev : bool) (sel : option string)
| Pending (sel : option string)
| Threw (e : Error).

Section Markup.
Context `{Encoder}.
Variable static : bool.      (* makeStaticMarkup *)
Variable tid : nat.          (* the thread id of the renderer *)

Fixpoint markupOf (root : bool) (child : Node) (w : World)
    (prev : bool) (sel : option string) {struct child} : Written :=
  let kids :=
    fix kids (cs : list Node) (w : World) (prev : bool) (sel : option string)
        {struct cs} : Written :=
      match cs with
      | [] => Wrote "" prev sel
      | c :: cs' =>
          match markupOf false c w prev sel with
          | Wrote s1 prev1 sel1 =>
              match kids cs' w prev1 sel1 with
              | Wrote s2 prev2 sel2 => Wrote (s1 +:+ s2) prev2 sel2
              | other => other
              end
          | other => other
          end
      end in
  match child with
  | Text text =>
      if decide (text = "") then Wrote "" prev sel
      else if static then Wrote (escapeTextForBrowser text) prev sel
      else if prev then Wrote (textSeparator +:+ escapeTextForBrowser text) true sel
      else Wrote (escapeTextForBrowser text) true sel
  | Empty => Wrote "" prev sel
  | Fragment children => kids children w prev sel
  | Host h children =>
      if negb (h_validTag h) then Threw InvalidTag
      else if negb (h_validProps h) then Threw InvalidProps
      else
        let sel1 := if decide (h_tag h = "select") then h_selectValue h else sel in
        let open := createOpenTagMarkup h sel1 static root in
        let inner :=
          match h_innerMarkup h with
          | Some innerMarkup => Wrote innerMarkup false sel1
          | None => kids children w false sel1
          end in
        match inner with
        | Wrote s prev1 sel2 =>
            let sel3 := if decide (h_tag h = "select") then None else sel2 in
            if h_omittedClose h then Wrote ((open +:+ "/>") +:+ s) prev1 sel3
            else Wrote (((open +:+ ">") +:+ s) +:+ ("</" +:+ h_type h +:+ ">")) false sel3
        | Pending sel2 => Pending (if decide (h_tag h = "select") then None else sel2)
        | Threw e => Threw e
        end
  | Suspense None children => kids children w prev sel
  | Suspense (Some fallback) children =>
      match kids children w prev sel with
      | Wrote s _ sel1 => Wrote ((suspenseOpen +:+ s) +:+ suspenseClose) false sel1
      | Pending sel1 =>
          match kids fallback w false sel1 with
          | Wrote s _ sel2 =>
              Wrote ((suspenseFallback +:+ s) +:+ suspenseClose) false sel2
          | other => other
          end
      | Threw e => Threw e
      end
  | Provider context value children =>
      if validateContextBounds context tid w
      then kids children (writeSlot context tid (Some value) w) prev sel
      else Threw ProtocolError
  | Consumer context children =>
      if validateContextBounds context tid w then
        match readSlot context tid w with
        | Some nextValue => kids (children nextValue) w prev sel
        | None => Threw ProtocolError
        end
      else Threw ProtocolError
  | Lazy p body => if isSettled p w then markupOf false body w prev sel else Pending sel
  | Composite body => markupOf root body w prev sel
  | Suspending p body =>
      if isSettled p w then markupOf root body w prev sel else Pending sel
  | Failing e => Threw (Thrown e)
  end.

(** The markup of the children of a frame, one after the other. *)
Fixpoint markupList (root : bool) (cs : list Node) (w : World)
    (prev : bool) (sel : option string) : Written :=
  match cs with
  | [] => Wrote "" prev sel
  | c :: cs' =>
      match markupOf root c w prev sel with
      | Wrote s1 prev1 sel1 =>
          match markupList root cs' w prev1 sel1 with
          | Wrote s2 prev2 sel2 => Wrote (s1 +:+ s2) prev2 sel2
          | other => other
          end
      | other => other
      end
  end.

(** The markup of the tree a renderer is made for, or the error [read]
    throws; a component that is pending with no boundary around it has no
    fallback to show. *)
Definition markup (children : Node) (w : World) : string + Error :=
  match markupList true (flattenTopLevelChildren children) w false None with
  | Wrote s _ _ => inl s
  | Pending _ => inr NoFallbackUI
  | Threw e => inr e
  end.

End Markup.

(** The renderer [r] with another stack, other values of
    [previousWasTextNode] and [currentSelectValue], and other arrays for the
    provider stacks. *)
Definition moved (r : Renderer) (s : list Frame) (prev : bool) (sel : option string)
    (cst : list (option nat)) (cvs : list (option string)) : Renderer :=
  mkRenderer (threadID r) s (exhausted r) sel prev (makeStaticMarkup r)
    (suspenseDepth r) (contextIndex r) cst cvs (outQueue r) (isChildRenderer r).

(** Two arrays hold the same elements up to the index [i]. *)
Definition agree {A} (i : Z) (a b : list (option A)) : Prop :=
  forall j, (j <= i)%Z -> arrayGet a j = arrayGet b j.

(** [isRootElement], as [renderDOM] computes it. *)
Definition rootOf (r : Renderer) : bool :=
  bool_decide (length (stack r) = 1) && negb (isChildRenderer r).

(** A frame with every child rendered. *)
Definition finished (frame : Frame) : Frame :=
  mkFrame (f_type frame) (f_children frame) (length (f_children frame))
    (fallbackFrame frame) (footer frame).

(** A frame at another child. *)
Definition atChild (frame : Frame) (i : nat) : Frame :=
  mkFrame (f_type frame) (f_children frame) i (fallbackFrame frame) (footer frame).

Section Writes.
Context `{Encoder}.
Variable static : bool.
Variable tid : nat.

(** The reader between two turns, while no child has suspended: [out] holds
    the strings [strs], one for each depth up to the current one. *)
Definition writing (st : ReadState) (strs : list string) : Prop :=
  rs_suspended st = false
  /\ threadID (rs_renderer st) = tid
  /\ makeStaticMarkup (rs_renderer st) = static
  /\ (-1 <= contextIndex (rs_renderer st))%Z
  /\ rs_out st = Some <$> strs
  /\ length strs = S (suspenseDepth (rs_renderer st)).

(** Some turns after [st] the stack is [s], the two fields are [prev] and
    [sel], [out] holds [strs], and nothing else has changed: the world is
    the same and so are the open entries of the provider stacks. *)
Definition reaches (st : ReadState) (s : list Frame) (prev : bool)
    (sel : option string) (strs : list string) : Prop :=
  exists n cst cvs,
    readSteps n st
    = Continue (mkReadState (moved (rs_renderer st) s prev sel cst cvs)
                  (rs_world st) (Some <$> strs) false)
    /\ agree (contextIndex (rs_renderer st)) (contextStack (rs_renderer st)) cst
    /\ agree (contextIndex (rs_renderer st)) (contextValueStack (rs_renderer st)) cvs.

(** Some turns after [st] a child has suspended and the stack is down to
    [s]: [currentSelectValue] is [sel], the strings of [out] below the
    current depth are [outer], and the world and the open entries of the
    provider stacks are the same. *)
Definition suspendsTo (st : ReadState) (s : list Frame) (sel : option string)
    (outer : list string) : Prop :=
  exists n prev dropped cst cvs,
    readSteps n st
    = Continue (mkReadState (moved (rs_renderer st) s prev sel cst cvs)
                  (rs_world st) (Some <$> outer ++ [dropped]) true)
    /\ agree (contextIndex (rs_renderer st)) (contextStack (rs_renderer st)) cst
    /\ agree (contextIndex (rs_renderer st)) (contextValueStack (rs_renderer st)) cvs.

(** Some turns after [st] a turn throws [e]. *)
Definition throwsWith (st : ReadState) (e : Error) : Prop :=
  exists n stE, readSteps n st = Throw e stE.

(** What the run of [read] does from [st] for a result of the recursion:
    it writes the markup and comes to the stack [s]; or a component has
    suspended and the stack is down to [s'], under an open boundary, and
    with no boundary open the turn that renders the component throws; or a
    turn throws the error. *)
Definition carriesOut (st : ReadState) (strs : list string) (result : Written)
    (s : list Frame) (s' : list Frame -> Prop) : Prop :=
  match result with
  | Wrote markup prev' sel' =>
      reaches st s prev' sel'
        (alter (fun y => y +:+ markup) (suspenseDepth (rs_renderer st)) strs)
  | Pending sel' =>
      (0 < suspenseDepth (rs_renderer st) ->
       exists s1, s' s1
                  /\ suspendsTo st s1 sel' (take (suspenseDepth (rs_renderer st)) strs))
      /\ (suspenseDepth (rs_renderer st) = 0 -> throwsWith st NoFallbackUI)
  | Threw e => throwsWith st e
  end.

(** The run of [read] does with [child] what its markup says: from a state
    whose top frame has [child] next, some turns later the frame has moved on
    by one child, and either the markup of [child] has been added to the
    string of the current depth, or a component of [child] has suspended;
    or a turn has thrown. *)
Definition writesMarkup (child : Node) : Prop :=
  forall st frame rest strs,
    writing st strs ->
    stack (rs_renderer st) = frame :: rest ->
    f_children frame !! childIndex frame = Some child ->
    carriesOut st strs
      (markupOf static tid (rootOf (rs_renderer st)) child (rs_world st)
         (previousWasTextNode (rs_renderer st)) (currentSelectValue (rs_renderer st)))
      (advance frame :: rest) (fun s1 => s1 = advance frame :: rest).

(** The same for the children a frame has left. *)
Definition frameWritesMarkup (cs : list Node) : Prop :=
  forall k st frame rest strs,
    writing st strs ->
    stack (rs_renderer st) = frame :: rest ->
    f_children frame = cs ->
    childIndex frame + k = length cs ->
    carriesOut st strs
      (markupList static tid (rootOf (rs_renderer st)) (drop (childIndex frame) cs)
         (rs_world st)
         (previousWasTextNode (rs_renderer st)) (currentSelectValue (rs_renderer st)))
      (finished frame :: rest) (fun s1 => exists i, s1 = atChild frame i :: rest).

End Writes.

Section Unwinding.
Variable tid : nat.

(** The reader between two turns once a child has suspended: the strings of
    [out] below the current depth are [outer], and the string of the
    current depth, [dropped], will not be kept. *)
Definition unwinding (st : ReadState) (outer : list string) (dropped : string) : Prop :=
  rs_suspended st = true
  /\ threadID (rs_renderer st) = tid
  /\ (-1 <= contextIndex (rs_renderer st))%Z
  /\ rs_out st = Some <$> outer ++ [dropped]
  /\ length outer = suspenseDepth (rs_renderer st).

End Unwinding.

(** Every list of children that a frame can hold when [child] is rendered,
    the fallback of a boundary too, satisfies [P]. *)
Fixpoint framesAll (P : list Node -> Prop) (child : Node) : Prop :=
  match child with
  | Text _ => P [child]
  | Empty => True
  | Fragment children => P children
  | Host _ children => P children /\ P []
  | Suspense fallback children => P children /\ P (default [] fallback)
  | Provider _ _ children => P children
  | Consumer _ children => forall v, P (children v)
  | Lazy _ body => P [body]
  | Composite body => framesAll P body
  | Suspending _ body => framesAll P body
  | Failing _ => True
  end.

(** * Properties *)

(** ** Strings *)

Lemma string_app_assoc (a b c : string) : (a +:+ b) +:+ c = a +:+ (b +:+ c).
Proof.
  induction a as [|x a IH]; [reflexivity|].
  change (String x ((a +:+ b) +:+ c) = String x (a +:+ (b +:+ c))).
  by rewrite IH.
Qed.

Lemma string_app_empty_r (a : string) : a +:+ "" = a.
Proof.
  induction a as [|x a IH]; [reflexivity|].
  change (String x (a +:+ "") = String x a). by rewrite IH.
Qed.

Lemma string_app_empty_l (a : string) : "" +:+ a = a.
Proof. reflexivity. Qed.

Lemma string_length_app (a b : string) :
  String.length (a +:+ b) = String.length a + String.length b.
Proof.
  induction a as [|x a IH]; [reflexivity|].
  change (S (String.length (a +:+ b)) = S (String.length a) + String.length b).
  by rewrite IH.
Qed.

(** ** What [render] leaves untouched *)

Section RenderFacts.
Context `{Encoder}.

(** A call of [render] that throws a thenable has changed nothing. *)
Lemma render_thenable child r w p r' w' :
  render child r w = (ThrewThenable p, r', w') -> r' = r /\ w' = w.
Proof.
  unfold render, renderDOM. intros Hr.
  destruct child; simpl in Hr;
    repeat (match type of Hr with
            | context [match ?x with _ => _ end] => destruct x eqn:?
            | context [if ?x then _ else _] => destruct x eqn:?
            end; simpl in Hr; try discriminate);
    inversion Hr; subst; auto.
Qed.

End RenderFacts.

(** ** A Suspense element without a fallback *)

Section Pending.
Context `{Encoder}.

Lemma pendingOn_suspending p body w :
  isSettled p w = false -> pendingOn (Suspending p body) w p.
Proof. intros Hp r. unfold render. simpl. by rewrite Hp. Qed.

Lemma pendingOn_lazy p body w :
  isSettled p w = false -> pendingOn (Lazy p body) w p.
Proof. intros Hp r. unfold render. simpl. by rewrite Hp. Qed.

(** The turn of [read] that renders a pending child outside every
    boundary. *)
Lemma readStep_pending_top st frame rest child p :
  stack (rs_renderer st) = frame :: rest ->
  rs_suspended st = false ->
  frameDone frame = false ->
  f_children frame !! childIndex frame = Some child ->
  pendingOn child (rs_world st) p ->
  suspenseDepth (rs_renderer st) = 0 ->
  readStep st
  = Throw NoFallbackUI
      (mkReadState (setStack (rs_renderer st) (advance frame :: rest))
         (rs_world st) (rs_out st) false).
Proof.
  intros Hs Hsus Hd Hc Hp H0. unfold readStep. rewrite Hs, Hsus, Hd, Hc. simpl.
  rewrite Hp. simpl. by rewrite H0.
Qed.

(** Unfolding one turn of the loop of [read]. *)
Lemma readLoop_continue fuel bytes st st' len :
  out0Length (rs_out st) = Some len -> below len bytes = true ->
  readStep st = Continue st' ->
  readLoop (S fuel) bytes st = readLoop fuel bytes st'.
Proof. intros H1 H2 H3. simpl. by rewrite H1, H2, H3. Qed.

Lemma readLoop_break fuel bytes st st' len :
  out0Length (rs_out st) = Some len -> below len bytes = true ->
  readStep st = Break st' ->
  readLoop (S fuel) bytes st = Finished st'.
Proof. intros H1 H2 H3. simpl. by rewrite H1, H2, H3. Qed.

Lemma readLoop_throw fuel bytes st st' len e :
  out0Length (rs_out st) = Some len -> below len bytes = true ->
  readStep st = Throw e st' ->
  readLoop (S fuel) bytes st = Crashed e st'.
Proof. intros H1 H2 H3. simpl. by rewrite H1, H2, H3. Qed.

Lemma readLoop_full fuel bytes st len :
  out0Length (rs_out st) = Some len -> below len bytes = false ->
  readLoop (S fuel) bytes st = Finished st.
Proof. intros H1 H2. simpl. by rewrite H1, H2. Qed.

(** C10. A Suspense element whose fallback prop is undefined is rendered as
    a fragment: a plain frame (type null, no fallback frame, empty footer) is
    pushed, the suspense depth is not incremented and no opening marker is
    written.  A pending child right under it is therefore not caught by it:
    in a synchronous session with no boundary above, [read] throws the
    no-fallback error. *)
Theorem suspense_without_fallback_is_a_fragment
    (children : list Node) (r : Renderer) (w : World) :
  render (Suspense None children) r w
    = (Returned "", pushFrame r (plainFrame children), w)
  /\ render (Suspense None children) r w = render (Fragment children) r w
  /\ suspenseDepth (pushFrame r (plainFrame children)) = suspenseDepth r
  /\ f_type (plainFrame children) = TyNull
  /\ fallbackFrame (plainFrame children) = None
  /\ footer (plainFrame children) = ""
  /\ (forall child rest p static w0 fuel bytes,
        children = child :: rest ->
        pendingOn child (snd (newRenderer (Suspense None children) static w0)) p ->
        below 0 bytes = true ->
        exists r' w',
          read (S (S fuel)) bytes
            (fst (newRenderer (Suspense None children) static w0))
            (snd (newRenderer (Suspense None children) static w0))
          = Crashed NoFallbackUI (None, r', w')).
Proof.
  repeat split.
  intros child rest p static w0 fuel bytes -> Hp Hb.
  unfold newRenderer in *. simpl in *.
  destruct (allocThreadID w0) as [id w1] eqn:Ha. simpl in *.
  unfold read. cbn [exhausted].
  erewrite readLoop_continue; [| reflexivity | exact Hb | reflexivity].
  match goal with
  | |- context [readLoop (S fuel) bytes ?st] =>
      rewrite (readLoop_throw fuel bytes st _ 0 NoFallbackUI eq_refl Hb
                 (readStep_pending_top st (plainFrame (child :: rest)) _ child p
                    eq_refl eq_refl eq_refl eq_refl Hp eq_refl))
  end.
  eauto.
Qed.

(** The turn of [read] that renders a pending child inside a boundary. *)
Lemma readStep_pending_inside st frame rest child p :
  stack (rs_renderer st) = frame :: rest ->
  rs_suspended st = false ->
  frameDone frame = false ->
  f_children frame !! childIndex frame = Some child ->
  pendingOn child (rs_world st) p ->
  0 < suspenseDepth (rs_renderer st) ->
  readStep st
  = Continue
      (mkReadState (setStack (rs_renderer st) (advance frame :: rest)) (rs_world st)
         (outAdd
            (if length (rs_out st) <=? suspenseDepth (rs_renderer st)
             then (rs_out st ++ [Some ""])%list else rs_out st)
            (suspenseDepth (rs_renderer st)) "")
         true).
Proof.
  intros Hs Hsus Hd Hc Hp H0. unfold readStep. rewrite Hs, Hsus, Hd, Hc. simpl.
  rewrite Hp. simpl.
  destruct (suspenseDepth (rs_renderer st)) eqn:Hdepth; [lia|]. reflexivity.
Qed.

(** ** Pending children in the synchronous reader *)

(** C5, as the code has it.  In the synchronous reader, when the child the
    reader renders reports pending and no boundary is open (the suspense
    depth is zero), the turn throws the no-fallback error and [read] ends
    with that error instead of a string.  [read] does nothing else about it:
    the renderer it leaves is the one before the turn with the frame moved
    past the pending child, not exhausted, and the world is untouched, so
    the thread id is still held and every open provider still has its value
    in its slot; the session goes on until [destroy] is called.  When the
    suspense depth is positive the turn raises no error and goes on with the
    suspended flag set. *)
Theorem sync_pending_needs_an_open_boundary
    (st : ReadState) (frame : Frame) (rest : list Frame) (child : Node) (p : nat) :
  stack (rs_renderer st) = frame :: rest ->
  rs_suspended st = false ->
  frameDone frame = false ->
  f_children frame !! childIndex frame = Some child ->
  pendingOn child (rs_world st) p ->
  let r' := setStack (rs_renderer st) (advance frame :: rest) in
  (suspenseDepth (rs_renderer st) = 0 ->
     readStep st = Throw NoFallbackUI (mkReadState r' (rs_world st) (rs_out st) false)
     /\ (forall fuel bytes len,
           out0Length (rs_out st) = Some len -> below len bytes = true ->
           readLoop (S fuel) bytes st
           = Crashed NoFallbackUI (mkReadState r' (rs_world st) (rs_out st) false))
     /\ (forall fuel bytes,
           exhausted (rs_renderer st) = false -> below 0 bytes = true ->
           read (S fuel) bytes (rs_renderer st) (rs_world st)
           = Crashed NoFallbackUI (None, r', rs_world st)
           /\ exhausted r' = false
           /\ threadID r' = threadID (rs_renderer st)
           /\ contextIndex r' = contextIndex (rs_renderer st)
           /\ contextStack r' = contextStack (rs_renderer st)
           /\ contextValueStack r' = contextValueStack (rs_renderer st)))
  /\ (0 < suspenseDepth (rs_renderer st) ->
        readStep st
        = Continue
            (mkReadState r' (rs_world st)
               (outAdd
                  (if length (rs_out st) <=? suspenseDepth (rs_renderer st)
                   then (rs_out st ++ [Some ""])%list else rs_out st)
                  (suspenseDepth (rs_renderer st)) "")
               true)).
Proof.
  intros Hs Hsus Hd Hc Hp r'. split.
  - intros H0.
    pose proof (readStep_pending_top st frame rest child p Hs Hsus Hd Hc Hp H0) as Hstep.
    split; [exact Hstep|]. split.
    + intros fuel bytes len Hl Hb. by rewrite (readLoop_throw _ _ _ _ _ _ Hl Hb Hstep).
    + intros fuel bytes Hex Hb. split_and!; try done. unfold read. rewrite Hex.
      set (st0 := mkReadState (rs_renderer st) (rs_world st) [Some ""] false).
      pose proof (readStep_pending_top st0 frame rest child p Hs eq_refl Hd Hc Hp H0) as Hstep0.
      by rewrite (readLoop_throw fuel bytes st0 _ 0 NoFallbackUI eq_refl Hb Hstep0).
  - intros H0.
    exact (readStep_pending_inside st frame rest child p Hs Hsus Hd Hc Hp H0).
Qed.

(** ** Pending children in the asynchronous reader *)

Lemma renderEventually_pending child canSuspend r w p :
  pendingOn child w p ->
  renderEventually child canSuspend r w
  = (if canSuspend
     then Ok (Resume p child (makeStaticMarkup r) (getClonedRenderContext r w))
     else Fail NoFallbackUI (Str ""), r, w).
Proof. intros Hp. unfold renderEventually. rewrite Hp. by destruct canSuspend. Qed.

(** C2, as the code has it.  In the asynchronous reader a pending child is
    turned into a promise only when a boundary is open (the suspense depth is
    positive) or the renderer is a child renderer: the promise is pushed at
    the end of the buffer of the current depth, and the reader goes on with
    the same stack, the frame advanced to the next sibling.  In a top-level
    renderer with no open boundary the turn throws the no-fallback error. *)
Theorem async_pending_is_buffered_under_a_boundary
    (r : Renderer) (w : World) (frame : Frame) (rest : list Frame)
    (child : Node) (p : nat) (level : list Chunk) :
  stack r = frame :: rest ->
  frameDone frame = false ->
  f_children frame !! childIndex frame = Some child ->
  pendingOn child w p ->
  outQueue r !! suspenseDepth r = Some level ->
  let r1 := setStack r (advance frame :: rest) in
  let future := Resume p child (makeStaticMarkup r) (getClonedRenderContext r1 w) in
  (0 < suspenseDepth r \/ isChildRenderer r = true ->
     readAsyncStep r w
     = Continue
         (setOutQueue r1 (<[suspenseDepth r := (level ++ [future])%list]> (outQueue r)),
          w))
  /\ (suspenseDepth r = 0 -> isChildRenderer r = false ->
        readAsyncStep r w = Throw NoFallbackUI (r1, w)).
Proof.
  intros Hs Hd Hc Hp Hq r1 future. unfold readAsyncStep. rewrite Hs, Hd, Hc.
  cbn zeta. rewrite (renderEventually_pending _ _ _ _ p Hp).
  change (suspenseDepth (setStack r (advance frame :: rest))) with (suspenseDepth r).
  change (isChildRenderer (setStack r (advance frame :: rest))) with (isChildRenderer r).
  split.
  - intros Hcan.
    assert (((0 <? suspenseDepth r) || isChildRenderer r) = true) as ->.
    { destruct Hcan as [Hpos | ->]; [|by rewrite orb_true_r].
      apply Nat.ltb_lt in Hpos. by rewrite Hpos. }
    change (outQueue (setStack r (advance frame :: rest))) with (outQueue r).
    assert ((length (outQueue r) <=? suspenseDepth r) = false) as ->.
    { apply Nat.leb_gt. by eapply lookup_lt_Some. }
    unfold pushToOutQueue.
    change (outQueue (setStack r (advance frame :: rest))) with (outQueue r).
    change (suspenseDepth (setStack r (advance frame :: rest))) with (suspenseDepth r).
    rewrite Hq. reflexivity.
  - intros H0 Hch. rewrite H0, Hch. reflexivity.
Qed.

End Pending.

Lemma suspense_without_fallback_witness :
  Examples.pendingChild :: [] = Examples.pendingChild :: []
  /\ below 0 Infinity = true
  /\ exists r' w',
       read (H := Demo.encoder) 2 Infinity
         (fst (newRenderer (Suspense None [Examples.pendingChild]) false Demo.emptyWorld))
         (snd (newRenderer (Suspense None [Examples.pendingChild]) false Demo.emptyWorld))
       = Crashed NoFallbackUI (None, r', w').
Proof.
  split; [reflexivity|]. split; [reflexivity|].
  destruct (suspense_without_fallback_is_a_fragment (H := Demo.encoder)
              [Examples.pendingChild]
              (fst (newRenderer Empty false Demo.emptyWorld)) Demo.emptyWorld)
    as (_ & _ & _ & _ & _ & _ & Hsync).
  refine (Hsync Examples.pendingChild [] 1 false Demo.emptyWorld 0 Infinity
            eq_refl _ eq_refl).
  apply pendingOn_suspending. reflexivity.
Defined.

Lemma sync_pending_witness :
  stack (rs_renderer Examples.pendingRoot) = plainFrame [Examples.pendingChild] :: []
  /\ rs_suspended Examples.pendingRoot = false
  /\ frameDone (plainFrame [Examples.pendingChild]) = false
  /\ suspenseDepth (rs_renderer Examples.pendingRoot) = 0
  /\ read (H := Demo.encoder) 1 Infinity (rs_renderer Examples.pendingRoot)
       (rs_world Examples.pendingRoot)
     = Crashed NoFallbackUI
         (None,
          setStack (rs_renderer Examples.pendingRoot)
            [advance (plainFrame [Examples.pendingChild])],
          rs_world Examples.pendingRoot).
Proof.
  do 4 (split; [reflexivity|]).
  refine (proj1 (proj2 (proj2 (proj1
            (sync_pending_needs_an_open_boundary (H := Demo.encoder)
               Examples.pendingRoot (plainFrame [Examples.pendingChild]) [] Examples.pendingChild 1
               eq_refl eq_refl eq_refl eq_refl _) eq_refl)) 0 Infinity eq_refl eq_refl)).
  apply pendingOn_suspending. reflexivity.
Defined.

(** C5, as the spec has it, fails: the call of [read] that throws the
    no-fallback error does not end the session.  Under a provider of
    context 1, whose slot held d before the session, a pending child and
    the text b: the call throws, and afterwards the renderer is not
    exhausted, the thread id 0 is still held and has not been released, and
    the slot still holds the value of the provider; the next call of [read]
    goes on with the sibling of the pending child, returns b and only then
    ends the session. *)
Lemma sync_pending_leaves_the_session_open :
  exists r' w',
    read (H := Demo.encoder) 4 Infinity
      (fst (newRenderer (Provider 1 "v" [Examples.pendingChild; Text "b"]) false
              Examples.defaultWorld))
      (snd (newRenderer (Provider 1 "v" [Examples.pendingChild; Text "b"]) false
              Examples.defaultWorld))
    = Crashed NoFallbackUI (None, r', w')
    /\ exhausted r' = false
    /\ live w' = [0] /\ released w' = []
    /\ slots w' = {[ (1, 0) := "v" ]}
    /\ exists r2 w2,
         read (H := Demo.encoder) 6 Infinity r' w' = Finished (Some "b", r2, w2)
         /\ exhausted r2 = true
         /\ released w2 = [0]
         /\ slots w2 = {[ (1, 0) := "d" ]}.
Proof.
  eexists _, _. split; [vm_compute; reflexivity|].
  split_and!; try (vm_compute; reflexivity).
  eexists _, _. split; [vm_compute; reflexivity|].
  split_and!; vm_compute; reflexivity.
Qed.

(** C2, as the spec has it, fails in a top-level renderer with no boundary
    open: [readAsync] is rejected with the no-fallback error and nothing is
    put in the buffer. *)
Lemma async_pending_without_boundary_fails :
  exists r' w',
    readAsync (H := Demo.encoder) 5 Infinity
      (fst Examples.pendingRootAsync) (snd Examples.pendingRootAsync)
    = Crashed NoFallbackUI (None, r', w')
    /\ outQueue r' = [[Str ""]].
Proof. eexists _, _. split; reflexivity. Qed.

Lemma async_pending_witness :
  stack Examples.pendingInsideAsync = plainFrame [Examples.pendingChild] :: []
  /\ outQueue Examples.pendingInsideAsync !! suspenseDepth Examples.pendingInsideAsync
     = Some [Str suspenseOpen]
  /\ 0 < suspenseDepth Examples.pendingInsideAsync
  /\ exists r', readAsyncStep (H := Demo.encoder) Examples.pendingInsideAsync Demo.emptyWorld
               = Continue (r', Demo.emptyWorld).
Proof.
  split_and!; [reflexivity | reflexivity | simpl; lia |].
  eexists.
  refine (proj1 (async_pending_is_buffered_under_a_boundary (H := Demo.encoder)
            Examples.pendingInsideAsync Demo.emptyWorld
            (plainFrame [Examples.pendingChild]) [] Examples.pendingChild 1
            [Str suspenseOpen] eq_refl eq_refl eq_refl _ eq_refl) _).
  - apply pendingOn_suspending. reflexivity.
  - left. simpl. lia.
Defined.

(** ** The separator between text nodes *)

Section Separator.
Context `{Encoder}.

Lemma popProvider_previousWasTextNode r w r' w' :
  popProvider r w = Ok (r', w') -> previousWasTextNode r' = previousWasTextNode r.
Proof.
  unfold popProvider. intros Hp.
  destruct (arrayGet (contextStack r) (contextIndex r)); [|discriminate].
  inversion Hp; subst. by destruct (decide (0 <= contextIndex r)%Z).
Qed.

End Separator.

(** ** JavaScript arrays *)

Lemma arrayGet_nat {A} (a : list (option A)) (i : nat) :
  arrayGet a (Z.of_nat i) = mjoin (a !! i).
Proof.
  unfold arrayGet. destruct (decide (0 <= Z.of_nat i)%Z); [|lia].
  by rewrite Nat2Z.id.
Qed.

Lemma arrayGet_arraySet_eq {A} (a : list (option A)) (i : nat) (x : option A) :
  arrayGet (arraySet a i x) (Z.of_nat i) = x.
Proof.
  rewrite arrayGet_nat. unfold arraySet. destruct (decide (i < length a)).
  - by rewrite list_lookup_insert_eq.
  - rewrite lookup_app_r by lia. rewrite lookup_app_r; rewrite length_replicate; [|lia].
    by replace (i - length a - (i - length a)) with 0 by lia.
Qed.

Lemma arrayGet_arraySet_ne {A} (a : list (option A)) (i j : nat) (x : option A) :
  i <> j -> arrayGet (arraySet a i x) (Z.of_nat j) = arrayGet a (Z.of_nat j).
Proof.
  intros Hne. rewrite !arrayGet_nat. unfold arraySet.
  destruct (decide (i < length a)).
  - by rewrite list_lookup_insert_ne.
  - destruct (decide (j < length a)).
    + by rewrite lookup_app_l.
    + rewrite lookup_app_r by lia. rewrite (lookup_ge_None_2 a j) by lia.
      destruct (decide (j - length a < i - length a)).
      * rewrite lookup_app_l by (rewrite length_replicate; lia).
        by rewrite lookup_replicate_2.
      * rewrite lookup_app_r by (rewrite length_replicate; lia).
        rewrite length_replicate.
        destruct (j - length a - (i - length a)) eqn:Hd; [lia|]. reflexivity.
Qed.

(** ** The provider stacks *)

Lemma writeSlot_released c t v w : released (writeSlot c t v w) = released w.
Proof. by destruct v. Qed.

Lemma writeSlot_restore c t v x w :
  readSlot c t w = Some x ->
  writeSlot c t (Some x) (writeSlot c t (Some v) w) = w.
Proof.
  unfold readSlot, writeSlot, setSlots. intros Hx. destruct w as [s l rel st]. simpl in *.
  f_equal. rewrite insert_insert_eq. by apply insert_id.
Qed.

(** The loop of [clearProviders] reads the entries below [n] only. *)
Lemma clearProvidersFrom_ext n r r' w :
  threadID r' = threadID r ->
  (forall i, i < n ->
     arrayGet (contextStack r') (Z.of_nat i) = arrayGet (contextStack r) (Z.of_nat i)
     /\ arrayGet (contextValueStack r') (Z.of_nat i)
        = arrayGet (contextValueStack r) (Z.of_nat i)) ->
  clearProvidersFrom n r' w = clearProvidersFrom n r w.
Proof.
  intros Ht. revert w. induction n as [|n IH]; intros w Hext; [reflexivity|].
  simpl. destruct (Hext n) as [-> ->]; [lia|]. rewrite Ht.
  destruct (arrayGet (contextStack r) (Z.of_nat n)); [|reflexivity].
  apply IH. intros i Hi. apply Hext. lia.
Qed.

Lemma clearProvidersFrom_released n r w w' :
  clearProvidersFrom n r w = Ok w' -> released w' = released w.
Proof.
  revert w. induction n as [|n IH]; intros w; simpl.
  - intros Heq. by inversion Heq.
  - destruct (arrayGet (contextStack r) (Z.of_nat n)); [|discriminate].
    intros Heq. rewrite (IH _ Heq). apply writeSlot_released.
Qed.

Section Scope.
Context `{Encoder}.

Lemma restoresTo_ext saved r r' w :
  threadID r' = threadID r ->
  contextIndex r' = contextIndex r -> contextStack r' = contextStack r ->
  contextValueStack r' = contextValueStack r ->
  restoresTo saved r w -> restoresTo saved r' w.
Proof.
  intros Ht Hi Hc Hv (w' & Hclear & Hsaved).
  exists w'. split; [|done]. unfold clearProviders in *. rewrite Hi.
  rewrite <- Hclear. apply clearProvidersFrom_ext; [done|].
  intros i _. by rewrite Hc, Hv.
Qed.

Lemma scopeInv_ext saved tid r r' w :
  threadID r' = threadID r -> stack r' = stack r ->
  contextIndex r' = contextIndex r -> contextStack r' = contextStack r ->
  contextValueStack r' = contextValueStack r ->
  scopeInv saved tid r w -> scopeInv saved tid r' w.
Proof.
  intros Ht Hs Hi Hc Hv (Htid & (Hidx & Hent & Hfb) & Hres).
  split; [congruence|]. split.
  - unfold scopeMatches. rewrite Hs, Hi, Hc. auto.
  - by apply (restoresTo_ext saved r).
Qed.

(** Pushing a frame that is not a provider frame. *)
Lemma scopeInv_pushFrame saved tid r w frame :
  (forall c, f_type frame <> TyProvider c) -> plainFallback frame ->
  scopeInv saved tid r w -> scopeInv saved tid (pushFrame r frame) w.
Proof.
  intros Hty Hpf (Htid & (Hidx & Hent & Hfb) & Hres).
  split; [exact Htid|]. split; [|by apply (restoresTo_ext saved r)].
  unfold scopeMatches. simpl.
  assert (providersOf (frame :: stack r) = providersOf (stack r)) as Hp.
  { simpl. destruct (f_type frame) as [| |c| |] eqn:Hf; try done. by destruct (Hty c). }
  change (match f_type frame with
          | TyProvider c => c :: providersOf (stack r)
          | _ => providersOf (stack r)
          end) with (providersOf (frame :: stack r)).
  rewrite Hp. split_and!; [done | done | by constructor].
Qed.

(** Replacing the top frame by a frame of the same type. *)
Lemma scopeInv_replaceTop saved tid r w frame frame' rest :
  stack r = frame :: rest -> f_type frame' = f_type frame ->
  plainFallback frame' ->
  scopeInv saved tid r w -> scopeInv saved tid (setStack r (frame' :: rest)) w.
Proof.
  intros Hs Hty Hpf (Htid & (Hidx & Hent & Hfb) & Hres).
  split; [exact Htid|]. split; [|by apply (restoresTo_ext saved r)].
  unfold scopeMatches in *. simpl. rewrite Hs in *. simpl in *. rewrite Hty.
  split_and!; [done | done |]. inversion Hfb; subst. by constructor.
Qed.

(** Popping a frame that is not a provider frame. *)
Lemma scopeInv_popFrame saved tid r w frame rest :
  stack r = frame :: rest -> (forall c, f_type frame <> TyProvider c) ->
  scopeInv saved tid r w -> scopeInv saved tid (setStack r rest) w.
Proof.
  intros Hs Hty (Htid & (Hidx & Hent & Hfb) & Hres).
  split; [exact Htid|]. split; [|by apply (restoresTo_ext saved r)].
  unfold scopeMatches in *. simpl. rewrite Hs in *. simpl in *.
  destruct (f_type frame) as [| |c| |] eqn:Hf;
    try (split_and!; [done | done | by inversion Hfb]).
  by destruct (Hty c).
Qed.

Lemma plainFallback_advance frame : plainFallback frame -> plainFallback (advance frame).
Proof. done. Qed.

(** Entering a provider: the entry pushed records the context and the value
    the slot had, and the new value is written into the slot. *)
Lemma pushProvider_scope saved tid r w c v r1 w1 frame :
  scopeInv saved tid r w ->
  pushProvider c v r w = Ok (r1, w1) ->
  f_type frame = TyProvider c -> plainFallback frame ->
  scopeInv saved tid (pushFrame r1 frame) w1
  /\ exhausted r1 = exhausted r /\ released w1 = released w.
Proof.
  intros (Htid & (Hidx & Hent & Hfb) & w' & Hclear & Hsaved) Hpush Hty Hpf.
  unfold pushProvider in Hpush.
  destruct (validateContextBounds c (threadID r) w) eqn:Hval; [|discriminate].
  apply bool_decide_eq_true in Hval. destruct Hval as [x Hx].
  set (n := length (providersOf (stack r))) in *.
  assert (contextIndex r + 1 = Z.of_nat n)%Z as Hn by lia.
  rewrite Hn in Hpush. rewrite Nat2Z.id in Hpush.
  destruct (decide (0 <= Z.of_nat n)%Z); [|lia].
  injection Hpush as <- <-.
  split; [|split; reflexivity].
  split; [exact Htid|]. split.
  - unfold scopeMatches. simpl. rewrite Hty. simpl. split_and!.
    + fold n. lia.
    + intros i c'. rewrite reverse_cons. fold n. intros Hl.
      destruct (decide (i < n)) as [Hlt|Hge].
      * rewrite lookup_app_l in Hl by (rewrite length_reverse; exact Hlt).
        rewrite arrayGet_arraySet_ne by lia. by apply Hent.
      * assert (i = n) as ->.
        { apply lookup_lt_Some in Hl. rewrite length_app, length_reverse in Hl.
          simpl in Hl. fold n in Hl. lia. }
        rewrite lookup_app_r in Hl by (rewrite length_reverse; fold n; lia).
        rewrite length_reverse in Hl. fold n in Hl. rewrite Nat.sub_diag in Hl.
        inversion Hl; subst. apply arrayGet_arraySet_eq.
    + by constructor.
  - exists w'. split; [|done]. unfold clearProviders in *. simpl.
    rewrite Hn in *. replace (Z.to_nat (Z.of_nat n + 1)) with (S n) by lia.
    rewrite Nat2Z.id in Hclear. simpl.
    rewrite !arrayGet_arraySet_eq. unfold readSlot in *. rewrite Hx.
    change (setSlots w (<[(c, threadID r):=v]> (slots w)))
      with (writeSlot c (threadID r) (Some v) w).
    rewrite writeSlot_restore by exact Hx.
    rewrite <- Hclear. apply clearProvidersFrom_ext; [done|].
    intros i Hi. simpl. by rewrite !arrayGet_arraySet_ne by lia.
Qed.

(** Leaving a provider: the last entry is the one of the frame that ends;
    the value it recorded is written back into the slot of its context. *)
Lemma popProvider_scope saved tid r w frame rest c r2 :
  scopeInv saved tid r w ->
  stack r = frame :: rest -> f_type frame = TyProvider c ->
  threadID r2 = threadID r -> stack r2 = rest ->
  contextIndex r2 = contextIndex r -> contextStack r2 = contextStack r ->
  contextValueStack r2 = contextValueStack r ->
  let n := length (providersOf rest) in
  let r3 := setContexts r2 (contextIndex r - 1)%Z
              (arraySet (contextStack r) n None)
              (arraySet (contextValueStack r) n None) in
  let w3 := writeSlot c (threadID r)
              (arrayGet (contextValueStack r) (Z.of_nat n)) w in
  contextIndex r = Z.of_nat n
  /\ arrayGet (contextStack r) (Z.of_nat n) = Some c
  /\ popProvider r2 w = Ok (r3, w3)
  /\ scopeInv saved tid r3 w3
  /\ released w3 = released w.
Proof.
  intros (Htid & (Hidx & Hent & Hfb) & w' & Hclear & Hsaved) Hs Hty Ht2 Hs2 Hi2 Hc2 Hv2 n r3 w3.
  rewrite Hs in Hidx, Hent, Hfb. simpl in Hidx, Hent. rewrite Hty in Hidx, Hent.
  simpl in Hidx. fold n in Hidx.
  assert (contextIndex r = Z.of_nat n) as Hn by lia.
  assert (arrayGet (contextStack r) (Z.of_nat n) = Some c) as Hc.
  { apply Hent. rewrite reverse_cons.
    rewrite lookup_app_r by (rewrite length_reverse; fold n; lia).
    rewrite length_reverse. fold n. by rewrite Nat.sub_diag. }
  split; [exact Hn|]. split; [exact Hc|]. split_and!.
  - unfold popProvider. rewrite Hi2, Hc2, Hv2, Hn, Hc, Ht2.
    destruct (decide (0 <= Z.of_nat n)%Z); [|lia].
    rewrite Nat2Z.id. subst r3 w3. by rewrite Hn.
  - split; [subst r3; simpl; congruence|]. split.
    + unfold scopeMatches. subst r3. simpl. rewrite Hs2. fold n. split_and!.
      * lia.
      * intros i c' Hl.
        assert (i < n) as Hlt.
        { apply lookup_lt_Some in Hl. rewrite length_reverse in Hl. exact Hl. }
        rewrite arrayGet_arraySet_ne by lia. apply Hent.
        rewrite reverse_cons. rewrite lookup_app_l by (rewrite length_reverse; exact Hlt).
        exact Hl.
      * by inversion Hfb.
    + exists w'. split; [|done]. unfold clearProviders in *. subst r3 w3. simpl.
      rewrite Hn in *. replace (Z.to_nat (Z.of_nat n - 1 + 1)) with n by lia.
      replace (Z.to_nat (Z.of_nat n + 1)) with (S n) in Hclear by lia.
      simpl in Hclear. rewrite Hc in Hclear. rewrite <- Hclear.
      apply clearProvidersFrom_ext; [simpl; congruence|].
      intros i Hi. simpl. by rewrite !arrayGet_arraySet_ne by lia.
  - apply writeSlot_released.
Qed.

Lemma pushProvider_fail c v r w e r1 w1 :
  pushProvider c v r w = Fail e (r1, w1) ->
  e = ProtocolError /\ exhausted r1 = exhausted r /\ w1 = w.
Proof.
  unfold pushProvider. destruct (validateContextBounds c (threadID r) w); [discriminate|].
  intros Heq. by inversion Heq.
Qed.

Lemma renderDOM_scope saved tid h children r w c r' w' :
  scopeInv saved tid r w ->
  renderDOM h children r w = (c, r', w') ->
  exhausted r' = exhausted r /\ w' = w /\ scopeInv saved tid r' w'.
Proof.
  intros Hinv. unfold renderDOM.
  destruct (negb (h_validTag h)); [intros Heq; inversion Heq; subst; done|].
  set (r1 := if decide (h_tag h = "select") then _ else r).
  assert (exhausted r1 = exhausted r /\ scopeInv saved tid r1 w) as [Hex Hinv1].
  { subst r1. destruct (decide (h_tag h = "select")); [|done].
    split; [done|]. by apply (scopeInv_ext saved tid r). }
  destruct (negb (h_validProps h)); [intros Heq; inversion Heq; subst; done|].
  destruct (h_omittedClose h), (h_innerMarkup h); intros Heq;
    injection Heq as <- <- <-;
    (split; [exact Hex|]; split; [done|]);
    (eapply scopeInv_ext;
       [| | | | | apply (scopeInv_pushFrame saved tid r1 w); [| |exact Hinv1]];
       try reflexivity; done).
Qed.

(** [render] keeps the entries of the provider stacks in step with the
    provider frames. *)
Lemma render_scope saved tid child r w c r' w' :
  scopeInv saved tid r w ->
  render child r w = (c, r', w') ->
  exhausted r' = exhausted r /\ released w' = released w
  /\ (c <> ThrewError ProtocolError -> scopeInv saved tid r' w').
Proof.
  intros Hinv Hr. unfold render in Hr.
  assert (forall f, (forall c0, f_type f <> TyProvider c0) -> plainFallback f ->
            forall d, scopeInv saved tid (setSuspenseDepth (pushFrame r f) d) w) as Hpush.
  { intros f Hf Hp d. eapply scopeInv_ext;
      [| | | | | apply (scopeInv_pushFrame saved tid r w f Hf Hp Hinv)]; reflexivity. }
  assert (forall f, (forall c0, f_type f <> TyProvider c0) -> plainFallback f ->
            scopeInv saved tid (pushFrame r f) w) as Hpush0.
  { intros f Hf Hp. by apply scopeInv_pushFrame. }
  destruct child;
    [ destruct (decide (text = ""));
        [| destruct (makeStaticMarkup r); [| destruct (previousWasTextNode r)]];
        inversion Hr; subst; split_and!; try done;
        intros _; by apply (scopeInv_ext saved tid r)
    | .. ];
    (destruct (resolve _ w) as [nextChild|p'|e'];
      [| inversion Hr; subst; by split_and! ..]);
    (destruct nextChild as [t'| |cs'|h' cs'|fb' cs'|c0 v' cs'|c0 f'|p' body'|body'|p' body'|e'];
      try (inversion Hr; subst; split_and!; try done; intros _; by apply Hpush0)).
  all: try (destruct (renderDOM_scope saved tid h' cs' r w c r' w' Hinv Hr) as (? & -> & ?);
            by split_and!).
  all: try (simpl in Hr; destruct fb';
            inversion Hr; subst; split_and!; try done; intros _;
            [by apply Hpush | by apply Hpush0]).
  all: try (destruct (pushProvider c0 v' r w) as [[r1 w1]|e1 [r1 w1]] eqn:Hpp;
            [ destruct (pushProvider_scope saved tid r w c0 v' r1 w1
                           (mkFrame (TyProvider c0) cs' 0 None "") Hinv Hpp eq_refl I)
                as (? & ? & ?);
              inversion Hr; subst; by split_and!
            | destruct (pushProvider_fail _ _ _ _ _ _ _ Hpp) as (-> & ? & ->);
              inversion Hr; subst; by split_and! ]).
  all: try (destruct (validateContextBounds c0 (threadID r) w);
            [destruct (readSlot c0 (threadID r) w)|];
            inversion Hr; subst; split_and!; try done; intros _; by apply Hpush0).
  all: try (destruct (isSettled p' w);
            inversion Hr; subst; split_and!; try done; intros _; by apply Hpush0).
Qed.

Lemma frameDone_false_lookup frame :
  frameDone frame = false -> is_Some (f_children frame !! childIndex frame).
Proof.
  unfold frameDone. intros Hd. apply Nat.leb_gt in Hd. by apply lookup_lt_is_Some.
Qed.

(** One turn of [read] keeps the entries in step with the frames; the turn
    that finds the stack empty finds every entry closed. *)
Lemma readStep_scope saved tid st :
  scopeInv saved tid (rs_renderer st) (rs_world st) ->
  exhausted (rs_renderer st) = false ->
  match readStep st with
  | Continue st' =>
      scopeInv saved tid (rs_renderer st') (rs_world st')
      /\ exhausted (rs_renderer st') = false
      /\ released (rs_world st') = released (rs_world st)
  | Break st' =>
      exhausted (rs_renderer st') = true
      /\ threadID (rs_renderer st') = tid
      /\ slots (rs_world st') = saved
      /\ released (rs_world st') = tid :: released (rs_world st)
  | Throw e st' =>
      exhausted (rs_renderer st') = false
      /\ released (rs_world st') = released (rs_world st)
      /\ (e <> ProtocolError -> scopeInv saved tid (rs_renderer st') (rs_world st'))
  end.
Proof.
  destruct st as [r w out suspended]. simpl. intros Hinv Hex. unfold readStep. simpl.
  destruct (stack r) as [|frame rest] eqn:Hs.
  - simpl. destruct Hinv as (Htid & (Hidx & _ & _) & w' & Hclear & Hsaved).
    rewrite Hs in Hidx. simpl in Hidx. unfold clearProviders in Hclear.
    rewrite Hidx in Hclear. simpl in Hclear. injection Hclear as <-.
    rewrite Htid. by split_and!.
  - destruct (suspended || frameDone frame) eqn:Hdone.
    + set (r1 := if decide (footer frame = "") then r else setPreviousWasTextNode r false).
      assert (scopeInv saved tid r1 w /\ stack r1 = frame :: rest
              /\ exhausted r1 = false) as (Hinv1 & Hs1 & Hex1).
      { subst r1. destruct (decide (footer frame = "")); [done|].
        split_and!; [|done|done]. by apply (scopeInv_ext saved tid r). }
      assert ((forall c, f_type frame <> TyProvider c) ->
              scopeInv saved tid (setStack r1 rest) w) as Hpop.
      { intros Hty. by eapply scopeInv_popFrame. }
      destruct (f_type frame) as [|tag|c| |] eqn:Hty.
      * simpl. split_and!; [|done|done]. by apply Hpop.
      * destruct (decide (tag = "select")); simpl; (split_and!; [|done|done]).
        -- eapply scopeInv_ext; [| | | | | by apply Hpop]; reflexivity.
        -- by apply Hpop.
      * destruct (popProvider_scope saved tid r1 w frame rest c (setStack r1 rest)
                    Hinv1 Hs1 Hty eq_refl eq_refl eq_refl eq_refl eq_refl)
          as (_ & _ & -> & Hinv3 & Hrel).
        simpl. split_and!; [exact Hinv3 | exact Hex1 | exact Hrel].
      * simpl. split_and!; [|done|done]. by apply Hpop.
      * destruct (outPop out) as [buffered out1].
        assert (scopeInv saved tid
                  (setSuspenseDepth (setStack r1 rest) (pred (suspenseDepth (setStack r1 rest)))) w)
          as Hinv3.
        { eapply scopeInv_ext; [| | | | | by apply Hpop]; reflexivity. }
        destruct suspended.
        -- destruct (fallbackFrame frame) as [fb|] eqn:Hfb; simpl.
           ++ split_and!; [|done|done].
              apply scopeInv_pushFrame; [| |exact Hinv3].
              ** destruct Hinv1 as (_ & (_ & _ & Hall) & _). rewrite Hs1 in Hall.
                 inversion Hall as [|? ? Hpf _]; subst. unfold plainFallback in Hpf.
                 rewrite Hfb in Hpf. destruct Hpf as [Hnull _]. intros c0. by rewrite Hnull.
              ** destruct Hinv1 as (_ & (_ & _ & Hall) & _). rewrite Hs1 in Hall.
                 inversion Hall as [|? ? Hpf _]; subst. unfold plainFallback in Hpf.
                 rewrite Hfb in Hpf. destruct Hpf as [_ Hnone]. unfold plainFallback.
                 by rewrite Hnone.
           ++ split_and!; [done | done | by intros _].
        -- simpl. by split_and!.
    + apply orb_false_elim in Hdone as [-> Hdone].
      destruct (frameDone_false_lookup frame Hdone) as [child ->].
      assert (scopeInv saved tid (setStack r (advance frame :: rest)) w) as Hinv1.
      { eapply scopeInv_replaceTop; [exact Hs | reflexivity | | exact Hinv].
        destruct Hinv as (_ & (_ & _ & Hall) & _). rewrite Hs in Hall.
        by inversion Hall. }
      destruct (render child (setStack r (advance frame :: rest)) w) as [[c r2] w2] eqn:Hr.
      destruct (render_scope saved tid child _ w c r2 w2 Hinv1 Hr) as (Hex2 & Hrel2 & Hinv2).
      simpl in Hex2. rewrite Hex in Hex2.
      destruct c as [s|p|e]; simpl.
      * split_and!; [by apply Hinv2 | done | done].
      * destruct (0 <? suspenseDepth r2); simpl.
        -- split_and!; [by apply Hinv2 | done | done].
        -- split_and!; [done | done |]. intros _. by apply Hinv2.
      * split_and!; [done | done |]. intros He. apply Hinv2. congruence.
Qed.

(** The loop of [read]. *)
Lemma readLoop_scope saved tid fuel bytes st :
  scopeInv saved tid (rs_renderer st) (rs_world st) ->
  exhausted (rs_renderer st) = false ->
  match readLoop fuel bytes st with
  | Finished st' =>
      threadID (rs_renderer st') = tid
      /\ (if exhausted (rs_renderer st')
          then slots (rs_world st') = saved
               /\ released (rs_world st') = tid :: released (rs_world st)
          else scopeInv saved tid (rs_renderer st') (rs_world st')
               /\ released (rs_world st') = released (rs_world st))
  | Crashed e st' =>
      exhausted (rs_renderer st') = false
      /\ released (rs_world st') = released (rs_world st)
      /\ (e <> ProtocolError -> scopeInv saved tid (rs_renderer st') (rs_world st'))
  | OutOfFuel => True
  end.
Proof.
  revert st. induction fuel as [|fuel IH]; intros st Hinv Hex; [done|].
  simpl. destruct (out0Length (rs_out st)) as [len|]; [|by split_and!].
  destruct (below len bytes).
  - pose proof (readStep_scope saved tid st Hinv Hex) as Hstep.
    destruct (readStep st) as [st'|st'|e st'].
    + destruct Hstep as (Hinv' & Hex' & Hrel'). specialize (IH st' Hinv' Hex').
      destruct (readLoop fuel bytes st') as [st''|e st''|]; [| |done].
      * destruct IH as [Ht IH]. split; [done|].
        destruct (exhausted (rs_renderer st'')); by rewrite <- Hrel'.
      * destruct IH as (? & ? & ?). split_and!; [done| congruence |done].
    + destruct Hstep as (Hex' & Ht & Hsl & Hrel). split; [done|]. by rewrite Hex'.
    + exact Hstep.
  - split; [by destruct Hinv|]. by rewrite Hex.
Qed.

(** ** A session over its lifetime *)

Lemma releases_cons tid w w' :
  released w' = tid :: released w -> releases tid w' = S (releases tid w).
Proof.
  unfold releases. intros ->. rewrite filter_cons.
  by destruct (decide (tid = tid)).
Qed.

Lemma releases_same tid w w' :
  released w' = released w -> releases tid w' = releases tid w.
Proof. unfold releases. by intros ->. Qed.

Lemma read_sessionInv saved tid base fuel bytes r w :
  sessionInv saved tid base r w ->
  match read fuel bytes r w with
  | Finished (_, r', w') => sessionInv saved tid base r' w'
  | Crashed e (_, r', w') => e <> ProtocolError -> sessionInv saved tid base r' w'
  | OutOfFuel => True
  end.
Proof.
  intros (Htid & Hrel & Hinv). unfold read.
  destruct (exhausted r) eqn:Hex; [unfold sessionInv; by rewrite Hex|].
  destruct Hinv as [Hm Hres].
  pose proof (readLoop_scope saved tid fuel bytes (mkReadState r w [Some ""] false)
                (conj Htid (conj Hm Hres)) Hex) as Hloop.
  destruct (readLoop fuel bytes _) as [st'|e st'|]; [| |done]; simpl in Hloop.
  - destruct Hloop as [Ht Hloop]. split; [done|].
    destruct (exhausted (rs_renderer st')).
    + destruct Hloop as [Hsl Hr]. split; [|done].
      rewrite (releases_cons _ _ _ Hr). lia.
    + destruct Hloop as [(_ & Hm' & Hres') Hr]. split; [|done].
      rewrite (releases_same _ _ _ Hr). lia.
  - destruct Hloop as (Hex' & Hr & Hinv'). intros He.
    destruct (Hinv' He) as (Ht & Hm' & Hres'). split; [done|]. rewrite Hex'.
    split; [|done]. rewrite (releases_same _ _ _ Hr). lia.
Qed.

Lemma destroy_sessionInv saved tid base r w :
  sessionInv saved tid base r w ->
  exists r' w',
    destroy r w = Ok (r', w') /\ sessionInv saved tid base r' w'
    /\ exhausted r' = true /\ slots w' = saved.
Proof.
  intros (Htid & Hrel & Hinv). unfold destroy.
  destruct (exhausted r) eqn:Hex.
  - exists r, w. split_and!; try done. unfold sessionInv. by rewrite Hex.
  - destruct Hinv as [Hm (w' & Hclear & Hsaved)].
    assert (clearProviders (setExhausted r true) w = Ok w') as ->.
    { rewrite <- Hclear. unfold clearProviders. simpl.
      by apply clearProvidersFrom_ext. }
    assert (released w' = released w) as Hr
      by (by eapply clearProvidersFrom_released).
    eexists _, _. split; [reflexivity|]. simpl. split_and!; try done.
    split; [done|]. simpl. split; [|done].
    rewrite (releases_cons tid w' (freeThreadID (threadID r) w')).
    + rewrite (releases_same _ _ _ Hr). lia.
    + by rewrite Htid.
Qed.

Lemma newRenderer_sessionInv children static w0 :
  let r0 := fst (newRenderer children static w0) in
  let w1 := snd (newRenderer children static w0) in
  sessionInv (slots w0) (threadID r0) (releases (threadID r0) w1) r0 w1
  /\ exhausted r0 = false.
Proof.
  unfold newRenderer. simpl. split; [|done].
  split; [done|]. simpl. split; [lia|]. split.
  - split_and!; [done | by intros i c |].
    by repeat constructor.
  - by eexists.
Qed.

Lemma lifetime_sessionInv saved tid base r0 w0 errors r w :
  sessionInv saved tid base r0 w0 ->
  lifetime r0 w0 errors r w -> ProtocolError ∉ errors ->
  sessionInv saved tid base r w.
Proof.
  intros H0 Hlife. induction Hlife as
    [|errors r w fuel bytes out r' w' _ IH Hread
     |errors r w fuel bytes e out r' w' _ IH Hread
     |errors r w r' w' _ IH Hd
     |errors r w e r' w' _ IH Hd]; intros Hno; [done| | | |].
  - pose proof (read_sessionInv saved tid base fuel bytes r w (IH Hno)) as Hr.
    by rewrite Hread in Hr.
  - apply not_elem_of_cons in Hno as [He Hno].
    pose proof (read_sessionInv saved tid base fuel bytes r w (IH Hno)) as Hr.
    rewrite Hread in Hr. apply Hr. congruence.
  - destruct (destroy_sessionInv saved tid base r w (IH Hno))
      as (r2 & w2 & Hd2 & Hinv & _).
    rewrite Hd in Hd2. by injection Hd2 as <- <-.
  - apply not_elem_of_cons in Hno as [_ Hno].
    destruct (destroy_sessionInv saved tid base r w (IH Hno))
      as (r2 & w2 & Hd2 & _).
    rewrite Hd in Hd2. discriminate.
Qed.

(** X1. Provider scopes in a session of [read] and [destroy].  Entering a
    provider pushes one entry that records the
    context and the value its slot had, and writes the new value; the exit of
    the provider frame pops that very entry (the last one, whose context is
    the frame's) and writes the recorded value back into the same slot, and
    the entries left still match the provider frames left.  Hence, whatever
    calls of [read] and [destroy] a session has gone through, returning or
    throwing, as long as none of them has thrown the protocol error of
    [validateContextBounds]: once it is exhausted every slot holds the value
    it had before the session, and [destroy], which walks the open entries
    from the last to the first, puts every slot back to that value.  (After
    the protocol error of a provider the last entry has been counted and not
    written, and nothing is promised.) *)
Theorem provider_scopes_are_restored
    (children : Node) (static : bool) (w0 : World) :
  (forall saved tid r w c v r1 w1,
     scopeInv saved tid r w ->
     pushProvider c v r w = Ok (r1, w1) ->
     contextIndex r1 = (contextIndex r + 1)%Z
     /\ arrayGet (contextStack r1) (contextIndex r1) = Some c
     /\ arrayGet (contextValueStack r1) (contextIndex r1) = readSlot c (threadID r) w
     /\ w1 = writeSlot c (threadID r) (Some v) w)
  /\ (forall saved tid r w frame rest c,
        scopeInv saved tid r w ->
        stack r = frame :: rest -> f_type frame = TyProvider c ->
        arrayGet (contextStack r) (contextIndex r) = Some c
        /\ exists r3,
             popProvider (setStack r rest) w
             = Ok (r3, writeSlot c (threadID r)
                         (arrayGet (contextValueStack r) (contextIndex r)) w)
             /\ contextIndex r3 = (contextIndex r - 1)%Z
             /\ scopeInv saved tid r3
                  (writeSlot c (threadID r)
                     (arrayGet (contextValueStack r) (contextIndex r)) w))
  /\ (forall errors r w,
        lifetime (fst (newRenderer children static w0))
          (snd (newRenderer children static w0)) errors r w ->
        ProtocolError ∉ errors ->
        (exhausted r = true -> slots w = slots w0)
        /\ exists r' w', destroy r w = Ok (r', w') /\ slots w' = slots w0).
Proof.
  split_and!.
  - intros saved tid r w c v r1 w1 (Htid & (Hidx & Hent & Hfb) & Hres) Hpush.
    unfold pushProvider in Hpush.
    destruct (validateContextBounds c (threadID r) w); [|discriminate].
    assert (exists n, (contextIndex r + 1)%Z = Z.of_nat n) as [n Hn]
      by (exists (length (providersOf (stack r))); lia).
    rewrite Hn, Nat2Z.id in Hpush.
    destruct (decide (0 <= Z.of_nat n)%Z); [|lia].
    injection Hpush as <- <-. simpl.
    rewrite !arrayGet_arraySet_eq. by split_and!.
  - intros saved tid r w frame rest c Hinv Hs Hty.
    destruct (popProvider_scope saved tid r w frame rest c (setStack r rest)
                Hinv Hs Hty eq_refl eq_refl eq_refl eq_refl eq_refl)
      as (Hn & Hc & Hpop & Hinv3 & _).
    rewrite Hn. split; [exact Hc|]. eexists. split; [exact Hpop|]. split; [|exact Hinv3].
    simpl. lia.
  - intros errors r w Hlife Hno.
    destruct (newRenderer_sessionInv children static w0) as [Hinit _].
    pose proof (lifetime_sessionInv _ _ _ _ _ _ _ _ Hinit Hlife Hno) as Hinv.
    split.
    + intros Hex. destruct Hinv as (_ & _ & Hsl). by rewrite Hex in Hsl.
    + destruct (destroy_sessionInv _ _ _ _ _ Hinv) as (r' & w' & Hd & _ & _ & Hsl).
      eauto.
Qed.

(** X15. Whatever calls of [read] and [destroy] a session has gone through,
    returning or throwing, as long as none of them has thrown the protocol
    error of [validateContextBounds]: its thread id has been released once
    if the session is exhausted and not at all otherwise; [destroy] then
    succeeds, leaves the session exhausted with every slot back to the value
    it had before the session and the id released exactly once since the
    session started; and a second [destroy] changes nothing. *)
Theorem destroy_once_in_a_session_without_protocol_error
    (children : Node) (static : bool) (w0 : World)
    (errors : list Error) (r : Renderer) (w : World) :
  let r0 := fst (newRenderer children static w0) in
  let w1 := snd (newRenderer children static w0) in
  lifetime r0 w1 errors r w ->
  ProtocolError ∉ errors ->
  releases (threadID r0) w
    = releases (threadID r0) w1 + (if exhausted r then 1 else 0)
  /\ exists r' w',
       destroy r w = Ok (r', w')
       /\ exhausted r' = true
       /\ releases (threadID r0) w' = releases (threadID r0) w1 + 1
       /\ slots w' = slots w0
       /\ destroy r' w' = Ok (r', w').
Proof.
  intros r0 w1 Hlife Hno.
  destruct (newRenderer_sessionInv children static w0) as [Hinit _].
  pose proof (lifetime_sessionInv _ _ _ _ _ _ _ _ Hinit Hlife Hno) as Hinv.
  split; [by destruct Hinv as (_ & Hrel & _)|].
  destruct (destroy_sessionInv _ _ _ _ _ Hinv) as (r' & w' & Hd & Hinv' & Hex & Hsl).
  exists r', w'. split_and!; try done.
  - destruct Hinv' as (_ & Hrel & _). by rewrite Hex in Hrel.
  - unfold destroy. by rewrite Hex.
Qed.

End Scope.

Lemma scope_example_lifetime :
  lifetime (H := Demo.encoder) (fst ScopeExample.start) (snd ScopeExample.start) []
    (fst ScopeExample.middle) (snd ScopeExample.middle).
Proof.
  eapply (life_read _ _ _ _ _ 3 (Finite 1)); [apply life_start|]. reflexivity.
Defined.

Lemma provider_scopes_witness :
  slots (snd ScopeExample.middle) = {[ (1, 0) := "v" ]}
  /\ exhausted (fst ScopeExample.middle) = false
  /\ (ProtocolError ∉ ([] : list Error))
  /\ exists r' w',
       destroy (fst ScopeExample.middle) (snd ScopeExample.middle) = Ok (r', w')
       /\ slots w' = slots ScopeExample.before.
Proof.
  split; [reflexivity|]. split; [reflexivity|].
  split; [apply not_elem_of_nil|].
  exact (proj2 (proj2 (proj2
           (provider_scopes_are_restored (H := Demo.encoder)
              ScopeExample.tree false ScopeExample.before))
           _ _ _ scope_example_lifetime (not_elem_of_nil _))).
Defined.

Lemma destroy_once_witness :
  lifetime (H := Demo.encoder) (fst ScopeExample.start) (snd ScopeExample.start) []
    (fst ScopeExample.middle) (snd ScopeExample.middle)
  /\ (ProtocolError ∉ ([] : list Error))
  /\ exists r' w',
       destroy (fst ScopeExample.middle) (snd ScopeExample.middle) = Ok (r', w')
       /\ exhausted r' = true
       /\ releases 0 w' = 1
       /\ destroy r' w' = Ok (r', w').
Proof.
  split; [exact scope_example_lifetime|]. split; [apply not_elem_of_nil|].
  destruct (destroy_once_in_a_session_without_protocol_error (H := Demo.encoder)
              ScopeExample.tree false ScopeExample.before _ _ _ scope_example_lifetime
              (not_elem_of_nil _))
    as (_ & r' & w' & Hd & Hex & Hrel & _ & Hd').
  exists r', w'. split_and!; [exact Hd | exact Hex | exact Hrel | exact Hd'].
Defined.

(** C8. The code does not destroy a session after a provider has been
    rejected.  A provider of context 1
    around a text and a provider of context 2, whose slot is not initialised
    for the thread: [read] throws the protocol error from [pushProvider],
    which has already counted the entry it has not written.  [destroy] then
    sets the session exhausted, finds no context in the last entry and throws
    a type error from [clearProviders] before any slot is put back and before
    the thread id is released: the slot of context 1 keeps the value of the
    provider instead of d, the id 0 stays held and is released not once but
    never, and a second [destroy] returns at once and repairs nothing. *)
Theorem destroy_fails_after_a_rejected_provider :
  read (H := Demo.encoder) 6 Infinity
    (fst ScopeExample.nestedStart) (snd ScopeExample.nestedStart)
  = Crashed ProtocolError (None, fst ScopeExample.rejected, snd ScopeExample.rejected)
  /\ lifetime (H := Demo.encoder)
       (fst ScopeExample.nestedStart) (snd ScopeExample.nestedStart)
       [TypeError; ProtocolError]
       (fst ScopeExample.afterDestroy) (snd ScopeExample.afterDestroy)
  /\ exhausted (fst ScopeExample.rejected) = false
  /\ contextIndex (fst ScopeExample.rejected) = 1%Z
  /\ contextStack (fst ScopeExample.rejected) = [Some 1]
  /\ destroy (fst ScopeExample.rejected) (snd ScopeExample.rejected)
     = Fail TypeError ScopeExample.afterDestroy
  /\ exhausted (fst ScopeExample.afterDestroy) = true
  /\ releases 0 (snd ScopeExample.afterDestroy) = 0
  /\ live (snd ScopeExample.afterDestroy) = [0]
  /\ slots (snd ScopeExample.afterDestroy) = {[ (1, 0) := "v" ]}
  /\ slots ScopeExample.before = {[ (1, 0) := "d" ]}
  /\ destroy (fst ScopeExample.afterDestroy) (snd ScopeExample.afterDestroy)
     = Ok ScopeExample.afterDestroy.
Proof.
  assert (read (H := Demo.encoder) 6 Infinity
            (fst ScopeExample.nestedStart) (snd ScopeExample.nestedStart)
          = Crashed ProtocolError
              (None, fst ScopeExample.rejected, snd ScopeExample.rejected)) as Hread
    by (vm_compute; reflexivity).
  assert (destroy (fst ScopeExample.rejected) (snd ScopeExample.rejected)
          = Fail TypeError
              (fst ScopeExample.afterDestroy, snd ScopeExample.afterDestroy)) as Hdestroy
    by (vm_compute; reflexivity).
  split; [exact Hread|]. split.
  { eapply life_destroy_throws; [|exact Hdestroy].
    eapply life_read_throws; [apply life_start|exact Hread]. }
  split_and!; vm_compute; reflexivity.
Qed.

(** ** The thread id of a child renderer *)

Section ChildRenderer.
Context `{Encoder}.

(** The turn of [readAsync] that finds the stack empty frees the thread id,
    in a child renderer as in any other. *)
Lemma readAsyncStep_empty_stack r w :
  stack r = [] ->
  readAsyncStep r w = Break (setExhausted r true, freeThreadID (threadID r) w).
Proof. intros Hs. unfold readAsyncStep. by rewrite Hs. Qed.

(** [destroy] of a child renderer does not free the thread id. *)
Lemma destroyAsync_child_keeps_id r w r' w' :
  isChildRenderer r = true ->
  destroyAsync r w = Ok (r', w') -> released w' = released w.
Proof.
  intros Hc. unfold destroyAsync. destruct (exhausted r).
  - intros Heq. by injection Heq as <- <-.
  - destruct (clearProviders _ w) as [w1|e w1] eqn:Hclear; [|discriminate].
    simpl. rewrite Hc. intros Heq. injection Heq as <- <-.
    by eapply clearProvidersFrom_released.
Qed.

End ChildRenderer.

(** C1. The code frees the parent's id from a child renderer.  The child
    below resumes a subtree with the context cloned from a parent that holds
    thread id 0: its [destroy] would leave the id alone, but its
    [readAsync(Infinity)], which runs the frame stack to exhaustion, calls
    [freeThreadID] on it; over the whole session of a parent with one
    suspended child the id is freed twice. *)
Theorem resumed_child_releases_the_parent_id :
  isChildRenderer (fst Examples.resumedChild) = true
  /\ threadID (fst Examples.resumedChild) = rc_threadID Examples.parentContext
  /\ releases 0 (snd Examples.resumedChild) = 0
  /\ (exists r' w',
        destroyAsync (fst Examples.resumedChild) (snd Examples.resumedChild)
        = Ok (r', w') /\ releases 0 w' = 0)
  /\ returned (readAsync (H := Demo.encoder) 4 Infinity
                 (fst Examples.resumedChild) (snd Examples.resumedChild))
     = Some (Some "late")
  /\ releases 0 <$> worldOf (readAsync (H := Demo.encoder) 4 Infinity
                                (fst Examples.resumedChild) (snd Examples.resumedChild))
     = Some 1
  /\ releases 0 <$> worldOf (readAllAsync (H := Demo.encoder) 12 Infinity
          (fst (newRendererAsync Examples.boundaryWithPending false None Demo.emptyWorld))
          (snd (newRendererAsync Examples.boundaryWithPending false None Demo.emptyWorld)))
     = Some 2.
Proof.
  split_and!; try (vm_compute; reflexivity).
  eexists _, _. split; vm_compute; reflexivity.
Qed.

(** C3. The code leaves a slot overwritten after a resumed child session.
    The child below resumes, with the context cloned under a provider of
    context 1, a subtree that reads that context; when it is made the slot of
    the context holds "d" again.  Its constructor writes the value "v" of the
    clone into the slot; [readAsync(Infinity)] runs the frame stack to
    exhaustion and sets [exhausted], so the [destroy] that follows, which
    would walk the open entries and write "d" back, does nothing: the slot
    the session touched holds "v", not the value it had before the session.
    A [destroy] before exhaustion does restore it.  Over the whole
    asynchronous session of the parent the slot ends with "v"; the
    synchronous session on the same tree leaves it at "d". *)
Theorem resumed_child_leaves_the_slot_overwritten :
  readSlot 1 0 Examples.resumedWorld = Some "d"
  /\ isChildRenderer (fst Examples.resumedConsumer) = true
  /\ readSlot 1 0 (snd Examples.resumedConsumer) = Some "v"
  /\ returned (readAsync (H := Demo.encoder) 8 Infinity
                 (fst Examples.resumedConsumer) (snd Examples.resumedConsumer))
     = Some (Some "v")
  /\ exhausted <$> rendererOf (readAsync (H := Demo.encoder) 8 Infinity
                                 (fst Examples.resumedConsumer)
                                 (snd Examples.resumedConsumer))
     = Some true
  /\ readSlot 1 0 <$> thenDestroyed (readAsync (H := Demo.encoder) 8 Infinity
                                       (fst Examples.resumedConsumer)
                                       (snd Examples.resumedConsumer))
     = Some (Some "v")
  /\ (exists r' w',
        destroyAsync (fst Examples.resumedConsumer) (snd Examples.resumedConsumer)
        = Ok (r', w') /\ readSlot 1 0 w' = Some "d")
  /\ readSlot 1 0 Examples.defaultWorld = Some "d"
  /\ readSlot 1 0 <$> worldOf (readAllAsync (H := Demo.encoder) 12 Infinity
          (fst (newRendererAsync Examples.providerWithPending false None
                  Examples.defaultWorld))
          (snd (newRendererAsync Examples.providerWithPending false None
                  Examples.defaultWorld)))
     = Some (Some "v")
  /\ readSlot 1 0 <$> worldOf (readAll (H := Demo.encoder) 12 Infinity
          (fst (newRenderer Examples.providerWithPending false Examples.defaultWorld))
          (snd (newRenderer Examples.providerWithPending false Examples.defaultWorld)))
     = Some (Some "d").
Proof.
  split_and!; try (vm_compute; reflexivity).
  eexists _, _. split; vm_compute; reflexivity.
Qed.

(** ** The fallback of a boundary in the synchronous reader *)

Lemma outAdd_last (outs : list (option string)) (b : option string) (s : string) :
  outAdd (outs ++ [b]) (length outs) s = (outs ++ [Some (jsString b +:+ s)])%list.
Proof.
  unfold outAdd, arraySet.
  rewrite (list_lookup_middle outs [] b (length outs) eq_refl). simpl.
  destruct (decide (length outs < length (outs ++ [b]))) as [_|Hn].
  - by rewrite (insert_app_r_alt outs [b]), Nat.sub_diag by lia.
  - rewrite length_app in Hn. simpl in Hn. lia.
Qed.

Lemma outPop_last (outs : list (option string)) (b : option string) :
  outPop (outs ++ [b]) = (b, outs).
Proof. unfold outPop. by rewrite last_snoc, removelast_last. Qed.

#[local] Arguments outPop : simpl never.
#[local] Arguments outAdd : simpl never.

Section Fallback.
Context `{Encoder}.

(** While the reader is suspended, the turn pops the top frame: a frame that
    is not a boundary only adds its footer to the buffer of the open
    boundary. *)
Lemma readStep_suspended_pop saved tid st frame rest :
  scopeInv saved tid (rs_renderer st) (rs_world st) ->
  rs_suspended st = true ->
  stack (rs_renderer st) = frame :: rest ->
  f_type frame <> TySuspense ->
  exists r' w',
    readStep st
    = Continue (mkReadState r' w'
                  (outAdd (rs_out st) (suspenseDepth (rs_renderer st)) (footer frame))
                  true)
    /\ stack r' = rest
    /\ suspenseDepth r' = suspenseDepth (rs_renderer st)
    /\ scopeInv saved tid r' w'.
Proof.
  destruct st as [r w out suspended]. simpl. intros Hinv -> Hs Hty.
  unfold readStep. simpl. rewrite Hs. simpl.
  set (r1 := if decide (footer frame = "") then r else setPreviousWasTextNode r false).
  assert (scopeInv saved tid r1 w /\ stack r1 = frame :: rest
          /\ suspenseDepth r1 = suspenseDepth r) as (Hinv1 & Hs1 & Hd1).
  { subst r1. destruct (decide (footer frame = "")); [done|].
    split_and!; [|done|done]. by apply (scopeInv_ext saved tid r). }
  assert ((forall c, f_type frame <> TyProvider c) ->
          scopeInv saved tid (setStack r1 rest) w) as Hpop.
  { intros Hp. by eapply scopeInv_popFrame. }
  destruct (f_type frame) as [|tag|c| |] eqn:Hf; [| | | |done].
  - simpl. rewrite Hd1.
    eexists _, _. split; [reflexivity|]. split_and!; [done | done | by apply Hpop].
  - destruct (decide (tag = "select")); simpl; rewrite Hd1.
    + eexists _, _. split; [reflexivity|]. split_and!; [done | done |].
      eapply scopeInv_ext; [| | | | | by apply Hpop]; reflexivity.
    + eexists _, _. split; [reflexivity|]. split_and!; [done | done | by apply Hpop].
  - destruct (popProvider_scope saved tid r1 w frame rest c (setStack r1 rest)
                Hinv1 Hs1 Hf eq_refl eq_refl eq_refl eq_refl eq_refl)
      as (_ & _ & -> & Hinv3 & _).
    simpl. rewrite Hd1.
    eexists _, _. split; [reflexivity|]. split_and!; [done | done | exact Hinv3].
  - simpl. rewrite Hd1.
    eexists _, _. split; [reflexivity|]. split_and!; [done | done | by apply Hpop].
Qed.

(** C4. In the synchronous reader, once a child has reported pending under
    a boundary (the suspended flag is set), the frames above the nearest
    boundary frame are popped, then the boundary frame itself: everything
    buffered for the boundary is dropped from [out], the fallback frame built
    with the boundary is pushed in its place and the marker of a suspended
    boundary is added to the buffer of the enclosing depth, before anything
    the fallback writes.  The primary frames are gone from the stack, so the
    primary subtree is not rendered again.  On the tree
    ["a"; boundary with fallback "fb" around "p", a pending child and "q";
    "c"] the output is "a", the marker, "fb", the closing marker, "c". *)
Theorem sync_fallback_replaces_the_boundary
    (saved : gmap (nat * nat) string) (tid : nat) (st : ReadState)
    (inner : list Frame) (boundary : Frame) (rest : list Frame) (fb : Frame)
    (outs : list (option string)) (parentBuf : string) (buffered : option string) :
  scopeInv saved tid (rs_renderer st) (rs_world st) ->
  rs_suspended st = true ->
  stack (rs_renderer st) = (inner ++ boundary :: rest)%list ->
  Forall (fun frame => f_type frame <> TySuspense) inner ->
  f_type boundary = TySuspense ->
  fallbackFrame boundary = Some fb ->
  rs_out st = (outs ++ [Some parentBuf; buffered])%list ->
  suspenseDepth (rs_renderer st) = S (length outs) ->
  (exists r' w',
     readSteps (S (length inner)) st
     = Continue (mkReadState r' w'
                   (outs ++ [Some (parentBuf +:+ suspenseFallback)])%list false)
     /\ stack r' = fb :: rest
     /\ suspenseDepth r' = length outs)
  /\ outcome
       (readAll (H := Demo.encoder) 12 Infinity
          (fst (newRenderer Examples.boundaryWithPending false Demo.emptyWorld))
          (snd (newRenderer Examples.boundaryWithPending false Demo.emptyWorld)))
     = Some (inl "a<!--$!-->fb<!--/$-->c").
Proof.
  intros Hinv Hsus Hs Hinner Hty Hfb Hout Hdepth. split; [|by vm_compute].
  revert st buffered Hinv Hsus Hs Hout Hdepth.
  induction Hinner as [|frame inner Hframe _ IH]; intros st buffered Hinv Hsus Hs Hout Hdepth.
  - destruct st as [r w out suspended]. simpl in *. subst suspended out.
    unfold readSteps, readStep. cbn [rs_renderer rs_world rs_out rs_suspended].
    rewrite Hs. cbn [orb]. rewrite Hty.
    change (outs ++ [Some parentBuf; buffered])%list
      with (outs ++ [Some parentBuf] ++ [buffered])%list.
    rewrite app_assoc, outPop_last, Hfb.
    assert (suspenseDepth
              (setSuspenseDepth
                 (setStack
                    (if decide (footer boundary = "") then r
                     else setPreviousWasTextNode r false) rest)
                 (pred (suspenseDepth
                          (setStack
                             (if decide (footer boundary = "") then r
                              else setPreviousWasTextNode r false) rest))))
            = length outs) as Hd.
    { destruct (decide (footer boundary = "")); simpl; rewrite Hdepth; reflexivity. }
    rewrite Hd, outAdd_last.
    eexists _, _. split; [reflexivity|]. split; [reflexivity|]. exact Hd.
  - destruct (readStep_suspended_pop saved tid st frame (inner ++ boundary :: rest)
                Hinv Hsus Hs Hframe) as (r1 & w1 & Hstep & Hs1 & Hd1 & Hinv1).
    change (readSteps (S (length (frame :: inner))) st)
      with (match readStep st with
            | Continue st' => readSteps (S (length inner)) st'
            | other => other
            end).
    rewrite Hstep.
    apply (IH _ (Some (jsString buffered +:+ footer frame))); simpl; try done.
    + rewrite Hout, Hdepth.
      change (outs ++ [Some parentBuf; buffered])%list
        with (outs ++ [Some parentBuf] ++ [buffered])%list.
      rewrite app_assoc.
      replace (S (length outs)) with (length (outs ++ [Some parentBuf]))
        by (rewrite length_app; simpl; lia).
      rewrite outAdd_last. by rewrite <- app_assoc.
    + congruence.
Qed.

End Fallback.

Lemma sync_fallback_witness :
  rs_suspended FallbackExample.suspendedState = true
  /\ stack (rs_renderer FallbackExample.suspendedState)
     = (FallbackExample.inner ++ FallbackExample.boundary :: FallbackExample.rest)%list
  /\ length FallbackExample.inner = 1
  /\ f_type FallbackExample.boundary = TySuspense
  /\ fallbackFrame FallbackExample.boundary = Some FallbackExample.fallback
  /\ rs_out FallbackExample.suspendedState = [Some "a"; Some "<!--$--><div>p"]
  /\ exists r' w',
       readSteps (H := Demo.encoder) 2 FallbackExample.suspendedState
       = Continue (mkReadState r' w' [Some "a<!--$!-->"] false)
       /\ stack r' = FallbackExample.fallback :: FallbackExample.rest
       /\ suspenseDepth r' = 0.
Proof.
  split_and!; try (vm_compute; reflexivity).
  refine (proj1 (sync_fallback_replaces_the_boundary (H := Demo.encoder)
            ∅ 0 FallbackExample.suspendedState
            FallbackExample.inner FallbackExample.boundary FallbackExample.rest
            FallbackExample.fallback [] "a" (Some "<!--$--><div>p")
            _ eq_refl eq_refl _ eq_refl eq_refl eq_refl eq_refl)).
  - split; [reflexivity|]. split.
    + split_and!; [reflexivity | intros i c Hl; by destruct i |].
      repeat constructor.
    + by eexists.
  - repeat constructor. discriminate.
Defined.

(** ** The order of the output of the asynchronous reader *)

Section QueueValue.
Variable resumed : nat -> Node -> bool -> RenderContext -> string.

Lemma levelValue_app (l1 l2 : list Chunk) :
  levelValue resumed (l1 ++ l2) = levelValue resumed l1 +:+ levelValue resumed l2.
Proof.
  unfold levelValue. induction l1 as [|c l1 IH]; [reflexivity|].
  simpl. by rewrite IH, string_app_assoc.
Qed.

Lemma queueValue_app (q1 q2 : list (list Chunk)) :
  queueValue resumed (q1 ++ q2) = queueValue resumed q1 +:+ queueValue resumed q2.
Proof.
  unfold queueValue. induction q1 as [|l q1 IH]; [reflexivity|].
  simpl. by rewrite IH, string_app_assoc.
Qed.

Lemma queueValue_snoc (q : list (list Chunk)) (level : list Chunk) :
  queueValue resumed (q ++ [level]) = queueValue resumed q +:+ levelValue resumed level.
Proof. rewrite queueValue_app. unfold queueValue. simpl. by rewrite string_app_empty_r. Qed.

Lemma levelValue_snoc (level : list Chunk) (c : Chunk) :
  levelValue resumed (level ++ [c]) = levelValue resumed level +:+ chunkValue resumed c.
Proof. rewrite levelValue_app. unfold levelValue. simpl. by rewrite string_app_empty_r. Qed.

Lemma chunkValue_boundary (parts : list Chunk) (foot : string) :
  chunkValue resumed (Boundary parts foot) = levelValue resumed parts +:+ foot.
Proof.
  simpl. unfold levelValue. induction parts as [|c parts IH]; [reflexivity|].
  simpl. by rewrite IH, string_app_assoc.
Qed.

(** What [pushToOutQueue] does to the last level: the string or the promise
    goes to its end. *)
Lemma pushToOutQueue_last (x : Chunk) (q : list (list Chunk)) (level : list Chunk) q' :
  pushToOutQueue x (length q) (q ++ [level]) = Some q' ->
  exists level',
    q' = (q ++ [level'])%list
    /\ levelValue resumed level' = levelValue resumed level +:+ chunkValue resumed x.
Proof.
  unfold pushToOutQueue.
  rewrite (list_lookup_middle q [] level (length q) eq_refl).
  assert (forall l, <[length q := l]> (q ++ [level]) = (q ++ [l])%list) as Hins.
  { intros l. by rewrite (insert_app_r_alt q [level]), Nat.sub_diag by lia. }
  destruct x as [s|parts foot|p child static rc].
  - destruct (last level) as [[s0| |]|] eqn:Hlast; [| | |discriminate];
      intros Heq; injection Heq as <-; rewrite Hins; eexists; (split; [reflexivity|]).
    + apply last_Some in Hlast as [l0 ->]. rewrite removelast_last.
      rewrite !levelValue_snoc. simpl. by rewrite string_app_assoc.
    + apply levelValue_snoc.
    + apply levelValue_snoc.
  - intros Heq; injection Heq as <-; rewrite Hins; eexists; (split; [reflexivity|]).
    apply levelValue_snoc.
  - intros Heq; injection Heq as <-; rewrite Hins; eexists; (split; [reflexivity|]).
    apply levelValue_snoc.
Qed.

Lemma pushToOutQueue_value (x : Chunk) (d : nat) (q q' : list (list Chunk)) :
  length q = S d ->
  pushToOutQueue x d q = Some q' ->
  length q' = S d
  /\ queueValue resumed q' = queueValue resumed q +:+ chunkValue resumed x.
Proof.
  intros Hlen Hpush.
  destruct (decide (q = [])) as [->|Hne]; [done|].
  destruct (exists_last Hne) as (q0 & level & ->).
  rewrite length_app in Hlen. simpl in Hlen.
  assert (d = length q0) as -> by lia.
  destruct (pushToOutQueue_last x q0 level q' Hpush) as (level' & -> & Hv).
  split; [rewrite length_app; simpl; lia|].
  by rewrite !queueValue_snoc, Hv, string_app_assoc.
Qed.

End QueueValue.

Section AsyncOrder.
Context `{Encoder}.

Lemma pushProvider_fields c v r w r1 w1 :
  pushProvider c v r w = Ok (r1, w1) ->
  outQueue r1 = outQueue r /\ suspenseDepth r1 = suspenseDepth r
  /\ stack r1 = stack r.
Proof.
  unfold pushProvider. destruct (validateContextBounds c (threadID r) w); [|discriminate].
  destruct (decide (0 <= contextIndex r + 1)%Z); intros Heq; by injection Heq as <- <-.
Qed.

Lemma pushProvider_fail_fields c v r w e r1 w1 :
  pushProvider c v r w = Fail e (r1, w1) ->
  outQueue r1 = outQueue r /\ suspenseDepth r1 = suspenseDepth r
  /\ stack r1 = stack r.
Proof.
  unfold pushProvider. destruct (validateContextBounds c (threadID r) w); [discriminate|].
  intros Heq; by injection Heq as <- <-.
Qed.

(** [render] does not touch the queue, and opens at most one boundary. *)
Lemma render_queue child r w c r' w' :
  render child r w = (c, r', w') ->
  outQueue r' = outQueue r
  /\ (suspenseDepth r' = suspenseDepth r \/ suspenseDepth r' = S (suspenseDepth r)).
Proof.
  intros Hr. unfold render, renderDOM in Hr.
  destruct child;
    [ destruct (decide (text = ""));
        [| destruct (makeStaticMarkup r); [| destruct (previousWasTextNode r)]];
        injection Hr as <- <- <-; by auto
    | .. ];
    (destruct (resolve _ w) as [nextChild|p'|e'];
      [| injection Hr as <- <- <-; by auto ..]);
    (destruct nextChild as [t'| |cs'|h' cs'|fb' cs'|c0 v' cs'|c0 f'|p' body'|body'|p' body'|e'];
      try (injection Hr as <- <- <-; by auto)).
  all: try (destruct (negb (h_validTag h')); [injection Hr as <- <- <-; by auto|];
            destruct (decide (h_tag h' = "select"));
            (destruct (negb (h_validProps h')); [injection Hr as <- <- <-; by auto|]);
            destruct (h_omittedClose h'), (h_innerMarkup h');
            injection Hr as <- <- <-; by auto).
  all: try (simpl in Hr; destruct fb'; injection Hr as <- <- <-; by auto).
  all: try (destruct (pushProvider c0 v' r w) as [[r1 w1]|e1 [r1 w1]] eqn:Hpp;
            [ destruct (pushProvider_fields _ _ _ _ _ _ Hpp) as (? & ? & ?)
            | destruct (pushProvider_fail_fields _ _ _ _ _ _ _ Hpp) as (? & ? & ?) ];
            injection Hr as <- <- <-; by auto).
  all: try (destruct (validateContextBounds c0 (threadID r) w);
            [destruct (readSlot c0 (threadID r) w)|];
            injection Hr as <- <- <-; by auto).
  all: try (destruct (isSettled p' w); injection Hr as <- <- <-; by auto).
Qed.

Lemma popProvider_fields r w r' w' :
  popProvider r w = Ok (r', w') ->
  outQueue r' = outQueue r /\ suspenseDepth r' = suspenseDepth r /\ stack r' = stack r.
Proof.
  unfold popProvider. destruct (arrayGet (contextStack r) (contextIndex r)); [|discriminate].
  destruct (decide (0 <= contextIndex r)%Z); intros Heq; by injection Heq as <- <-.
Qed.

(** What one turn of the loop of [readAsync] does to the queue, whatever
    markup the suspended children end up with: it adds, at the end of what
    the queue holds of the output, the footer of the frame that ends, or the
    string or the promise that [renderEventually] returned for the next
    child.  The promise made for a boundary that ends holds the fragments
    buffered at its depth in the order they were pushed, and is pushed at the
    end of the buffer of the enclosing depth. *)
Lemma readAsyncStep_appends
    (resumed : nat -> Node -> bool -> RenderContext -> string)
    (r : Renderer) (w : World) (frame : Frame) (rest : list Frame)
    (r' : Renderer) (w' : World) :
  length (outQueue r) = S (suspenseDepth r) ->
  stack r = frame :: rest ->
  readAsyncStep r w = Continue (r', w') ->
  length (outQueue r') = S (suspenseDepth r')
  /\ (frameDone frame = true ->
        queueValue resumed (outQueue r')
        = queueValue resumed (outQueue r) +:+ footer frame)
  /\ (frameDone frame = false ->
        exists child x r2 w2,
          f_children frame !! childIndex frame = Some child
          /\ renderEventually child
               ((0 <? suspenseDepth r) || isChildRenderer r)
               (setStack r (advance frame :: rest)) w = (Ok x, r2, w2)
          /\ queueValue resumed (outQueue r')
             = queueValue resumed (outQueue r) +:+ chunkValue resumed x)
  /\ (frameDone frame = true -> f_type frame = TySuspense ->
        exists before parent results,
          outQueue r = before ++ [parent; results]
          /\ outQueue r' = before ++ [parent ++ [Boundary results (footer frame)]]).
Proof.
  intros Hlen Hs Hstep.
  unfold readAsyncStep in Hstep. rewrite Hs in Hstep.
  assert (forall parts foot,
            chunkValue resumed (Boundary parts foot) = levelValue resumed parts +:+ foot)
    as Hb by apply chunkValue_boundary.
  destruct (frameDone frame) eqn:Hdone.
  - set (r1 := if decide (footer frame = "") then r else setPreviousWasTextNode r false)
      in Hstep.
    assert (outQueue r1 = outQueue r /\ suspenseDepth r1 = suspenseDepth r) as [Hq1 Hd1].
    { subst r1. by destruct (decide (footer frame = "")). }
    assert (forall r3 w3,
              outQueue r3 = outQueue r -> suspenseDepth r3 = suspenseDepth r ->
              match pushToOutQueue (Str (footer frame)) (suspenseDepth r3) (outQueue r3) with
              | Some q => Continue (setOutQueue r3 q, w3)
              | None => Throw TypeError (r3, w3)
              end = Continue (r', w') ->
              length (outQueue r') = S (suspenseDepth r')
              /\ queueValue resumed (outQueue r')
                 = queueValue resumed (outQueue r) +:+ footer frame) as Hflush.
    { intros r3 w3 Hq3 Hd3 Heq.
      destruct (pushToOutQueue (Str (footer frame)) (suspenseDepth r3) (outQueue r3))
        as [q|] eqn:Hpush; [|discriminate].
      injection Heq as <- <-. rewrite Hq3, Hd3 in Hpush. simpl. rewrite Hd3.
      by apply (pushToOutQueue_value resumed _ _ _ _ Hlen Hpush). }
    destruct (f_type frame) as [|tag|c| |] eqn:Hty.
    + destruct (Hflush (setStack r1 rest) w Hq1 Hd1 Hstep). by split_and!.
    + destruct (decide (tag = "select")).
      * destruct (Hflush (setCurrentSelectValue (setStack r1 rest) None) w Hq1 Hd1 Hstep).
        by split_and!.
      * destruct (Hflush (setStack r1 rest) w Hq1 Hd1 Hstep). by split_and!.
    + destruct (popProvider (setStack r1 rest) w) as [[r3 w3]|e [r3 w3]] eqn:Hpop;
        [|discriminate].
      destruct (popProvider_fields _ _ _ _ Hpop) as (Hq3 & Hd3 & _). simpl in Hq3, Hd3.
      destruct (Hflush r3 w3) as [? ?]; [congruence | congruence | exact Hstep |].
      by split_and!.
    + destruct (Hflush (setStack r1 rest) w Hq1 Hd1 Hstep). by split_and!.
    + simpl in Hstep. rewrite Hq1, Hd1 in Hstep.
      destruct (decide (outQueue r = [])) as [Hnil|Hne]; [by rewrite Hnil in Hlen|].
      destruct (exists_last Hne) as (q0 & results & Hq).
      rewrite Hq, last_snoc, removelast_last in Hstep.
      destruct (pushToOutQueue _ _ q0) as [q|] eqn:Hpush; [|discriminate].
      injection Hstep as <- <-. simpl.
      rewrite Hq, length_app in Hlen. simpl in Hlen.
      destruct (suspenseDepth r) as [|d] eqn:Hd.
      { destruct q0; [|simpl in Hlen; lia]. unfold pushToOutQueue in Hpush.
        simpl in Hpush. discriminate. }
      simpl in Hpush.
      assert (length q0 = S d) as Hlen0 by lia.
      destruct (pushToOutQueue_value resumed _ _ _ _ Hlen0 Hpush) as [Hl Hv].
      assert (exists before parent,
                q0 = before ++ [parent]
                /\ q = before ++ [parent ++ [Boundary results (footer frame)]])
        as (before & parent & Hq0 & Hq').
      { destruct (decide (q0 = [])) as [->|Hne0]; [done|].
        destruct (exists_last Hne0) as (before & parent & ->).
        exists before, parent. split; [done|].
        rewrite length_app in Hlen. simpl in Hlen.
        assert (d = length before) as -> by lia.
        unfold pushToOutQueue in Hpush.
        rewrite (list_lookup_middle before [] parent (length before) eq_refl) in Hpush.
        injection Hpush as <-.
        by rewrite (insert_app_r_alt before [parent]), Nat.sub_diag by lia. }
      split_and!; [done | | done |].
      * intros _. rewrite Hv, Hq, queueValue_snoc, Hb. by rewrite string_app_assoc.
      * intros _ _. exists before, parent, results. split; [|done].
        by rewrite Hq, Hq0, <- app_assoc.
  - destruct (frameDone_false_lookup frame Hdone) as [child Hc]. rewrite Hc in Hstep.
    change (suspenseDepth (setStack r (advance frame :: rest))) with (suspenseDepth r) in Hstep.
    change (isChildRenderer (setStack r (advance frame :: rest)))
      with (isChildRenderer r) in Hstep.
    destruct (renderEventually child _ _ w) as [[[x|e x] r2] w2] eqn:Hre; [|discriminate].
    assert (outQueue r2 = outQueue r
            /\ (suspenseDepth r2 = suspenseDepth r \/ suspenseDepth r2 = S (suspenseDepth r)))
      as [Hq2 Hd2].
    { unfold renderEventually in Hre.
      destruct (render child _ w) as [[c r3] w3] eqn:Hr.
      destruct (render_queue _ _ _ _ _ _ Hr) as [Hq3 Hd3]. simpl in Hq3, Hd3.
      destruct c as [s|p|e]; [| |discriminate].
      - by injection Hre as <- <- <-.
      - destruct (_ || _); [|discriminate]. by injection Hre as <- <- <-. }
    match type of Hstep with
    | context [pushToOutQueue x (suspenseDepth ?r0) (outQueue ?r0)] =>
        set (r3 := r0) in Hstep
    end.
    destruct (pushToOutQueue x (suspenseDepth r3) (outQueue r3)) as [q|] eqn:Hpush;
      [|discriminate].
    injection Hstep as <- <-. simpl.
    assert (length (outQueue r3) = S (suspenseDepth r3)
            /\ queueValue resumed (outQueue r3) = queueValue resumed (outQueue r))
      as [Hl3 Hv3].
    { subst r3. rewrite Hq2. destruct Hd2 as [Hd2|Hd2]; rewrite Hd2.
      - assert ((length (outQueue r) <=? suspenseDepth r) = false) as ->
          by (apply Nat.leb_gt; lia).
        by rewrite ?Hq2, ?Hd2.
      - assert ((length (outQueue r) <=? S (suspenseDepth r)) = true) as ->
          by (apply Nat.leb_le; lia).
        simpl. rewrite ?Hq2, ?Hd2, length_app, queueValue_snoc. simpl. split; [lia|].
        by rewrite string_app_empty_r. }
    destruct (pushToOutQueue_value resumed _ _ _ _ Hl3 Hpush) as [Hl Hv].
    assert (suspenseDepth (setOutQueue r3 q) = suspenseDepth r3) as Hd3 by done.
    split_and!; [done | done | | done].
    intros _. exists child, x, r2, w2. split_and!; [done | done |].
    by rewrite Hv, Hv3.
Qed.

End AsyncOrder.

(** ** The two readers on a tree with no pending node *)

Section Turns.
Context `{Encoder}.

(** The loop of [read] in terms of [turn]. *)
Lemma readStep_turn st :
  readStep st
  = let out := rs_out st in
    let suspended := rs_suspended st in
    match turn suspended (rs_renderer st) (rs_world st) with
    | TurnBreak r w => Break (mkReadState r w out suspended)
    | TurnFooter r w foot =>
        Continue (mkReadState r w (outAdd out (suspenseDepth r) foot) suspended)
    | TurnBoundary r w foot fallback =>
        let '(buffered, out1) := outPop out in
        if suspended then
          match fallback with
          | Some fb =>
              Continue (mkReadState (pushFrame r fb) w
                          (outAdd out1 (suspenseDepth r) suspenseFallback) false)
          | None => Throw NoFallbackFrame (mkReadState r w out1 false)
          end
        else
          Continue (mkReadState r w
                      (outAdd (outAdd out1 (suspenseDepth r) (jsString buffered))
                         (suspenseDepth r) foot) suspended)
    | TurnRender (Returned s) r w =>
        Continue (mkReadState r w
                    (outAdd (if length out <=? suspenseDepth r then out ++ [Some ""] else out)
                       (suspenseDepth r) s) suspended)
    | TurnRender (ThrewThenable p) r w =>
        if 0 <? suspenseDepth r then
          Continue (mkReadState r w
                      (outAdd (if length out <=? suspenseDepth r then out ++ [Some ""] else out)
                         (suspenseDepth r) "") true)
        else Throw NoFallbackUI (mkReadState r w out suspended)
    | TurnRender (ThrewError e) r w => Throw e (mkReadState r w out suspended)
    | TurnThrow e r w => Throw e (mkReadState r w out suspended)
    end.
Proof.
  destruct st as [r w out suspended]. unfold readStep, turn. simpl.
  destruct (stack r) as [|frame rest]; [reflexivity|].
  destruct (suspended || frameDone frame).
  - destruct (f_type frame) as [|tag|c| |]; try reflexivity.
    all: try (by destruct (decide (tag = "select"))).
    all: try (by destruct (popProvider _ w) as [[r3 w3]|e [r3 w3]]).
    all: try (destruct (outPop out) as [buffered out1]; destruct suspended; [|reflexivity];
              by destruct (fallbackFrame frame)).
  - destruct (f_children frame !! childIndex frame) as [child|]; [|reflexivity].
    destruct (render child _ w) as [[c r2] w2]. by destruct c.
Qed.

(** The loop of [readAsync] in terms of [turn]. *)
Lemma readAsyncStep_turn r w :
  readAsyncStep r w
  = match turn false r w with
    | TurnBreak r' w' => Break (r', w')
    | TurnFooter r' w' foot =>
        match pushToOutQueue (Str foot) (suspenseDepth r') (outQueue r') with
        | Some q => Continue (setOutQueue r' q, w')
        | None => Throw TypeError (r', w')
        end
    | TurnBoundary r' w' foot _ =>
        match last (outQueue r') with
        | None => Throw TypeError (r', w')
        | Some results =>
            match pushToOutQueue (Boundary results foot) (suspenseDepth r')
                    (removelast (outQueue r')) with
            | Some q => Continue (setOutQueue r' q, w')
            | None => Throw TypeError (setOutQueue r' (removelast (outQueue r')), w')
            end
        end
    | TurnRender (Returned s) r' w' =>
        let r3 := if length (outQueue r') <=? suspenseDepth r'
                  then setOutQueue r' (outQueue r' ++ [[Str ""]]) else r' in
        match pushToOutQueue (Str s) (suspenseDepth r3) (outQueue r3) with
        | Some q' => Continue (setOutQueue r3 q', w')
        | None => Throw TypeError (r3, w')
        end
    | TurnRender (ThrewThenable p) r' w' =>
        match stack r with
        | frame :: _ =>
            match f_children frame !! childIndex frame with
            | Some child =>
                if (0 <? suspenseDepth r) || isChildRenderer r then
                  let r3 := if length (outQueue r') <=? suspenseDepth r'
                            then setOutQueue r' (outQueue r' ++ [[Str ""]]) else r' in
                  match pushToOutQueue
                          (Resume p child (makeStaticMarkup r') (getClonedRenderContext r' w'))
                          (suspenseDepth r3) (outQueue r3) with
                  | Some q' => Continue (setOutQueue r3 q', w')
                  | None => Throw TypeError (r3, w')
                  end
                else Throw NoFallbackUI (r', w')
            | None => Throw NoFallbackUI (r', w')
            end
        | [] => Throw NoFallbackUI (r', w')
        end
    | TurnRender (ThrewError e) r' w' => Throw e (r', w')
    | TurnThrow e r' w' => Throw e (r', w')
    end.
Proof.
  unfold readAsyncStep, turn.
  destruct (stack r) as [|frame rest]; [reflexivity|]. simpl.
  destruct (frameDone frame).
  - destruct (f_type frame) as [|tag|c| |]; try reflexivity.
    all: try (by destruct (decide (tag = "select"))).
    all: try (by destruct (popProvider _ w) as [[r3 w3]|e [r3 w3]]).
  - destruct (f_children frame !! childIndex frame) as [child|]; [|reflexivity].
    unfold renderEventually.
    destruct (render child _ w) as [[c r2] w2]. destruct c as [s|p|e]; try reflexivity.
    by destruct ((0 <? suspenseDepth r) || isChildRenderer r).
Qed.

(** *** The queue plays no part in a turn *)

Lemma pushProvider_setOutQueue c v r w q :
  pushProvider c v (setOutQueue r q) w
  = match pushProvider c v r w with
    | Ok (r1, w1) => Ok (setOutQueue r1 q, w1)
    | Fail e (r1, w1) => Fail e (setOutQueue r1 q, w1)
    end.
Proof.
  unfold pushProvider. simpl.
  destruct (validateContextBounds c (threadID r) w); [|reflexivity].
  by destruct (decide (0 <= contextIndex r + 1)%Z).
Qed.

Lemma popProvider_setOutQueue r w q :
  popProvider (setOutQueue r q) w
  = match popProvider r w with
    | Ok (r1, w1) => Ok (setOutQueue r1 q, w1)
    | Fail e (r1, w1) => Fail e (setOutQueue r1 q, w1)
    end.
Proof.
  unfold popProvider. simpl.
  destruct (arrayGet (contextStack r) (contextIndex r));
    by destruct (decide (0 <= contextIndex r)%Z).
Qed.

Lemma render_setOutQueue child r w q :
  render child (setOutQueue r q) w
  = match render child r w with
    | (c, r', w') => (c, setOutQueue r' q, w')
    end.
Proof.
  unfold render, renderDOM.
  destruct child;
    [ simpl; destruct (decide (text = ""));
        [| destruct (makeStaticMarkup r); [| destruct (previousWasTextNode r)]];
        reflexivity
    | .. ];
    (destruct (resolve _ w) as [nextChild|p'|e']; [| reflexivity ..]);
    (destruct nextChild as [t'| |cs'|h' cs'|fb' cs'|c0 v' cs'|c0 f'|p' body'|body'|p' body'|e'];
      try reflexivity).
  all: try (destruct (negb (h_validTag h')); [reflexivity|];
            destruct (decide (h_tag h' = "select"));
            (destruct (negb (h_validProps h')); [reflexivity|]);
            by destruct (h_omittedClose h'), (h_innerMarkup h')).
  all: try (simpl; by destruct fb').
  all: try (rewrite pushProvider_setOutQueue;
            by destruct (pushProvider c0 v' r w) as [[r1 w1]|e1 [r1 w1]]).
  all: try (simpl; destruct (validateContextBounds c0 (threadID r) w); [|reflexivity];
            by destruct (readSlot c0 (threadID r) w)).
  all: try (by destruct (isSettled p' w)).
Qed.

Lemma turn_setOutQueue suspended r w q :
  turn suspended (setOutQueue r q) w = turnWithQueue q (turn suspended r w).
Proof.
  unfold turn. simpl. destruct (stack r) as [|frame rest]; [reflexivity|].
  destruct (suspended || frameDone frame).
  - destruct (f_type frame) as [|tag|c| |]; try reflexivity.
    all: try (destruct (decide (footer frame = "")); by destruct (decide (tag = "select"))).
    all: try (by destruct (decide (footer frame = ""))).
    destruct (decide (footer frame = ""));
      [ change (popProvider (setStack (setOutQueue r q) rest) w)
          with (popProvider (setOutQueue (setStack r rest) q) w)
      | change (popProvider
                  (setStack (setPreviousWasTextNode (setOutQueue r q) false) rest) w)
          with (popProvider
                  (setOutQueue (setStack (setPreviousWasTextNode r false) rest) q) w) ];
      rewrite popProvider_setOutQueue;
      by destruct (popProvider _ w) as [[r3 w3]|e3 [r3 w3]].
  - destruct (f_children frame !! childIndex frame) as [child|]; [|reflexivity].
    change (setStack (setOutQueue r q) (advance frame :: rest))
      with (setOutQueue (setStack r (advance frame :: rest)) q).
    rewrite render_setOutQueue. by destruct (render child _ w) as [[c r2] w2].
Qed.

(** *** Rendering a child with no pending node *)

Lemma noPending_resolve done child w :
  noPending done child -> settled w = done ->
  (exists nextChild, resolve child w = ResolvedTo nextChild /\ noPending done nextChild)
  \/ (exists e, resolve child w = ResolveError e).
Proof.
  intros Hnp Hw. induction Hnp; simpl; try (left; eexists; split; [reflexivity|]; by constructor).
  - exact IHHnp.
  - unfold isSettled. rewrite Hw. by rewrite bool_decide_eq_true_2.
  - right. by eexists.
Qed.

Lemma pushProvider_settled c v r w r1 w1 :
  pushProvider c v r w = Ok (r1, w1) -> settled w1 = settled w.
Proof.
  unfold pushProvider. destruct (validateContextBounds c (threadID r) w); [|discriminate].
  destruct (decide (0 <= contextIndex r + 1)%Z); intros Heq; by injection Heq as <- <-.
Qed.

(** What a call of [render] that returns has done to the stack: nothing, or
    it pushed one frame, a boundary frame exactly when it opened a
    boundary. *)
Lemma render_returned child r w s r' w' :
  render child r w = (Returned s, r', w') ->
  settled w' = settled w
  /\ ((stack r' = stack r /\ suspenseDepth r' = suspenseDepth r)
      \/ exists f,
           stack r' = f :: stack r
           /\ ((f_type f = TySuspense /\ suspenseDepth r' = S (suspenseDepth r))
               \/ (f_type f <> TySuspense /\ suspenseDepth r' = suspenseDepth r))
           /\ forall done, noPending done child -> settled w = done ->
                           Forall (noPending done) (f_children f)).
Proof.
  intros Hr. unfold render in Hr.
  destruct child;
    [ destruct (decide (text = ""));
        [| destruct (makeStaticMarkup r); [| destruct (previousWasTextNode r)]];
        injection Hr as <- <- <-; by auto
    | .. ].
  all: match type of Hr with
       | context [resolve ?c _] =>
           assert (forall done, noPending done c -> settled w = done ->
                     forall nextChild, resolve c w = ResolvedTo nextChild ->
                       noPending done nextChild) as Hnext
             by (intros done Hnp Hw nc Hres;
                 destruct (noPending_resolve done c w Hnp Hw) as [(nc' & Hres' & Hnc)|[e0 He]];
                 congruence);
           destruct (resolve c w) as [nextChild|p'|e']; [|discriminate ..];
           specialize (fun done Hnp Hw => Hnext done Hnp Hw nextChild eq_refl)
       end.
  all: destruct nextChild
         as [t'| |cs'|h' cs'|fb' cs'|c0 v' cs'|c0 f'|p' body'|body'|p' body'|e'].
  all: try (injection Hr as <- <- <-; split; [done|]; by left).
  all: try (injection Hr as <- <- <-; split; [done|]; right; eexists; split; [reflexivity|];
            split; [right; by split|];
            intros done Hnp Hw; specialize (Hnext done Hnp Hw);
            first [ by repeat constructor | by inversion Hnext ]).
  all: try discriminate.
  all: try (unfold renderDOM in Hr;
    destruct (negb (h_validTag h')); [discriminate|];
    destruct (negb (h_validProps h')); [discriminate|];
    destruct (h_omittedClose h'), (h_innerMarkup h'), (decide (h_tag h' = "select"));
      injection Hr as <- <- <-; (split; [done|]); right; (eexists; split; [reflexivity|]);
      (split; [right; by split|]);
      intros done Hnp Hw; specialize (Hnext done Hnp Hw);
      first [ by constructor | by inversion Hnext ]).
  all: try (simpl in Hr; destruct fb'; injection Hr as <- <- <-; (split; [done|]); right;
      (eexists; split; [reflexivity|]);
      [ split; [left; by split|] | split; [right; by split|] ];
      intros done Hnp Hw; specialize (Hnext done Hnp Hw); by inversion Hnext).
  all: try (destruct (pushProvider c0 v' r w) as [[r1 w1]|e1 [r1 w1]] eqn:Hpp; [|discriminate];
    destruct (pushProvider_fields _ _ _ _ _ _ Hpp) as (_ & Hd & Hs);
    pose proof (pushProvider_settled _ _ _ _ _ _ Hpp) as Hse;
    injection Hr as <- <- <-; (split; [done|]); right; eexists;
    (split; [simpl; by rewrite Hs|]);
    (split; [right; by split|]);
    intros done Hnp Hw; specialize (Hnext done Hnp Hw); by inversion Hnext).
  all: try (destruct (validateContextBounds c0 (threadID r) w); [|discriminate];
    destruct (readSlot c0 (threadID r) w); [|discriminate];
    injection Hr as <- <- <-; (split; [done|]); right; eexists; (split; [reflexivity|]);
    (split; [right; by split|]);
    intros done Hnp Hw; specialize (Hnext done Hnp Hw);
    inversion Hnext as [| | | | | |? ? Hall| | | |]; subst; simpl; apply Hall).
  all: try (destruct (isSettled p' w); [|discriminate];
    injection Hr as <- <- <-; (split; [done|]); right; eexists; (split; [reflexivity|]);
    (split; [right; by split|]);
    intros done Hnp Hw; specialize (Hnext done Hnp Hw); inversion Hnext; subst;
    by repeat constructor).
Qed.

(** A child with no pending node does not throw a thenable. *)
Lemma render_noPending done child r w p r' w' :
  noPending done child -> settled w = done ->
  render child r w <> (ThrewThenable p, r', w').
Proof.
  intros Hnp Hw Hr. unfold render in Hr.
  destruct child;
    [ destruct (decide (text = ""));
        [| destruct (makeStaticMarkup r); [| destruct (previousWasTextNode r)]];
        discriminate
    | .. ].
  all: match type of Hr with
       | context [resolve ?c _] =>
           destruct (noPending_resolve done c w Hnp Hw) as [(nc & Hres & Hnc)|[e0 He]];
             [rewrite Hres in Hr | rewrite He in Hr; discriminate]
       end.
  all: destruct nc as [t'| |cs'|h' cs'|fb' cs'|c0 v' cs'|c0 f'|p' body'|body'|p' body'|e'];
    try discriminate.
  all: try (unfold renderDOM in Hr;
            destruct (negb (h_validTag h')); [discriminate|];
            destruct (negb (h_validProps h')); [discriminate|];
            destruct (h_omittedClose h'), (h_innerMarkup h'); discriminate).
  all: try (simpl in Hr; destruct fb'; discriminate).
  all: try (destruct (pushProvider c0 v' r w) as [[r1 w1]|e1 [r1 w1]]; discriminate).
  all: try (destruct (validateContextBounds c0 (threadID r) w); [|discriminate];
            destruct (readSlot c0 (threadID r) w); discriminate).
  all: inversion Hnc; subst; unfold isSettled in Hr;
    rewrite bool_decide_eq_true_2 in Hr by done; discriminate.
Qed.

End Turns.

(** *** The array [out] when every cell holds a string *)

Lemma outAdd_strs (strs : list string) (d : nat) (s : string) :
  d < length strs ->
  outAdd (Some <$> strs) d s = Some <$> alter (fun x => x +:+ s) d strs.
Proof.
  intros Hd. unfold outAdd, arraySet. rewrite length_fmap.
  destruct (decide (d < length strs)) as [_|]; [|lia].
  destruct (lookup_lt_is_Some_2 strs d Hd) as [x Hx].
  rewrite list_lookup_fmap, Hx. simpl.
  apply list_eq. intros i.
  destruct (decide (i = d)) as [->|Hne].
  - rewrite list_lookup_insert_eq by (rewrite length_fmap; lia).
    by rewrite list_lookup_fmap, list_lookup_alter_eq, Hx.
  - rewrite list_lookup_insert_ne by done.
    by rewrite !list_lookup_fmap, list_lookup_alter_ne.
Qed.

Lemma outPop_strs (strs : list string) (x : string) :
  outPop (Some <$> (strs ++ [x])) = (Some x, Some <$> strs).
Proof. rewrite fmap_app. simpl. apply outPop_last. Qed.

Lemma alter_last (strs : list string) (x s : string) :
  alter (fun y => y +:+ s) (length strs) (strs ++ [x]) = strs ++ [x +:+ s].
Proof.
  rewrite (alter_app_r_alt _ strs [x] (length strs)) by lia.
  by rewrite Nat.sub_diag.
Qed.

Section RunInv.
Context `{Encoder}.

Lemma popProvider_settled r w r' w' :
  popProvider r w = Ok (r', w') -> settled w' = settled w.
Proof.
  unfold popProvider. destruct (arrayGet (contextStack r) (contextIndex r)); [|discriminate].
  intros Heq. injection Heq as <- <-.
  by destruct (arrayGet (contextValueStack r) (contextIndex r)).
Qed.

(** What a turn leaves of the stack and the depth. *)
Lemma turn_runInv done r w :
  noPendingStack done (stack r) -> settled w = done ->
  suspenseDepth r = boundariesOf (stack r) ->
  let keeps r' w' :=
    noPendingStack done (stack r') /\ settled w' = done
    /\ suspenseDepth r' = boundariesOf (stack r') in
  match turn false r w with
  | TurnBreak r' w' => True
  | TurnFooter r' w' foot => keeps r' w' /\ suspenseDepth r' = suspenseDepth r
  | TurnBoundary r' w' foot fallback =>
      keeps r' w' /\ suspenseDepth r = S (suspenseDepth r')
  | TurnRender c r' w' =>
      (forall p, c <> ThrewThenable p)
      /\ (forall s, c = Returned s ->
            keeps r' w'
            /\ (suspenseDepth r' = suspenseDepth r
                \/ suspenseDepth r' = S (suspenseDepth r)))
  | TurnThrow e r' w' => True
  end.
Proof.
  intros Hnp Hw Hd keeps. subst done. unfold turn.
  destruct (stack r) as [|frame rest] eqn:Hs; [done|]. simpl.
  inversion Hnp as [|? ? Hframe Hrest]; subst.
  destruct (frameDone frame) eqn:Hdone.
  - set (r1 := if decide (footer frame = "") then r else setPreviousWasTextNode r false).
    assert (suspenseDepth r1 = suspenseDepth r) as Hd1
      by (subst r1; by destruct (decide (footer frame = ""))).
    simpl in Hd.
    destruct (f_type frame) as [|tag|c| |] eqn:Hty.
    + split; [|done]. split_and!; [done | done |]. simpl. congruence.
    + destruct (decide (tag = "select")); (split; [|done]);
        (split_and!; [done | done |]); simpl; congruence.
    + destruct (popProvider (setStack r1 rest) w) as [[r3 w3]|e [r3 w3]] eqn:Hpop; [|done].
      destruct (popProvider_fields _ _ _ _ Hpop) as (_ & Hd3 & Hs3). simpl in Hd3, Hs3.
      pose proof (popProvider_settled _ _ _ _ Hpop) as Hse.
      split; [|congruence]. split_and!; [by rewrite Hs3 | congruence |].
      rewrite Hs3. congruence.
    + split; [|done]. split_and!; [done | done |]. simpl. congruence.
    + split; [|simpl; rewrite Hd1, Hd; done].
      split_and!; [done | done |]. simpl. rewrite Hd1, Hd. done.
  - destruct (frameDone_false_lookup frame Hdone) as [child Hc]. rewrite Hc.
    destruct (render child _ w) as [[c r2] w2] eqn:Hr.
    assert (noPending (settled w) child) as Hchild.
    { eapply Forall_lookup_1; [exact Hframe | exact Hc]. }
    split.
    + intros p ->. by eapply render_noPending.
    + intros s ->. destruct (render_returned _ _ _ _ _ _ Hr) as (Hse & Hpush).
      simpl in Hpush.
      destruct Hpush as [[Hs2 Hd2]|(f & Hs2 & Hty & Hf)].
      * split; [|by left]. unfold keeps. rewrite Hs2, Hd2. split_and!; [|congruence|done].
        constructor; done.
      * specialize (Hf (settled w) Hchild eq_refl).
        assert (noPendingStack (settled w) (stack r2)) as Hnp2.
        { rewrite Hs2. constructor; [done|]. constructor; done. }
        destruct Hty as [[Hty Hd2]|[Hty Hd2]].
        -- split; [|by right]. unfold keeps. split_and!; [done | congruence |].
           rewrite Hs2, Hd2. simpl. rewrite Hty. simpl in Hd. by rewrite Hd.
        -- split; [|by left]. unfold keeps. split_and!; [done | congruence |].
           rewrite Hs2, Hd2. simpl. destruct (f_type f); try done; simpl in Hd; by rewrite Hd.
Qed.

(** One turn of [read] on the strings of [out]. *)
Lemma readStep_strs done st strs :
  runInv done st -> rs_out st = Some <$> strs ->
  match turn false (rs_renderer st) (rs_world st) with
  | TurnBreak r w => readStep st = Break (mkReadState r w (Some <$> strs) false)
  | TurnFooter r w foot =>
      readStep st
      = Continue (mkReadState r w
                    (Some <$> alter (fun y => y +:+ foot) (suspenseDepth r) strs) false)
  | TurnBoundary r w foot _ =>
      exists strs0 x,
        strs = strs0 ++ [x] /\ length strs0 = S (suspenseDepth r)
        /\ readStep st
           = Continue (mkReadState r w
                         (Some <$> alter (fun y => y +:+ foot) (suspenseDepth r)
                                    (alter (fun y => y +:+ x) (suspenseDepth r) strs0))
                         false)
  | TurnRender (Returned s) r w =>
      readStep st
      = Continue (mkReadState r w
                    (Some <$> alter (fun y => y +:+ s) (suspenseDepth r)
                               (if length strs <=? suspenseDepth r
                                then strs ++ [""] else strs))
                    false)
  | TurnRender (ThrewThenable p) r w => False
  | TurnRender (ThrewError e) r w =>
      readStep st = Throw e (mkReadState r w (Some <$> strs) false)
  | TurnThrow e r w => readStep st = Throw e (mkReadState r w (Some <$> strs) false)
  end.
Proof.
  intros (Hsus & Hnp & Hw & Hd & strs' & Hout & Hlen) Hstrs.
  rewrite Hstrs in Hout. apply (inj (fmap Some)) in Hout. subst strs'.
  pose proof (turn_runInv done _ _ Hnp Hw Hd) as Hturn. simpl in Hturn.
  rewrite readStep_turn. rewrite Hsus, Hstrs. cbn zeta.
  destruct (turn false (rs_renderer st) (rs_world st)) as
    [r w|r w foot|r w foot fb|c r w|e r w]; try reflexivity.
  - destruct Hturn as [_ Hd']. rewrite outAdd_strs by lia. reflexivity.
  - destruct Hturn as [_ Hd'].
    destruct (decide (strs = [])) as [->|Hne]; [simpl in Hlen; lia|].
    destruct (exists_last Hne) as (strs0 & x & ->).
    rewrite length_app in Hlen. simpl in Hlen.
    exists strs0, x. split; [done|]. split; [lia|].
    rewrite outPop_strs. simpl.
    rewrite outAdd_strs by lia. rewrite outAdd_strs by (rewrite length_alter; lia).
    reflexivity.
  - destruct Hturn as [Hth Hret]. destruct c as [s|p|e]; [| by eapply Hth |reflexivity].
    destruct (Hret s eq_refl) as [_ Hd'].
    rewrite length_fmap.
    destruct (length strs <=? suspenseDepth r) eqn:Hle.
    + apply Nat.leb_le in Hle.
      change ((Some <$> strs) ++ [Some ""]) with ((Some <$> strs) ++ (Some <$> [""])).
      rewrite <- fmap_app. rewrite outAdd_strs by (rewrite length_app; simpl; lia).
      reflexivity.
    + apply Nat.leb_gt in Hle. rewrite outAdd_strs by lia. reflexivity.
Qed.

(** [runInv] is kept by every turn that goes on. *)
Lemma readStep_runInv done st st' :
  runInv done st -> readStep st = Continue st' -> runInv done st'.
Proof.
  intros Hinv Hstep.
  pose proof Hinv as (Hsus & Hnp & Hw & Hd & strs & Hout & Hlen).
  pose proof (turn_runInv done _ _ Hnp Hw Hd) as Hturn. simpl in Hturn.
  pose proof (readStep_strs done st strs Hinv Hout) as Hs.
  destruct (turn false (rs_renderer st) (rs_world st)) as
    [r w|r w foot|r w foot fb|c r w|e r w].
  - congruence.
  - rewrite Hs in Hstep. injection Hstep as <-.
    destruct Hturn as [(? & ? & ?) Hd']. split_and!; try done.
    eexists. split; [reflexivity|]. rewrite length_alter. simpl. lia.
  - destruct Hs as (strs0 & x & -> & Hl0 & Hs). rewrite Hs in Hstep. injection Hstep as <-.
    destruct Hturn as [(? & ? & ?) Hd']. split_and!; try done.
    eexists. split; [reflexivity|]. rewrite !length_alter. simpl. lia.
  - destruct Hturn as [Hth Hret]. destruct c as [s|p|e]; [|done|congruence].
    rewrite Hs in Hstep. injection Hstep as <-.
    destruct (Hret s eq_refl) as [(? & ? & ?) Hd']. split_and!; try done.
    eexists. split; [reflexivity|]. rewrite length_alter. simpl.
    destruct (length strs <=? suspenseDepth r) eqn:Hle.
    + apply Nat.leb_le in Hle. rewrite length_app. simpl. lia.
    + apply Nat.leb_gt in Hle. lia.
  - congruence.
Qed.

End RunInv.

(** ** The run of [read] on a tree with no pending node ends *)

(** Induction on a tree with no pending node, with the hypothesis for every
    child of a list of children. *)
Lemma noPending_induction (done : list nat) (P : Node -> Prop) :
  (forall text, P (Text text)) ->
  P Empty ->
  (forall children, Forall P children -> P (Fragment children)) ->
  (forall h children, Forall P children -> P (Host h children)) ->
  (forall fallback children, Forall P children -> P (Suspense fallback children)) ->
  (forall context value children,
      Forall P children -> P (Provider context value children)) ->
  (forall context children,
      (forall v, Forall P (children v)) -> P (Consumer context children)) ->
  (forall p body, p ∈ done -> P body -> P (Lazy p body)) ->
  (forall body, P body -> P (Composite body)) ->
  (forall p body, p ∈ done -> P body -> P (Suspending p body)) ->
  (forall e, P (Failing e)) ->
  forall child, noPending done child -> P child.
Proof.
  intros Htext Hempty Hfragment Hhost Hsuspense Hprovider Hconsumer Hlazy
    Hcomposite Hsuspending Hfailing.
  fix IH 2. intros child Hchild.
  pose (go := fix go (cs : list Node) (Hcs : Forall (noPending done) cs)
                {struct Hcs} : Forall P cs :=
          match Hcs with
          | List.Forall_nil _ => List.Forall_nil _
          | @List.Forall_cons _ _ c cs' Hc Hcs' =>
              @List.Forall_cons _ _ c cs' (IH c Hc) (go cs' Hcs')
          end).
  destruct Hchild as
    [text| |children Hcs|h children Hcs|fallback children Hfb Hcs
    |context value children Hcs|context children Hcs|p body Hp Hbody
    |body Hbody|p body Hp Hbody|e].
  - apply Htext.
  - apply Hempty.
  - apply Hfragment, (go _ Hcs).
  - apply Hhost, (go _ Hcs).
  - apply Hsuspense, (go _ Hcs).
  - apply Hprovider, (go _ Hcs).
  - apply Hconsumer. intros v. apply (go _ (Hcs v)).
  - apply Hlazy; [exact Hp|apply IH, Hbody].
  - apply Hcomposite, IH, Hbody.
  - apply Hsuspending; [exact Hp|apply IH, Hbody].
  - apply Hfailing.
Qed.

Section Halting.
Context `{Encoder}.

Lemma readSteps_add n m st :
  readSteps (n + m) st
  = match readSteps n st with
    | Continue st' => readSteps m st'
    | other => other
    end.
Proof.
  revert st. induction n as [|n IH]; intros st; [reflexivity|].
  simpl. destruct (readStep st) as [st1|st1|e st1]; [apply IH|reflexivity..].
Qed.

Lemma readSteps_runInv done n st st' :
  runInv done st -> readSteps n st = Continue st' -> runInv done st'.
Proof.
  revert st. induction n as [|n IH]; intros st Hinv Hrun.
  - simpl in Hrun. by injection Hrun as <-.
  - simpl in Hrun. destruct (readStep st) as [st1|st1|e st1] eqn:Hstep; [|done..].
    eapply IH; [|exact Hrun]. eapply readStep_runInv; eauto.
Qed.

Lemma unwinds_here st : unwinds st (stack (rs_renderer st)).
Proof. exists 0. right. by exists st. Qed.

Lemma unwinds_step st st1 s0 :
  readStep st = Continue st1 -> unwinds st1 s0 -> unwinds st s0.
Proof.
  intros Hstep [n Hn]. exists (S n). simpl. by rewrite Hstep.
Qed.

Lemma unwinds_throw st e st1 s0 : readStep st = Throw e st1 -> unwinds st s0.
Proof.
  intros Hstep. exists 1. left. exists e, st1. simpl. by rewrite Hstep.
Qed.

Lemma unwinds_trans done st s1 s0 :
  runInv done st -> unwinds st s1 ->
  (forall st', runInv done st' -> stack (rs_renderer st') = s1 -> unwinds st' s0) ->
  unwinds st s0.
Proof.
  intros Hinv [n [(e & stE & Hn)|(st' & Hn & Hs)]] Hnext.
  - exists n. left. by exists e, stE.
  - destruct (Hnext st' (readSteps_runInv _ _ _ _ Hinv Hn) Hs) as [m Hm].
    exists (n + m). by rewrite readSteps_add, Hn.
Qed.

(** The turn that ends a frame leaves the stack below it. *)
Lemma turn_done r w frame rest :
  stack r = frame :: rest -> frameDone frame = true ->
  match turn false r w with
  | TurnFooter r' _ _ => stack r' = rest
  | TurnBoundary r' _ _ _ => stack r' = rest
  | TurnThrow _ _ _ => True
  | _ => False
  end.
Proof.
  intros Hs Hdone. unfold turn. rewrite Hs, Hdone. simpl.
  destruct (f_type frame) as [|tag|c| |].
  - by destruct (decide (footer frame = "")).
  - destruct (decide (tag = "select")); by destruct (decide (footer frame = "")).
  - destruct (popProvider _ w) as [[r3 w3]|e [r3 w3]] eqn:Hpop; [|done].
    apply popProvider_fields in Hpop as (_ & _ & ->).
    by destruct (decide (footer frame = "")).
  - by destruct (decide (footer frame = "")).
  - by destruct (decide (footer frame = "")).
Qed.

(** The turn that renders the next child of a frame. *)
Lemma turn_render r w frame rest child :
  stack r = frame :: rest -> frameDone frame = false ->
  f_children frame !! childIndex frame = Some child ->
  turn false r w
  = match render child (setStack r (advance frame :: rest)) w with
    | (c, r2, w2) => TurnRender c r2 w2
    end.
Proof. intros Hs Hdone Hchild. unfold turn. by rewrite Hs, Hdone, Hchild. Qed.

Lemma resolve_kids (P : list Node -> Prop) child w next :
  resolve child w = ResolvedTo next -> kidsAll P child -> kidsAll P next.
Proof.
  induction child as [t| |cs|h cs|fb cs|c v cs|c f|p body IH|body IH|p body IH|e];
    simpl; intros Hres Hkids; try (injection Hres as <-; exact Hkids).
  - by apply IH.
  - destruct (isSettled p w); [by apply IH|discriminate].
  - discriminate.
Qed.

(** The frame that [render] pushes, if any, holds children of the tree. *)
Lemma render_frame (P : list Node -> Prop) child r w s r' w' :
  render child r w = (Returned s, r', w') -> kidsAll P child ->
  stack r' = stack r \/ exists f, stack r' = f :: stack r /\ P (f_children f).
Proof.
  intros Hr Hkids.
  assert (forall next, resolve child w = ResolvedTo next -> kidsAll P next) as Hnext.
  { intros next Hres. eapply resolve_kids; eauto. }
  unfold render, renderDOM in Hr.
  destruct child;
    [ destruct (decide (text = ""));
        [| destruct (makeStaticMarkup r); [| destruct (previousWasTextNode r)]];
        injection Hr as <- <- <-; by left
    | .. ];
    (destruct (resolve _ w) as [nextChild|p'|e']; [|discriminate..]);
    specialize (Hnext nextChild eq_refl); clear Hkids;
    (destruct nextChild as [t'| |cs'|h' cs'|fb' cs'|c0 v' cs'|c0 f'|p' body'|body'|p' body'|e'];
      simpl in Hnext;
      try discriminate;
      try (injection Hr as <- <- <-; first [by left | right; eexists; by split])).
  all: try (destruct (negb (h_validTag h')); [discriminate|];
            destruct (decide (h_tag h' = "select"));
            (destruct (negb (h_validProps h')); [discriminate|]);
            destruct (h_omittedClose h'), (h_innerMarkup h');
            injection Hr as <- <- <-; right; eexists; (split; [reflexivity|]);
            simpl; tauto).
  all: try (simpl in Hr; destruct fb'; injection Hr as <- <- <-;
            right; eexists; by split).
  all: try (destruct (pushProvider c0 v' r w) as [[r1 w1]|e1 [r1 w1]] eqn:Hpp;
            [|discriminate];
            destruct (pushProvider_fields _ _ _ _ _ _ Hpp) as (_ & _ & Hst);
            injection Hr as <- <- <-; right; eexists; simpl; rewrite Hst; by split).
  all: try (destruct (validateContextBounds c0 (threadID r) w);
            [destruct (readSlot c0 (threadID r) w)|]; try discriminate;
            injection Hr as <- <- <-; right; eexists; (split; [reflexivity|]);
            simpl; apply Hnext).
  all: try (destruct (isSettled p' w); [|discriminate];
            injection Hr as <- <- <-; right; eexists; by split).
Qed.

(** The run through a frame whose children all render through. *)
Lemma frame_unwinds done cs :
  Forall (rendersThrough done) cs ->
  forall k st frame rest,
    runInv done st -> stack (rs_renderer st) = frame :: rest ->
    f_children frame = cs -> length cs - childIndex frame = k ->
    unwinds st rest.
Proof.
  intros Hcs. induction k as [|k IH]; intros st frame rest Hinv Hs Hf Hk.
  - assert (frameDone frame = true) as Hdone.
    { unfold frameDone. rewrite Hf. apply Nat.leb_le. lia. }
    pose proof Hinv as (_ & _ & _ & _ & strs & Hout & _).
    pose proof (readStep_strs done st strs Hinv Hout) as Hstep.
    pose proof (turn_done _ (rs_world st) _ _ Hs Hdone) as Hturn.
    destruct (turn false (rs_renderer st) (rs_world st)) as
      [r w|r w foot|r w foot fb|c r w|e r w]; try done.
    + eapply unwinds_step; [exact Hstep|]. subst rest. apply unwinds_here.
    + destruct Hstep as (strs0 & x & _ & _ & Hstep).
      eapply unwinds_step; [exact Hstep|]. subst rest. apply unwinds_here.
    + eapply unwinds_throw; exact Hstep.
  - assert (childIndex frame < length (f_children frame)) as Hlt by (rewrite Hf; lia).
    assert (frameDone frame = false) as Hdone.
    { unfold frameDone. apply Nat.leb_gt. lia. }
    destruct (lookup_lt_is_Some_2 _ _ Hlt) as [child Hchild].
    assert (rendersThrough done child) as Hgood.
    { rewrite Forall_forall in Hcs. apply Hcs. rewrite <- Hf.
      eapply list_elem_of_lookup_2; eauto. }
    pose proof Hinv as (_ & _ & _ & _ & strs & Hout & _).
    pose proof (readStep_strs done st strs Hinv Hout) as Hstep.
    rewrite (turn_render _ (rs_world st) _ _ _ Hs Hdone Hchild) in Hstep.
    destruct (render child _ (rs_world st)) as [[c r2] w2] eqn:Hrender.
    destruct c as [s|p|e]; [|done|eapply unwinds_throw; exact Hstep].
    eapply unwinds_step; [exact Hstep|].
    eapply (unwinds_trans done).
    + eapply readStep_runInv; eauto.
    + eapply Hgood; [exact Hrender|reflexivity|reflexivity|].
      eapply readStep_runInv; eauto.
    + simpl. intros st2 Hinv2 Hs2.
      eapply (IH st2 (advance frame)); eauto. simpl. lia.
Qed.

Lemma kids_rendersThrough done child :
  kidsAll (Forall (rendersThrough done)) child -> rendersThrough done child.
Proof.
  intros Hkids r w s r' w' st' Hrender Hr Hw Hinv.
  destruct (render_frame _ _ _ _ _ _ _ Hrender Hkids) as [Hs|(f & Hs & Hf)].
  - rewrite <- Hs, <- Hr. apply unwinds_here.
  - eapply (frame_unwinds done (f_children f) Hf _ st' f); eauto.
    by rewrite Hr.
Qed.

Lemma noPending_kids done child :
  noPending done child -> kidsAll (Forall (rendersThrough done)) child.
Proof.
  intros Hchild. induction Hchild using noPending_induction; simpl; try done.
  - constructor; [|constructor].
    intros r w s r' w' st' Hrender Hr Hw Hinv.
    assert (stack r' = stack r) as Hs.
    { unfold render in Hrender.
      destruct (decide (text = ""));
        [| destruct (makeStaticMarkup r); [| destruct (previousWasTextNode r)]];
        by injection Hrender as <- <- <-. }
    rewrite <- Hs, <- Hr. apply unwinds_here.
  - eapply Forall_impl; [eassumption|]. apply kids_rendersThrough.
  - split; [|constructor]. eapply Forall_impl; [eassumption|]. apply kids_rendersThrough.
  - eapply Forall_impl; [eassumption|]. apply kids_rendersThrough.
  - eapply Forall_impl; [eassumption|]. apply kids_rendersThrough.
  - intros v. eapply Forall_impl; [apply H0|]. apply kids_rendersThrough.
  - constructor; [|constructor]. by apply kids_rendersThrough.
Qed.

Lemma noPending_rendersThrough done child :
  noPending done child -> rendersThrough done child.
Proof. intros Hchild. by apply kids_rendersThrough, noPending_kids. Qed.

End Halting.

(** ** The calls of [read(bytes)] cut one run into pieces *)

Lemma prefixFirst_alter (pre s : string) (d : nat) (strs : list string) :
  prefixFirst pre (alter (fun y => y +:+ s) d strs)
  = alter (fun y => y +:+ s) d (prefixFirst pre strs).
Proof.
  destruct strs as [|x tl]; [reflexivity|].
  destruct d as [|d]; simpl; [|reflexivity].
  by rewrite string_app_assoc.
Qed.

Lemma prefixFirst_app (pre : string) (strs l : list string) :
  strs <> [] -> prefixFirst pre (strs ++ l) = prefixFirst pre strs ++ l.
Proof. by destruct strs. Qed.

Lemma prefixFirst_length (pre : string) (strs : list string) :
  length (prefixFirst pre strs) = length strs.
Proof. by destruct strs. Qed.

Lemma addPrefix_strs pre r w (strs : list string) sus :
  addPrefix pre (mkReadState r w (Some <$> strs) sus)
  = mkReadState r w (Some <$> prefixFirst pre strs) sus.
Proof. by destruct strs. Qed.

Lemma head_alter_pos {A} (f : A -> A) (d : nat) (l : list A) :
  0 < d -> head (alter f d l) = head l.
Proof. intros Hd. destruct l, d; try reflexivity. lia. Qed.

Section SyncChunks.
Context `{Encoder}.

Lemma runInv_addPrefix done pre st : runInv done st -> runInv done (addPrefix pre st).
Proof.
  intros (Hsus & Hnp & Hw & Hd & strs & Hout & Hlen).
  split_and!; try done.
  exists (prefixFirst pre strs). split; [|by rewrite prefixFirst_length].
  unfold addPrefix. simpl. rewrite Hout. by destruct strs.
Qed.

Lemma pushProvider_exhausted c v r w r1 w1 :
  pushProvider c v r w = Ok (r1, w1) -> exhausted r1 = exhausted r.
Proof.
  unfold pushProvider. destruct (validateContextBounds c (threadID r) w); [|discriminate].
  destruct (decide (0 <= contextIndex r + 1)%Z); intros Heq; by injection Heq as <- <-.
Qed.

Lemma popProvider_exhausted r w r' w' :
  popProvider r w = Ok (r', w') -> exhausted r' = exhausted r.
Proof.
  unfold popProvider. destruct (arrayGet (contextStack r) (contextIndex r)); [|discriminate].
  destruct (decide (0 <= contextIndex r)%Z); intros Heq; by injection Heq as <- <-.
Qed.

Lemma render_exhausted child r w s r' w' :
  render child r w = (Returned s, r', w') -> exhausted r' = exhausted r.
Proof.
  intros Hr. unfold render, renderDOM in Hr.
  destruct child;
    [ destruct (decide (text = ""));
        [| destruct (makeStaticMarkup r); [| destruct (previousWasTextNode r)]];
        by injection Hr as <- <- <-
    | .. ];
    (destruct (resolve _ w) as [nextChild|p'|e']; [|discriminate..]);
    (destruct nextChild as [t'| |cs'|h' cs'|fb' cs'|c0 v' cs'|c0 f'|p' body'|body'|p' body'|e'];
      try discriminate;
      try (by injection Hr as <- <- <-)).
  all: try (destruct (negb (h_validTag h')); [discriminate|];
            destruct (decide (h_tag h' = "select"));
            (destruct (negb (h_validProps h')); [discriminate|]);
            destruct (h_omittedClose h'), (h_innerMarkup h');
            by injection Hr as <- <- <-).
  all: try (simpl in Hr; destruct fb'; by injection Hr as <- <- <-).
  all: try (destruct (pushProvider c0 v' r w) as [[r1 w1]|e1 [r1 w1]] eqn:Hpp;
            [|discriminate];
            apply pushProvider_exhausted in Hpp;
            by injection Hr as <- <- <-).
  all: try (destruct (validateContextBounds c0 (threadID r) w);
            [destruct (readSlot c0 (threadID r) w)|]; try discriminate;
            by injection Hr as <- <- <-).
  all: try (destruct (isSettled p' w); [|discriminate];
            by injection Hr as <- <- <-).
Qed.

Lemma turn_exhausted sus r w :
  match turn sus r w with
  | TurnBreak _ _ => True
  | TurnFooter r' _ _ => exhausted r' = exhausted r
  | TurnBoundary r' _ _ _ => exhausted r' = exhausted r
  | TurnRender (Returned _) r' _ => exhausted r' = exhausted r
  | TurnRender _ _ _ => True
  | TurnThrow _ _ _ => True
  end.
Proof.
  unfold turn. destruct (stack r) as [|frame rest]; [done|].
  destruct (sus || frameDone frame).
  - destruct (f_type frame) as [|tag|c| |].
    + by destruct (decide (footer frame = "")).
    + destruct (decide (tag = "select")); by destruct (decide (footer frame = "")).
    + destruct (popProvider _ w) as [[r3 w3]|e [r3 w3]] eqn:Hpop; [|done].
      apply popProvider_exhausted in Hpop. rewrite Hpop.
      by destruct (decide (footer frame = "")).
    + by destruct (decide (footer frame = "")).
    + by destruct (decide (footer frame = "")).
  - destruct (f_children frame !! childIndex frame) as [child|]; [|done].
    destruct (render child _ w) as [[c r2] w2] eqn:Hr.
    destruct c as [s|p|e]; [|done..].
    by apply render_exhausted in Hr.
Qed.

Lemma readStep_exhausted done st st' :
  runInv done st -> readStep st = Continue st' ->
  exhausted (rs_renderer st') = exhausted (rs_renderer st).
Proof.
  intros Hinv Hstep.
  pose proof Hinv as (_ & _ & _ & _ & strs & Hout & _).
  pose proof (readStep_strs done st strs Hinv Hout) as Hs.
  pose proof (turn_exhausted false (rs_renderer st) (rs_world st)) as He.
  destruct (turn false (rs_renderer st) (rs_world st)) as
    [r w|r w foot|r w foot fb|c r w|e r w].
  - congruence.
  - rewrite Hs in Hstep. by injection Hstep as <-.
  - destruct Hs as (strs0 & x & _ & _ & Hs). rewrite Hs in Hstep. by injection Hstep as <-.
  - destruct c as [s|p|e]; [|done|congruence].
    rewrite Hs in Hstep. by injection Hstep as <-.
  - congruence.
Qed.

Lemma readStep_break done st stE :
  runInv done st -> readStep st = Break stE ->
  exhausted (rs_renderer stE) = true /\ rs_out stE = rs_out st
  /\ length (rs_out st) = 1.
Proof.
  intros Hinv Hstep.
  pose proof Hinv as (_ & _ & _ & Hd & strs & Hout & Hlen).
  pose proof (readStep_strs done st strs Hinv Hout) as Hs.
  unfold turn in Hs.
  destruct (stack (rs_renderer st)) as [|frame rest] eqn:Hst.
  - rewrite Hs in Hstep. injection Hstep as <-. rewrite Hout. split_and!; try done.
    rewrite length_fmap, Hlen, Hd. reflexivity.
  - exfalso. revert Hs.
    destruct (false || frameDone frame).
    + destruct (f_type frame) as [|tag|c| |].
      * congruence.
      * destruct (decide (tag = "select")); congruence.
      * destruct (popProvider _ _) as [[r3 w3]|e [r3 w3]]; congruence.
      * congruence.
      * intros (strs0 & x & _ & _ & Hs). congruence.
    + destruct (f_children frame !! childIndex frame) as [child|]; [|congruence].
      destruct (render child _ _) as [[c r2] w2].
      destruct c as [s|p|e]; [congruence|done|congruence].
Qed.

Lemma readStep_head done st st' :
  runInv done st -> readStep st = Continue st' ->
  0 < suspenseDepth (rs_renderer st') ->
  head (rs_out st') = head (rs_out st).
Proof.
  intros Hinv Hstep.
  pose proof Hinv as (_ & _ & _ & _ & strs & Hout & Hlen).
  pose proof (readStep_strs done st strs Hinv Hout) as Hs.
  destruct strs as [|s0 tl]; [simpl in Hlen; lia|]. rewrite Hout.
  destruct (turn false (rs_renderer st) (rs_world st)) as
    [r w|r w foot|r w foot fb|c r w|e r w].
  - congruence.
  - rewrite Hs in Hstep. injection Hstep as <-. simpl. intros Hd.
    destruct (suspenseDepth r); [lia|reflexivity].
  - destruct Hs as (strs0 & x & Heq & Hl0 & Hs). rewrite Hs in Hstep.
    injection Hstep as <-. simpl. intros Hd.
    destruct strs0 as [|y strs0]; [simpl in Hl0; lia|].
    simpl in Heq. injection Heq as -> ->.
    destruct (suspenseDepth r); [lia|reflexivity].
  - destruct c as [s|p|e]; [|done|congruence].
    rewrite Hs in Hstep. injection Hstep as <-. simpl. intros Hd.
    destruct (suspenseDepth r) as [|d]; [lia|].
    by destruct (length tl <=? d).
  - congruence.
Qed.

(** A run whose first string starts with [pre] is the run without [pre],
    turn by turn. *)
Lemma readStep_addPrefix done pre st :
  runInv done st ->
  readStep (addPrefix pre st) = mapStep (addPrefix pre) (readStep st).
Proof.
  intros Hinv.
  pose proof Hinv as (Hsus & _ & _ & _ & strs & Hout & Hlen).
  assert (strs <> []) as Hne by (intros ->; simpl in Hlen; lia).
  pose proof (runInv_addPrefix done pre st Hinv) as Hinv'.
  assert (rs_out (addPrefix pre st) = Some <$> prefixFirst pre strs) as Hout'.
  { unfold addPrefix. simpl. rewrite Hout. by destruct strs. }
  pose proof (readStep_strs done st strs Hinv Hout) as H1.
  pose proof (readStep_strs done (addPrefix pre st) _ Hinv' Hout') as H2.
  cbn [addPrefix rs_renderer rs_world] in H2.
  destruct (turn false (rs_renderer st) (rs_world st)) as
    [r w|r w foot|r w foot fb|c r w|e r w].
  - rewrite H1, H2. simpl. by rewrite addPrefix_strs.
  - rewrite H1, H2. simpl. by rewrite addPrefix_strs, prefixFirst_alter.
  - destruct H1 as (strs0 & x & -> & Hl0 & H1).
    destruct H2 as (strs0' & x' & Heq & Hl0' & H2).
    assert (strs0 <> []) as Hne0 by (intros ->; simpl in Hl0; lia).
    rewrite prefixFirst_app in Heq by done.
    apply app_inj_tail in Heq as [<- <-].
    rewrite H1, H2. simpl. by rewrite addPrefix_strs, !prefixFirst_alter.
  - destruct c as [s|p|e]; [|done|].
    + rewrite H1, H2. simpl. rewrite addPrefix_strs, prefixFirst_alter.
      rewrite prefixFirst_length.
      destruct (length strs <=? suspenseDepth r); [|done].
      by rewrite prefixFirst_app.
    + rewrite H1, H2. simpl. by rewrite addPrefix_strs.
  - rewrite H1, H2. simpl. by rewrite addPrefix_strs.
Qed.

Lemma readSteps_addPrefix done pre n st :
  runInv done st ->
  readSteps n (addPrefix pre st) = mapStep (addPrefix pre) (readSteps n st).
Proof.
  revert st. induction n as [|n IH]; intros st Hinv; [reflexivity|].
  simpl. rewrite (readStep_addPrefix done) by done.
  destruct (readStep st) as [st1|st1|e st1] eqn:Hstep; simpl; [|reflexivity..].
  apply IH. eapply readStep_runInv; eauto.
Qed.

Lemma readSteps_break_out done n st stE :
  runInv done st -> readSteps n st = Break stE ->
  exists s, mjoin (head (rs_out stE)) = Some s.
Proof.
  revert st. induction n as [|n IH]; intros st Hinv Hrun; [discriminate|].
  simpl in Hrun. destruct (readStep st) as [st1|st1|e st1] eqn:Hstep.
  - eapply IH; [|exact Hrun]. eapply readStep_runInv; eauto.
  - injection Hrun as <-.
    destruct (readStep_break done _ _ Hinv Hstep) as (_ & -> & _).
    destruct Hinv as (_ & _ & _ & _ & strs & -> & Hlen).
    destruct strs as [|s0 tl]; [simpl in Hlen; lia|]. by exists s0.
  - discriminate.
Qed.

Lemma finalString_addPrefix pre st s :
  mjoin (head (rs_out st)) = Some s ->
  finalString (addPrefix pre st) = pre +:+ finalString st.
Proof.
  unfold finalString, addPrefix. simpl.
  destruct (rs_out st) as [|[x|] tl]; simpl; try discriminate. done.
Qed.

Lemma readAll_unfold fuel b r w :
  exhausted r = false ->
  readAll (S fuel) b r w
  = finishRead (readLoop fuel b (mkReadState r w [Some ""] false)) fuel b.
Proof.
  intros He. cbn [readAll]. unfold read. rewrite He.
  by destruct (readLoop fuel b _) as [st|e st|].
Qed.

Lemma readAll_exhausted fuel b r w :
  exhausted r = true -> readAll (S fuel) b r w = Finished ("", r, w).
Proof. intros He. cbn [readAll]. unfold read. by rewrite He. Qed.

(** From a state of the loop of [read(bytes)], with [m] turns to go before
    the run ends: the calls that follow return, joined, the rest of what the
    run writes. *)
Lemma readLoop_chunks done b m :
  below 0 b = true ->
  forall st inner outer,
    runInv done st -> exhausted (rs_renderer st) = false -> headBelow b st ->
    m <= inner -> m < outer ->
    match readSteps m st with
    | Break stE =>
        exists rE wE,
          finishRead (readLoop inner b st) outer b = Finished (finalString stE, rE, wE)
    | Throw e _ => exists x, finishRead (readLoop inner b st) outer b = Crashed e x
    | Continue _ => True
    end.
Proof.
  intros Hb. induction m as [|m IH]; intros st inner outer Hinv Hex Hhead Hin Hout;
    [done|].
  assert (forall st inner outer,
    runInv done st -> exhausted (rs_renderer st) = false ->
    (exists s, mjoin (head (rs_out st)) = Some s /\ below (String.length s) b = true) ->
    S m <= inner -> S m <= outer ->
    match readSteps (S m) st with
    | Break stE =>
        exists rE wE,
          finishRead (readLoop inner b st) outer b = Finished (finalString stE, rE, wE)
    | Throw e _ => exists x, finishRead (readLoop inner b st) outer b = Crashed e x
    | Continue _ => True
    end) as Hgo.
  { clear st inner outer Hinv Hex Hhead Hin Hout.
    intros st inner outer Hinv Hex (s & Hs & Hbelow) Hin Hout.
    destruct inner as [|inner]; [lia|].
    cbn [readSteps readLoop]. unfold out0Length. rewrite Hs.
    cbn [fmap option_fmap option_map]. rewrite Hbelow.
    destruct (readStep st) as [st1|stE|e stE] eqn:Hstep.
    - apply IH; [| | |lia|lia].
      + eapply readStep_runInv; eauto.
      + erewrite readStep_exhausted; eauto.
      + intros Hd. exists s. split; [|done]. rewrite <- Hs. f_equal.
        eapply readStep_head; eauto.
    - destruct (readStep_break done _ _ Hinv Hstep) as (Hexh & Houteq & _).
      destruct outer as [|outer]; [lia|].
      exists (rs_renderer stE), (rs_world stE). cbn [finishRead].
      rewrite Houteq, Hs. rewrite readAll_exhausted by done.
      unfold finalString. rewrite Houteq, Hs. simpl. by rewrite string_app_empty_r.
    - eexists. reflexivity. }
  pose proof Hinv as (Hsus & Hnp & Hw & Hd & strs & Houts & Hlen).
  destruct strs as [|s0 tl]; [simpl in Hlen; lia|].
  destruct (below (String.length s0) b) eqn:Hbelow.
  - apply Hgo; try done; [|lia].
    exists s0. split; [|done]. by rewrite Houts.
  - assert (suspenseDepth (rs_renderer st) = 0) as Hd0.
    { destruct (suspenseDepth (rs_renderer st)) eqn:E; [done|].
      destruct Hhead as (s & Hs & Hbs); [lia|]. rewrite Houts in Hs. simpl in Hs.
      injection Hs as <-. congruence. }
    assert (tl = []) as ->.
    { rewrite Hd0 in Hlen. destruct tl; [done|simpl in Hlen; lia]. }
    destruct inner as [|inner]; [lia|]. destruct outer as [|outer]; [lia|].
    cbn [readLoop]. unfold out0Length. rewrite Houts.
    cbn [fmap list_fmap head mjoin option_join option_fmap option_map].
    rewrite Hbelow. cbn [finishRead]. rewrite Houts.
    cbn [fmap list_fmap head mjoin option_join].
    rewrite readAll_unfold by done.
    set (st0 := mkReadState (rs_renderer st) (rs_world st) [Some ""] false).
    assert (runInv done st0) as Hinv0.
    { split_and!; try done. exists [""]. split; [done|]. simpl. by rewrite Hd0. }
    assert (st = addPrefix s0 st0) as Hst.
    { destruct st as [r w out sus]. simpl in *. subst. unfold addPrefix, st0. simpl.
      by rewrite string_app_empty_r. }
    specialize (Hgo st0 outer outer Hinv0 Hex).
    assert (readSteps (S m) st = mapStep (addPrefix s0) (readSteps (S m) st0)) as ->.
    { rewrite <- (readSteps_addPrefix done) by done. by rewrite <- Hst. }
    destruct (readSteps (S m) st0) as [st1|stE|e stE] eqn:Hrun; cbn [mapStep].
    + done.
    + destruct Hgo as (rE & wE & Hgo); [|lia|lia|].
      { exists "". split; [done|]. exact Hb. }
      rewrite Hgo. exists rE, wE.
      destruct (readSteps_break_out done _ _ _ Hinv0 Hrun) as [s Hs].
      by rewrite (finalString_addPrefix _ _ s).
    + destruct Hgo as (x & Hgo); [|lia|lia|].
      { exists "". split; [done|]. exact Hb. }
      rewrite Hgo. by eexists.
Qed.

End SyncChunks.

(** ** The queue of [readAsync] follows the array [out] of [read] *)

Lemma pureLevel_cons (s : string) (level : list Chunk) :
  pureLevel (Str s :: level) = s +:+ pureLevel level.
Proof. reflexivity. Qed.

Lemma pureQueue_mono D D' q : D <= D' -> pureQueue D q -> pureQueue D' q.
Proof.
  intros Hle Hq. eapply Forall_impl; [exact Hq|]. intros level [Hhead Hall]. split; [done|].
  eapply Forall_impl; [exact Hall|]. simpl. intros c [? ?]. split; [done|lia].
Qed.

Lemma boundary_pure D parts foot :
  Forall (fun c => pureChunk c /\ chunkDepth c <= D) parts ->
  pureChunk (Boundary parts foot) /\ chunkDepth (Boundary parts foot) <= S D.
Proof.
  intros Hparts. simpl. split.
  - induction Hparts as [|c parts [Hc _] _ IH]; simpl; [done|by split].
  - apply le_n_S. induction Hparts as [|c parts [_ Hc] _ IH]; simpl; lia.
Qed.

(** [pushToOutQueue] on the last level of a queue of strings and roll-ups. *)
Lemma pushToOutQueue_pure D x q0 level :
  pureLevelOk D level -> pureChunk x /\ chunkDepth x <= D ->
  exists level',
    pushToOutQueue x (length q0) (q0 ++ [level]) = Some (q0 ++ [level'])
    /\ pureLevelOk D level'.
Proof.
  intros [(s0 & rest & Hlevel) Hall] Hx. unfold pushToOutQueue.
  rewrite (list_lookup_middle q0 [] level (length q0) eq_refl).
  assert (forall l, <[length q0 := l]> (q0 ++ [level]) = (q0 ++ [l])%list) as Hins.
  { intros l. by rewrite (insert_app_r_alt q0 [level]), Nat.sub_diag by lia. }
  assert (pureLevelOk D (level ++ [x])) as Hsnoc.
  { split; [subst level; by eexists _, _|]. apply Forall_app. split; [done|by constructor]. }
  destruct x as [s|parts foot|p child static rc].
  - assert (level <> []) as Hne by (by subst level).
    destruct (exists_last Hne) as (l0 & c & Hl0).
    rewrite Hl0 in Hins, Hsnoc, Hall |- *.
    rewrite last_snoc.
    destruct c as [s1| |]; try (rewrite Hins; by eexists).
    rewrite removelast_last, Hins. eexists. split; [reflexivity|].
    apply Forall_app in Hall as [Hall0 _].
    split.
    + destruct l0 as [|c0 l0]; [by eexists _, _|].
      rewrite Hlevel in Hl0. simpl in Hl0. injection Hl0 as <- _. by eexists _, _.
    + apply Forall_app. split; [done|]. constructor; [|done]. simpl. split; [done|lia].
  - rewrite Hins. by eexists.
  - by destruct Hx.
Qed.

Lemma push_pure D x d q :
  pureQueue D q -> length q = S d -> pureChunk x /\ chunkDepth x <= D ->
  exists q',
    pushToOutQueue x d q = Some q' /\ pureQueue D q'
    /\ pureLevel <$> q' = alter (fun y => y +:+ pureValue x) d (pureLevel <$> q).
Proof.
  intros Hq Hlen Hx.
  destruct (decide (q = [])) as [->|Hne]; [done|].
  destruct (exists_last Hne) as (q0 & level & ->).
  rewrite length_app in Hlen. simpl in Hlen.
  assert (d = length q0) as -> by lia.
  apply Forall_app in Hq as [Hq0 Hlevel].
  apply Forall_cons in Hlevel as [Hlevel _].
  destruct (pushToOutQueue_pure D x q0 level Hlevel Hx) as (level' & Hpush & Hlevel').
  exists (q0 ++ [level']). split; [done|]. split.
  - apply Forall_app. split; [done|]. by constructor.
  - destruct (pushToOutQueue_last (fun _ _ _ _ => "") x q0 level _ Hpush)
      as (level'' & Heq & Hv).
    apply app_inj_tail in Heq as [_ <-].
    rewrite !fmap_app. simpl.
    rewrite <- (length_fmap pureLevel q0). rewrite alter_last.
    f_equal. f_equal. exact Hv.
Qed.

Lemma setOutQueue_setOutQueue r q q' : setOutQueue (setOutQueue r q) q' = setOutQueue r q'.
Proof. reflexivity. Qed.

Section AsyncChunks.
Context `{Encoder}.

(** One turn of [readAsync] next to the same turn of [read]. *)
Lemma readAsyncStep_rel done D pre q st :
  runInv done st -> asyncRel D pre q st ->
  match readStep st with
  | Continue st' =>
      exists q',
        readAsyncStep (setOutQueue (rs_renderer st) q) (rs_world st)
        = Continue (setOutQueue (rs_renderer st') q', rs_world st')
        /\ asyncRel (S D) pre q' st'
  | Break st' =>
      readAsyncStep (setOutQueue (rs_renderer st) q) (rs_world st)
      = Break (setOutQueue (rs_renderer st') q, rs_world st')
  | Throw e st' =>
      exists x,
        readAsyncStep (setOutQueue (rs_renderer st) q) (rs_world st) = Throw e x
  end.
Proof.
  intros Hinv [Hout Hq].
  pose proof Hinv as (_ & Hnp & Hw & Hd & strs & Hout' & Hlen).
  rewrite Hout in Hout'. apply (inj (fmap Some)) in Hout'. subst strs.
  rewrite prefixFirst_length, length_fmap in Hlen.
  assert (q <> []) as Hqne by (intros ->; simpl in Hlen; lia).
  assert (pureLevel <$> q <> []) as Hvne by (by destruct q).
  pose proof (readStep_strs done st _ Hinv Hout) as Hs.
  pose proof (turn_runInv done _ _ Hnp Hw Hd) as Hturn. simpl in Hturn.
  pose proof (pureQueue_mono D (S D) q (Nat.le_succ_diag_r D) Hq) as HqS.
  rewrite readAsyncStep_turn, turn_setOutQueue.
  destruct (turn false (rs_renderer st) (rs_world st)) as
    [r w|r w foot|r w foot fb|c r w|e r w]; cbn [turnWithQueue].
  - rewrite Hs. reflexivity.
  - rewrite Hs. destruct Hturn as [_ Hd'].
    cbn [suspenseDepth outQueue setOutQueue rs_renderer rs_world].
    destruct (push_pure (S D) (Str foot) (suspenseDepth r) q) as (q' & Hpush & Hq' & Hvals);
      [done|lia|simpl; split; [done|lia]|].
    rewrite Hpush. exists q'. split; [reflexivity|].
    split; [|done]. cbn [rs_out]. by rewrite Hvals, prefixFirst_alter.
  - destruct Hs as (strs0 & x & Heq & Hl0 & Hs). rewrite Hs.
    destruct Hturn as [_ Hd'].
    cbn [suspenseDepth outQueue setOutQueue rs_renderer rs_world].
    destruct (exists_last Hqne) as (q0 & results & ->).
    rewrite length_app in Hlen. simpl in Hlen.
    assert (q0 <> []) as Hq0ne by (intros ->; simpl in Hlen; lia).
    rewrite fmap_app in Heq. simpl in Heq.
    rewrite prefixFirst_app in Heq by (by destruct q0).
    apply app_inj_tail in Heq as [<- <-].
    rewrite last_snoc, removelast_last.
    apply Forall_app in Hq as [Hq0 Hres]. apply Forall_cons in Hres as [[_ Hres] _].
    destruct (push_pure (S D) (Boundary results foot) (suspenseDepth r) q0)
      as (q' & Hpush & Hq' & Hvals);
      [by eapply pureQueue_mono; [|exact Hq0]; lia|lia|by apply boundary_pure|].
    rewrite Hpush. exists q'. split; [reflexivity|].
    split; [|done]. cbn [rs_out]. rewrite Hvals, !prefixFirst_alter.
    f_equal. rewrite list_alter_alter_eq. apply list_alter_ext; [|done].
    intros y _. unfold compose, pureValue.
    rewrite (chunkValue_boundary (fun _ _ _ _ => "") results foot).
    unfold pureLevel. by rewrite string_app_assoc.
  - destruct Hturn as [Hth Hret]. destruct c as [s|p|e]; [|done|].
    + rewrite Hs. destruct (Hret s eq_refl) as [_ Hd'].
      cbn [suspenseDepth outQueue setOutQueue rs_renderer rs_world].
      rewrite prefixFirst_length, length_fmap.
      set (q1 := if length q <=? suspenseDepth r then (q ++ [[Str ""]])%list else q).
      assert (pureQueue (S D) q1 /\ length q1 = S (suspenseDepth r)
              /\ pureLevel <$> q1
                 = (if length q <=? suspenseDepth r
                    then (pureLevel <$> q) ++ [""] else pureLevel <$> q)) as (Hq1 & Hl1 & Hv1).
      { subst q1. destruct (length q <=? suspenseDepth r) eqn:Hle.
        - apply Nat.leb_le in Hle. split_and!.
          + apply Forall_app. split; [done|]. constructor; [|done].
            split; [by eexists _, _|]. constructor; [|done]. simpl. split; [done|lia].
          + rewrite length_app. simpl. lia.
          + by rewrite fmap_app.
        - apply Nat.leb_gt in Hle. split_and!; [done|lia|done]. }
      destruct (push_pure (S D) (Str s) (suspenseDepth r) q1) as (q' & Hpush & Hq' & Hvals);
        [done|done|simpl; split; [done|lia]|].
      exists q'. split.
      * subst q1. destruct (length q <=? suspenseDepth r);
          cbn [suspenseDepth outQueue setOutQueue]; by rewrite Hpush.
      * split; [|done]. cbn [rs_out]. rewrite Hvals, Hv1, prefixFirst_alter.
        destruct (length q <=? suspenseDepth r); [|done].
        by rewrite prefixFirst_app.
    + rewrite Hs. by eexists.
  - rewrite Hs. by eexists.
Qed.

End AsyncChunks.

(** ** The calls of [readAsync(bytes)] cut the same run into pieces *)

Lemma string_length_zero (s : string) : String.length s = 0 -> s = "".
Proof. by destruct s. Qed.

Lemma pureLevel_cons_chunk (c : Chunk) (level : list Chunk) :
  pureLevel (c :: level) = pureValue c +:+ pureLevel level.
Proof. reflexivity. Qed.

Lemma joinMarkup_pure parts foot :
  joinMarkup ((fun c => Some (pureValue c)) <$> parts) foot
  = pureValue (Boundary parts foot).
Proof.
  induction parts as [|c parts IH]; [reflexivity|].
  change (pureValue c +:+ joinMarkup ((fun c => Some (pureValue c)) <$> parts) foot
          = pureValue c +:+ pureValue (Boundary parts foot)).
  by rewrite IH.
Qed.

Lemma boundary_pure_inv D parts foot :
  pureChunk (Boundary parts foot) -> chunkDepth (Boundary parts foot) <= S D ->
  Forall (fun c => pureChunk c /\ chunkDepth c <= D) parts.
Proof.
  simpl. intros Hp Hd. apply le_S_n in Hd.
  induction parts as [|c parts IH]; [constructor|].
  simpl in Hp, Hd. destruct Hp as [Hc Hp].
  constructor; [split; [done|lia]|]. apply IH; [done|lia].
Qed.

Section AsyncRun.
Context `{Encoder}.

(** Awaiting the roll-up of a boundary gives what the boundary wrote. *)
Lemma awaitChunk_pure fuel :
  forall c w,
    pureChunk c -> chunkDepth c < fuel ->
    awaitChunk fuel c w = Finished (Some (pureValue c), w).
Proof.
  induction fuel as [|fuel IH]; intros c w Hp Hd; [lia|].
  destruct c as [s|parts foot|p child static rc]; [reflexivity| |done].
  cbn [awaitChunk].
  assert (Forall (fun c => pureChunk c /\ chunkDepth c <= fuel - 1) parts
          /\ 0 < fuel) as [Hparts Hfuel].
  { destruct fuel as [|fuel']; [simpl in Hd; lia|]. split; [|lia].
    apply (boundary_pure_inv _ _ foot); [done|].
    replace (S (S fuel' - 1)) with (S fuel') by lia. lia. }
  assert (awaitAll (awaitChunk fuel) parts w
          = Finished ((fun c => Some (pureValue c)) <$> parts, w)) as ->.
  { clear Hp Hd. induction Hparts as [|c parts [Hc Hdc] _ IHp]; [reflexivity|].
    cbn [awaitAll]. rewrite IH by (done || lia). by rewrite IHp. }
  by rewrite joinMarkup_pure.
Qed.

(** [flattenAndResolveQueue] on a level of strings and roll-ups: what it
    returns and what it leaves make up what the level held. *)
Lemma flattenFrom_pure fuel b D :
  below 0 b = true -> D < fuel ->
  forall rest s0 w,
    Forall (fun c => pureChunk c /\ chunkDepth c <= D) rest ->
    exists res rest',
      flattenFrom (awaitChunk fuel) b s0 rest w = Finished (res, Str "" :: rest', w)
      /\ res +:+ pureLevel rest' = s0 +:+ pureLevel rest
      /\ Forall (fun c => pureChunk c /\ chunkDepth c <= D) rest'
      /\ (res = "" -> rest' = []).
Proof.
  intros Hb HD. induction rest as [|c rest IH]; intros s0 w Hall.
  - cbn [flattenFrom]. destruct (String.length s0 =? 0) eqn:E.
    + apply Nat.eqb_eq, string_length_zero in E. subst s0. by exists "", [].
    + exists s0, []. split_and!; try done; intros ->; discriminate.
  - inversion Hall as [|? ? [Hc Hdc] Hrest]; subst. cbn [flattenFrom].
    destruct (below (String.length s0) b) eqn:Hbel.
    + destruct c as [s1|parts foot|p child static rc]; [| |done].
      * destruct (IH (s0 +:+ s1) w Hrest) as (res & rest' & Hf & Hv & Hall' & He).
        exists res, rest'. split_and!; try done.
        by rewrite Hv, pureLevel_cons, string_app_assoc.
      * destruct (negb (isInfinity b) && (0 <? String.length s0)) eqn:Hcut.
        -- exists s0, (Boundary parts foot :: rest). split_and!; try done;
             intros ->; simpl in Hcut; by rewrite andb_false_r in Hcut.
        -- rewrite awaitChunk_pure by (done || lia). cbn [default].
           destruct (IH (s0 +:+ pureValue (Boundary parts foot)) w Hrest)
             as (res & rest' & Hf & Hv & Hall' & He).
           exists res, rest'. split_and!; try done.
           by rewrite Hv, pureLevel_cons_chunk, string_app_assoc.
    + exists s0, (c :: rest). split_and!; try done;
        intros ->; simpl in Hbel; congruence.
Qed.

Lemma readAllAsync_unfold fuel b r w :
  readAllAsync (S fuel) b r w
  = match drained r with
    | None => Crashed TypeError ("", r, w)
    | Some true => Finished ("", r, w)
    | Some false => finishAsync (readAsyncLoop fuel b r w) fuel b
    end.
Proof.
  cbn [readAllAsync]. unfold readAsync, readAsyncWith.
  destruct (drained r) as [[|]|]; try reflexivity.
  destruct (readAsyncLoop fuel b r w) as [[r1 w1]|e [r1 w1]|]; cbn [finishAsync];
    try reflexivity.
  destruct (flattenAndResolveQueue _ b (outQueue r1) w1)
    as [[[res q] w2]|e [[res q] w2]|]; try reflexivity.
Qed.

(** One call of [readAsync] once the stack is empty. *)
Lemma readAsync_exhausted b D fuel r w s0 rest levels :
  below 0 b = true -> D < fuel ->
  exhausted r = true -> outQueue r = (Str s0 :: rest) :: levels ->
  Forall (fun c => pureChunk c /\ chunkDepth c <= D) rest ->
  (rest = [] /\ s0 = "" /\ readAsync fuel b r w = Finished (None, r, w))
  \/ exists res rest',
       readAsync fuel b r w
       = Finished (Some res, setOutQueue r ((Str "" :: rest') :: levels), w)
       /\ res +:+ pureLevel rest' = s0 +:+ pureLevel rest
       /\ Forall (fun c => pureChunk c /\ chunkDepth c <= D) rest'
       /\ (res = "" -> rest' = []).
Proof.
  intros Hb HD Hex Hq Hall.
  destruct (flattenFrom_pure fuel b D Hb HD rest s0 w Hall)
    as (res & rest' & Hf & Hv & Hall' & He).
  assert (readAsyncLoop fuel b r w = Finished (r, w)) as Hloop.
  { destruct fuel as [|fuel']; [lia|]. cbn [readAsyncLoop]. by rewrite Hex. }
  unfold readAsync, readAsyncWith, drained. rewrite Hex, Hq.
  destruct rest as [|c rest].
  - destruct (String.length s0 =? 0) eqn:E.
    + left. apply Nat.eqb_eq, string_length_zero in E. by subst.
    + right. exists res, rest'. rewrite Hloop, Hq. cbn [flattenAndResolveQueue].
      by rewrite Hf.
  - right. exists res, rest'. rewrite Hloop, Hq. cbn [flattenAndResolveQueue].
    by rewrite Hf.
Qed.

(** The calls of [readAsync] once the stack is empty return what the queue
    holds. *)
Lemma readAllAsync_exhausted b D :
  below 0 b = true ->
  forall n level levels r w fuel,
    exhausted r = true -> outQueue r = level :: levels ->
    pureLevelOk D level -> String.length (pureLevel level) <= n ->
    n + D + 3 <= fuel ->
    exists rE wE, readAllAsync fuel b r w = Finished (pureLevel level, rE, wE).
Proof.
  intros Hb. induction n as [n IH] using lt_wf_ind.
  intros level levels r w fuel Hex Hq [(s0 & rest & ->) Hall] Hlen Hfuel.
  apply Forall_cons in Hall as [_ Hall].
  destruct fuel as [|fuel]; [lia|].
  rewrite readAllAsync_unfold.
  destruct (readAsync_exhausted b D fuel r w s0 rest levels Hb ltac:(lia) Hex Hq Hall)
    as [(-> & -> & Hcall)|(res & rest' & Hcall & Hv & Hall' & He)].
  - unfold drained. rewrite Hex, Hq. simpl. by eexists _, _.
  - assert (readAllAsync (S fuel) b r w
            = match readAllAsync fuel b (setOutQueue r ((Str "" :: rest') :: levels)) w with
              | Finished (tl, r2, w2) => Finished (res +:+ tl, r2, w2)
              | Crashed e s' => Crashed e s'
              | OutOfFuel => OutOfFuel
              end) as Hunfold.
    { cbn [readAllAsync]. by rewrite Hcall. }
    rewrite <- readAllAsync_unfold, Hunfold.
    rewrite pureLevel_cons, <- Hv.
    destruct (decide (res = "")) as [->|Hres].
    + rewrite (He eq_refl). destruct fuel as [|fuel]; [lia|].
      rewrite readAllAsync_unfold. unfold drained. cbn [exhausted setOutQueue outQueue].
      rewrite Hex. simpl. by eexists _, _.
    + assert (0 < String.length res) as Hpos.
      { destruct res; [done|simpl; lia]. }
      rewrite pureLevel_cons, <- Hv, string_length_app in Hlen.
      destruct (IH (n - 1) ltac:(lia) (Str "" :: rest') levels
                  (setOutQueue r ((Str "" :: rest') :: levels)) w fuel)
        as (rE & wE & Hrest); try done.
      * split; [by eexists _, _|]. constructor; [|done]. simpl. split; [done|lia].
      * rewrite pureLevel_cons, string_app_empty_l. lia.
      * lia.
      * rewrite Hrest, pureLevel_cons, string_app_empty_l. by eexists _, _.
Qed.

End AsyncRun.

Section Agreement.
Context `{Encoder}.

Lemma queueBelow_pure D q b :
  pureQueue D q -> q <> [] ->
  exists s0 rest levels,
    q = (Str s0 :: rest) :: levels
    /\ queueBelow q b = Some (below (String.length s0) b).
Proof.
  intros Hq Hne. destruct q as [|level levels]; [done|].
  apply Forall_cons in Hq as [[(s0 & rest & ->) _] _]. by eexists _, _, _.
Qed.

Lemma asyncRel_nonempty done D pre q st :
  runInv done st -> asyncRel D pre q st -> q <> [].
Proof.
  intros (_ & _ & _ & _ & strs & Hout' & Hlen) [Hout _] ->.
  rewrite Hout in Hout'. apply (inj (fmap Some)) in Hout'. subst strs.
  simpl in Hlen. lia.
Qed.

(** From a state of the loop of [readAsync(bytes)], with [m] turns to go
    before the run of [read] ends: the calls that follow return, joined, the
    rest of what that run writes. *)
Lemma readAsyncLoop_chunks done b m :
  below 0 b = true ->
  forall st q pre D,
    runInv done st -> asyncRel D pre q st -> exhausted (rs_renderer st) = false ->
    match readSteps m st with
    | Break stE =>
        forall inner fuel,
          m <= inner -> 2 * m + D + String.length (finalString stE) + 3 <= fuel ->
          exists tail rE wE,
            finishAsync
              (readAsyncLoop inner b (setOutQueue (rs_renderer st) q) (rs_world st))
              fuel b
            = Finished (tail, rE, wE)
            /\ pre +:+ tail = finalString stE
    | Throw e _ =>
        forall inner fuel,
          m <= inner -> 2 * m + D + 3 <= fuel ->
          exists x,
            finishAsync
              (readAsyncLoop inner b (setOutQueue (rs_renderer st) q) (rs_world st))
              fuel b
            = Crashed e x
    | Continue _ => True
    end.
Proof.
  intros Hb. induction m as [|m IH]; intros st q pre D Hinv Hrel Hex; [done|].
  assert (forall st q pre D,
    runInv done st -> asyncRel D pre q st -> exhausted (rs_renderer st) = false ->
    queueBelow q b = Some true ->
    match readSteps (S m) st with
    | Break stE =>
        forall inner fuel,
          S m <= inner -> 2 * S m + D + String.length (finalString stE) + 2 <= fuel ->
          exists tail rE wE,
            finishAsync
              (readAsyncLoop inner b (setOutQueue (rs_renderer st) q) (rs_world st))
              fuel b
            = Finished (tail, rE, wE)
            /\ pre +:+ tail = finalString stE
    | Throw e _ =>
        forall inner fuel,
          S m <= inner -> 2 * S m + D + 2 <= fuel ->
          exists x,
            finishAsync
              (readAsyncLoop inner b (setOutQueue (rs_renderer st) q) (rs_world st))
              fuel b
            = Crashed e x
    | Continue _ => True
    end) as Hgo.
  { clear st q pre D Hinv Hrel Hex. intros st q pre D Hinv Hrel Hex Hbelow.
    pose proof (readAsyncStep_rel done D pre q st Hinv Hrel) as Hstep.
    assert (forall inner,
      readAsyncLoop (S inner) b (setOutQueue (rs_renderer st) q) (rs_world st)
      = match readAsyncStep (setOutQueue (rs_renderer st) q) (rs_world st) with
        | Continue (r', w') => readAsyncLoop inner b r' w'
        | Break s => Finished s
        | Throw e s => Crashed e s
        end) as Hloop.
    { intros inner. cbn [readAsyncLoop exhausted outQueue setOutQueue].
      by rewrite Hex, Hbelow. }
    cbn [readSteps].
    destruct (readStep st) as [st1|stE|e stE] eqn:Hsync.
    - destruct Hstep as (q1 & Hasync & Hrel1).
      assert (runInv done st1) as Hinv1 by (eapply readStep_runInv; eauto).
      assert (exhausted (rs_renderer st1) = false) as Hex1
        by (erewrite readStep_exhausted; eauto).
      specialize (IH st1 q1 pre (S D) Hinv1 Hrel1 Hex1).
      destruct (readSteps m st1) as [|stE|e stE]; [done| |].
      + intros inner fuel Hin Hfuel. destruct inner as [|inner]; [lia|].
        rewrite Hloop, Hasync. apply IH; lia.
      + intros inner fuel Hin Hfuel. destruct inner as [|inner]; [lia|].
        rewrite Hloop, Hasync. apply IH; lia.
    - intros inner fuel Hin Hfuel. destruct inner as [|inner]; [lia|].
      rewrite Hloop, Hstep. cbn [finishAsync outQueue setOutQueue].
      destruct (readStep_break done _ _ Hinv Hsync) as (HexE & HoutE & Hlen1).
      destruct Hrel as [Hout Hq].
      rewrite Hout, length_fmap, prefixFirst_length, length_fmap in Hlen1.
      destruct q as [|level [|]]; try (simpl in Hlen1; lia).
      apply Forall_cons in Hq as [[(s0 & rest & ->) Hall] _].
      apply Forall_cons in Hall as [_ Hall].
      assert (finalString stE = pre +:+ (s0 +:+ pureLevel rest)) as Hfinal.
      { unfold finalString. by rewrite HoutE, Hout. }
      rewrite Hfinal, !string_length_app in Hfuel.
      destruct (flattenFrom_pure fuel b D Hb ltac:(lia) rest s0 (rs_world stE) Hall)
        as (res & rest' & Hf & Hv & Hall' & He).
      cbn [flattenAndResolveQueue]. rewrite Hf.
      assert (String.length res + String.length (pureLevel rest')
              = String.length s0 + String.length (pureLevel rest)) as Hlens.
      { by rewrite <- !string_length_app, Hv. }
      destruct (readAllAsync_exhausted b D Hb (String.length (pureLevel rest'))
                  (Str "" :: rest') []
                  (setOutQueue (setOutQueue (rs_renderer stE) [Str s0 :: rest])
                     [Str "" :: rest'])
                  (rs_world stE) fuel) as (rE & wE & Hrest);
        [ done | done
        | split; [by eexists _, _|]; constructor; [|done]; simpl; split; [done|lia]
        | by rewrite pureLevel_cons, string_app_empty_l
        | lia
        | ].
      rewrite Hrest. eexists _, _, _. split; [reflexivity|].
      by rewrite Hfinal, pureLevel_cons, string_app_empty_l, Hv.
    - intros inner fuel Hin Hfuel. destruct inner as [|inner]; [lia|].
      destruct Hstep as [[rx wx] Hstep].
      rewrite Hloop, Hstep. by eexists. }
  pose proof (asyncRel_nonempty done D pre q st Hinv Hrel) as Hne.
  pose proof Hrel as [Hout Hq].
  destruct (queueBelow_pure D q b Hq Hne) as (s0 & rest & levels & -> & Hbelow).
  destruct (below (String.length s0) b) eqn:Hbel.
  - specialize (Hgo st _ pre D Hinv Hrel Hex Hbelow).
    destruct (readSteps (S m) st) as [|stE|e stE]; [done| |];
      intros inner fuel Hin Hfuel; apply Hgo; lia.
  - assert (forall inner,
      readAsyncLoop (S inner) b
        (setOutQueue (rs_renderer st) ((Str s0 :: rest) :: levels)) (rs_world st)
      = Finished (setOutQueue (rs_renderer st) ((Str s0 :: rest) :: levels),
                  rs_world st)) as Hloop.
    { intros inner. cbn [readAsyncLoop exhausted outQueue setOutQueue].
      by rewrite Hex, Hbelow. }
    apply Forall_cons in Hq as [[_ Hall] Hlevels].
    apply Forall_cons in Hall as [_ Hall].
    assert (forall res rest',
      res +:+ pureLevel rest' = s0 +:+ pureLevel rest ->
      Forall (fun c => pureChunk c /\ chunkDepth c <= D) rest' ->
      asyncRel D (pre +:+ res) ((Str "" :: rest') :: levels) st) as Hrel'.
    { intros res rest' Hv Hall'. split.
      - rewrite Hout, !fmap_cons. cbn [prefixFirst].
        by rewrite !pureLevel_cons, string_app_empty_l, string_app_assoc, Hv.
      - constructor; [|done]. split; [by eexists _, _|].
        constructor; [|done]. simpl. split; [done|lia]. }
    assert (forall rest',
      drained (setOutQueue
                 (setOutQueue (rs_renderer st) ((Str s0 :: rest) :: levels))
                 ((Str "" :: rest') :: levels)) = Some false) as Hdrained.
    { intros rest'. unfold drained. cbn [exhausted setOutQueue]. by rewrite Hex. }
    destruct (readSteps (S m) st) as [|stE|e stE] eqn:Hrun; [done| |].
    + intros inner fuel Hin Hfuel. destruct inner as [|inner]; [lia|].
      rewrite Hloop. cbn [finishAsync outQueue setOutQueue flattenAndResolveQueue].
      destruct (flattenFrom_pure fuel b D Hb ltac:(lia) rest s0 (rs_world st) Hall)
        as (res & rest' & Hf & Hv & Hall' & He).
      rewrite Hf. destruct fuel as [|fuel]; [lia|].
      rewrite readAllAsync_unfold, Hdrained.
      specialize (Hgo st _ (pre +:+ res) D Hinv (Hrel' res rest' Hv Hall') Hex (f_equal Some Hb)).
      rewrite Hrun in Hgo.
      destruct (Hgo fuel fuel) as (tail & rE & wE & Hfin & Htail); [lia|lia|].
      rewrite setOutQueue_setOutQueue, Hfin. eexists _, _, _. split; [reflexivity|].
      by rewrite <- Htail, string_app_assoc.
    + intros inner fuel Hin Hfuel. destruct inner as [|inner]; [lia|].
      rewrite Hloop. cbn [finishAsync outQueue setOutQueue flattenAndResolveQueue].
      destruct (flattenFrom_pure fuel b D Hb ltac:(lia) rest s0 (rs_world st) Hall)
        as (res & rest' & Hf & Hv & Hall' & He).
      rewrite Hf. destruct fuel as [|fuel]; [lia|].
      rewrite readAllAsync_unfold, Hdrained.
      specialize (Hgo st _ (pre +:+ res) D Hinv (Hrel' res rest' Hv Hall') Hex (f_equal Some Hb)).
      rewrite Hrun in Hgo.
      destruct (Hgo fuel fuel) as (x & Hfin); [lia|lia|].
      rewrite setOutQueue_setOutQueue, Hfin. by eexists.
Qed.

End Agreement.

(** ** The two readers agree *)

Lemma flattenTopLevelChildren_noPending done children :
  noPending done children -> Forall (noPending done) (flattenTopLevelChildren children).
Proof.
  intros Hnp.
  destruct children; simpl; try (constructor; [exact Hnp|constructor]).
  - constructor.
  - by inversion Hnp.
Qed.

Section Agreement.
Context `{Encoder}.

(** The state in which the first [read] finds a new renderer. *)
Lemma newRenderer_runInv children makeStatic w :
  noPending (settled w) children ->
  let r := fst (newRenderer children makeStatic w) in
  let w1 := snd (newRenderer children makeStatic w) in
  runInv (settled w) (mkReadState r w1 [Some ""] false)
  /\ exhausted r = false
  /\ stack r = [plainFrame (flattenTopLevelChildren children)]
  /\ suspenseDepth r = 0.
Proof.
  intros Hnp. unfold newRenderer, allocThreadID. simpl.
  split_and!; try done.
  split_and!; try done.
  - constructor; [|constructor]. by apply flattenTopLevelChildren_noPending.
  - by exists [""].
Qed.

(** The run of [read] on a tree with no pending node ends. *)
Lemma newRenderer_halts children makeStatic w :
  noPending (settled w) children ->
  halts (mkReadState (fst (newRenderer children makeStatic w))
           (snd (newRenderer children makeStatic w)) [Some ""] false).
Proof.
  intros Hnp.
  destruct (newRenderer_runInv children makeStatic w Hnp) as (Hinv & _ & Hs & _).
  set (st := mkReadState _ _ _ _) in *.
  assert (unwinds st []) as [n Hn].
  { eapply (frame_unwinds (settled w) (flattenTopLevelChildren children)
              ltac:(eapply Forall_impl;
                    [by apply flattenTopLevelChildren_noPending
                    |apply noPending_rendersThrough])
              _ st (plainFrame (flattenTopLevelChildren children)) []);
      [done|exact Hs|reflexivity|reflexivity]. }
  destruct Hn as [(e & stE & Hn)|(st' & Hn & Hs')].
  - exists n. by rewrite Hn.
  - exists (n + 1). rewrite readSteps_add, Hn. simpl.
    pose proof (readSteps_runInv _ _ _ _ Hinv Hn) as Hinv'.
    pose proof Hinv' as (_ & _ & _ & _ & strs & Hout & _).
    pose proof (readStep_strs _ st' strs Hinv' Hout) as Hstep.
    unfold turn in Hstep. rewrite Hs' in Hstep. by rewrite Hstep.
Qed.

End Agreement.

(** C6. On a tree with no pending node, and with the same static-markup
    setting, the strings of the calls [read(bytes)] up to the first null,
    joined, are the strings of the calls [readAsync(bytesAsync)] up to the
    first null, joined, whatever positive numbers of bytes are asked of the
    two readers; and when a turn of one reader throws, a turn of the other
    throws the same error.  Both runs end. *)
Theorem sync_and_async_output_agree `{Encoder}
    (children : Node) (makeStatic : bool) (w : World) (bytes bytesAsync : Bytes) :
  noPending (settled w) children ->
  below 0 bytes = true -> below 0 bytesAsync = true ->
  exists fuel0 result,
    forall fuel, fuel0 <= fuel ->
      outcome (readAll fuel bytes
                 (fst (newRenderer children makeStatic w))
                 (snd (newRenderer children makeStatic w)))
      = Some result
      /\ outcome (readAllAsync fuel bytesAsync
                    (fst (newRendererAsync children makeStatic None w))
                    (snd (newRendererAsync children makeStatic None w)))
         = Some result.
Proof.
  intros Hnp Hb Hba.
  destruct (newRenderer_runInv children makeStatic w Hnp) as (Hinv & Hex & Hs & Hd).
  destruct (newRenderer_halts children makeStatic w Hnp) as [m Hm].
  assert (newRendererAsync children makeStatic None w
          = (setOutQueue (fst (newRenderer children makeStatic w)) [[Str ""]],
             snd (newRenderer children makeStatic w))) as ->.
  { unfold newRendererAsync. by destruct (newRenderer children makeStatic w). }
  cbn [fst snd].
  set (r := fst (newRenderer children makeStatic w)) in *.
  set (w1 := snd (newRenderer children makeStatic w)) in *.
  set (st := mkReadState r w1 [Some ""] false) in *.
  assert (headBelow bytes st) as Hhead.
  { intros Hpos. simpl in Hpos. lia. }
  assert (asyncRel 0 "" [[Str ""]] st) as Hrel.
  { split; [reflexivity|]. constructor; [|constructor].
    split; [by eexists _, _|]. constructor; [|constructor]. simpl. split; [done|lia]. }
  assert (drained (setOutQueue r [[Str ""]]) = Some false) as Hdrained.
  { unfold drained. cbn [exhausted setOutQueue]. by rewrite Hex. }
  pose proof (readLoop_chunks (settled w) bytes m Hb st) as Hsync.
  pose proof (readAsyncLoop_chunks (settled w) bytesAsync m Hba st [[Str ""]] "" 0
                Hinv Hrel Hex) as Hasync.
  subst st. cbn [rs_renderer rs_world] in Hasync.
  destruct (readSteps m _) as [st'|stE|e stE]; [done| |].
  - exists (2 * m + String.length (finalString stE) + 4), (inl (finalString stE)).
    intros fuel Hfuel. destruct fuel as [|fuel]; [lia|]. split.
    + rewrite readAll_unfold by done.
      destruct (Hsync fuel fuel Hinv Hex Hhead) as (rE & wE & ->); [lia|lia|].
      reflexivity.
    + rewrite readAllAsync_unfold, Hdrained.
      destruct (Hasync fuel fuel) as (tail & rE & wE & -> & Htail); [lia|lia|].
      rewrite string_app_empty_l in Htail. by rewrite Htail.
  - exists (2 * m + 4), (inr e).
    intros fuel Hfuel. destruct fuel as [|fuel]; [lia|]. split.
    + rewrite readAll_unfold by done.
      destruct (Hsync fuel fuel Hinv Hex Hhead) as (x & ->); [lia|lia|].
      reflexivity.
    + rewrite readAllAsync_unfold, Hdrained.
      destruct (Hasync fuel fuel) as (x & ->); [lia|lia|].
      reflexivity.
Qed.

Lemma sync_and_async_witness :
  noPending (settled Demo.emptyWorld) Examples.settledTree
  /\ exists fuel0 result,
       forall fuel, fuel0 <= fuel ->
         outcome (readAll (H := Demo.encoder) fuel (Finite 3)
                    (fst (newRenderer Examples.settledTree false Demo.emptyWorld))
                    (snd (newRenderer Examples.settledTree false Demo.emptyWorld)))
         = Some result
         /\ outcome (readAllAsync (H := Demo.encoder) fuel Infinity
                       (fst (newRendererAsync Examples.settledTree false None
                               Demo.emptyWorld))
                       (snd (newRendererAsync Examples.settledTree false None
                               Demo.emptyWorld)))
            = Some result.
Proof.
  assert (noPending (settled Demo.emptyWorld) Examples.settledTree) as Hnp.
  { repeat constructor. }
  split; [exact Hnp|].
  exact (sync_and_async_output_agree (H := Demo.encoder) Examples.settledTree false
           Demo.emptyWorld (Finite 3) Infinity Hnp eq_refl eq_refl).
Defined.

(** * Further properties of the renderers *)

(** ** What a child renderer finds in the contexts *)

Lemma readSlot_writeSlot_eq c tid v w : readSlot c tid (writeSlot c tid v w) = v.
Proof.
  unfold readSlot, writeSlot. destruct v as [x|]; simpl.
  - by rewrite lookup_insert_eq.
  - by rewrite lookup_delete_eq.
Qed.

Lemma readSlot_writeSlot_ne c tid c' tid' v w :
  (c, tid) <> (c', tid') -> readSlot c' tid' (writeSlot c tid v w) = readSlot c' tid' w.
Proof.
  intros Hne. unfold readSlot, writeSlot. destruct v as [x|]; simpl.
  - by rewrite lookup_insert_ne.
  - by rewrite lookup_delete_ne.
Qed.

(** The loop of the constructor, when every value it writes for a context
    is [value] of that context. *)
Lemma restoreContextValues_slots tid (value : nat -> option string) values :
  forall cs i w,
    (forall j c, cs !! j = Some (Some c) -> mjoin (values !! (i + j)) = value c) ->
    forall c' tid',
      readSlot c' tid' (restoreContextValues tid cs values i w)
      = if bool_decide (Some c' ∈ cs /\ tid' = tid) then value c'
        else readSlot c' tid' w.
Proof.
  induction cs as [|context cs IH]; intros i w Hvalues c' tid'.
  - cbn [restoreContextValues]. case_bool_decide as Hd; [|done].
    destruct Hd as [Hin _]. by apply elem_of_nil in Hin.
  - cbn [restoreContextValues].
    rewrite IH by (intros j c Hj; rewrite <- (Hvalues (S j) c Hj); f_equal; f_equal; lia).
    case_bool_decide as Hd.
    + destruct Hd as [Hin ->]. case_bool_decide as Hd'; [done|].
      exfalso. apply Hd'. split; [by right|done].
    + destruct context as [c|].
      * destruct (decide ((c, tid) = (c', tid'))) as [Heq|Hne].
        -- injection Heq as <- <-. rewrite readSlot_writeSlot_eq.
           case_bool_decide as Hd'; [|exfalso; apply Hd'; split; [by left|done]].
           rewrite <- (Hvalues 0 c eq_refl). by rewrite Nat.add_0_r.
        -- rewrite readSlot_writeSlot_ne by done.
           case_bool_decide as Hd'; [|done].
           destruct Hd' as [Hin ->]. apply elem_of_cons in Hin as [Heq|Hin].
           ++ injection Heq as ->. by exfalso.
           ++ exfalso. by apply Hd.
      * case_bool_decide as Hd'; [|done].
        destruct Hd' as [Hin ->]. apply elem_of_cons in Hin as [Heq|Hin]; [done|].
        exfalso. by apply Hd.
Qed.

(** X2. A child renderer made from the context cloned off a renderer finds,
    in every context that renderer had an open provider for, the value the
    slot held when the context was cloned, whatever the slots hold when the
    child is made; the constructor touches no other slot. *)
Theorem child_renderer_restores_cloned_values
    (child : Node) (static : bool) (r : Renderer) (w w' : World) (c tid : nat) :
  let rc := getClonedRenderContext r w in
  let w1 := snd (newRendererAsync child static (Some rc) w') in
  (Some c ∈ contextStack r -> readSlot c (threadID r) w1 = readSlot c (threadID r) w)
  /\ (~ (Some c ∈ contextStack r /\ tid = threadID r) ->
      readSlot c tid w1 = readSlot c tid w').
Proof.
  intros rc w1.
  assert (forall c' tid',
    readSlot c' tid' w1
    = if bool_decide (Some c' ∈ contextStack r /\ tid' = threadID r)
      then readSlot c' (threadID r) w else readSlot c' tid' w') as Hslots.
  { intros c' tid'. subst w1 rc. unfold newRendererAsync, newRenderer, allocThreadID.
    cbn [snd getClonedRenderContext rc_threadID rc_contextStack rc_contextValues].
    rewrite (restoreContextValues_slots (threadID r)
               (fun c => readSlot c (threadID r) w)); [done|].
    intros j c0 Hj. simpl. by rewrite list_lookup_fmap, Hj. }
  split.
  - intros Hin. rewrite Hslots. by case_bool_decide as Hd; [|exfalso; apply Hd].
  - intros Hnot. rewrite Hslots. by case_bool_decide.
Qed.

Lemma child_renderer_witness :
  Some 1 ∈ contextStack (fst Examples.resumedConsumer)
  /\ readSlot 1 0
       (snd (newRendererAsync (Text "x") false
               (Some (getClonedRenderContext (fst Examples.resumedConsumer)
                        (snd Examples.resumedConsumer)))
               Examples.defaultWorld))
     = readSlot 1 0 (snd Examples.resumedConsumer).
Proof.
  assert (Some 1 ∈ contextStack (fst Examples.resumedConsumer)) as Hin.
  { apply (list_elem_of_lookup_2 _ 0). reflexivity. }
  split; [exact Hin|].
  exact (proj1 (child_renderer_restores_cloned_values (Text "x") false
                  (fst Examples.resumedConsumer) (snd Examples.resumedConsumer)
                  Examples.defaultWorld 1 0) Hin).
Defined.

(** ** What a call of [read] returns *)

Section ReadBudget.
Context `{Encoder}.

Lemma turn_break sus r w r' w' :
  turn sus r w = TurnBreak r' w' -> exhausted r' = true.
Proof.
  unfold turn. destruct (stack r) as [|frame rest].
  - intros Heq. by injection Heq as <- _.
  - destruct (sus || frameDone frame).
    + destruct (f_type frame) as [|tag|c| |]; try discriminate.
      * by destruct (decide (tag = "select")).
      * by destruct (popProvider _ w) as [[r3 w3]|e [r3 w3]].
    + destruct (f_children frame !! childIndex frame) as [child|]; [|discriminate].
      by destruct (render child _ w) as [[c r2] w2].
Qed.

Lemma readStep_break_out st st' :
  readStep st = Break st' ->
  exhausted (rs_renderer st') = true /\ rs_out st' = rs_out st.
Proof.
  rewrite readStep_turn. cbn zeta.
  destruct (turn (rs_suspended st) (rs_renderer st) (rs_world st))
    as [r w|r w foot|r w foot fb|c r w|e r w] eqn:Hturn; try discriminate.
  - intros Heq. injection Heq as <-. split; [|done]. simpl. by eapply turn_break.
  - destruct (outPop (rs_out st)) as [buffered out1].
    destruct (rs_suspended st); [destruct fb|]; discriminate.
  - destruct c as [s|p|e]; try discriminate.
    by destruct (0 <? suspenseDepth r).
Qed.

Lemma readLoop_budget fuel bytes :
  forall st st',
    readLoop fuel bytes st = Finished st' ->
    exists s,
      mjoin (head (rs_out st')) = Some s
      /\ (exhausted (rs_renderer st') = true \/ below (String.length s) bytes = false).
Proof.
  induction fuel as [|fuel IH]; intros st st' Hloop; [discriminate|].
  cbn [readLoop] in Hloop. unfold out0Length in Hloop.
  destruct (mjoin (head (rs_out st))) as [s|] eqn:Hs; [|discriminate].
  cbn [fmap option_fmap option_map] in Hloop.
  destruct (below (String.length s) bytes) eqn:Hbelow.
  - destruct (readStep st) as [st1|st1|e st1] eqn:Hstep; [by eapply IH| |discriminate].
    injection Hloop as <-. destruct (readStep_break_out _ _ Hstep) as [Hex Hout].
    exists s. rewrite Hout. by split; [|left].
  - injection Hloop as <-. exists s. by split; [|right].
Qed.

End ReadBudget.

(** X3. [read(bytes)] returns null exactly when the renderer was exhausted
    before the call, and then changes nothing.  Otherwise it returns a
    string, and the string has fewer than [bytes] characters only if the
    renderer is exhausted when the call returns. *)
Theorem read_returns_at_least_bytes `{Encoder}
    (fuel : nat) (bytes : Bytes) (r : Renderer) (w : World)
    (out : option string) (r' : Renderer) (w' : World) :
  read fuel bytes r w = Finished (out, r', w') ->
  if exhausted r then out = None /\ r' = r /\ w' = w
  else exists s,
      out = Some s
      /\ (exhausted r' = true
          \/ exists n, bytes = Finite n /\ n <= String.length s).
Proof.
  unfold read. destruct (exhausted r).
  - intros Heq. by injection Heq as <- <- <-.
  - destruct (readLoop fuel bytes _) as [st|e st|] eqn:Hloop; [|discriminate..].
    intros Heq. injection Heq as <- <- <-.
    destruct (readLoop_budget _ _ _ _ Hloop) as (s & Hs & Hend).
    exists s. split; [done|]. destruct Hend as [Hex|Hbelow]; [by left|right].
    destruct bytes as [n|]; [|discriminate]. exists n. split; [done|].
    simpl in Hbelow. by apply Nat.ltb_ge in Hbelow.
Qed.

Lemma read_budget_witness :
  read (H := Demo.encoder) 3 (Finite 1)
    (fst (newRenderer Examples.twoTexts false Demo.emptyWorld))
    (snd (newRenderer Examples.twoTexts false Demo.emptyWorld))
  = Finished (fst (fst MoreExamples.firstChunk), snd (fst MoreExamples.firstChunk),
              snd MoreExamples.firstChunk)
  /\ exists s,
       fst (fst MoreExamples.firstChunk) = Some s
       /\ (exhausted (snd (fst MoreExamples.firstChunk)) = true
           \/ exists n, Finite 1 = Finite n /\ n <= String.length s).
Proof.
  assert (read (H := Demo.encoder) 3 (Finite 1)
            (fst (newRenderer Examples.twoTexts false Demo.emptyWorld))
            (snd (newRenderer Examples.twoTexts false Demo.emptyWorld))
          = Finished (fst (fst MoreExamples.firstChunk),
                      snd (fst MoreExamples.firstChunk),
                      snd MoreExamples.firstChunk)) as Hread.
  { vm_compute. reflexivity. }
  split; [exact Hread|].
  exact (read_returns_at_least_bytes (H := Demo.encoder) _ _ _ _ _ _ _ Hread).
Defined.

(** ** One call with no limit on the bytes *)

Section OneCall.
Context `{Encoder}.

(** With [bytes = Infinity] the loop of [read] runs to the end of the run. *)
Lemma readLoop_infinity done m :
  forall st fuel,
    runInv done st -> m <= fuel ->
    match readSteps m st with
    | Break stE => readLoop fuel Infinity st = Finished stE
    | Throw e stE => readLoop fuel Infinity st = Crashed e stE
    | Continue _ => True
    end.
Proof.
  induction m as [|m IH]; intros st fuel Hinv Hfuel; [done|].
  destruct fuel as [|fuel]; [lia|].
  cbn [readSteps readLoop].
  pose proof Hinv as (_ & _ & _ & _ & strs & Hout & Hlen).
  destruct strs as [|s0 tl]; [simpl in Hlen; lia|].
  unfold out0Length. rewrite Hout. cbn [fmap list_fmap head mjoin option_join
    option_fmap option_map below].
  destruct (readStep st) as [st1|stE|e stE] eqn:Hstep; [|done..].
  apply IH; [|lia]. eapply readStep_runInv; eauto.
Qed.

Lemma readSteps_break_exhausted m :
  forall st stE, readSteps m st = Break stE -> exhausted (rs_renderer stE) = true.
Proof.
  induction m as [|m IH]; intros st stE Hrun; [discriminate|].
  cbn [readSteps] in Hrun.
  destruct (readStep st) as [st1|st1|e st1] eqn:Hstep; [by eapply IH| |discriminate].
  injection Hrun as <-. by destruct (readStep_break_out _ _ Hstep).
Qed.

(** With [bytes = Infinity] the queue is flattened to one string. *)
Lemma flattenFrom_infinity fuel D :
  D < fuel ->
  forall rest s0 w,
    Forall (fun c => pureChunk c /\ chunkDepth c <= D) rest ->
    flattenFrom (awaitChunk fuel) Infinity s0 rest w
    = Finished (s0 +:+ pureLevel rest, [Str ""], w).
Proof.
  intros HD. induction rest as [|c rest IH]; intros s0 w Hall.
  - cbn [flattenFrom]. destruct (String.length s0 =? 0) eqn:E.
    + apply Nat.eqb_eq, string_length_zero in E. by subst s0.
    + change (pureLevel []) with "". by rewrite string_app_empty_r.
  - inversion Hall as [|? ? [Hc Hdc] Hrest]; subst. cbn [flattenFrom below].
    destruct c as [s1|parts foot|p child static rc]; [| |done].
    + rewrite IH by done. by rewrite pureLevel_cons, string_app_assoc.
    + cbn [isInfinity negb andb]. rewrite awaitChunk_pure by (done || lia).
      cbn [default]. rewrite IH by done.
      by rewrite pureLevel_cons_chunk, string_app_assoc.
Qed.

(** With [bytes = Infinity] the loop of [readAsync] runs to the end of the
    run of [read] it follows. *)
Lemma readAsyncLoop_infinity done m :
  forall st q pre D fuel,
    runInv done st -> asyncRel D pre q st -> exhausted (rs_renderer st) = false ->
    m <= fuel ->
    match readSteps m st with
    | Break stE =>
        exists level,
          readAsyncLoop fuel Infinity (setOutQueue (rs_renderer st) q) (rs_world st)
          = Finished (setOutQueue (rs_renderer stE) [level], rs_world stE)
          /\ pureLevelOk (D + m) level
          /\ finalString stE = pre +:+ pureLevel level
    | Throw e _ =>
        exists x,
          readAsyncLoop fuel Infinity (setOutQueue (rs_renderer st) q) (rs_world st)
          = Crashed e x
    | Continue _ => True
    end.
Proof.
  induction m as [|m IH]; intros st q pre D fuel Hinv Hrel Hex Hfuel; [done|].
  destruct fuel as [|fuel]; [lia|].
  pose proof (asyncRel_nonempty done D pre q st Hinv Hrel) as Hne.
  pose proof Hrel as [Hout Hq].
  destruct (queueBelow_pure D q Infinity Hq Hne) as (s0 & rest & levels & Hqeq & Hbelow).
  cbn [below] in Hbelow.
  pose proof (readAsyncStep_rel done D pre q st Hinv Hrel) as Hstep.
  cbn [readSteps readAsyncLoop exhausted outQueue setOutQueue].
  rewrite Hex, Hbelow.
  destruct (readStep st) as [st1|stE|e stE] eqn:Hsync.
  - destruct Hstep as (q1 & -> & Hrel1).
    assert (runInv done st1) as Hinv1 by (eapply readStep_runInv; eauto).
    assert (exhausted (rs_renderer st1) = false) as Hex1
      by (erewrite readStep_exhausted; eauto).
    specialize (IH st1 q1 pre (S D) fuel Hinv1 Hrel1 Hex1 ltac:(lia)).
    destruct (readSteps m st1) as [|stE|e stE]; [done| |done].
    destruct IH as (level & Hloop & Hok & Hfinal). exists level.
    split; [done|]. split; [|done]. by replace (D + S m) with (S D + m) by lia.
  - rewrite Hstep.
    destruct (readStep_break done _ _ Hinv Hsync) as (_ & HoutE & Hlen1).
    rewrite Hout, length_fmap, prefixFirst_length, length_fmap in Hlen1.
    subst q. destruct levels as [|]; [|simpl in Hlen1; lia].
    exists (Str s0 :: rest). split; [done|].
    apply Forall_cons in Hq as [Hlevel _]. split.
    + destruct Hlevel as [Hhead Hall]. split; [done|].
      eapply Forall_impl; [exact Hall|]. simpl. intros c [? ?]. split; [done|lia].
    + unfold finalString. by rewrite HoutE, Hout.
  - destruct Hstep as [[rx wx] ->]. by eexists.
Qed.

End OneCall.

(** X5. On a tree with no pending node, one call [read(Infinity)] returns
    the whole output, the strings of the calls [read(bytes)] joined, for any
    positive number of bytes, and the call after it returns null; when the
    calls [read(bytes)] end with an error, [read(Infinity)] throws it. *)
Theorem read_infinity_returns_everything `{Encoder}
    (children : Node) (makeStatic : bool) (w : World) (bytes : Bytes) :
  noPending (settled w) children -> below 0 bytes = true ->
  let r := fst (newRenderer children makeStatic w) in
  let w1 := snd (newRenderer children makeStatic w) in
  exists fuel0 result,
    forall fuel, fuel0 <= fuel ->
      outcome (readAll fuel bytes r w1) = Some result
      /\ match result with
         | inl s =>
             exists r2 w2,
               read fuel Infinity r w1 = Finished (Some s, r2, w2)
               /\ read fuel Infinity r2 w2 = Finished (None, r2, w2)
         | inr e => exists x, read fuel Infinity r w1 = Crashed e x
         end.
Proof.
  intros Hnp Hb r w1.
  destruct (newRenderer_runInv children makeStatic w Hnp) as (Hinv & Hex & Hs & Hd).
  destruct (newRenderer_halts children makeStatic w Hnp) as [m Hm].
  fold r w1 in Hinv, Hex, Hs, Hd, Hm.
  assert (headBelow bytes (mkReadState r w1 [Some ""] false)) as Hhead.
  { intros Hpos. simpl in Hpos. lia. }
  pose proof (readLoop_chunks (settled w) bytes m Hb
                (mkReadState r w1 [Some ""] false)) as Hsync.
  pose proof (readLoop_infinity (settled w) m
                (mkReadState r w1 [Some ""] false)) as Hone.
  pose proof (readSteps_break_exhausted m (mkReadState r w1 [Some ""] false)) as Hend.
  pose proof (readSteps_break_out (settled w) m (mkReadState r w1 [Some ""] false)) as Hstr.
  destruct (readSteps m _) as [st'|stE|e stE]; [done| |].
  - exists (m + 2), (inl (finalString stE)).
    intros fuel Hfuel. destruct fuel as [|fuel]; [lia|]. split.
    + rewrite readAll_unfold by done.
      destruct (Hsync fuel fuel Hinv Hex Hhead) as (rE & wE & ->); [lia|lia|].
      reflexivity.
    + exists (rs_renderer stE), (rs_world stE).
      destruct (Hstr stE Hinv eq_refl) as [s Hfinal].
      unfold read. rewrite Hex, (Hone (S fuel) Hinv) by lia.
      rewrite (Hend stE eq_refl). unfold finalString. by rewrite Hfinal.
  - exists (m + 2), (inr e).
    intros fuel Hfuel. destruct fuel as [|fuel]; [lia|]. split.
    + rewrite readAll_unfold by done.
      destruct (Hsync fuel fuel Hinv Hex Hhead) as (x & ->); [lia|lia|].
      reflexivity.
    + unfold read. rewrite Hex, (Hone (S fuel) Hinv) by lia. by eexists.
Qed.

Lemma read_infinity_witness :
  noPending (settled Demo.emptyWorld) Examples.settledTree
  /\ exists fuel0 result,
       forall fuel, fuel0 <= fuel ->
         outcome (readAll (H := Demo.encoder) fuel (Finite 2)
                    (fst (newRenderer Examples.settledTree true Demo.emptyWorld))
                    (snd (newRenderer Examples.settledTree true Demo.emptyWorld)))
         = Some result
         /\ match result with
            | inl s =>
                exists r2 w2,
                  read (H := Demo.encoder) fuel Infinity
                    (fst (newRenderer Examples.settledTree true Demo.emptyWorld))
                    (snd (newRenderer Examples.settledTree true Demo.emptyWorld))
                  = Finished (Some s, r2, w2)
                  /\ read (H := Demo.encoder) fuel Infinity r2 w2
                     = Finished (None, r2, w2)
            | inr e =>
                exists x,
                  read (H := Demo.encoder) fuel Infinity
                    (fst (newRenderer Examples.settledTree true Demo.emptyWorld))
                    (snd (newRenderer Examples.settledTree true Demo.emptyWorld))
                  = Crashed e x
            end.
Proof.
  assert (noPending (settled Demo.emptyWorld) Examples.settledTree) as Hnp.
  { repeat constructor. }
  split; [exact Hnp|].
  exact (read_infinity_returns_everything (H := Demo.encoder) Examples.settledTree true
           Demo.emptyWorld (Finite 2) Hnp eq_refl).
Defined.

(** X6. On a tree with no pending node, one call [readAsync(Infinity)]
    resolves to the whole output, the strings of the calls
    [readAsync(bytes)] joined, for any positive number of bytes, and the call
    after it resolves to null; when the calls [readAsync(bytes)] end with an
    error, [readAsync(Infinity)] throws it. *)
Theorem readAsync_infinity_returns_everything `{Encoder}
    (children : Node) (makeStatic : bool) (w : World) (bytes : Bytes) :
  noPending (settled w) children -> below 0 bytes = true ->
  let r := fst (newRendererAsync children makeStatic None w) in
  let w1 := snd (newRendererAsync children makeStatic None w) in
  exists fuel0 result,
    forall fuel, fuel0 <= fuel ->
      outcome (readAllAsync fuel bytes r w1) = Some result
      /\ match result with
         | inl s =>
             exists r2 w2,
               readAsync fuel Infinity r w1 = Finished (Some s, r2, w2)
               /\ readAsync fuel Infinity r2 w2 = Finished (None, r2, w2)
         | inr e => exists x, readAsync fuel Infinity r w1 = Crashed e x
         end.
Proof.
  intros Hnp Hb.
  destruct (newRenderer_runInv children makeStatic w Hnp) as (Hinv & Hex & Hs & Hd).
  destruct (newRenderer_halts children makeStatic w Hnp) as [m Hm].
  assert (newRendererAsync children makeStatic None w
          = (setOutQueue (fst (newRenderer children makeStatic w)) [[Str ""]],
             snd (newRenderer children makeStatic w))) as ->.
  { unfold newRendererAsync. by destruct (newRenderer children makeStatic w). }
  cbn [fst snd]. cbn zeta.
  set (r := fst (newRenderer children makeStatic w)) in *.
  set (w1 := snd (newRenderer children makeStatic w)) in *.
  assert (asyncRel 0 "" [[Str ""]] (mkReadState r w1 [Some ""] false)) as Hrel.
  { split; [reflexivity|]. constructor; [|constructor].
    split; [by eexists _, _|]. constructor; [|constructor]. simpl. split; [done|lia]. }
  assert (drained (setOutQueue r [[Str ""]]) = Some false) as Hdrained.
  { unfold drained. cbn [exhausted setOutQueue]. by rewrite Hex. }
  pose proof (readAsyncLoop_chunks (settled w) bytes m Hb
                (mkReadState r w1 [Some ""] false) [[Str ""]] "" 0
                Hinv Hrel Hex) as Hasync.
  pose proof (fun fuel => readAsyncLoop_infinity (settled w) m
                            (mkReadState r w1 [Some ""] false) [[Str ""]] "" 0 fuel
                            Hinv Hrel Hex) as Hone.
  pose proof (readSteps_break_exhausted m (mkReadState r w1 [Some ""] false)) as Hend.
  cbn [rs_renderer rs_world] in Hasync, Hone.
  destruct (readSteps m _) as [st'|stE|e stE]; [done| |].
  - exists (2 * m + String.length (finalString stE) + 4), (inl (finalString stE)).
    intros fuel Hfuel. destruct fuel as [|fuel]; [lia|]. split.
    + rewrite readAllAsync_unfold, Hdrained.
      destruct (Hasync fuel fuel) as (tail & rE & wE & -> & Htail); [lia|lia|].
      rewrite string_app_empty_l in Htail. by rewrite Htail.
    + destruct (Hone (S fuel) ltac:(lia)) as (level & Hloop & [(s0 & rest & ->) Hall] & Hfinal).
      apply Forall_cons in Hall as [_ Hall].
      exists (setOutQueue (rs_renderer stE) [[Str ""]]), (rs_world stE).
      unfold readAsync, readAsyncWith. rewrite Hdrained, Hloop.
      cbn [outQueue setOutQueue flattenAndResolveQueue].
      rewrite (flattenFrom_infinity (S fuel) (0 + m)) by (done || lia).
      rewrite Hfinal, string_app_empty_l, pureLevel_cons.
      split; [reflexivity|].
      unfold drained. cbn [exhausted setOutQueue outQueue].
      by rewrite (Hend stE eq_refl).
  - exists (2 * m + 4), (inr e).
    intros fuel Hfuel. destruct fuel as [|fuel]; [lia|]. split.
    + rewrite readAllAsync_unfold, Hdrained.
      destruct (Hasync fuel fuel) as (x & ->); [lia|lia|].
      reflexivity.
    + destruct (Hone (S fuel) ltac:(lia)) as ([rx wx] & Hloop).
      unfold readAsync, readAsyncWith. rewrite Hdrained, Hloop. by eexists.
Qed.

Lemma readAsync_infinity_witness :
  noPending (settled Demo.emptyWorld) Examples.settledTree
  /\ exists fuel0 result,
       forall fuel, fuel0 <= fuel ->
         outcome (readAllAsync (H := Demo.encoder) fuel (Finite 2)
                    (fst (newRendererAsync Examples.settledTree true None Demo.emptyWorld))
                    (snd (newRendererAsync Examples.settledTree true None Demo.emptyWorld)))
         = Some result
         /\ match result with
            | inl s =>
                exists r2 w2,
                  readAsync (H := Demo.encoder) fuel Infinity
                    (fst (newRendererAsync Examples.settledTree true None Demo.emptyWorld))
                    (snd (newRendererAsync Examples.settledTree true None Demo.emptyWorld))
                  = Finished (Some s, r2, w2)
                  /\ readAsync (H := Demo.encoder) fuel Infinity r2 w2
                     = Finished (None, r2, w2)
            | inr e =>
                exists x,
                  readAsync (H := Demo.encoder) fuel Infinity
                    (fst (newRendererAsync Examples.settledTree true None Demo.emptyWorld))
                    (snd (newRendererAsync Examples.settledTree true None Demo.emptyWorld))
                  = Crashed e x
            end.
Proof.
  assert (noPending (settled Demo.emptyWorld) Examples.settledTree) as Hnp.
  { repeat constructor. }
  split; [exact Hnp|].
  exact (readAsync_infinity_returns_everything (H := Demo.encoder) Examples.settledTree
           true Demo.emptyWorld (Finite 2) Hnp eq_refl).
Defined.

(** ** A call of [read] never returns inside a boundary *)

Section AtRest.
Context `{Encoder}.

Lemma render_plainFallback child r w c r' w' :
  render child r w = (c, r', w') ->
  Forall plainFallback (stack r) -> Forall plainFallback (stack r').
Proof.
  intros Hr Hall. unfold render, renderDOM in Hr.
  assert (forall children ty foot, plainFallback (mkFrame ty children 0 None foot)) as Hplain
    by done.
  destruct child;
    [ destruct (decide (text = ""));
        [| destruct (makeStaticMarkup r); [| destruct (previousWasTextNode r)]];
        by injection Hr as <- <- <-
    | .. ];
    (destruct (resolve _ w) as [nextChild|p'|e'];
      [| by injection Hr as <- <- <- ..]);
    (destruct nextChild as [t'| |cs'|h' cs'|fb' cs'|c0 v' cs'|c0 f'|p' body'|body'|p' body'|e'];
      try (injection Hr as <- <- <-; simpl; first [done | by constructor])).
  all: try (destruct (negb (h_validTag h')); [by injection Hr as <- <- <-|];
            destruct (decide (h_tag h' = "select"));
            (destruct (negb (h_validProps h')); [by injection Hr as <- <- <-|]);
            destruct (h_omittedClose h'), (h_innerMarkup h');
            injection Hr as <- <- <-; simpl; by constructor).
  all: try (simpl in Hr; destruct fb'; injection Hr as <- <- <-; simpl; by constructor).
  all: try (destruct (pushProvider c0 v' r w) as [[r1 w1]|e1 [r1 w1]] eqn:Hpp;
            [ destruct (pushProvider_fields _ _ _ _ _ _ Hpp) as (_ & _ & Hst)
            | destruct (pushProvider_fail_fields _ _ _ _ _ _ _ Hpp) as (_ & _ & Hst) ];
            injection Hr as <- <- <-; simpl; rewrite ?Hst; first [done | by constructor]).
  all: try (destruct (validateContextBounds c0 (threadID r) w);
            [destruct (readSlot c0 (threadID r) w)|];
            injection Hr as <- <- <-; simpl; first [done | by constructor]).
  all: try (destruct (isSettled p' w); injection Hr as <- <- <-; simpl;
            first [done | by constructor]).
Qed.

Lemma turn_break_stack sus r w r' w' :
  turn sus r w = TurnBreak r' w' -> stack r = [] /\ r' = setExhausted r true.
Proof.
  unfold turn. destruct (stack r) as [|frame rest].
  - intros Heq. by injection Heq as <- _.
  - destruct (sus || frameDone frame).
    + destruct (f_type frame) as [|tag|c| |]; try discriminate.
      * by destruct (decide (tag = "select")).
      * by destruct (popProvider _ w) as [[r3 w3]|e [r3 w3]].
    + destruct (f_children frame !! childIndex frame) as [child|]; [|discriminate].
      by destruct (render child _ w) as [[c r2] w2].
Qed.

(** What a turn does to the suspense depth and the boundary frames, whether
    a child has suspended or not. *)
Lemma turn_boundaries sus r w :
  suspenseDepth r = boundariesOf (stack r) -> Forall plainFallback (stack r) ->
  let keeps r' :=
    suspenseDepth r' = boundariesOf (stack r') /\ Forall plainFallback (stack r') in
  match turn sus r w with
  | TurnBreak r' w' => True
  | TurnFooter r' w' foot => keeps r' /\ suspenseDepth r' = suspenseDepth r
  | TurnBoundary r' w' foot fallback =>
      keeps r' /\ suspenseDepth r = S (suspenseDepth r')
      /\ match fallback with
         | Some fb => f_type fb = TyNull /\ fallbackFrame fb = None
         | None => True
         end
  | TurnRender c r' w' =>
      sus = false
      /\ match c with
         | Returned _ =>
             keeps r'
             /\ (suspenseDepth r' = suspenseDepth r
                 \/ suspenseDepth r' = S (suspenseDepth r))
         | ThrewThenable _ => keeps r' /\ suspenseDepth r' = suspenseDepth r
         | ThrewError _ => True
         end
  | TurnThrow e r' w' => True
  end.
Proof.
  intros Hd Hall keeps. unfold turn.
  destruct (stack r) as [|frame rest] eqn:Hs; [done|].
  inversion Hall as [|? ? Hframe Hrest]; subst.
  destruct (sus || frameDone frame) eqn:Hdone.
  - set (r1 := if decide (footer frame = "") then r else setPreviousWasTextNode r false).
    assert (suspenseDepth r1 = suspenseDepth r) as Hd1
      by (subst r1; by destruct (decide (footer frame = ""))).
    simpl in Hd.
    destruct (f_type frame) as [|tag|c| |] eqn:Hty.
    + split; [|done]. split; [simpl; congruence|done].
    + destruct (decide (tag = "select")); (split; [|done]);
        (split; [simpl; congruence|done]).
    + destruct (popProvider (setStack r1 rest) w) as [[r3 w3]|e [r3 w3]] eqn:Hpop; [|done].
      destruct (popProvider_fields _ _ _ _ Hpop) as (_ & Hd3 & Hs3). simpl in Hd3, Hs3.
      split; [|congruence]. split; [rewrite Hs3; congruence|by rewrite Hs3].
    + split; [|done]. split; [simpl; congruence|done].
    + split_and!.
      * split; [simpl; rewrite Hd1, Hd; done|done].
      * simpl. rewrite Hd1, Hd. done.
      * unfold plainFallback in Hframe. by destruct (fallbackFrame frame).
  - apply orb_false_iff in Hdone as [-> Hdone].
    destruct (frameDone_false_lookup frame Hdone) as [child Hc]. rewrite Hc.
    destruct (render child _ w) as [[c r2] w2] eqn:Hr.
    split; [done|].
    assert (Forall plainFallback (stack r2)) as Hall2.
    { eapply render_plainFallback; [exact Hr|]. simpl. by constructor. }
    destruct c as [s|p|e]; [| |done].
    + destruct (render_returned _ _ _ _ _ _ Hr) as (_ & Hpush). simpl in Hpush.
      destruct Hpush as [[Hs2 Hd2]|(f & Hs2 & Hty & _)].
      * split; [|by left]. split; [|done]. rewrite Hs2, Hd2. simpl. done.
      * destruct Hty as [[Hty Hd2]|[Hty Hd2]].
        -- split; [|by right]. split; [|done].
           rewrite Hs2, Hd2. simpl. rewrite Hty. simpl in Hd. by rewrite Hd.
        -- split; [|by left]. split; [|done].
           rewrite Hs2, Hd2. simpl. simpl in Hd.
           destruct (f_type f); try done; by rewrite Hd.
    + destruct (render_thenable _ _ _ _ _ _ Hr) as [-> ->]. split; [|done].
      split; [simpl; done|by constructor].
Qed.

(** The invariant of the loop of [read], and the first string of [out],
    which no turn under a boundary touches. *)
Lemma readStep_betweenTurns st st' :
  betweenTurns st -> readStep st = Continue st' ->
  betweenTurns st'
  /\ (0 < suspenseDepth (rs_renderer st') -> head (rs_out st') = head (rs_out st)).
Proof.
  intros (Hd & Hall & (strs & Hout & Hlen) & Hsus).
  pose proof (turn_boundaries (rs_suspended st) _ (rs_world st) Hd Hall) as Hturn.
  simpl in Hturn.
  rewrite readStep_turn, Hout. cbn zeta.
  destruct strs as [|s0 tl]; [simpl in Hlen; lia|].
  destruct (turn (rs_suspended st) (rs_renderer st) (rs_world st))
    as [r w|r w foot|r w foot fb|c r w|e r w]; try discriminate.
  - destruct Hturn as [[Hd' Hall'] Heq].
    rewrite outAdd_strs by (simpl in *; lia). intros Hst. injection Hst as <-. split.
    + split_and!; try done.
      * eexists. split; [reflexivity|]. rewrite length_alter. simpl in *. lia.
      * simpl. intros Hs. specialize (Hsus Hs). lia.
    + simpl. intros Hpos. destruct (suspenseDepth r); [lia|done].
  - destruct Hturn as ([Hd' Hall'] & Heq & Hfb).
    assert (s0 :: tl <> []) as Hne by done.
    destruct (exists_last Hne) as (strs0 & x & Hsnoc). rewrite Hsnoc in Hlen |- *.
    rewrite length_app in Hlen. simpl in Hlen.
    rewrite outPop_strs.
    destruct (rs_suspended st) eqn:Hs.
    + destruct fb as [f|]; [|discriminate]. destruct Hfb as [Hty Hnone].
      rewrite outAdd_strs by (simpl in *; lia). intros Hst. injection Hst as <-. split.
      * split_and!; try done.
        -- simpl. rewrite Hty. done.
        -- simpl. constructor; [|done]. unfold plainFallback. by rewrite Hnone.
        -- eexists. split; [reflexivity|]. rewrite length_alter. simpl in *. lia.
      * simpl. intros Hpos.
        destruct strs0 as [|y strs0]; [simpl in Hlen; lia|].
        destruct (suspenseDepth r); [lia|done].
    + simpl. rewrite outAdd_strs by (simpl in *; lia).
      rewrite outAdd_strs by (rewrite length_alter; simpl in *; lia).
      intros Hst. injection Hst as <-. split.
      * split_and!; try done.
        eexists. split; [reflexivity|]. rewrite !length_alter. simpl in *. lia.
      * simpl. intros Hpos.
        destruct strs0 as [|y strs0]; [simpl in Hlen; lia|].
        destruct (suspenseDepth r); [lia|done].
  - destruct Hturn as [Hs Hturn]. rewrite Hs. rewrite length_fmap.
    destruct c as [s|p|e]; [| |discriminate].
    + destruct Hturn as [[Hd' Hall'] Hdepth].
      destruct (length (s0 :: tl) <=? suspenseDepth r) eqn:Hle.
      * apply Nat.leb_le in Hle.
        change ((Some <$> s0 :: tl) ++ [Some ""])
          with ((Some <$> s0 :: tl) ++ (Some <$> [""])).
        rewrite <- fmap_app. rewrite outAdd_strs by (rewrite length_app; simpl in *; lia).
        intros Hst. injection Hst as <-. split.
        -- split_and!; try done.
           eexists. split; [reflexivity|]. rewrite length_alter. simpl.
           rewrite ?length_app. simpl in *. lia.
        -- simpl. intros Hpos. destruct (suspenseDepth r); [lia|done].
      * apply Nat.leb_gt in Hle. rewrite outAdd_strs by (simpl in *; lia).
        intros Hst. injection Hst as <-. split.
        -- split_and!; try done.
           eexists. split; [reflexivity|]. rewrite length_alter. simpl in *. lia.
        -- simpl. intros Hpos. destruct (suspenseDepth r); [lia|done].
    + destruct Hturn as [[Hd' Hall'] Hdepth].
      destruct (0 <? suspenseDepth r) eqn:Hpos0; [|discriminate].
      apply Nat.ltb_lt in Hpos0.
      destruct (length (s0 :: tl) <=? suspenseDepth r) eqn:Hle;
        [apply Nat.leb_le in Hle; lia|].
      rewrite outAdd_strs by (simpl in *; lia).
      intros Hst. injection Hst as <-. split.
      * split_and!; try done.
        eexists. split; [reflexivity|]. rewrite length_alter. simpl in *. lia.
      * simpl. intros Hpos. destruct (suspenseDepth r); [lia|done].
Qed.

Lemma readLoop_atRest fuel bytes :
  forall st st',
    betweenTurns st -> headBelow bytes st ->
    readLoop fuel bytes st = Finished st' -> atRest (rs_renderer st').
Proof.
  induction fuel as [|fuel IH]; intros st st' Hinv Hhead Hloop; [discriminate|].
  cbn [readLoop] in Hloop. unfold out0Length in Hloop.
  destruct (mjoin (head (rs_out st))) as [s|] eqn:Hs; [|discriminate].
  cbn [fmap option_fmap option_map] in Hloop.
  destruct (below (String.length s) bytes) eqn:Hbelow.
  - destruct (readStep st) as [st1|st1|e st1] eqn:Hstep; [| |discriminate].
    + destruct (readStep_betweenTurns _ _ Hinv Hstep) as [Hinv1 Hhead1].
      eapply IH; [exact Hinv1| |exact Hloop].
      intros Hpos. exists s. split; [|done]. by rewrite (Hhead1 Hpos).
    + injection Hloop as <-. revert Hstep. rewrite readStep_turn. cbn zeta.
      destruct (turn (rs_suspended st) (rs_renderer st) (rs_world st))
        as [r w|r w foot|r w foot fb|c r w|e r w] eqn:Hturn; try discriminate.
      * intros Hst. injection Hst as <-. simpl.
        destruct (turn_break_stack _ _ _ _ _ Hturn) as [Hstack ->].
        destruct Hinv as (Hd & _). rewrite Hstack in Hd.
        split_and!; simpl; rewrite ?Hstack; done.
      * destruct (outPop (rs_out st)) as [buffered out1].
        destruct (rs_suspended st); [destruct fb|]; discriminate.
      * destruct c as [s'|p|e]; try discriminate.
        by destruct (0 <? suspenseDepth r).
  - injection Hloop as <-. destruct Hinv as (Hd & Hall & _).
    assert (suspenseDepth (rs_renderer st) = 0) as Hd0.
    { destruct (suspenseDepth (rs_renderer st)) eqn:E; [done|].
      destruct Hhead as (s' & Hs' & Hbs); [lia|]. congruence. }
    split_and!; [done|congruence|done].
Qed.

End AtRest.

(** X4. A new renderer has no Suspense boundary open, and a call of [read]
    that returns, on a renderer with no boundary open, leaves none open:
    whatever [bytes] is, the loop does not stop while the suspense depth is
    positive or a child has suspended, so nothing that [out], which is local
    to the call, buffers for a boundary is left behind when the call
    returns. *)
Theorem read_never_stops_inside_a_boundary `{Encoder}
    (children : Node) (makeStatic : bool) (w0 : World) :
  atRest (fst (newRenderer children makeStatic w0))
  /\ forall fuel bytes r w out r' w',
       atRest r ->
       read fuel bytes r w = Finished (out, r', w') ->
       atRest r'.
Proof.
  split.
  - unfold newRenderer, allocThreadID. simpl. split_and!; try done.
    constructor; [done|constructor].
  - intros fuel bytes r w out r' w' (Hd & Hb & Hall). unfold read.
    destruct (exhausted r); [intros Heq; by injection Heq as _ <- _|].
    destruct (readLoop fuel bytes _) as [st|e st|] eqn:Hloop; [|discriminate..].
    intros Heq. injection Heq as _ <- _.
    eapply readLoop_atRest; [| |exact Hloop].
    + split_and!; simpl; [congruence|done| |done].
      exists [""]. by rewrite Hd.
    + intros Hpos. simpl in Hpos. lia.
Qed.

Lemma read_at_rest_witness :
  atRest (fst (newRenderer Examples.boundaryWithPending false Demo.emptyWorld))
  /\ atRest (snd (fst MoreExamples.firstFallbackChunk)).
Proof.
  pose proof (read_never_stops_inside_a_boundary (H := Demo.encoder)
                Examples.boundaryWithPending false Demo.emptyWorld) as [Hnew Hread].
  split; [exact Hnew|].
  assert (read (H := Demo.encoder) 12 (Finite 2)
            (fst (newRenderer Examples.boundaryWithPending false Demo.emptyWorld))
            (snd (newRenderer Examples.boundaryWithPending false Demo.emptyWorld))
          = Finished (fst (fst MoreExamples.firstFallbackChunk),
                      snd (fst MoreExamples.firstFallbackChunk),
                      snd MoreExamples.firstFallbackChunk)) as Heq.
  { vm_compute. reflexivity. }
  exact (Hread _ _ _ _ _ _ _ Hnew Heq).
Defined.

(** ** Tags *)

Lemma isTagChar_not_breaker (c : ascii) :
  isTagChar c = true -> c ∉ tagBreakers.
Proof.
  intros Hc Hin. unfold tagBreakers in Hin.
  repeat (apply elem_of_cons in Hin as [->|Hin]; [by vm_compute in Hc|]).
  by apply elem_of_nil in Hin.
Qed.

Lemma isAsciiLetter_isTagChar (c : ascii) : isAsciiLetter c = true -> isTagChar c = true.
Proof. intros Hc. unfold isTagChar. by rewrite Hc. Qed.

(** X7. A tag that matches [VALID_TAG_REGEX] is not empty and holds only
    ASCII letters, digits and the characters : _ . - after a first letter:
    it holds no space, no slash, no angle bracket, no equals sign and no
    quote, so it cannot end the tag it is written in or start an
    attribute. *)
Theorem valid_tag_holds_only_name_characters (tag : string) :
  validTagRegex tag = true ->
  tag <> ""
  /\ Forall (fun c => isTagChar c = true) (list_ascii_of_string tag)
  /\ forall c, c ∈ list_ascii_of_string tag -> c ∉ tagBreakers.
Proof.
  intros Hvalid.
  assert (Forall (fun c => isTagChar c = true) (list_ascii_of_string tag)) as Hall.
  { destruct tag as [|c rest]; [discriminate|]. simpl in Hvalid.
    apply andb_true_iff in Hvalid as [Hc Hrest]. simpl. constructor.
    - by apply isAsciiLetter_isTagChar.
    - apply Forall_forall. intros x Hx.
      rewrite forallb_forall in Hrest. apply Hrest. by apply list_elem_of_In. }
  split_and!; [by destruct tag|done|].
  intros c Hc. apply isTagChar_not_breaker.
  rewrite Forall_forall in Hall. by apply Hall.
Qed.

Lemma valid_tag_witness :
  validTagRegex "my-element" = true
  /\ "my-element" <> ""
  /\ forall c, c ∈ list_ascii_of_string "my-element" -> c ∉ tagBreakers.
Proof.
  split; [reflexivity|].
  pose proof (valid_tag_holds_only_name_characters "my-element" eq_refl) as (Hne & _ & Hc).
  by split.
Defined.

(** X8. Whatever tags were validated before, [validateDangerousTag] throws
    its invariant exactly for the tags that do not match [VALID_TAG_REGEX];
    the cache holds only tags that match and grows by the tag validated.
    (The tag is not "hasOwnProperty": [renderDOM] passes lower-case
    tags.) *)
Theorem validateDangerousTag_rejects_what_the_pattern_rejects
    (tag : string) (cache : gset string) :
  tagCacheOk cache -> tag <> "hasOwnProperty" ->
  match validateDangerousTag tag cache with
  | Ok cache' =>
      validTagRegex tag = true /\ tagCacheOk cache' /\ cache' = {[tag]} ∪ cache
  | Fail e cache' => validTagRegex tag = false /\ e = InvalidTag /\ cache' = cache
  end.
Proof.
  intros [Hhas Hvalid] Hne. unfold validateDangerousTag.
  destruct (decide ("hasOwnProperty" ∈ cache)) as [|_]; [done|].
  destruct (decide (tag ∈ cache)) as [Hin|Hnin].
  - split_and!; [by apply Hvalid|done|].
    symmetry. apply subseteq_union_1_L. by apply singleton_subseteq_l.
  - destruct (validTagRegex tag) eqn:Htag; [|done].
    split_and!; [done| |done]. split.
    + intros Hin. apply elem_of_union in Hin as [Hin|Hin]; [|done].
      apply elem_of_singleton in Hin. congruence.
    + intros t Ht. apply elem_of_union in Ht as [Ht|Ht]; [|by apply Hvalid].
      apply elem_of_singleton in Ht. by subst t.
Qed.

Lemma validateDangerousTag_witness :
  tagCacheOk {["div"]}
  /\ validateDangerousTag "span" {["div"]} = Ok ({["span"]} ∪ {["div"]})
  /\ validateDangerousTag "a b" {["div"]} = Fail InvalidTag {["div"]}.
Proof.
  assert (tagCacheOk {["div"]}) as Hok.
  { split.
    - intros Hin. apply elem_of_singleton in Hin. discriminate.
    - intros t Ht. apply elem_of_singleton in Ht. by subst t. }
  split; [exact Hok|]. split.
  - pose proof (validateDangerousTag_rejects_what_the_pattern_rejects "span" {["div"]}
                  Hok ltac:(discriminate)) as Hspan.
    destruct (validateDangerousTag "span" {["div"]}) as [cache'|e cache'].
    + by destruct Hspan as (_ & _ & ->).
    + by destruct Hspan as [Hfalse _].
  - pose proof (validateDangerousTag_rejects_what_the_pattern_rejects "a b" {["div"]}
                  Hok ltac:(discriminate)) as Hbad.
    destruct (validateDangerousTag "a b" {["div"]}) as [cache'|e cache'].
    + by destruct Hbad as [Htrue _].
    + by destruct Hbad as (_ & -> & ->).
Defined.

(** ** Style attributes *)

Lemma processStyleName_ok (hyphenateStyleName : string -> string)
    (name : string) (cache : gmap string string) :
  styleCacheOk hyphenateStyleName cache -> name <> "hasOwnProperty" ->
  exists cache',
    processStyleName hyphenateStyleName name cache = Ok (hyphenateStyleName name, cache')
    /\ styleCacheOk hyphenateStyleName cache'
    /\ cache ⊆ cache'
    /\ (name <> "__proto__" -> cache' !! name = Some (hyphenateStyleName name)).
Proof.
  intros [Hhas Hvals] Hne. unfold processStyleName.
  destruct (decide ("hasOwnProperty" ∈ dom cache)) as [|_]; [done|].
  destruct (cache !! name) as [result|] eqn:Hlook.
  - exists cache. rewrite (Hvals _ _ Hlook). split_and!; try done.
    intros _. by rewrite Hlook, (Hvals _ _ Hlook).
  - destruct (decide (name = "__proto__")) as [Hproto|Hproto].
    + exists cache. by split_and!.
    + exists (<[name := hyphenateStyleName name]> cache). split_and!; try done.
      * split.
        -- rewrite dom_insert_L. intros Hin.
           apply elem_of_union in Hin as [Hin|Hin]; [|done].
           apply elem_of_singleton in Hin. congruence.
        -- intros k v Hk. destruct (decide (k = name)) as [->|Hkn].
           ++ rewrite lookup_insert_eq in Hk. by injection Hk as <-.
           ++ rewrite lookup_insert_ne in Hk by done. by apply Hvals.
      * by apply insert_subseteq.
      * intros _. by rewrite lookup_insert_eq.
Qed.

Section Styles.
Variable StyleValue : Type.
Variable hyphenateStyleName : string -> string.
Variable dangerousStyleValue : string -> StyleValue -> bool -> string.

Lemma joinFrom_semicolon (declarations : list string) :
  declarations <> [] ->
  joinFrom ";" declarations = ";" +:+ String.concat ";" declarations.
Proof.
  induction declarations as [|d ds IH]; [done|]. intros _.
  cbn [joinFrom]. destruct ds as [|d' ds].
  - cbn [joinFrom String.concat]. by rewrite string_app_empty_r.
  - rewrite IH by done. rewrite string_app_assoc. reflexivity.
Qed.

Lemma joinFrom_concat (declarations : list string) :
  joinFrom "" declarations = String.concat ";" declarations.
Proof.
  destruct declarations as [|d ds]; [reflexivity|].
  cbn [joinFrom]. rewrite string_app_empty_l. destruct ds as [|d' ds].
  - cbn [joinFrom String.concat]. by rewrite string_app_empty_r.
  - by rewrite joinFrom_semicolon.
Qed.

Lemma serializeStyles_spec (styles : list (string * option StyleValue)) :
  forall serialized delimiter cache,
    styleCacheOk hyphenateStyleName cache ->
    "hasOwnProperty" ∉ styles.*1 ->
    exists cache',
      serializeStyles StyleValue hyphenateStyleName dangerousStyleValue
        styles serialized delimiter cache
      = Ok (serialized
            +:+ joinFrom delimiter
                  (omap (styleDeclaration StyleValue hyphenateStyleName
                           dangerousStyleValue) styles),
            cache')
      /\ styleCacheOk hyphenateStyleName cache' /\ cache ⊆ cache'.
Proof.
  induction styles as [|[name value] styles IH]; intros serialized delimiter cache Hok Hkeys.
  - exists cache. cbn. by rewrite string_app_empty_r.
  - assert (name <> "hasOwnProperty" /\ "hasOwnProperty" ∉ styles.*1) as [Hname Hrest].
    { rewrite fmap_cons in Hkeys. apply not_elem_of_cons in Hkeys as [? ?]. by split. }
    cbn [serializeStyles omap list_omap styleDeclaration].
    destruct value as [v|]; [|by apply IH].
    destruct (isCustomProperty name) eqn:Hcustom.
    + destruct (IH ((serialized +:+ ((delimiter +:+ name) +:+ ":"))
                    +:+ dangerousStyleValue name v true) ";" cache Hok Hrest)
        as (cache' & -> & Hok' & Hsub).
      exists cache'. split_and!; try done. cbn [joinFrom].
      by rewrite !string_app_assoc.
    + destruct (processStyleName_ok hyphenateStyleName name cache Hok Hname) as (cache1 & -> & Hok1 & Hsub1 & _).
      destruct (IH ((serialized +:+ ((delimiter +:+ hyphenateStyleName name) +:+ ":"))
                    +:+ dangerousStyleValue name v false) ";" cache1 Hok1 Hrest)
        as (cache' & -> & Hok' & Hsub).
      exists cache'. split_and!; try done; [|by etrans].
      cbn [joinFrom]. by rewrite !string_app_assoc.
Qed.

Lemma concat_declarations_nonempty (styles : list (string * option StyleValue)) :
  omap (styleDeclaration StyleValue hyphenateStyleName dangerousStyleValue) styles <> [] ->
  String.concat ";"
    (omap (styleDeclaration StyleValue hyphenateStyleName dangerousStyleValue) styles)
  <> "".
Proof.
  intros Hne Hempty.
  assert (forall d, d ∈ omap (styleDeclaration StyleValue hyphenateStyleName
                                dangerousStyleValue) styles ->
                    0 < String.length d) as Hlen.
  { intros d Hd. apply list_elem_of_omap in Hd as ([name [v|]] & _ & Hd); [|discriminate].
    simpl in Hd. injection Hd as <-. rewrite !string_length_app. simpl. lia. }
  destruct (omap _ styles) as [|d ds]; [done|].
  assert (0 < String.length d) as Hd by (apply Hlen; by left).
  assert (String.length (String.concat ";" (d :: ds)) = 0) as Hzero by (by rewrite Hempty).
  cbn [String.concat] in Hzero. destruct ds.
  - lia.
  - change (String.length (d +:+ (";" +:+ String.concat ";" (s :: ds))) = 0) in Hzero.
    rewrite string_length_app in Hzero. lia.
Qed.

End Styles.

(** X9. [processStyleName] returns the hyphenated name of the style,
    whatever names were processed before: the cache only holds hyphenated
    names of its keys and a call only adds the name it is given.  (The name
    is not "hasOwnProperty", which would hide the method the cache is asked
    with.) *)
Theorem processStyleName_returns_the_hyphenated_name
    (hyphenateStyleName : string -> string) (name : string) (cache : gmap string string) :
  styleCacheOk hyphenateStyleName cache -> name <> "hasOwnProperty" ->
  exists cache',
    processStyleName hyphenateStyleName name cache = Ok (hyphenateStyleName name, cache')
    /\ styleCacheOk hyphenateStyleName cache'
    /\ cache ⊆ cache'
    /\ processStyleName hyphenateStyleName name cache'
       = Ok (hyphenateStyleName name, cache').
Proof.
  intros Hok Hne.
  destruct (processStyleName_ok hyphenateStyleName name cache Hok Hne)
    as (cache' & Hcall & Hok' & Hsub & Hhit).
  exists cache'. split_and!; try done.
  unfold processStyleName. destruct Hok' as [Hhas Hvals].
  destruct (decide ("hasOwnProperty" ∈ dom cache')) as [|_]; [done|].
  destruct (cache' !! name) as [result|] eqn:Hlook.
  - by rewrite (Hvals _ _ Hlook).
  - destruct (decide (name = "__proto__")) as [_|Hproto]; [done|].
    specialize (Hhit Hproto). congruence.
Qed.

Lemma processStyleName_witness :
  styleCacheOk (fun name => "x-" +:+ name) ∅
  /\ exists cache',
       processStyleName (fun name => "x-" +:+ name) "color" ∅ = Ok ("x-color", cache')
       /\ processStyleName (fun name => "x-" +:+ name) "color" cache'
          = Ok ("x-color", cache').
Proof.
  assert (styleCacheOk (fun name => "x-" +:+ name) ∅) as Hok.
  { split; [rewrite dom_empty_L; apply not_elem_of_empty|].
    intros k v Hk. by rewrite lookup_empty in Hk. }
  split; [exact Hok|].
  destruct (processStyleName_returns_the_hyphenated_name
              (fun name => "x-" +:+ name) "color" ∅ Hok ltac:(discriminate))
    as (cache' & H1 & _ & _ & H2).
  by exists cache'.
Defined.

(** X10. [createMarkupForStyles] returns the declarations of the styles
    whose value is not null, in the order of the styles, with a semicolon
    between two of them and none before the first or after the last; a custom
    property (a name that starts with "--") keeps its name, any other name
    is hyphenated.  It returns null exactly when no style has a value.  The
    result does not depend on the cache of style names.  (No style is named
    "hasOwnProperty".) *)
Theorem createMarkupForStyles_joins_the_declarations
    (StyleValue : Type) (hyphenateStyleName : string -> string)
    (dangerousStyleValue : string -> StyleValue -> bool -> string)
    (styles : list (string * option StyleValue)) (cache : gmap string string) :
  styleCacheOk hyphenateStyleName cache ->
  "hasOwnProperty" ∉ styles.*1 ->
  let declarations :=
    omap (styleDeclaration StyleValue hyphenateStyleName dangerousStyleValue) styles in
  exists cache',
    createMarkupForStyles StyleValue hyphenateStyleName dangerousStyleValue styles cache
    = Ok (if decide (declarations = []) then None
          else Some (String.concat ";" declarations), cache')
    /\ styleCacheOk hyphenateStyleName cache'
    /\ (declarations = [] <-> Forall (fun style => style.2 = None) styles).
Proof.
  intros Hok Hkeys declarations.
  destruct (serializeStyles_spec StyleValue hyphenateStyleName dangerousStyleValue
              styles "" "" cache Hok Hkeys) as (cache' & Hloop & Hok' & _).
  exists cache'. unfold createMarkupForStyles.
  rewrite bool_decide_eq_false_2 by done. rewrite Hloop.
  rewrite string_app_empty_l, joinFrom_concat. fold declarations.
  split_and!; [|done|].
  - destruct (decide (declarations = [])) as [->|Hne]; [reflexivity|].
    destruct (decide (String.concat ";" declarations = "")) as [Hempty|_]; [|done].
    by apply concat_declarations_nonempty in Hempty.
  - subst declarations. clear. induction styles as [|[name [v|]] styles IH]; simpl.
    + split; [constructor|done].
    + split; [done|]. intros Hall. by inversion Hall.
    + rewrite IH. split; [by constructor|]. intros Hall. by inversion Hall.
Qed.

Lemma createMarkupForStyles_witness :
  styleCacheOk (fun name => name) ∅
  /\ ("hasOwnProperty" ∉ [("color", Some "red"); ("top", None); ("--gap", Some "1")].*1)
  /\ exists cache',
       createMarkupForStyles string (fun name => name) (fun _ v _ => v)
         [("color", Some "red"); ("top", None); ("--gap", Some "1")] ∅
       = Ok (Some "color:red;--gap:1", cache').
Proof.
  assert (styleCacheOk (fun name : string => name) ∅) as Hok.
  { split; [rewrite dom_empty_L; apply not_elem_of_empty|].
    intros k v Hk. by rewrite lookup_empty in Hk. }
  assert ("hasOwnProperty" ∉ [("color", Some "red"); ("top", None);
                              ("--gap", Some "1")].*1) as Hkeys.
  { simpl. intros Hin. repeat (apply elem_of_cons in Hin as [Hin|Hin]; [discriminate|]).
    by apply elem_of_nil in Hin. }
  split; [exact Hok|]. split; [exact Hkeys|].
  destruct (createMarkupForStyles_joins_the_declarations string (fun name => name)
              (fun _ v _ => v) _ ∅ Hok Hkeys) as (cache' & Hcall & _).
  exists cache'. exact Hcall.
Defined.

(** ** The update queue *)

Section UpdateQueueFacts.
Import UpdateQueue.
Context {V : Type}.
Implicit Types (h : Heap V) (o : Obj V) (partials : list StateValue).

Lemma assign_empty o : ("__proto__" ∉ dom o) -> assign ∅ (Some o) = o.
Proof.
  intros Hno. unfold assign. destruct (decide ("__proto__" ∈ dom (∅ : Obj V))) as [Hin|_].
  - rewrite dom_empty_L in Hin. by apply not_elem_of_empty in Hin.
  - rewrite (right_id_L ∅ (∪)). apply delete_id. by apply not_elem_of_dom.
Qed.

Lemma assign_no_proto o (source : option (Obj V)) :
  ("__proto__" ∉ dom o) -> "__proto__" ∉ dom (assign o source).
Proof.
  intros Hno. destruct source as [s|]; [|done]. unfold assign.
  destruct (decide ("__proto__" ∈ dom o)) as [Hin|_]; [done|].
  rewrite dom_union_L, dom_delete_L. intros Hin.
  apply elem_of_union in Hin as [Hin|Hin]; [|done].
  apply elem_of_difference in Hin as [_ Hin]. apply Hin. by apply elem_of_singleton.
Qed.

Lemma copy_no_proto (source : option (Obj V)) : "__proto__" ∉ dom (assign (∅ : Obj V) source).
Proof. apply assign_no_proto. rewrite dom_empty_L. apply not_elem_of_empty. Qed.

(** [merge] takes the source [partialStateOf] computes. *)
Lemma merge_partialStateOf h partial nextState :
  merge h (ownProperties h nextState) partial =
    match partialStateOf h partial nextState with
    | None => ownProperties h nextState
    | Some partialState =>
        Some (assign (assign ∅ (ownProperties h nextState)) (Some partialState))
    end.
Proof.
  unfold merge, partialStateOf. destruct partial as [| |b]; [done|done|].
  destruct (h !! b) as [[ps [f|]]|]; done.
Qed.

(** An object of the heap reads the same once a fresh object is added. *)
Lemma partialStateOf_fresh h a o partial :
  a ∉ dom h -> allocated h partial ->
  partialStateOf (<[a := mkCell o None]> h) partial (Ref a) =
    match partial with
    | Ref b =>
        match h !! b with
        | Some c => match call c with Some f => f (Some o) | None => Some (props c) end
        | None => None
        end
    | Undefined | Null => None
    end.
Proof.
  intros Ha Hb. destruct partial as [| |b]; [done|done|]. cbn in Hb.
  assert (a <> b) as Hne by (intros ->; done).
  unfold partialStateOf, ownProperties.
  rewrite lookup_insert_ne by done. rewrite lookup_insert_eq. done.
Qed.

Lemma merge_fresh h o partial :
  ("__proto__" ∉ dom o) ->
  merge h (Some o) partial =
    match
      match partial with
      | Ref b =>
          match h !! b with
          | Some c => match call c with Some f => f (Some o) | None => Some (props c) end
          | None => None
          end
      | Undefined | Null => None
      end
    with
    | None => Some o
    | Some partialState => Some (assign o (Some partialState))
    end.
Proof.
  intros Hno. unfold merge. destruct partial as [| |b]; [done|done|].
  destruct (h !! b) as [[ps [f|]]|]; cbn [call props]; [|by rewrite assign_empty|done].
  destruct (f (Some o)); [by rewrite assign_empty|done].
Qed.

(** Once [nextState] is the copy, the loop only writes into the copy. *)
Lemma applyPartials_mutating partials : forall h a o,
  a ∉ dom h ->
  exists o',
    applyPartials partials (Ref a) false (<[a := mkCell o None]> h)
      = Ok (Ref a, <[a := mkCell o' None]> h)
    /\ (("__proto__" ∉ dom o) -> Forall (allocated h) partials ->
        ("__proto__" ∉ dom o') /\ foldl (merge h) (Some o) partials = Some o').
Proof.
  induction partials as [|partial rest IH]; intros h a o Ha.
  - exists o. split; [reflexivity|]. intros Hno _. by split.
  - cbn [applyPartials foldl].
    destruct (partialStateOf (<[a := mkCell o None]> h) partial (Ref a)) as [ps|] eqn:Hps.
    + rewrite alter_insert_eq. cbn [props call].
      destruct (IH h a (assign o (Some ps)) Ha) as (o' & Hrun & Hval).
      exists o'. split; [exact Hrun|]. intros Hno Hall.
      apply Forall_cons in Hall as [Hp Hall].
      rewrite partialStateOf_fresh in Hps by done.
      rewrite merge_fresh by done. rewrite Hps.
      apply Hval; [by apply assign_no_proto|done].
    + destruct (IH h a o Ha) as (o' & Hrun & Hval).
      exists o'. split; [exact Hrun|]. intros Hno Hall.
      apply Forall_cons in Hall as [Hp Hall].
      rewrite partialStateOf_fresh in Hps by done.
      rewrite merge_fresh by done. rewrite Hps. by apply Hval.
Qed.

(** The loop from its start: it leaves the heap alone until the first
    partial state that is not null, copies then, and writes into the copy
    from there on. *)
Lemma applyPartials_copying partials : forall h nextState,
  exists state' h',
    applyPartials partials nextState true h = Ok (state', h')
    /\ ((state' = nextState /\ h' = h)
        \/ exists a o, (a ∉ dom h) /\ state' = Ref a /\ h' = <[a := mkCell o None]> h)
    /\ (Forall (allocated h) partials ->
        ownProperties h' state' = foldl (merge h) (ownProperties h nextState) partials).
Proof.
  induction partials as [|partial rest IH]; intros h nextState.
  - exists nextState, h. split_and!; [reflexivity|by left|done].
  - cbn [applyPartials foldl]. rewrite merge_partialStateOf.
    destruct (partialStateOf h partial nextState) as [ps|] eqn:Hps.
    + pose proof (is_fresh (dom h)) as Ha.
      set (a := fresh (dom h)) in *.
      set (o := assign (assign ∅ (ownProperties h nextState)) (Some ps)).
      destruct (applyPartials_mutating rest h a o Ha) as (o' & Hrun & Hval).
      exists (Ref a), (<[a := mkCell o' None]> h). split_and!.
      * exact Hrun.
      * right. by exists a, o'.
      * intros Hall. apply Forall_cons in Hall as [_ Hall].
        destruct Hval as [_ ->]; [|done|].
        -- apply assign_no_proto, copy_no_proto.
        -- cbn [ownProperties]. by rewrite lookup_insert_eq.
    + destruct (IH h nextState) as (state' & h' & Hrun & Hheap & Hval).
      exists state', h'. split_and!; [exact Hrun|exact Hheap|].
      intros Hall. apply Forall_cons in Hall as [_ Hall]. by apply Hval.
Qed.

Lemma baseState_no_replace (calls : list Call) (state : StateValue) :
  existsb isReplace calls = false -> baseState calls state = state.
Proof.
  induction calls as [|[p|s|] calls IH]; cbn [existsb isReplace baseState orb]; try done.
Qed.

(** The updater after the calls of a lifecycle method. *)
Lemma foldl_perform (calls : list Call) : forall (u : Updater) q (state : StateValue),
  queue u = Some q ->
  foldl perform u calls =
    mkUpdater
      (Some (if existsb isReplace calls
             then baseState calls state :: partialsSince calls
             else q ++ partialsSince calls))
      (replace u || existsb isReplace calls).
Proof.
  induction calls as [|[p|s|] calls IH]; intros [q0 r] q state Hq; cbn in Hq; subst q0.
  - cbn. by rewrite app_nil_r, orb_false_r.
  - cbn [foldl perform existsb isReplace baseState partialsSince orb].
    unfold enqueueSetState. cbn [queue replace].
    rewrite (IH _ (q ++ [p]) state) by done. cbn [replace].
    destruct (existsb isReplace calls); [done|]. by rewrite <- app_assoc.
  - cbn [foldl perform existsb isReplace baseState partialsSince orb].
    unfold enqueueReplaceState.
    rewrite (IH _ [s] s) by done. cbn [replace orb]. rewrite orb_true_r.
    destruct (existsb isReplace calls) eqn:Hex; [done|].
    by rewrite baseState_no_replace.
  - cbn [foldl perform existsb isReplace baseState partialsSince orb].
    unfold enqueueForceUpdate. by rewrite (IH _ q state).
Qed.

(** What [mount] comes to: the loop over the partial states since the last
    replaceState, or nothing at all. *)
Lemma mount_unfold (calls : list Call) (state : StateValue) h :
  exists u',
    queue u' = None
    /\ mount calls state h =
         match applyPartials (partialsSince calls) (baseState calls state) true h with
         | Ok (state', h') => Ok (u', state', h')
         | Fail e (_, h') => Fail e (u', state, h')
         end.
Proof.
  unfold mount. rewrite (foldl_perform calls newUpdater [] state) by done.
  cbn [replace newUpdater orb app].
  destruct (existsb isReplace calls) eqn:Hex; unfold processQueue; cbn [queue replace].
  - destruct (partialsSince calls) as [|p ps] eqn:Hps.
    + exists (mkUpdater None false). split; [done|]. done.
    + exists (mkUpdater None false). split; [done|]. done.
  - rewrite (baseState_no_replace calls state Hex).
    destruct (partialsSince calls) as [|p ps] eqn:Hps.
    + exists (mkUpdater None false). split; [done|]. done.
    + exists (mkUpdater None false). split; [done|]. done.
Qed.

(** X11. The update queue never writes into an object it was given, and
    folding it never throws.  Whatever calls of setState, replaceState and
    forceUpdate componentWillMount makes, every object of the heap is left
    as it was.  The instance ends with the very value it was given (the
    argument of the last replaceState, its own state when there is none)
    and an unchanged heap, or with a new object, the only one made.  After
    that the queue is null and setState changes nothing. *)
Theorem mount_never_writes_into_a_given_object
    (calls : list Call) (state : StateValue) h :
  exists u' state' h',
    mount calls state h = Ok (u', state', h')
    /\ (forall a c, h !! a = Some c -> h' !! a = Some c)
    /\ ((state' = baseState calls state /\ h' = h)
        \/ exists a, (a ∉ dom h) /\ state' = Ref a /\ dom h' = {[a]} ∪ dom h)
    /\ forall partialState, enqueueSetState partialState u' = u'.
Proof.
  destruct (mount_unfold calls state h) as (u' & Hnull & ->).
  destruct (applyPartials_copying (partialsSince calls) h (baseState calls state))
    as (state' & h' & -> & Hheap & _).
  exists u', state', h'. split_and!.
  - reflexivity.
  - intros a c Hc. destruct Hheap as [[_ ->]|(a' & o & Ha' & _ & ->)]; [done|].
    rewrite lookup_insert_ne; [done|]. intros ->.
    apply Ha'. apply elem_of_dom. by eexists.
  - destruct Hheap as [[-> ->]|(a' & o & Ha' & -> & ->)]; [by left|].
    right. exists a'. split_and!; [done|done|]. by rewrite dom_insert_L.
  - intros partialState. unfold enqueueSetState. by rewrite Hnull.
Qed.

(** X12. The state a mount ends with has the properties that merging the
    partial states one by one, each into a copy of what the ones before it
    gave, ends with: the merge starts from the argument of the last
    replaceState (from the state of the instance when there is none) and
    takes the arguments of the calls of setState made after it, in order; a
    partial state that is null or undefined is skipped, a function is called
    with what the ones before it gave, and a property of a later one
    replaces the property of the same name. *)
Theorem mounted_state_merges_the_partials
    (calls : list Call) (state : StateValue) h :
  Forall (allocated h) (partialsSince calls) ->
  exists u' state' h',
    mount calls state h = Ok (u', state', h')
    /\ ownProperties h' state' =
         foldl (merge h) (ownProperties h (baseState calls state)) (partialsSince calls).
Proof.
  intros Hall.
  destruct (mount_unfold calls state h) as (u' & Hnull & ->).
  destruct (applyPartials_copying (partialsSince calls) h (baseState calls state))
    as (state' & h' & -> & _ & Hval).
  exists u', state', h'. split; [reflexivity|]. by apply Hval.
Qed.

End UpdateQueueFacts.

(** A component whose state is {a: 1} calls setState({a: 0}), then
    replaceState({b: 2}), setState(null), setState of a function that
    returns {n: 3} and setState({b: 4}): it ends with {b: 4, n: 3}. *)
Lemma mounted_state_witness :
  let h : UpdateQueue.Heap string :=
    {[ 0 := UpdateQueue.mkCell {[ "a" := "1" ]} None;
       1 := UpdateQueue.mkCell {[ "a" := "0" ]} None;
       2 := UpdateQueue.mkCell {[ "b" := "2" ]} None;
       3 := UpdateQueue.mkCell ∅ (Some (fun _ => Some {[ "n" := "3" ]}));
       4 := UpdateQueue.mkCell {[ "b" := "4" ]} None ]} in
  let calls :=
    [ UpdateQueue.SetState (UpdateQueue.Ref 1);
      UpdateQueue.ReplaceState (UpdateQueue.Ref 2);
      UpdateQueue.SetState UpdateQueue.Null;
      UpdateQueue.SetState (UpdateQueue.Ref 3);
      UpdateQueue.SetState (UpdateQueue.Ref 4) ] in
  Forall (UpdateQueue.allocated h) (UpdateQueue.partialsSince calls)
  /\ exists u' state' h',
       UpdateQueue.mount calls (UpdateQueue.Ref 0) h = Ok (u', state', h')
       /\ UpdateQueue.ownProperties h' state' = Some {[ "b" := "4"; "n" := "3" ]}.
Proof.
  intros h calls.
  assert (Forall (UpdateQueue.allocated h) (UpdateQueue.partialsSince calls)) as Hall.
  { cbn. repeat constructor; apply elem_of_dom; eexists; reflexivity. }
  split; [exact Hall|].
  destruct (mounted_state_merges_the_partials calls (UpdateQueue.Ref 0) h Hall)
    as (u' & state' & h' & Hrun & Hval).
  exists u', state', h'. split; [exact Hrun|].
  rewrite Hval. vm_compute. reflexivity.
Defined.

(** ** The markup of a tree *)

(** Induction on a tree, with the hypothesis for every child of a list of
    children and of a fallback. *)
Lemma node_induction (P : Node -> Prop) :
  (forall text, P (Text text)) ->
  P Empty ->
  (forall children, Forall P children -> P (Fragment children)) ->
  (forall h children, Forall P children -> P (Host h children)) ->
  (forall fallback children,
      Forall P children -> Forall P (default [] fallback) ->
      P (Suspense fallback children)) ->
  (forall context value children,
      Forall P children -> P (Provider context value children)) ->
  (forall context children,
      (forall v, Forall P (children v)) -> P (Consumer context children)) ->
  (forall p body, P body -> P (Lazy p body)) ->
  (forall body, P body -> P (Composite body)) ->
  (forall p body, P body -> P (Suspending p body)) ->
  (forall e, P (Failing e)) ->
  forall child, P child.
Proof.
  intros Htext Hempty Hfragment Hhost Hsuspense Hprovider Hconsumer Hlazy
    Hcomposite Hsuspending Hfailing.
  fix IH 1. intros child.
  pose (go := fix go (cs : list Node) : Forall P cs :=
          match cs with
          | [] => List.Forall_nil _
          | c :: cs' => @List.Forall_cons _ _ c cs' (IH c) (go cs')
          end).
  destruct child as
    [text| |children|h children|fallback children
    |context value children|context children|p body
    |body|p body|e].
  - apply Htext.
  - apply Hempty.
  - apply Hfragment, go.
  - apply Hhost, go.
  - apply Hsuspense; [apply go|]. destruct fallback as [fbc|]; [apply go|constructor].
  - apply Hprovider, go.
  - apply Hconsumer. intros v. apply go.
  - apply Hlazy, IH.
  - apply Hcomposite, IH.
  - apply Hsuspending, IH.
  - apply Hfailing.
Qed.

Lemma arrayGet_negative {A} (a : list (option A)) (j : Z) :
  (j < 0)%Z -> arrayGet a j = None.
Proof. intros Hj. unfold arrayGet. destruct (decide (0 <= j)%Z); [lia|done]. Qed.

Lemma arrayGet_arraySet_other {A} (a : list (option A)) (i : nat) (j : Z) (x : option A) :
  j <> Z.of_nat i -> arrayGet (arraySet a i x) j = arrayGet a j.
Proof.
  intros Hne. destruct (decide (j < 0)%Z) as [Hneg|Hpos].
  - by rewrite !arrayGet_negative.
  - rewrite <- (Z2Nat.id j) by lia. apply arrayGet_arraySet_ne. lia.
Qed.

Lemma agree_refl {A} (i : Z) (a : list (option A)) : agree i a a.
Proof. by intros j _. Qed.

Lemma agree_trans {A} (i : Z) (a b c : list (option A)) :
  agree i a b -> agree i b c -> agree i a c.
Proof. intros Hab Hbc j Hj. by rewrite Hab, Hbc. Qed.

Section MarkupFacts.
Context `{Encoder}.
Variable static : bool.
Variable tid : nat.

(** The children of a node are written as the children of a frame that is
    not the top one. *)
Lemma markupOf_kids (cs : list Node) (w : World) (prev : bool) (sel : option string) :
  (fix kids (cs : list Node) (w : World) (prev : bool) (sel : option string)
       {struct cs} : Written :=
     match cs with
     | [] => Wrote "" prev sel
     | c :: cs' =>
         match markupOf static tid false c w prev sel with
         | Wrote s1 prev1 sel1 =>
             match kids cs' w prev1 sel1 with
             | Wrote s2 prev2 sel2 => Wrote (s1 +:+ s2) prev2 sel2
             | other => other
             end
         | other => other
         end
     end) cs w prev sel
  = markupList static tid false cs w prev sel.
Proof.
  revert prev sel. induction cs as [|c cs IH]; intros prev sel; [done|].
  cbn [markupList].
  destruct (markupOf static tid false c w prev sel) as [s1 p1 x1|x1|e]; [|done..].
  by rewrite IH.
Qed.

Lemma moved_id r :
  moved r (stack r) (previousWasTextNode r) (currentSelectValue r)
    (contextStack r) (contextValueStack r) = r.
Proof. by destruct r. Qed.

Lemma add_twice (a b : string) (d : nat) (strs : list string) :
  alter (fun y => y +:+ b) d (alter (fun y => y +:+ a) d strs)
  = alter (fun y => y +:+ (a +:+ b)) d strs.
Proof.
  rewrite list_alter_alter_eq. apply list_alter_ext; [|done].
  intros x _. cbn. apply string_app_assoc.
Qed.

Lemma add_nothing (d : nat) (strs : list string) :
  alter (fun y => y +:+ "") d strs = strs.
Proof. apply list_alter_id. intros x. apply string_app_empty_r. Qed.

Lemma writing_moved st strs s p x cst cvs w' strs' :
  writing static tid st strs ->
  length strs' = length strs ->
  writing static tid
    (mkReadState (moved (rs_renderer st) s p x cst cvs) w' (Some <$> strs') false) strs'.
Proof.
  intros (_ & Ht & Hst & Hi & _ & Hlen) Hlen'. split_and!; try done. cbn. congruence.
Qed.

(** *** Runs *)

Lemma reaches_here st strs :
  writing static tid st strs ->
  reaches st (stack (rs_renderer st)) (previousWasTextNode (rs_renderer st))
    (currentSelectValue (rs_renderer st)) strs.
Proof.
  intros (Hsus & _ & _ & _ & Hout & _).
  exists 0, (contextStack (rs_renderer st)), (contextValueStack (rs_renderer st)).
  split_and!; [|apply agree_refl..].
  cbn [readSteps]. rewrite moved_id. destruct st as [r w out sus]. cbn in *. by subst.
Qed.

Lemma reaches_trans st s1 p1 x1 strs1 s2 p2 x2 strs2 :
  reaches st s1 p1 x1 strs1 ->
  (forall cst cvs,
      reaches (mkReadState (moved (rs_renderer st) s1 p1 x1 cst cvs) (rs_world st)
                 (Some <$> strs1) false) s2 p2 x2 strs2) ->
  reaches st s2 p2 x2 strs2.
Proof.
  intros (n1 & cst1 & cvs1 & Hn1 & Ha1 & Hv1) Hnext.
  destruct (Hnext cst1 cvs1) as (n2 & cst2 & cvs2 & Hn2 & Ha2 & Hv2).
  cbn [rs_renderer rs_world moved contextIndex contextStack contextValueStack] in *.
  exists (n1 + n2), cst2, cvs2. split_and!.
  - by rewrite readSteps_add, Hn1, Hn2.
  - by eapply agree_trans.
  - by eapply agree_trans.
Qed.

Lemma reaches_step st s1 p1 x1 strs1 s2 p2 x2 strs2 :
  readStep st
  = Continue (mkReadState
                (moved (rs_renderer st) s1 p1 x1
                   (contextStack (rs_renderer st)) (contextValueStack (rs_renderer st)))
                (rs_world st) (Some <$> strs1) false) ->
  reaches (mkReadState
             (moved (rs_renderer st) s1 p1 x1
                (contextStack (rs_renderer st)) (contextValueStack (rs_renderer st)))
             (rs_world st) (Some <$> strs1) false) s2 p2 x2 strs2 ->
  reaches st s2 p2 x2 strs2.
Proof.
  intros Hstep (n2 & cst2 & cvs2 & Hn2 & Ha2 & Hv2).
  cbn [rs_renderer rs_world moved contextIndex contextStack contextValueStack] in *.
  exists (S n2), cst2, cvs2. split_and!; [|done..].
  cbn [readSteps]. by rewrite Hstep.
Qed.

Lemma reaches_one st s1 p1 x1 strs1 :
  readStep st
  = Continue (mkReadState
                (moved (rs_renderer st) s1 p1 x1
                   (contextStack (rs_renderer st)) (contextValueStack (rs_renderer st)))
                (rs_world st) (Some <$> strs1) false) ->
  reaches st s1 p1 x1 strs1.
Proof.
  intros Hstep.
  exists 1, (contextStack (rs_renderer st)), (contextValueStack (rs_renderer st)).
  split_and!; [|apply agree_refl..]. cbn [readSteps]. by rewrite Hstep.
Qed.

(** *** Turns *)

(** The turn that renders the next child of the top frame, when [render]
    leaves the suspense depth as it is. *)
Lemma step_render st frame rest strs child s r2 w2 :
  writing static tid st strs ->
  stack (rs_renderer st) = frame :: rest ->
  f_children frame !! childIndex frame = Some child ->
  render child (setStack (rs_renderer st) (advance frame :: rest)) (rs_world st)
    = (Returned s, r2, w2) ->
  suspenseDepth r2 = suspenseDepth (rs_renderer st) ->
  readStep st
  = Continue (mkReadState r2 w2
                (Some <$> alter (fun y => y +:+ s) (suspenseDepth (rs_renderer st)) strs)
                false).
Proof.
  intros (Hsus & _ & _ & _ & Hout & Hlen) Hs Hchild Hrender Hd.
  assert (frameDone frame = false) as Hdone.
  { unfold frameDone. apply Nat.leb_gt. by eapply lookup_lt_Some. }
  rewrite readStep_turn. cbn zeta.
  rewrite Hsus, (turn_render _ (rs_world st) _ _ _ Hs Hdone Hchild), Hrender, Hout.
  rewrite length_fmap, Hd.
  replace (length strs <=? suspenseDepth (rs_renderer st)) with false
    by (symmetry; apply Nat.leb_gt; lia).
  by rewrite outAdd_strs by lia.
Qed.

(** The same turn when [render] opens a boundary. *)
Lemma step_render_deeper st frame rest strs child s r2 w2 :
  writing static tid st strs ->
  stack (rs_renderer st) = frame :: rest ->
  f_children frame !! childIndex frame = Some child ->
  render child (setStack (rs_renderer st) (advance frame :: rest)) (rs_world st)
    = (Returned s, r2, w2) ->
  suspenseDepth r2 = S (suspenseDepth (rs_renderer st)) ->
  readStep st = Continue (mkReadState r2 w2 (Some <$> strs ++ [s]) false).
Proof.
  intros (Hsus & _ & _ & _ & Hout & Hlen) Hs Hchild Hrender Hd.
  assert (frameDone frame = false) as Hdone.
  { unfold frameDone. apply Nat.leb_gt. by eapply lookup_lt_Some. }
  rewrite readStep_turn. cbn zeta.
  rewrite Hsus, (turn_render _ (rs_world st) _ _ _ Hs Hdone Hchild), Hrender, Hout.
  rewrite length_fmap, Hd.
  replace (length strs <=? S (suspenseDepth (rs_renderer st))) with true
    by (symmetry; apply Nat.leb_le; lia).
  change ((Some <$> strs) ++ [Some ""]) with ((Some <$> strs) ++ (Some <$> [""])).
  rewrite <- fmap_app, outAdd_strs by (rewrite length_app; cbn; lia).
  by rewrite <- Hlen, alter_last, string_app_empty_l.
Qed.

(** The turn that ends a frame that is no boundary and no provider. *)
Lemma step_done st frame rest strs :
  writing static tid st strs ->
  stack (rs_renderer st) = frame :: rest ->
  frameDone frame = true ->
  match f_type frame with
  | TyNull | TyConsumer | TyTag _ => True
  | _ => False
  end ->
  let r := rs_renderer st in
  readStep st
  = Continue (mkReadState
                (moved r rest
                   (if decide (footer frame = "") then previousWasTextNode r else false)
                   (match f_type frame with
                    | TyTag tag =>
                        if decide (tag = "select") then None else currentSelectValue r
                    | _ => currentSelectValue r
                    end)
                   (contextStack r) (contextValueStack r))
                (rs_world st)
                (Some <$> alter (fun y => y +:+ footer frame) (suspenseDepth r) strs)
                false).
Proof.
  intros (Hsus & _ & _ & _ & Hout & Hlen) Hs Hdone Hty r. subst r.
  rewrite readStep_turn. cbn zeta. unfold turn. rewrite Hsus, Hs, Hdone, Hout. cbn [orb].
  destruct (rs_renderer st) as [t stk ex csv pw ms sd ci cst cvs oq icr].
  cbn in *.
  destruct (f_type frame) as [|tag|c| |]; try done;
    try destruct (decide (tag = "select"));
    destruct (decide (footer frame = "")); cbn; by rewrite outAdd_strs by lia.
Qed.

(** The turn that ends a boundary frame no child of which has suspended. *)
Lemma step_boundary st frame rest strs0 x :
  writing static tid st (strs0 ++ [x]) ->
  stack (rs_renderer st) = frame :: rest ->
  frameDone frame = true ->
  f_type frame = TySuspense ->
  0 < suspenseDepth (rs_renderer st) ->
  let r := rs_renderer st in
  readStep st
  = Continue (mkReadState
                (setSuspenseDepth
                   (moved r rest
                      (if decide (footer frame = "") then previousWasTextNode r else false)
                      (currentSelectValue r) (contextStack r) (contextValueStack r))
                   (pred (suspenseDepth r)))
                (rs_world st)
                (Some <$> alter (fun y => y +:+ (x +:+ footer frame))
                            (pred (suspenseDepth r)) strs0)
                false).
Proof.
  intros (Hsus & _ & _ & _ & Hout & Hlen) Hs Hdone Hty Hpos r. subst r.
  rewrite length_app in Hlen. cbn in Hlen.
  rewrite readStep_turn. cbn zeta. unfold turn.
  rewrite Hsus, Hs, Hdone, Hty, Hout. cbn [orb].
  rewrite outPop_strs.
  destruct (rs_renderer st) as [t stk ex csv pw ms sd ci cst cvs oq icr].
  cbn in *.
  destruct (decide (footer frame = "")); cbn;
    rewrite outAdd_strs by lia; rewrite outAdd_strs by (rewrite length_alter; lia);
    by rewrite add_twice.
Qed.

(** The turn that ends the frame of a provider whose entry is the last of
    the provider stacks. *)
Lemma step_provider st frame rest strs c0 c :
  writing static tid st strs ->
  stack (rs_renderer st) = frame :: rest ->
  frameDone frame = true ->
  f_type frame = TyProvider c0 -> footer frame = "" ->
  let r := rs_renderer st in
  (0 <= contextIndex r)%Z ->
  arrayGet (contextStack r) (contextIndex r) = Some c ->
  readStep st
  = Continue (mkReadState
                (setContexts
                   (moved r rest (previousWasTextNode r) (currentSelectValue r)
                      (contextStack r) (contextValueStack r))
                   (contextIndex r - 1)
                   (arraySet (contextStack r) (Z.to_nat (contextIndex r)) None)
                   (arraySet (contextValueStack r) (Z.to_nat (contextIndex r)) None))
                (writeSlot c tid (arrayGet (contextValueStack r) (contextIndex r))
                   (rs_world st))
                (Some <$> strs)
                false).
Proof.
  intros (Hsus & Ht & _ & _ & Hout & Hlen) Hs Hdone Hty Hfoot r Hpos Hc. subst r.
  rewrite readStep_turn. cbn zeta. unfold turn.
  rewrite Hsus, Hs, Hdone, Hty, Hout. cbn [orb].
  destruct (decide (footer frame = "")) as [_|]; [|done].
  unfold popProvider.
  destruct (rs_renderer st) as [t stk ex csv pw ms sd ci cst cvs oq icr].
  cbn in *. rewrite Hc. destruct (decide (0 <= ci)%Z); [|lia]. cbn.
  rewrite outAdd_strs by lia. rewrite Hfoot, add_nothing. by subst t.
Qed.

(** *** Runs that suspend *)

Lemma writing_take st strs :
  writing static tid st strs ->
  exists cur, strs = take (suspenseDepth (rs_renderer st)) strs ++ [cur]
              /\ length (take (suspenseDepth (rs_renderer st)) strs)
                 = suspenseDepth (rs_renderer st).
Proof.
  intros (_ & _ & _ & _ & _ & Hlen).
  destruct (decide (strs = [])) as [->|Hne]; [cbn in Hlen; lia|].
  destruct (exists_last Hne) as (outer & cur & ->).
  rewrite length_app in Hlen. cbn in Hlen.
  exists cur. rewrite take_app_length' by lia. split; [done|lia].
Qed.

Lemma unwinding_moved st outer dropped s p x cst cvs w' dropped' :
  unwinding tid st outer dropped ->
  unwinding tid
    (mkReadState (moved (rs_renderer st) s p x cst cvs) w'
       (Some <$> outer ++ [dropped']) true) outer dropped'.
Proof. intros (_ & Ht & Hi & _ & Hlen). by split_and!. Qed.

Lemma suspends_one st s p x outer dropped :
  readStep st
  = Continue (mkReadState
                (moved (rs_renderer st) s p x
                   (contextStack (rs_renderer st)) (contextValueStack (rs_renderer st)))
                (rs_world st) (Some <$> outer ++ [dropped]) true) ->
  suspendsTo st s x outer.
Proof.
  intros Hstep.
  exists 1, p, dropped, (contextStack (rs_renderer st)), (contextValueStack (rs_renderer st)).
  split_and!; [|apply agree_refl..]. cbn [readSteps]. by rewrite Hstep.
Qed.

Lemma reaches_suspends st s1 p1 x1 strs1 s2 x2 outer :
  reaches st s1 p1 x1 strs1 ->
  (forall cst cvs,
      suspendsTo (mkReadState (moved (rs_renderer st) s1 p1 x1 cst cvs) (rs_world st)
                    (Some <$> strs1) false) s2 x2 outer) ->
  suspendsTo st s2 x2 outer.
Proof.
  intros (n1 & cst1 & cvs1 & Hn1 & Ha1 & Hv1) Hnext.
  destruct (Hnext cst1 cvs1) as (n2 & prev & dropped & cst2 & cvs2 & Hn2 & Ha2 & Hv2).
  cbn [rs_renderer rs_world moved contextIndex contextStack contextValueStack] in *.
  exists (n1 + n2), prev, dropped, cst2, cvs2. split_and!.
  - by rewrite readSteps_add, Hn1, Hn2.
  - by eapply agree_trans.
  - by eapply agree_trans.
Qed.

Lemma step_suspends st s1 p1 x1 strs1 s2 x2 outer :
  readStep st
  = Continue (mkReadState
                (moved (rs_renderer st) s1 p1 x1
                   (contextStack (rs_renderer st)) (contextValueStack (rs_renderer st)))
                (rs_world st) (Some <$> strs1) false) ->
  suspendsTo (mkReadState
                (moved (rs_renderer st) s1 p1 x1
                   (contextStack (rs_renderer st)) (contextValueStack (rs_renderer st)))
                (rs_world st) (Some <$> strs1) false) s2 x2 outer ->
  suspendsTo st s2 x2 outer.
Proof.
  intros Hstep (n2 & prev & dropped & cst2 & cvs2 & Hn2 & Ha2 & Hv2).
  cbn [rs_renderer rs_world moved contextIndex contextStack contextValueStack] in *.
  exists (S n2), prev, dropped, cst2, cvs2. split_and!; [|done..].
  cbn [readSteps]. by rewrite Hstep.
Qed.

Lemma suspends_then st s1 x1 outer s2 x2 :
  suspendsTo st s1 x1 outer ->
  (forall prev dropped cst cvs,
      exists prev' dropped',
        readStep (mkReadState (moved (rs_renderer st) s1 prev x1 cst cvs) (rs_world st)
                    (Some <$> outer ++ [dropped]) true)
        = Continue (mkReadState (moved (rs_renderer st) s2 prev' x2 cst cvs)
                      (rs_world st) (Some <$> outer ++ [dropped']) true)) ->
  suspendsTo st s2 x2 outer.
Proof.
  intros (n1 & prev & dropped & cst & cvs & Hn1 & Ha & Hv) Hnext.
  destruct (Hnext prev dropped cst cvs) as (prev' & dropped' & Hstep).
  exists (n1 + 1), prev', dropped', cst, cvs. split_and!; [|done..].
  rewrite readSteps_add, Hn1. cbn [readSteps]. by rewrite Hstep.
Qed.

(** *** Turns once a child has suspended *)

(** The turn in which [render] throws a thenable under an open boundary. *)
Lemma step_throw st frame rest strs child p r2 w2 :
  writing static tid st strs ->
  stack (rs_renderer st) = frame :: rest ->
  f_children frame !! childIndex frame = Some child ->
  render child (setStack (rs_renderer st) (advance frame :: rest)) (rs_world st)
    = (ThrewThenable p, r2, w2) ->
  suspenseDepth r2 = suspenseDepth (rs_renderer st) ->
  0 < suspenseDepth (rs_renderer st) ->
  readStep st
  = Continue (mkReadState r2 w2
                (Some <$> alter (fun y => y +:+ "") (suspenseDepth (rs_renderer st)) strs)
                true).
Proof.
  intros (Hsus & _ & _ & _ & Hout & Hlen) Hs Hchild Hrender Hd Hpos.
  assert (frameDone frame = false) as Hdone.
  { unfold frameDone. apply Nat.leb_gt. by eapply lookup_lt_Some. }
  rewrite readStep_turn. cbn zeta.
  rewrite Hsus, (turn_render _ (rs_world st) _ _ _ Hs Hdone Hchild), Hrender, Hout.
  rewrite length_fmap, Hd.
  replace (0 <? suspenseDepth (rs_renderer st)) with true
    by (symmetry; apply Nat.ltb_lt; lia).
  replace (length strs <=? suspenseDepth (rs_renderer st)) with false
    by (symmetry; apply Nat.leb_gt; lia).
  by rewrite outAdd_strs by lia.
Qed.

(** The turn that pops a frame that is no boundary and no provider. *)
Lemma step_unwind st frame rest outer dropped :
  unwinding tid st outer dropped ->
  stack (rs_renderer st) = frame :: rest ->
  match f_type frame with
  | TyNull | TyConsumer | TyTag _ => True
  | _ => False
  end ->
  let r := rs_renderer st in
  readStep st
  = Continue (mkReadState
                (moved r rest
                   (if decide (footer frame = "") then previousWasTextNode r else false)
                   (match f_type frame with
                    | TyTag tag =>
                        if decide (tag = "select") then None else currentSelectValue r
                    | _ => currentSelectValue r
                    end)
                   (contextStack r) (contextValueStack r))
                (rs_world st)
                (Some <$> outer ++ [dropped +:+ footer frame])
                true).
Proof.
  intros (Hsus & _ & _ & Hout & Hlen) Hs Hty r. subst r.
  rewrite readStep_turn. cbn zeta. unfold turn. rewrite Hsus, Hs, Hout. cbn [orb].
  destruct (rs_renderer st) as [t stk ex csv pw ms sd ci cst cvs oq icr].
  cbn in *. subst sd.
  destruct (f_type frame) as [|tag|c| |]; try done;
    try destruct (decide (tag = "select"));
    destruct (decide (footer frame = "")); cbn;
    rewrite outAdd_strs by (rewrite length_app; cbn; lia); by rewrite alter_last.
Qed.

(** The turn that pops the frame of a provider whose entry is the last of
    the provider stacks. *)
Lemma step_unwind_provider st frame rest outer dropped c0 c :
  unwinding tid st outer dropped ->
  stack (rs_renderer st) = frame :: rest ->
  f_type frame = TyProvider c0 -> footer frame = "" ->
  let r := rs_renderer st in
  (0 <= contextIndex r)%Z ->
  arrayGet (contextStack r) (contextIndex r) = Some c ->
  readStep st
  = Continue (mkReadState
                (setContexts
                   (moved r rest (previousWasTextNode r) (currentSelectValue r)
                      (contextStack r) (contextValueStack r))
                   (contextIndex r - 1)
                   (arraySet (contextStack r) (Z.to_nat (contextIndex r)) None)
                   (arraySet (contextValueStack r) (Z.to_nat (contextIndex r)) None))
                (writeSlot c tid (arrayGet (contextValueStack r) (contextIndex r))
                   (rs_world st))
                (Some <$> outer ++ [dropped])
                true).
Proof.
  intros (Hsus & Ht & _ & Hout & Hlen) Hs Hty Hfoot r Hpos Hc. subst r.
  rewrite readStep_turn. cbn zeta. unfold turn.
  rewrite Hsus, Hs, Hty, Hout. cbn [orb].
  destruct (decide (footer frame = "")) as [_|]; [|done].
  unfold popProvider.
  destruct (rs_renderer st) as [t stk ex csv pw ms sd ci cst cvs oq icr].
  cbn in *. rewrite Hc. destruct (decide (0 <= ci)%Z); [|lia]. cbn. subst sd.
  rewrite outAdd_strs by (rewrite length_app; cbn; lia).
  rewrite alter_last, Hfoot, string_app_empty_r. by subst t.
Qed.

(** The turn that pops a boundary frame: what was buffered for the boundary
    is dropped and the fallback frame takes the place of the boundary. *)
Lemma step_unwind_boundary st frame rest outer dropped fb :
  unwinding tid st outer dropped ->
  stack (rs_renderer st) = frame :: rest ->
  f_type frame = TySuspense -> footer frame = suspenseClose ->
  fallbackFrame frame = Some fb ->
  0 < suspenseDepth (rs_renderer st) ->
  let r := rs_renderer st in
  readStep st
  = Continue (mkReadState
                (setSuspenseDepth
                   (moved r (fb :: rest) false (currentSelectValue r)
                      (contextStack r) (contextValueStack r))
                   (pred (suspenseDepth r)))
                (rs_world st)
                (Some <$> alter (fun y => y +:+ suspenseFallback)
                            (pred (suspenseDepth r)) outer)
                false).
Proof.
  intros (Hsus & _ & _ & Hout & Hlen) Hs Hty Hfoot Hfb Hpos r. subst r.
  rewrite readStep_turn. cbn zeta. unfold turn.
  rewrite Hsus, Hs, Hty, Hout, Hfb. cbn [orb].
  rewrite outPop_strs.
  destruct (decide (footer frame = "")) as [Heq|_].
  { rewrite Hfoot in Heq. discriminate Heq. }
  destruct (rs_renderer st) as [t stk ex csv pw ms sd ci cst cvs oq icr].
  cbn in *. by rewrite outAdd_strs by lia.
Qed.

(** *** Runs that throw *)

Lemma throws_one st e stE : readStep st = Throw e stE -> throwsWith st e.
Proof. intros Hstep. exists 1, stE. cbn [readSteps]. by rewrite Hstep. Qed.

Lemma reaches_throws st s1 p1 x1 strs1 e :
  reaches st s1 p1 x1 strs1 ->
  (forall cst cvs,
      throwsWith (mkReadState (moved (rs_renderer st) s1 p1 x1 cst cvs) (rs_world st)
                    (Some <$> strs1) false) e) ->
  throwsWith st e.
Proof.
  intros (n1 & cst1 & cvs1 & Hn1 & _ & _) Hnext.
  destruct (Hnext cst1 cvs1) as (n2 & stE & Hn2).
  exists (n1 + n2), stE. by rewrite readSteps_add, Hn1, Hn2.
Qed.

(** The turn in which [render] throws an error. *)
Lemma step_error st frame rest strs child e r2 w2 :
  writing static tid st strs ->
  stack (rs_renderer st) = frame :: rest ->
  f_children frame !! childIndex frame = Some child ->
  render child (setStack (rs_renderer st) (advance frame :: rest)) (rs_world st)
    = (ThrewError e, r2, w2) ->
  throwsWith st e.
Proof.
  intros (Hsus & _ & _ & _ & Hout & Hlen) Hs Hchild Hrender.
  assert (frameDone frame = false) as Hdone.
  { unfold frameDone. apply Nat.leb_gt. by eapply lookup_lt_Some. }
  eapply throws_one. rewrite readStep_turn. cbn zeta.
  by rewrite Hsus, (turn_render _ (rs_world st) _ _ _ Hs Hdone Hchild), Hrender.
Qed.

(** The turn in which [render] throws a thenable with no boundary open. *)
Lemma step_no_fallback st frame rest strs child p r2 w2 :
  writing static tid st strs ->
  stack (rs_renderer st) = frame :: rest ->
  f_children frame !! childIndex frame = Some child ->
  render child (setStack (rs_renderer st) (advance frame :: rest)) (rs_world st)
    = (ThrewThenable p, r2, w2) ->
  suspenseDepth r2 = 0 ->
  throwsWith st NoFallbackUI.
Proof.
  intros (Hsus & _ & _ & _ & Hout & Hlen) Hs Hchild Hrender Hd.
  assert (frameDone frame = false) as Hdone.
  { unfold frameDone. apply Nat.leb_gt. by eapply lookup_lt_Some. }
  eapply throws_one. rewrite readStep_turn. cbn zeta.
  rewrite Hsus, (turn_render _ (rs_world st) _ _ _ Hs Hdone Hchild), Hrender, Hd.
  reflexivity.
Qed.

(** *** What a run carries out *)

Lemma rootOf_moved r (s : list Frame) p x cst cvs :
  length s = length (stack r) -> rootOf (moved r s p x cst cvs) = rootOf r.
Proof. intros Hlen. unfold rootOf. cbn. by rewrite Hlen. Qed.

(** A run that has written [m1] and goes on with what [result] says. *)
Lemma carries_trans st strs s1 p1 x1 m1 result s s' result' :
  writing static tid st strs ->
  reaches st s1 p1 x1 (alter (fun y => y +:+ m1) (suspenseDepth (rs_renderer st)) strs) ->
  (forall cst cvs,
      carriesOut
        (mkReadState (moved (rs_renderer st) s1 p1 x1 cst cvs) (rs_world st)
           (Some <$> alter (fun y => y +:+ m1) (suspenseDepth (rs_renderer st)) strs)
           false)
        (alter (fun y => y +:+ m1) (suspenseDepth (rs_renderer st)) strs) result s s') ->
  result' = match result with
            | Wrote m2 p x => Wrote (m1 +:+ m2) p x
            | Pending x => Pending x
            | Threw e => Threw e
            end ->
  carriesOut st strs result' s s'.
Proof.
  intros Hwr Hfirst Hnext ->. pose proof Hwr as (_ & _ & _ & _ & _ & Hlen).
  set (d := suspenseDepth (rs_renderer st)) in *.
  destruct result as [m2 p x|x|e]; unfold carriesOut in *;
    cbn [rs_renderer moved suspenseDepth] in Hnext; fold d in Hnext |- *.
  - eapply reaches_trans; [exact Hfirst|]. intros cst cvs.
    rewrite <- add_twice. apply Hnext.
  - split.
    + intros Hpos. destruct Hfirst as (n1 & cst1 & cvs1 & Hn1 & Ha1 & Hv1).
      destruct (Hnext cst1 cvs1) as [Hsus _].
      destruct (Hsus Hpos)
        as (s2 & Hs2 & n2 & prev & dropped & cst2 & cvs2 & Hn2 & Ha2 & Hv2).
      cbn [rs_renderer rs_world moved contextIndex contextStack contextValueStack] in *.
      rewrite take_alter_ge in Hn2 by lia.
      exists s2. split; [exact Hs2|].
      exists (n1 + n2), prev, dropped, cst2, cvs2. split_and!.
      * by rewrite readSteps_add, Hn1, Hn2.
      * by eapply agree_trans.
      * by eapply agree_trans.
    + intros Hzero. eapply reaches_throws; [exact Hfirst|].
      intros cst cvs. by apply Hnext.
  - eapply reaches_throws; [exact Hfirst|]. intros cst cvs. apply Hnext.
Qed.

(** A run that ends with one more turn: the turn that ends the frame, or,
    once a child has suspended, the turn that pops it. *)
Lemma carries_then st strs result s s' foot (P : bool -> bool)
    (X : option string -> option string) sEnd result' :
  writing static tid st strs ->
  carriesOut st strs result s s' ->
  (forall m p x cst cvs,
      readStep (mkReadState (moved (rs_renderer st) s p x cst cvs) (rs_world st)
                  (Some <$> alter (fun y => y +:+ m) (suspenseDepth (rs_renderer st)) strs) false)
      = Continue (mkReadState (moved (rs_renderer st) sEnd (P p) (X x) cst cvs)
                    (rs_world st)
                    (Some <$> alter (fun y => y +:+ foot)
                                (suspenseDepth (rs_renderer st))
                                (alter (fun y => y +:+ m) (suspenseDepth (rs_renderer st)) strs)) false)) ->
  (forall s1 prev x dropped cst cvs,
      s' s1 -> 0 < suspenseDepth (rs_renderer st) ->
      exists prev' dropped',
        readStep (mkReadState (moved (rs_renderer st) s1 prev x cst cvs) (rs_world st)
                    (Some <$> take (suspenseDepth (rs_renderer st)) strs ++ [dropped]) true)
        = Continue (mkReadState (moved (rs_renderer st) sEnd prev' (X x) cst cvs)
                      (rs_world st) (Some <$> take (suspenseDepth (rs_renderer st)) strs ++ [dropped']) true)) ->
  result' = match result with
            | Wrote m p x => Wrote (m +:+ foot) (P p) (X x)
            | Pending x => Pending (X x)
            | Threw e => Threw e
            end ->
  carriesOut st strs result' sEnd (fun s1 => s1 = sEnd).
Proof.
  intros Hwr Hgo Hend Hpop ->.
  destruct result as [m p x|x|e]; unfold carriesOut in *.
  - destruct Hgo as (n & cst & cvs & Hn & Ha & Hv).
    exists (n + 1), cst, cvs. split_and!; [|done..].
    rewrite readSteps_add, Hn. cbn [readSteps]. by rewrite Hend, add_twice.
  - destruct Hgo as [Hsus Hzero]. split; [|exact Hzero].
    intros Hpos.
    destruct (Hsus Hpos) as (s1 & Hs1 & n & prev & dropped & cst & cvs & Hn & Ha & Hv).
    destruct (Hpop s1 prev x dropped cst cvs Hs1 Hpos) as (prev' & dropped' & Hstep).
    exists sEnd. split; [done|].
    exists (n + 1), prev', dropped', cst, cvs. split_and!; [|done..].
    rewrite readSteps_add, Hn. cbn [readSteps]. by rewrite Hstep.
  - exact Hgo.
Qed.

Lemma steps_throw st n st1 e :
  readSteps n st = Continue st1 -> throwsWith st1 e -> throwsWith st e.
Proof.
  intros Hn (n2 & stE & Hn2). exists (n + n2), stE. by rewrite readSteps_add, Hn.
Qed.

(** *** Frames *)

(** A frame does what the markup of its children says when each child
    does. *)
Lemma frame_writes (cs : list Node) :
  Forall (writesMarkup static tid) cs -> frameWritesMarkup static tid cs.
Proof.
  intros Hcs k. induction k as [|k IH]; intros st frame rest strs Hwr Hs Hf Hk.
  - assert (childIndex frame = length cs) as Hi by lia.
    rewrite Hi, drop_all. cbn [markupList carriesOut].
    rewrite add_nothing.
    assert (finished frame = frame) as ->.
    { rewrite <- Hf in Hi. unfold finished. rewrite <- Hi. clear. by destruct frame. }
    rewrite <- Hs. by apply reaches_here.
  - assert (childIndex frame < length cs) as Hlt by lia.
    destruct (lookup_lt_is_Some_2 _ _ Hlt) as [child Hchild].
    rewrite (drop_S _ _ _ Hchild). cbn [markupList].
    assert (writesMarkup static tid child) as Hgood.
    { rewrite Forall_forall in Hcs. apply Hcs.
      eapply list_elem_of_lookup_2; eauto. }
    rewrite <- Hf in Hchild.
    pose proof (Hgood st frame rest strs Hwr Hs Hchild) as Hfirst.
    destruct (markupOf static tid _ child _ _ _) as [s1 p1 x1|x1|e].
    + match goal with
      | |- carriesOut _ _ (match ?R with _ => _ end) _ _ =>
          apply (carries_trans st strs (advance frame :: rest) p1 x1 s1 R _ _ _
                   Hwr Hfirst); [|by destruct R]
      end.
      intros cst cvs.
      set (strs1 := alter (fun y => y +:+ s1) (suspenseDepth (rs_renderer st)) strs).
      set (st1 := mkReadState _ _ _ _).
      assert (writing static tid st1 strs1) as Hwr1.
      { apply (writing_moved st strs); [exact Hwr|]. subst strs1. by rewrite length_alter. }
      pose proof (IH st1 (advance frame) rest strs1 Hwr1 eq_refl Hf ltac:(cbn; lia))
        as Hgo.
      cbn [st1 rs_renderer rs_world] in Hgo.
      rewrite rootOf_moved in Hgo by (by rewrite Hs).
      exact Hgo.
    + destruct Hfirst as [Hsus Hzero]. split; [|exact Hzero].
      intros Hpos. destruct (Hsus Hpos) as (s1 & -> & Hgo).
      exists (advance frame :: rest). split; [|exact Hgo].
      by exists (S (childIndex frame)).
    + exact Hfirst.
Qed.

(** A child for which [render] pushes no frame: one turn writes what
    [render] returns. *)
Lemma inline_writes st frame rest strs child s p x :
  writing static tid st strs ->
  stack (rs_renderer st) = frame :: rest ->
  f_children frame !! childIndex frame = Some child ->
  let r := rs_renderer st in
  render child (setStack r (advance frame :: rest)) (rs_world st)
    = (Returned s,
       moved r (advance frame :: rest) p x (contextStack r) (contextValueStack r),
       rs_world st) ->
  reaches st (advance frame :: rest) p x
    (alter (fun y => y +:+ s) (suspenseDepth r) strs).
Proof.
  intros Hwr Hs Hchild r Hrender. subst r.
  apply reaches_one.
  exact (step_render _ _ _ _ _ _ _ _ Hwr Hs Hchild Hrender eq_refl).
Qed.

(** A child for which [render] throws a thenable: under an open boundary
    the reader is suspended, and with no boundary the turn throws. *)
Lemma thrown_suspends st frame rest strs child p :
  writing static tid st strs ->
  stack (rs_renderer st) = frame :: rest ->
  f_children frame !! childIndex frame = Some child ->
  let r := rs_renderer st in
  render child (setStack r (advance frame :: rest)) (rs_world st)
    = (ThrewThenable p, setStack r (advance frame :: rest), rs_world st) ->
  carriesOut st strs (Pending (currentSelectValue r))
    (advance frame :: rest) (fun s1 => s1 = advance frame :: rest).
Proof.
  intros Hwr Hs Hchild r Hrender. subst r. split.
  - intros Hpos. exists (advance frame :: rest). split; [done|].
    pose proof (step_throw _ _ _ _ _ _ _ _ Hwr Hs Hchild Hrender eq_refl Hpos) as Hstep.
    rewrite add_nothing in Hstep.
    destruct (writing_take _ _ Hwr) as (cur & Hstrs & _).
    rewrite Hstrs in Hstep at 1.
    apply (suspends_one st _ (previousWasTextNode (rs_renderer st)) _ _ cur).
    rewrite Hstep. by destruct (rs_renderer st).
  - intros Hzero.
    by apply (step_no_fallback st frame rest strs child p _ _ Hwr Hs Hchild Hrender).
Qed.

(** A child for which [render] pushes a frame that is no boundary and no
    provider: the run writes what [render] returns, the markup of the
    children of the frame and the footer of the frame; or a child of the
    frame suspends and the frame is popped; or a child of the frame
    throws. *)
Lemma pushed_writes st frame rest strs child s0 f prev2 sel2 :
  writing static tid st strs ->
  stack (rs_renderer st) = frame :: rest ->
  f_children frame !! childIndex frame = Some child ->
  let r := rs_renderer st in
  render child (setStack r (advance frame :: rest)) (rs_world st)
    = (Returned s0,
       moved r (f :: advance frame :: rest) prev2 sel2
         (contextStack r) (contextValueStack r),
       rs_world st) ->
  childIndex f = 0 ->
  match f_type f with
  | TyNull | TyConsumer | TyTag _ => True
  | _ => False
  end ->
  frameWritesMarkup static tid (f_children f) ->
  let popped x3 :=
    match f_type f with
    | TyTag tag => if decide (tag = "select") then None else x3
    | _ => x3
    end in
  carriesOut st strs
    (match markupList static tid false (f_children f) (rs_world st) prev2 sel2 with
     | Wrote s1 p3 x3 =>
         Wrote ((s0 +:+ s1) +:+ footer f)
           (if decide (footer f = "") then p3 else false) (popped x3)
     | Pending x3 => Pending (popped x3)
     | Threw e => Threw e
     end)
    (advance frame :: rest) (fun s1 => s1 = advance frame :: rest).
Proof.
  intros Hwr Hs Hchild r Hrender Hi Hty Hkids popped. subst r.
  pose proof Hwr as (_ & Ht & _ & Hci & _ & Hlen).
  pose proof (step_render _ _ _ _ _ _ _ _ Hwr Hs Hchild Hrender eq_refl) as Hstep1.
  set (strs1 := alter (fun y => y +:+ s0) (suspenseDepth (rs_renderer st)) strs) in *.
  set (R := markupList static tid false (f_children f) (rs_world st) prev2 sel2).
  apply (carries_trans st strs (f :: advance frame :: rest) prev2 sel2 s0
           (match R with
            | Wrote m p3 x3 =>
                Wrote (m +:+ footer f) (if decide (footer f = "") then p3 else false)
                  (popped x3)
            | Pending x3 => Pending (popped x3)
            | Threw e => Threw e
            end) _ _ _ Hwr (reaches_one _ _ _ _ _ Hstep1));
    [|destruct R; [by rewrite string_app_assoc|done..]].
  { intros cst cvs. fold strs1. set (st1 := mkReadState _ _ _ _).
    assert (writing static tid st1 strs1) as Hwr1.
    { apply (writing_moved st strs); [exact Hwr|]. subst strs1. by rewrite length_alter. }
    pose proof (Hkids (length (f_children f)) st1 f (advance frame :: rest) strs1
                  Hwr1 eq_refl eq_refl ltac:(by rewrite Hi)) as Hgo.
    rewrite Hi, drop_0 in Hgo.
    apply (carries_then st1 strs1 R (finished f :: advance frame :: rest)
             (fun s1 => exists i, s1 = atChild f i :: advance frame :: rest)
             (footer f) (fun p => if decide (footer f = "") then p else false) popped
             (advance frame :: rest) _ Hwr1 Hgo); [| |done].
    - intros m p x cst2 cvs2. set (st2 := mkReadState _ _ _ _).
      set (strs2 := alter (fun y => y +:+ m) (suspenseDepth (rs_renderer st1)) strs1).
      assert (writing static tid st2 strs2) as Hwr2.
      { apply (writing_moved st1 strs1); [exact Hwr1|]. subst strs2.
        by rewrite length_alter. }
      assert (frameDone (finished f) = true) as Hdone.
      { unfold frameDone, finished. cbn. apply Nat.leb_le. lia. }
      exact (step_done st2 (finished f) (advance frame :: rest) strs2 Hwr2 eq_refl
               Hdone Hty).
    - intros s1 prev x dropped cst2 cvs2 [i ->] Hpos. set (st2 := mkReadState _ _ _ _).
      assert (unwinding tid st2 (take (suspenseDepth (rs_renderer st1)) strs1) dropped)
        as Hun.
      { split_and!; try done. subst st2 st1 strs1. cbn. rewrite length_take.
        rewrite length_alter. lia. }
      pose proof (step_unwind st2 (atChild f i) (advance frame :: rest) _ _ Hun eq_refl
                    Hty) as Hstep3.
      cbn zeta in Hstep3. eexists _, _. exact Hstep3. }
Qed.

(** A Suspense element with a fallback.  When no child suspends the run
    writes the marker of the boundary, the markup of the children and the
    closing marker; when a child suspends it drops what the boundary has
    buffered and writes the marker of a suspended boundary, the markup of
    the fallback and the closing marker. *)
Lemma boundary_writes st frame rest strs child f fbc :
  writing static tid st strs ->
  stack (rs_renderer st) = frame :: rest ->
  f_children frame !! childIndex frame = Some child ->
  let r := rs_renderer st in
  render child (setStack r (advance frame :: rest)) (rs_world st)
    = (Returned suspenseOpen,
       setSuspenseDepth
         (moved r (f :: advance frame :: rest)
            (previousWasTextNode r) (currentSelectValue r)
            (contextStack r) (contextValueStack r))
         (S (suspenseDepth r)),
       rs_world st) ->
  childIndex f = 0 -> f_type f = TySuspense -> footer f = suspenseClose ->
  fallbackFrame f = Some (mkFrame TyNull fbc 0 None suspenseClose) ->
  frameWritesMarkup static tid (f_children f) ->
  frameWritesMarkup static tid fbc ->
  carriesOut st strs
    (match markupList static tid false (f_children f) (rs_world st)
             (previousWasTextNode r) (currentSelectValue r) with
     | Wrote s1 _ x3 => Wrote ((suspenseOpen +:+ s1) +:+ suspenseClose) false x3
     | Pending x1 =>
         match markupList static tid false fbc (rs_world st) false x1 with
         | Wrote s2 _ x3 => Wrote ((suspenseFallback +:+ s2) +:+ suspenseClose) false x3
         | Pending x3 => Pending x3
         | Threw e => Threw e
         end
     | Threw e => Threw e
     end)
    (advance frame :: rest) (fun s1 => s1 = advance frame :: rest).
Proof.
  intros Hwr Hs Hchild r Hrender Hi Hty Hfoot Hfb Hkids Hfbk. subst r.
  pose proof Hwr as (Hsus & Ht & Hst & Hci & Hout & Hlen).
  pose proof (step_render_deeper _ _ _ _ _ _ _ _ Hwr Hs Hchild Hrender eq_refl) as Hstep1.
  set (r1 := setSuspenseDepth _ _) in Hstep1.
  set (st1 := mkReadState r1 (rs_world st) (Some <$> strs ++ [suspenseOpen]) false)
    in Hstep1.
  assert (writing static tid st1 (strs ++ [suspenseOpen])) as Hwr1.
  { split_and!; try done. rewrite length_app. subst st1 r1. cbn. lia. }
  assert (forall a b, alter (fun y => y +:+ b) (S (suspenseDepth (rs_renderer st)))
                        (strs ++ [a]) = strs ++ [a +:+ b]) as Hlast.
  { intros a b. rewrite <- Hlen. apply alter_last. }
  pose proof (Hkids (length (f_children f)) st1 f (advance frame :: rest)
                (strs ++ [suspenseOpen]) Hwr1 eq_refl eq_refl
                ltac:(by rewrite Hi)) as Hgo.
  rewrite Hi, drop_0 in Hgo.
  cbn [rs_renderer rs_world st1 r1 setSuspenseDepth moved suspenseDepth contextIndex
         contextStack contextValueStack previousWasTextNode currentSelectValue] in Hgo.
  change (rootOf _) with false in Hgo.
  destruct (markupList static tid false (f_children f) (rs_world st)
              (previousWasTextNode (rs_renderer st)) (currentSelectValue (rs_renderer st)))
    as [s1 p3 x3|x1|e].
  - destruct Hgo as (n2 & cst & cvs & Hn2 & Ha & Hv).
    cbn [rs_renderer rs_world st1 r1 setSuspenseDepth moved suspenseDepth contextIndex
           contextStack contextValueStack] in Hn2, Ha, Hv.
    rewrite Hlast in Hn2.
    set (st2 := mkReadState _ _ _ _) in Hn2.
    assert (writing static tid st2 (strs ++ [suspenseOpen +:+ s1])) as Hwr2.
    { split_and!; try done. rewrite length_app. subst st2. cbn. lia. }
    assert (frameDone (finished f) = true) as Hdone.
    { unfold frameDone, finished. cbn. apply Nat.leb_le. lia. }
    pose proof (step_boundary st2 (finished f) (advance frame :: rest) strs
                  (suspenseOpen +:+ s1) Hwr2 eq_refl Hdone Hty) as Hstep3.
    specialize (Hstep3 ltac:(subst st2; cbn; lia)).
    cbn zeta in Hstep3.
    exists (1 + (n2 + 1)), cst, cvs. split_and!; [|exact Ha|exact Hv].
    rewrite readSteps_add. cbn [readSteps]. rewrite Hstep1.
    rewrite readSteps_add, Hn2. cbn [readSteps]. rewrite Hstep3.
    subst st2. cbn [rs_renderer rs_world moved setSuspenseDepth suspenseDepth finished
      footer previousWasTextNode currentSelectValue contextStack contextValueStack pred].
    rewrite Hfoot. cbn [decide]. reflexivity.
  - destruct Hgo as [Hgo _].
    cbn [rs_renderer st1 r1 setSuspenseDepth moved suspenseDepth] in Hgo.
    destruct (Hgo ltac:(lia))
      as (s1 & [i ->] & n2 & prev & dropped & cst & cvs & Hn2 & Ha & Hv).
    cbn [rs_renderer rs_world st1 r1 setSuspenseDepth moved suspenseDepth contextIndex
           contextStack contextValueStack] in Hn2, Ha, Hv.
    rewrite <- Hlen, take_app_length in Hn2.
    set (st2 := mkReadState _ _ _ _) in Hn2.
    assert (unwinding tid st2 strs dropped) as Hun by (by split_and!).
    pose proof (step_unwind_boundary st2 (atChild f i) (advance frame :: rest) strs dropped
                  _ Hun eq_refl Hty Hfoot Hfb) as Hstep3.
    specialize (Hstep3 ltac:(subst st2; cbn; lia)).
    cbn zeta in Hstep3.
    cbn [st2 rs_renderer rs_world moved setSuspenseDepth suspenseDepth
           previousWasTextNode currentSelectValue contextStack contextValueStack pred
           threadID exhausted makeStaticMarkup contextIndex outQueue isChildRenderer]
      in Hstep3.
    set (fbf := mkFrame TyNull fbc 0 None suspenseClose) in *.
    set (strs3 := alter (fun y => y +:+ suspenseFallback)
                    (suspenseDepth (rs_renderer st)) strs) in *.
    assert (reaches st (fbf :: advance frame :: rest) false x1 strs3) as Hfallback.
    { exists (1 + (n2 + 1)), cst, cvs. split_and!; [|exact Ha|exact Hv].
      rewrite readSteps_add. cbn [readSteps]. rewrite Hstep1.
      rewrite readSteps_add, Hn2. cbn [readSteps]. by rewrite Hstep3. }
    set (R := markupList static tid false fbc (rs_world st) false x1).
    apply (carries_trans st strs (fbf :: advance frame :: rest) false x1 suspenseFallback
             (match R with
              | Wrote m _ x3 => Wrote (m +:+ suspenseClose) false x3
              | Pending x3 => Pending x3
              | Threw e => Threw e
              end) _ _ _ Hwr Hfallback);
      [|destruct R; [by rewrite string_app_assoc|done..]].
    intros cst' cvs'. fold strs3. set (st3 := mkReadState _ _ _ _).
    assert (writing static tid st3 strs3) as Hwr3.
    { apply (writing_moved st strs); [exact Hwr|]. subst strs3. by rewrite length_alter. }
    pose proof (Hfbk (length fbc) st3 fbf (advance frame :: rest) strs3 Hwr3
                  eq_refl eq_refl eq_refl) as Hgo3.
    cbn [fbf childIndex] in Hgo3. rewrite drop_0 in Hgo3.
    apply (carries_then st3 strs3 R (finished fbf :: advance frame :: rest)
             (fun s1 => exists j, s1 = atChild fbf j :: advance frame :: rest)
             suspenseClose (fun _ => false) (fun x => x)
             (advance frame :: rest) _ Hwr3 Hgo3); [| |done].
    + intros m p x cst4 cvs4. set (st4 := mkReadState _ _ _ _).
      set (strs4 := alter (fun y => y +:+ m) (suspenseDepth (rs_renderer st3)) strs3).
      assert (writing static tid st4 strs4) as Hwr4.
      { apply (writing_moved st3 strs3); [exact Hwr3|]. subst strs4.
        by rewrite length_alter. }
      assert (frameDone (finished fbf) = true) as Hdone.
      { unfold frameDone, finished. cbn. apply Nat.leb_le. lia. }
      exact (step_done st4 (finished fbf) (advance frame :: rest) strs4 Hwr4 eq_refl
               Hdone I).
    + intros s1 prev' x dropped' cst4 cvs4 [j ->] Hpos. set (st5 := mkReadState _ _ _ _).
      assert (unwinding tid st5 (take (suspenseDepth (rs_renderer st3)) strs3) dropped')
        as Hun5.
      { split_and!; try done. subst st5 st3 strs3. cbn. rewrite length_take.
        rewrite length_alter. lia. }
      pose proof (step_unwind st5 (atChild fbf j) (advance frame :: rest) _ _ Hun5
                    eq_refl I) as Hstep5.
      cbn zeta in Hstep5. eexists _, _. exact Hstep5.
  - apply (steps_throw st 1 st1); [|exact Hgo].
    cbn [readSteps]. by rewrite Hstep1.
Qed.

(** *** Children *)

(** The node a component resolves to has the markup of the component; a
    component that waits for a thenable is pending, and one that throws
    throws. *)
Lemma markupOf_resolve root child w prev sel :
  (exists next,
      resolve child w = ResolvedTo next
      /\ resolve next w = ResolvedTo next
      /\ markupOf static tid root child w prev sel
         = markupOf static tid root next w prev sel
      /\ match next with
         | Composite _ | Suspending _ _ | Failing _ => False
         | _ => True
         end)
  \/ (exists p, resolve child w = ResolveThenable p
                /\ markupOf static tid root child w prev sel = Pending sel)
  \/ (exists e, resolve child w = ResolveError e
                /\ markupOf static tid root child w prev sel = Threw e).
Proof.
  induction child as [t| |cs|h cs|fb cs|c v cs|c f|p body IH|body IH|p body IH|e];
    try (left; eexists; split_and!; [reflexivity|reflexivity|reflexivity|exact I]).
  - cbn [markupOf resolve]. apply IH.
  - cbn [markupOf resolve].
    destruct (isSettled p w); [by apply IH|].
    right. left. by exists p.
  - right. right. by exists (Thrown e).
Qed.

Lemma resolve_frames (P : list Node -> Prop) child w next :
  resolve child w = ResolvedTo next -> framesAll P child -> framesAll P next.
Proof.
  induction child as [t| |cs|h cs|fb cs|c v cs|c f|p body IH|body IH|p body IH|e];
    simpl; intros Hres Hkids; try (injection Hres as <-; exact Hkids).
  - by apply IH.
  - destruct (isSettled p w); [by apply IH|discriminate].
  - discriminate.
Qed.

Lemma render_waits child p r w :
  (forall t, child <> Text t) ->
  resolve child w = ResolveThenable p ->
  render child r w = (ThrewThenable p, r, w).
Proof.
  intros Hc Hres. unfold render.
  destruct child; [by destruct (Hc text)|..]; by rewrite Hres.
Qed.

Lemma render_fails child e r w :
  (forall t, child <> Text t) ->
  resolve child w = ResolveError e ->
  render child r w = (ThrewError e, r, w).
Proof.
  intros Hc Hres. unfold render.
  destruct child; [by destruct (Hc text)|..]; by rewrite Hres.
Qed.

Lemma render_resolved child next r w :
  (forall t, child <> Text t) -> (forall t, next <> Text t) ->
  resolve child w = ResolvedTo next -> resolve next w = ResolvedTo next ->
  render child r w = render next r w.
Proof.
  intros Hc Hn Hres Hres'. unfold render.
  destruct child; [by destruct (Hc text)|..]; rewrite Hres;
    (destruct next; [by destruct (Hn text)|..]); by rewrite Hres'.
Qed.

Lemma render_resolved_text child t r w :
  (forall t', child <> Text t') ->
  resolve child w = ResolvedTo (Text t) ->
  render child r w = (Returned "", pushFrame r (plainFrame [Text t]), w).
Proof.
  intros Hc Hres. unfold render.
  destruct child; [by destruct (Hc text)|..]; by rewrite Hres.
Qed.

Lemma pushFrame_moved r s f :
  pushFrame (setStack r s) f
  = moved r (f :: s) (previousWasTextNode r) (currentSelectValue r)
      (contextStack r) (contextValueStack r).
Proof. by destruct r. Qed.

Lemma setStack_moved r s :
  setStack r s
  = moved r s (previousWasTextNode r) (currentSelectValue r)
      (contextStack r) (contextValueStack r).
Proof. by destruct r. Qed.

Lemma rootOf_stack r (s : list Frame) :
  length s = length (stack r) ->
  bool_decide (length s = 1) && negb (isChildRenderer r) = rootOf r.
Proof. intros Hlen. unfold rootOf. by rewrite Hlen. Qed.

(** What [render] does with a host element that [renderDOM] accepts. *)
Lemma render_host h cs r (s : list Frame) w :
  h_validTag h = true -> h_validProps h = true ->
  render (Host h cs) (setStack r s) w
  = let sel1 :=
      if decide (h_tag h = "select") then h_selectValue h else currentSelectValue r in
    let open :=
      createOpenTagMarkup h sel1 (makeStaticMarkup r)
        (bool_decide (length s = 1) && negb (isChildRenderer r)) in
    (Returned ((open +:+ (if h_omittedClose h then "/>" else ">"))
               +:+ default "" (h_innerMarkup h)),
     moved r
       (mkFrame (TyTag (h_tag h))
          (match h_innerMarkup h with Some _ => [] | None => cs end) 0 None
          (if h_omittedClose h then "" else "</" +:+ h_type h +:+ ">") :: s)
       false sel1 (contextStack r) (contextValueStack r),
     w).
Proof.
  intros Hvt Hvp. unfold render, renderDOM. cbn [resolve]. rewrite Hvt, Hvp. cbn [negb].
  destruct r as [t stk ex csv pw ms sd ci cst cvs oq icr].
  destruct (decide (h_tag h = "select")), (h_omittedClose h), (h_innerMarkup h);
    cbn; rewrite ?string_app_empty_r; reflexivity.
Qed.

(** What [render] does with a host element that [renderDOM] rejects. *)
Lemma render_host_rejected h cs r w :
  h_validTag h && h_validProps h = false ->
  exists r2,
    render (Host h cs) r w
    = (ThrewError (if negb (h_validTag h) then InvalidTag else InvalidProps), r2, w).
Proof.
  intros Hv. unfold render, renderDOM. cbn [resolve].
  destruct (h_validTag h); cbn [negb]; [|by eexists].
  destruct (h_validProps h); [done|]. cbn [negb]. by eexists.
Qed.

(** A text node of a frame. *)
Lemma text_writes t : writesMarkup static tid (Text t).
Proof.
  intros st frame rest strs Hwr Hs Hchild.
  pose proof Hwr as (_ & _ & Hstatic & _).
  assert (forall s p x,
    render (Text t) (setStack (rs_renderer st) (advance frame :: rest)) (rs_world st)
    = (Returned s,
       moved (rs_renderer st) (advance frame :: rest) p x
         (contextStack (rs_renderer st)) (contextValueStack (rs_renderer st)),
       rs_world st) ->
    carriesOut st strs (Wrote s p x) (advance frame :: rest)
      (fun s1 => s1 = advance frame :: rest)) as Hin.
  { intros s p x Hr. by apply (inline_writes st frame rest strs (Text t)). }
  assert (render (Text t) (setStack (rs_renderer st) (advance frame :: rest)) (rs_world st)
          = if decide (t = "")
            then (Returned "", setStack (rs_renderer st) (advance frame :: rest),
                  rs_world st)
            else if static
            then (Returned (escapeTextForBrowser t),
                  setStack (rs_renderer st) (advance frame :: rest), rs_world st)
            else if previousWasTextNode (rs_renderer st)
            then (Returned (textSeparator +:+ escapeTextForBrowser t),
                  setStack (rs_renderer st) (advance frame :: rest), rs_world st)
            else (Returned (escapeTextForBrowser t),
                  setPreviousWasTextNode
                    (setStack (rs_renderer st) (advance frame :: rest)) true,
                  rs_world st)) as Hrender.
  { unfold render. rewrite <- Hstatic. by destruct (rs_renderer st). }
  cbn [markupOf].
  destruct (decide (t = "")) as [Ht|Ht].
  { apply Hin. rewrite Hrender. by destruct (rs_renderer st). }
  destruct static.
  { apply Hin. rewrite Hrender. by destruct (rs_renderer st). }
  destruct (previousWasTextNode (rs_renderer st)) eqn:Hprev;
    apply Hin; rewrite Hrender; destruct (rs_renderer st); cbn in *; by subst.
Qed.

(** A provider whose slot is initialised: the run does what the markup of
    its children says while the slot holds the value of the provider, and
    puts the slot back, also when a child suspends. *)
Lemma provider_writes st frame rest strs child c v cs :
  writing static tid st strs ->
  stack (rs_renderer st) = frame :: rest ->
  f_children frame !! childIndex frame = Some child ->
  (forall t, child <> Text t) ->
  resolve child (rs_world st) = ResolvedTo (Provider c v cs) ->
  validateContextBounds c tid (rs_world st) = true ->
  frameWritesMarkup static tid cs ->
  carriesOut st strs
    (markupList static tid false cs (writeSlot c tid (Some v) (rs_world st))
       (previousWasTextNode (rs_renderer st)) (currentSelectValue (rs_renderer st)))
    (advance frame :: rest) (fun s1 => s1 = advance frame :: rest).
Proof.
  intros Hwr Hs Hchild Hnt Hres Hvalid Hkids.
  pose proof Hwr as (Hsus & Ht & Hst & Hci & Hout & Hlen).
  destruct (readSlot c tid (rs_world st)) as [x0|] eqn:Hslot; cycle 1.
  { unfold validateContextBounds in Hvalid. apply bool_decide_eq_true in Hvalid.
    unfold readSlot in Hslot. rewrite Hslot in Hvalid. by destruct Hvalid. }
  set (r := rs_renderer st) in *. set (w := rs_world st) in *.
  set (i := Z.to_nat (contextIndex r + 1)).
  assert (Z.of_nat i = (contextIndex r + 1)%Z) as Hi by (subst i; lia).
  set (f := mkFrame (TyProvider c) cs 0 None "").
  set (cst1 := arraySet (contextStack r) i (Some c)).
  set (cvs1 := arraySet (contextValueStack r) i (Some x0)).
  set (r1 := setContexts
               (moved r (f :: advance frame :: rest) (previousWasTextNode r)
                  (currentSelectValue r) cst1 cvs1) (contextIndex r + 1) cst1 cvs1).
  set (w1 := writeSlot c tid (Some v) w).
  assert (render child (setStack r (advance frame :: rest)) w = (Returned "", r1, w1))
    as Hrender.
  { rewrite (render_resolved child (Provider c v cs)) by done.
    unfold render. cbn [resolve]. unfold pushProvider.
    replace (threadID (setStack r (advance frame :: rest))) with tid by (by rewrite <- Ht).
    rewrite Hvalid, Hslot.
    replace (contextIndex (setStack r (advance frame :: rest))) with (contextIndex r)
      by done.
    destruct (decide (0 <= contextIndex r + 1)%Z); [|lia].
    subst r1 w1 cst1 cvs1 i. by destruct r. }
  pose proof (step_render _ _ _ _ _ _ _ _ Hwr Hs Hchild Hrender eq_refl) as Hstep1.
  rewrite add_nothing in Hstep1.
  set (st1 := mkReadState r1 w1 (Some <$> strs) false) in Hstep1.
  assert (readSteps 1 st = Continue st1) as Hone.
  { cbn [readSteps]. by rewrite Hstep1. }
  assert (writing static tid st1 strs) as Hwr1.
  { split_and!; try done. subst st1 r1. cbn. lia. }
  pose proof (Hkids (length cs) st1 f (advance frame :: rest) strs Hwr1
                eq_refl eq_refl eq_refl) as Hgo.
  cbn [f childIndex] in Hgo. rewrite drop_0 in Hgo.
  change (rootOf (rs_renderer st1)) with false in Hgo.
  change (rs_world st1) with w1 in Hgo.
  change (previousWasTextNode (rs_renderer st1)) with (previousWasTextNode r) in Hgo.
  change (currentSelectValue (rs_renderer st1)) with (currentSelectValue r) in Hgo.
  assert (forall cst2 cvs2,
    agree (contextIndex r + 1) cst1 cst2 -> agree (contextIndex r + 1) cvs1 cvs2 ->
    arrayGet cst2 (contextIndex r + 1) = Some c
    /\ arrayGet cvs2 (contextIndex r + 1) = Some x0
    /\ agree (contextIndex r) (contextStack r)
         (arraySet cst2 (Z.to_nat (contextIndex r + 1)) None)
    /\ agree (contextIndex r) (contextValueStack r)
         (arraySet cvs2 (Z.to_nat (contextIndex r + 1)) None)) as Hentries.
  { intros cst2 cvs2 Ha Hv. split_and!.
    - rewrite <- Ha by lia. subst cst1. rewrite <- Hi. apply arrayGet_arraySet_eq.
    - rewrite <- Hv by lia. subst cvs1. rewrite <- Hi. apply arrayGet_arraySet_eq.
    - intros j Hj. rewrite arrayGet_arraySet_other by lia.
      rewrite <- Ha by lia. subst cst1. by rewrite arrayGet_arraySet_other by lia.
    - intros j Hj. rewrite arrayGet_arraySet_other by lia.
      rewrite <- Hv by lia. subst cvs1. by rewrite arrayGet_arraySet_other by lia. }
  assert (writeSlot c tid (Some x0) w1 = w) as Hrestore by (by apply writeSlot_restore).
  destruct (markupList static tid false cs w1 (previousWasTextNode r)
              (currentSelectValue r)) as [s p3 x3|x3|e].
  - destruct Hgo as (n2 & cst2 & cvs2 & Hn2 & Ha & Hv).
    cbn [rs_renderer rs_world st1 r1 setContexts moved suspenseDepth contextIndex
           contextStack contextValueStack threadID exhausted makeStaticMarkup outQueue
           isChildRenderer] in Hn2, Ha, Hv.
    destruct (Hentries cst2 cvs2 Ha Hv) as (Hc & Hx & Ha' & Hv').
    set (strs2 := alter (fun y => y +:+ s) (suspenseDepth r) strs) in *.
    set (st2 := mkReadState _ _ _ _) in Hn2.
    assert (writing static tid st2 strs2) as Hwr2.
    { subst st2 strs2. split_and!; cbn; try done; [lia|]. by rewrite length_alter. }
    assert (frameDone (finished f) = true) as Hdone.
    { unfold frameDone, finished. cbn. apply Nat.leb_le. lia. }
    pose proof (step_provider st2 (finished f) (advance frame :: rest) strs2 c c
                  Hwr2 eq_refl Hdone eq_refl eq_refl) as Hstep3.
    cbn zeta in Hstep3.
    specialize (Hstep3 ltac:(subst st2; cbn; lia) Hc).
    cbn [rs_renderer rs_world st2 setContexts moved suspenseDepth contextIndex
           contextStack contextValueStack threadID exhausted makeStaticMarkup outQueue
           isChildRenderer previousWasTextNode currentSelectValue] in Hstep3.
    change (contextIndex r1) with (contextIndex r + 1)%Z in Hstep3.
    rewrite Hx, Hrestore in Hstep3.
    replace (contextIndex r + 1 - 1)%Z with (contextIndex r) in Hstep3 by lia.
    exists (1 + (n2 + 1)), (arraySet cst2 (Z.to_nat (contextIndex r + 1)) None),
      (arraySet cvs2 (Z.to_nat (contextIndex r + 1)) None).
    split_and!; [|exact Ha'|exact Hv'].
    rewrite readSteps_add, Hone.
    rewrite readSteps_add, Hn2. cbn [readSteps]. by rewrite Hstep3.
  - destruct Hgo as [Hgo Hzero]. split.
    + intros Hpos.
      destruct (Hgo Hpos)
        as (s1 & [j ->] & n2 & prev & dropped & cst2 & cvs2 & Hn2 & Ha & Hv).
      cbn [rs_renderer rs_world st1 r1 setContexts moved suspenseDepth contextIndex
             contextStack contextValueStack threadID exhausted makeStaticMarkup outQueue
             isChildRenderer] in Hn2, Ha, Hv.
      destruct (Hentries cst2 cvs2 Ha Hv) as (Hc & Hx & Ha' & Hv').
      set (st2 := mkReadState _ _ _ _) in Hn2.
      assert (unwinding tid st2 (take (suspenseDepth r) strs) dropped) as Hun.
      { subst st2. split_and!; cbn; try done; [lia|]. rewrite length_take. lia. }
      pose proof (step_unwind_provider st2 (atChild f j) (advance frame :: rest) _ _ c c
                    Hun eq_refl eq_refl eq_refl) as Hstep3.
      cbn zeta in Hstep3.
      specialize (Hstep3 ltac:(subst st2; cbn; lia) Hc).
      cbn [rs_renderer rs_world st2 setContexts moved suspenseDepth contextIndex
             contextStack contextValueStack threadID exhausted makeStaticMarkup outQueue
             isChildRenderer previousWasTextNode currentSelectValue] in Hstep3.
      change (contextIndex r1) with (contextIndex r + 1)%Z in Hstep3.
      rewrite Hx, Hrestore in Hstep3.
      replace (contextIndex r + 1 - 1)%Z with (contextIndex r) in Hstep3 by lia.
      exists (advance frame :: rest). split; [done|].
      exists (1 + (n2 + 1)), prev, dropped,
        (arraySet cst2 (Z.to_nat (contextIndex r + 1)) None),
        (arraySet cvs2 (Z.to_nat (contextIndex r + 1)) None).
      split_and!; [|exact Ha'|exact Hv'].
      rewrite readSteps_add, Hone.
      rewrite readSteps_add, Hn2. cbn [readSteps]. by rewrite Hstep3.
    + intros Hz. apply (steps_throw st 1 st1 _ Hone). by apply Hzero.
  - exact (steps_throw st 1 st1 _ Hone Hgo).
Qed.

(** A child does what its markup says when the children of the frames that
    [render] pushes for it do. *)
Lemma kids_write child :
  framesAll (frameWritesMarkup static tid) child -> writesMarkup static tid child.
Proof.
  intros Hkids st frame rest strs Hwr Hs Hchild.
  pose proof Hwr as (_ & Ht & Hstatic & _).
  assert ((exists t, child = Text t) \/ (forall t, child <> Text t)) as [[t ->]|Hnt].
  { destruct child as [t| | | | | | | | | |];
      [left; by exists t|right; intros t'; discriminate..]. }
  { by apply (text_writes t st frame rest strs). }
  assert (forall p,
    render child (setStack (rs_renderer st) (advance frame :: rest)) (rs_world st)
    = (ThrewThenable p, setStack (rs_renderer st) (advance frame :: rest), rs_world st) ->
    carriesOut st strs (Pending (currentSelectValue (rs_renderer st)))
      (advance frame :: rest) (fun s1 => s1 = advance frame :: rest)) as Hthrown.
  { intros p. by apply thrown_suspends. }
  assert (forall e r2 w2,
    render child (setStack (rs_renderer st) (advance frame :: rest)) (rs_world st)
    = (ThrewError e, r2, w2) ->
    carriesOut st strs (Threw e)
      (advance frame :: rest) (fun s1 => s1 = advance frame :: rest)) as Hfails.
  { intros e r2 w2 Hr.
    exact (step_error st frame rest strs child e r2 w2 Hwr Hs Hchild Hr). }
  destruct (markupOf_resolve (rootOf (rs_renderer st)) child (rs_world st)
              (previousWasTextNode (rs_renderer st)) (currentSelectValue (rs_renderer st)))
    as [(next & Hres & Hres' & Hmn & Hform)|[(p & Hres & ->)|(e & Hres & ->)]];
    cycle 1.
  { (* a component that waits for a thenable *)
    apply (Hthrown p). by apply render_waits. }
  { (* a component that throws *)
    eapply Hfails. by apply render_fails. }
  rewrite Hmn.
  pose proof (resolve_frames _ _ _ _ Hres Hkids) as Hkn.
  clear Hmn Hkids.
  assert (forall f,
    pushFrame (setStack (rs_renderer st) (advance frame :: rest)) f
    = moved (rs_renderer st) (f :: advance frame :: rest)
        (previousWasTextNode (rs_renderer st)) (currentSelectValue (rs_renderer st))
        (contextStack (rs_renderer st)) (contextValueStack (rs_renderer st)))
    as Hpush by (intros f; apply pushFrame_moved).
  assert (forall cs ty,
    render child (setStack (rs_renderer st) (advance frame :: rest)) (rs_world st)
    = (Returned "",
       pushFrame (setStack (rs_renderer st) (advance frame :: rest))
         (mkFrame ty cs 0 None ""), rs_world st) ->
    match ty with TyNull | TyConsumer => True | _ => False end ->
    frameWritesMarkup static tid cs ->
    carriesOut st strs
      (markupList static tid false cs (rs_world st)
         (previousWasTextNode (rs_renderer st)) (currentSelectValue (rs_renderer st)))
      (advance frame :: rest) (fun s1 => s1 = advance frame :: rest)) as Hplain.
  { intros cs ty Hrender Hty Hcs. rewrite Hpush in Hrender.
    pose proof (pushed_writes st frame rest strs child "" (mkFrame ty cs 0 None "")
                  _ _ Hwr Hs Hchild Hrender eq_refl) as Hgo.
    cbn [f_type f_children footer] in Hgo.
    specialize (Hgo ltac:(by destruct ty) Hcs). cbn zeta in Hgo.
    destruct (markupList static tid false cs _ _ _) as [s prev' sel'|sel'|e].
    - rewrite string_app_empty_l, string_app_empty_r in Hgo. by destruct ty.
    - by destruct ty.
    - exact Hgo. }
  destruct next as [t| |cs|h cs|fb cs|c v cs|c f|p body|body|p body|e];
    try done.
  - (* a component that returns a string *)
    cbn [framesAll] in Hkn.
    pose proof (Hplain [Text t] TyNull (render_resolved_text _ _ _ _ Hnt Hres) I Hkn)
      as Hgo.
    cbn [markupList markupOf] in Hgo |- *.
    destruct (decide (t = "")); [|destruct static; [|destruct (previousWasTextNode _)]];
      by rewrite string_app_empty_r in Hgo.
  - (* null or false *)
    cbn [markupOf carriesOut].
    apply (inline_writes st frame rest strs child _ _ _ Hwr Hs Hchild).
    rewrite (render_resolved child Empty) by done.
    unfold render. cbn [resolve]. by rewrite setStack_moved.
  - (* an array or a fragment *)
    cbn [framesAll] in Hkn. cbn [markupOf]. rewrite markupOf_kids.
    apply (Hplain cs TyNull); [|done|done].
    by rewrite (render_resolved child (Fragment cs)) by done.
  - (* a host element *)
    cbn [framesAll] in Hkn. destruct Hkn as [Hkcs Hknil].
    cbn [markupOf]. rewrite markupOf_kids.
    destruct (h_validTag h) eqn:Hvt; cbn [negb]; cycle 1.
    { eapply Hfails. rewrite (render_resolved child (Host h cs)) by done.
      unfold render, renderDOM. cbn [resolve]. by rewrite Hvt. }
    destruct (h_validProps h) eqn:Hvp; cbn [negb]; cycle 1.
    { eapply Hfails. rewrite (render_resolved child (Host h cs)) by done.
      unfold render, renderDOM. cbn [resolve]. by rewrite Hvt, Hvp. }
    pose proof (render_host h cs (rs_renderer st) (advance frame :: rest)
                  (rs_world st) Hvt Hvp) as Hrender.
    rewrite <- (render_resolved child (Host h cs)) in Hrender by done.
    rewrite (rootOf_stack (rs_renderer st)) in Hrender by (by rewrite Hs).
    rewrite Hstatic in Hrender. cbn zeta in Hrender.
    set (sel1 := if decide (h_tag h = "select") then h_selectValue h
                 else currentSelectValue (rs_renderer st)) in *.
    set (open := createOpenTagMarkup h sel1 static (rootOf (rs_renderer st))) in *.
    set (f := mkFrame _ _ _ _ _) in Hrender.
    pose proof (pushed_writes st frame rest strs child _ f
                  _ _ Hwr Hs Hchild Hrender eq_refl I) as Hgo.
    assert (frameWritesMarkup static tid (f_children f)) as Hkf.
    { subst f. cbn [f_children]. by destruct (h_innerMarkup h). }
    specialize (Hgo Hkf). cbn zeta in Hgo.
    match type of Hgo with
    | carriesOut _ _ ?R1 _ _ =>
        match goal with
        | |- carriesOut _ _ ?R2 _ _ => replace R2 with R1; [exact Hgo|]
        end
    end.
    subst f. cbn [f_children footer f_type].
    destruct (h_innerMarkup h) as [im|]; cbn [default markupList].
    + destruct (h_omittedClose h); cbn; by rewrite ?string_app_empty_r.
    + destruct (markupList static tid false cs (rs_world st) false sel1)
        as [s1 p3 x3|x3|e]; destruct (h_omittedClose h); cbn;
        by rewrite ?string_app_empty_r.
  - (* a Suspense element *)
    cbn [framesAll] in Hkn. destruct Hkn as [Hkcs Hkfb]. destruct fb as [fbc|].
    + cbn [markupOf]. rewrite markupOf_kids.
      cbn [default] in Hkfb.
      set (f := mkFrame TySuspense cs 0
                  (Some (mkFrame TyNull fbc 0 None suspenseClose)) suspenseClose).
      pose proof (boundary_writes st frame rest strs child f fbc Hwr Hs Hchild)
        as Hgo.
      cbn zeta in Hgo.
      assert (render child (setStack (rs_renderer st) (advance frame :: rest))
                (rs_world st)
              = (Returned suspenseOpen,
                 setSuspenseDepth
                   (moved (rs_renderer st) (f :: advance frame :: rest)
                      (previousWasTextNode (rs_renderer st))
                      (currentSelectValue (rs_renderer st))
                      (contextStack (rs_renderer st))
                      (contextValueStack (rs_renderer st)))
                   (S (suspenseDepth (rs_renderer st))),
                 rs_world st)) as Hrender.
      { rewrite (render_resolved child (Suspense (Some fbc) cs)) by done.
        unfold render. cbn [resolve]. unfold enableSuspenseServerRenderer.
        rewrite Hpush. by destruct (rs_renderer st). }
      specialize (Hgo Hrender eq_refl eq_refl eq_refl eq_refl Hkcs Hkfb).
      cbn [f f_children] in Hgo.
      destruct (markupList static tid false cs _ _ _) as [s1 p3 x3|x1|e];
        [exact Hgo| |exact Hgo].
      rewrite markupOf_kids.
      by destruct (markupList static tid false fbc _ false x1).
    + cbn [markupOf]. rewrite markupOf_kids.
      apply (Hplain cs TyNull); [|done|done].
      by rewrite (render_resolved child (Suspense None cs)) by done.
  - (* a provider *)
    cbn [framesAll] in Hkn. cbn [markupOf]. rewrite markupOf_kids.
    destruct (validateContextBounds c tid (rs_world st)) eqn:Hvalid.
    + by apply (provider_writes st frame rest strs child c v cs).
    + eapply Hfails. rewrite (render_resolved child (Provider c v cs)) by done.
      unfold render. cbn [resolve]. unfold pushProvider.
      replace (threadID (setStack (rs_renderer st) (advance frame :: rest))) with tid
        by (by rewrite <- Ht).
      by rewrite Hvalid.
  - (* a consumer *)
    cbn [framesAll] in Hkn. cbn [markupOf].
    assert (threadID (setStack (rs_renderer st) (advance frame :: rest)) = tid) as Ht'
      by (by rewrite <- Ht).
    destruct (validateContextBounds c tid (rs_world st)) eqn:Hvalid; cycle 1.
    { eapply Hfails. rewrite (render_resolved child (Consumer c f)) by done.
      unfold render. cbn [resolve]. by rewrite Ht', Hvalid. }
    destruct (readSlot c tid (rs_world st)) as [nextValue|] eqn:Hslot; cycle 1.
    { eapply Hfails. rewrite (render_resolved child (Consumer c f)) by done.
      unfold render. cbn [resolve]. by rewrite Ht', Hvalid, Hslot. }
    rewrite markupOf_kids.
    apply (Hplain (f nextValue) TyConsumer); [|done|apply Hkn].
    rewrite (render_resolved child (Consumer c f)) by done.
    unfold render. cbn [resolve]. by rewrite Ht', Hvalid, Hslot.
  - (* a lazy component *)
    cbn [framesAll] in Hkn. cbn [markupOf].
    destruct (isSettled p (rs_world st)) eqn:Hp.
    + assert (render child (setStack (rs_renderer st) (advance frame :: rest))
                (rs_world st)
              = (Returned "",
                 pushFrame (setStack (rs_renderer st) (advance frame :: rest))
                   (mkFrame TyNull [body] 0 None ""), rs_world st)) as Hrender.
      { rewrite (render_resolved child (Lazy p body)) by done.
        unfold render. cbn [resolve]. by rewrite Hp. }
      pose proof (Hplain [body] TyNull Hrender I Hkn) as Hgo.
      cbn [markupList] in Hgo.
      destruct (markupOf static tid false body _ _ _) as [s prev' sel'|sel'|e];
        [|exact Hgo..].
      by rewrite string_app_empty_r in Hgo.
    + apply (Hthrown p).
      rewrite (render_resolved child (Lazy p body)) by done.
      unfold render. cbn [resolve]. by rewrite Hp.
Qed.

(** Every child does what its markup says. *)
Lemma all_kids_write child : framesAll (frameWritesMarkup static tid) child.
Proof.
  induction child using node_induction; cbn [framesAll]; try done.
  - apply frame_writes. constructor; [|constructor]. apply text_writes.
  - apply frame_writes. eapply Forall_impl; [eassumption|]. apply kids_write.
  - split; [|apply frame_writes; constructor].
    apply frame_writes. eapply Forall_impl; [eassumption|]. apply kids_write.
  - split; apply frame_writes; (eapply Forall_impl; [eassumption|]); apply kids_write.
  - apply frame_writes. eapply Forall_impl; [eassumption|]. apply kids_write.
  - intros v. apply frame_writes. eapply Forall_impl; [apply H0|]. apply kids_write.
  - apply frame_writes. constructor; [|constructor]. by apply kids_write.
Qed.

Lemma every_frame_writes cs : frameWritesMarkup static tid cs.
Proof.
  apply frame_writes. apply Forall_forall. intros child _.
  apply kids_write, all_kids_write.
Qed.

(** With [bytes = Infinity] the loop of [read] runs to the end of the run,
    whatever the tree. *)
Lemma readLoop_to_the_end m :
  forall st fuel,
    betweenTurns st -> m <= fuel ->
    match readSteps m st with
    | Break stE => readLoop fuel Infinity st = Finished stE
    | Throw e stE => readLoop fuel Infinity st = Crashed e stE
    | Continue _ => True
    end.
Proof.
  induction m as [|m IH]; intros st fuel Hinv Hfuel; [done|].
  destruct fuel as [|fuel]; [lia|].
  cbn [readSteps readLoop].
  pose proof Hinv as (_ & _ & (strs & Hout & Hlen) & _).
  destruct strs as [|s0 tl]; [simpl in Hlen; lia|].
  unfold out0Length. rewrite Hout. cbn [fmap list_fmap head mjoin option_join
    option_fmap option_map below].
  destruct (readStep st) as [st1|stE|e stE] eqn:Hstep; [|done..].
  apply IH; [|lia]. by destruct (readStep_betweenTurns _ _ Hinv Hstep).
Qed.

End MarkupFacts.

(** The run of a new renderer, turn by turn: it comes to the end with the
    markup of the tree in [out], or a turn throws. *)
Lemma run_of_a_tree `{Encoder} (children : Node) (static : bool) (w : World) :
  let r := fst (newRenderer children static w) in
  let w1 := snd (newRenderer children static w) in
  let st0 := mkReadState r w1 [Some ""] false in
  betweenTurns st0
  /\ match markup static (threadID r) children w1 with
     | inl s =>
         exists n r',
           readSteps n st0
           = Break (mkReadState r' (freeThreadID (threadID r) w1) [Some s] false)
           /\ exhausted r' = true
     | inr e => exists n stE, readSteps n st0 = Throw e stE
     end.
Proof.
  intros r w1 st0. unfold markup.
  set (top := plainFrame (flattenTopLevelChildren children)).
  assert (stack r = [top]) as Hs by done.
  assert (writing static (threadID r) st0 [""]) as Hwr by done.
  split.
  { subst st0 r. unfold newRenderer, allocThreadID. cbn. split_and!; try done.
    - constructor; [done|constructor].
    - by exists [""]. }
  pose proof (every_frame_writes static (threadID r) (flattenTopLevelChildren children)
                (length (flattenTopLevelChildren children)) st0 top [] [""]
                Hwr Hs eq_refl eq_refl) as Hgo.
  cbn [top plainFrame childIndex] in Hgo. rewrite drop_0 in Hgo.
  change (rootOf (rs_renderer st0)) with true in Hgo.
  change (markupList static (threadID r) true (flattenTopLevelChildren children)
            (rs_world st0) (previousWasTextNode (rs_renderer st0))
            (currentSelectValue (rs_renderer st0)))
    with (markupList static (threadID r) true (flattenTopLevelChildren children) w1
            false None) in Hgo.
  destruct (markupList static (threadID r) true (flattenTopLevelChildren children) w1
              false None) as [s p x|x|e].
  - destruct Hgo as (n & cst & cvs & Hn & _ & _).
    set (st1 := mkReadState _ _ _ _) in Hn.
    assert (writing static (threadID r) st1 [s]) as Hwr1 by done.
    assert (frameDone (finished top) = true) as Hdone.
    { unfold frameDone, finished. cbn. apply Nat.leb_le. lia. }
    pose proof (step_done static (threadID r) st1 (finished top) [] [s] Hwr1 eq_refl
                  Hdone I) as Hstep. cbn zeta in Hstep.
    set (st2 := mkReadState _ _ _ _) in Hstep.
    assert (readStep st2
            = Break (mkReadState (setExhausted (rs_renderer st2) true)
                       (freeThreadID (threadID r) w1) [Some s] false)) as Hbreak.
    { subst st2 st1 st0. cbn. rewrite string_app_empty_r. reflexivity. }
    exists (n + 2), (setExhausted (rs_renderer st2) true). split; [|done].
    rewrite readSteps_add, Hn. cbn [readSteps]. by rewrite Hstep, Hbreak.
  - destruct Hgo as [_ Hzero]. exact (Hzero eq_refl).
  - exact Hgo.
Qed.

(** X13. What [read(Infinity)] does for a new renderer is what the markup
    of the tree says, computed by recursion on the tree.  When the
    recursion gives a string the call returns it, leaves the renderer
    exhausted and every slot as it was, and gives the thread id back: a text
    is escaped and, unless the markup is static, follows a text with the
    separator in between; a host element is its open tag, its inner markup
    or the markup of its children, and its closing tag; a Suspense element
    with a fallback is the markup of its children between the two markers
    of a boundary, or, when a component under it is pending, the marker of
    a suspended boundary, the markup of the fallback and the closing marker,
    with nothing of what its children had written; the children of a
    provider are written with the value of the provider in the slot of its
    context, a consumer with the value its slot holds; fragments, components
    and settled lazy components are the markup of what they hold.  When the
    recursion gives an error the call throws it: the first, in the order of
    the document, of a value a component throws, a host element
    [renderDOM] rejects, a context whose slot is not initialised for the
    thread, and a component that is pending with no boundary with a fallback
    around it. *)
Theorem read_returns_the_markup `{Encoder}
    (children : Node) (static : bool) (w : World) :
  let r := fst (newRenderer children static w) in
  let w1 := snd (newRenderer children static w) in
  exists fuel0, forall fuel, fuel0 <= fuel ->
    match markup static (threadID r) children w1 with
    | inl s =>
        exists r',
          read fuel Infinity r w1 = Finished (Some s, r', freeThreadID (threadID r) w1)
          /\ exhausted r' = true
    | inr e => exists x, read fuel Infinity r w1 = Crashed e x
    end.
Proof.
  intros r w1.
  destruct (run_of_a_tree children static w) as [Hbt Hrun]. fold r w1 in Hbt, Hrun.
  set (st0 := mkReadState r w1 [Some ""] false) in *.
  destruct (markup static (threadID r) children w1) as [s|e].
  - destruct Hrun as (n & r' & Hn & Hex). exists n. intros fuel Hfuel.
    pose proof (readLoop_to_the_end n st0 fuel Hbt Hfuel) as Hloop.
    rewrite Hn in Hloop.
    exists r'. unfold read. change (exhausted r) with false. cbn iota.
    fold st0. by rewrite Hloop.
  - destruct Hrun as (n & stE & Hn). exists n. intros fuel Hfuel.
    pose proof (readLoop_to_the_end n st0 fuel Hbt Hfuel) as Hloop.
    rewrite Hn in Hloop.
    eexists. unfold read. change (exhausted r) with false. cbn iota.
    fold st0. by rewrite Hloop.
Qed.

(** The tree of [contextTree] while the slot of context 1 holds d: the
    boundary is written as its fallback, and the consumer after it reads d.
    A text and a component that throws: the call throws what the component
    throws.  A pending component with no boundary around it: there is no
    fallback to show. *)
Lemma read_markup_witness :
  (exists fuel0, forall fuel, fuel0 <= fuel ->
     exists r',
       read (H := Demo.encoder) fuel Infinity
         (fst (newRenderer MoreExamples.contextTree false Examples.defaultWorld))
         (snd (newRenderer MoreExamples.contextTree false Examples.defaultWorld))
       = Finished (Some "d<div data-reactroot>v<!-- -->w</div><!--$!-->fb<!--/$-->d", r',
                   freeThreadID 0 (snd (newRenderer MoreExamples.contextTree false
                                          Examples.defaultWorld)))
       /\ exhausted r' = true)
  /\ (exists fuel0, forall fuel, fuel0 <= fuel ->
        exists x,
          read (H := Demo.encoder) fuel Infinity
            (fst (newRenderer (Fragment [Text "a"; Failing "boom"]) false
                    Examples.defaultWorld))
            (snd (newRenderer (Fragment [Text "a"; Failing "boom"]) false
                    Examples.defaultWorld))
          = Crashed (Thrown "boom") x)
  /\ (exists fuel0, forall fuel, fuel0 <= fuel ->
        exists x,
          read (H := Demo.encoder) fuel Infinity
            (fst (newRenderer (Host (Demo.element "div") [Examples.pendingChild]) false
                    Examples.defaultWorld))
            (snd (newRenderer (Host (Demo.element "div") [Examples.pendingChild]) false
                    Examples.defaultWorld))
          = Crashed NoFallbackUI x).
Proof.
  split_and!.
  - exact (read_returns_the_markup (H := Demo.encoder) MoreExamples.contextTree false
             Examples.defaultWorld).
  - exact (read_returns_the_markup (H := Demo.encoder)
             (Fragment [Text "a"; Failing "boom"]) false Examples.defaultWorld).
  - exact (read_returns_the_markup (H := Demo.encoder)
             (Host (Demo.element "div") [Examples.pendingChild]) false Examples.defaultWorld).
Defined.

(** ** The calls of [read(bytes)] on any tree *)

Section AnyTree.
Context `{Encoder}.

Lemma readStep_keeps_exhausted st st' :
  readStep st = Continue st' ->
  exhausted (rs_renderer st') = exhausted (rs_renderer st).
Proof.
  rewrite readStep_turn. cbn zeta.
  pose proof (turn_exhausted (rs_suspended st) (rs_renderer st) (rs_world st)) as He.
  destruct (turn (rs_suspended st) (rs_renderer st) (rs_world st))
    as [r w|r w foot|r w foot fb|c r w|e r w] eqn:Hturn; try discriminate.
  - intros Heq. by injection Heq as <-.
  - destruct (outPop (rs_out st)) as [buffered out1].
    destruct (rs_suspended st); [destruct fb; [|discriminate]|];
      intros Heq; by injection Heq as <-.
  - destruct c as [s|p|e]; [| |discriminate].
    + intros Heq. by injection Heq as <-.
    + destruct (0 <? suspenseDepth r); [|discriminate].
      intros Heq. injection Heq as <-. simpl.
      revert Hturn. unfold turn.
      destruct (stack (rs_renderer st)) as [|frame rest]; [discriminate|].
      destruct (rs_suspended st || frameDone frame).
      * destruct (f_type frame) as [|tag|c| |]; try discriminate.
        -- by destruct (decide (tag = "select")).
        -- by destruct (popProvider _ _) as [[r3 w3]|e [r3 w3]].
      * destruct (f_children frame !! childIndex frame) as [child|]; [|discriminate].
        destruct (render child _ _) as [[c r2] w2] eqn:Hr.
        intros Heq. injection Heq as -> -> ->.
        by destruct (render_thenable _ _ _ _ _ _ Hr) as [-> _].
Qed.

(** A run whose first string starts with [pre] is the run without [pre],
    turn by turn, also when a child suspends. *)
Lemma readStep_prefixed pre st :
  betweenTurns st ->
  readStep (addPrefix pre st) = mapStep (addPrefix pre) (readStep st).
Proof.
  intros (Hd & Hall & (strs & Hout & Hlen) & Hsus).
  pose proof (turn_boundaries (rs_suspended st) _ (rs_world st) Hd Hall) as Hturn.
  simpl in Hturn.
  assert (strs <> []) as Hne by (intros ->; simpl in Hlen; lia).
  assert (rs_out (addPrefix pre st) = Some <$> prefixFirst pre strs) as Hout'.
  { unfold addPrefix. simpl. rewrite Hout. by destruct strs. }
  rewrite !readStep_turn. rewrite Hout'. cbn [addPrefix rs_renderer rs_world rs_suspended].
  rewrite Hout. cbn zeta.
  destruct (turn (rs_suspended st) (rs_renderer st) (rs_world st))
    as [r w|r w foot|r w foot fb|c r w|e r w].
  - simpl. by rewrite addPrefix_strs.
  - destruct Hturn as [[Hd' Hall'] Heq].
    rewrite !outAdd_strs by (rewrite ?prefixFirst_length; lia).
    simpl. by rewrite addPrefix_strs, prefixFirst_alter.
  - destruct Hturn as ([Hd' Hall'] & Heq & Hfb).
    destruct (exists_last Hne) as (strs0 & x & Hsnoc). rewrite Hsnoc in Hlen |- *.
    rewrite length_app in Hlen. simpl in Hlen.
    assert (strs0 <> []) as Hne0 by (intros ->; simpl in Hlen; lia).
    rewrite prefixFirst_app by done. rewrite !outPop_strs.
    destruct (rs_suspended st).
    + destruct fb as [f|].
      * rewrite !outAdd_strs by (rewrite ?prefixFirst_length; lia).
        simpl. by rewrite addPrefix_strs, prefixFirst_alter.
      * simpl. by rewrite addPrefix_strs.
    + simpl.
      rewrite !outAdd_strs by (rewrite ?length_alter, ?prefixFirst_length; lia).
      simpl. by rewrite addPrefix_strs, !prefixFirst_alter.
  - destruct Hturn as [Hs Hturn]. rewrite !length_fmap, prefixFirst_length.
    destruct c as [s|p|e].
    + destruct Hturn as [[Hd' Hall'] Hdepth].
      destruct (length strs <=? suspenseDepth r) eqn:Hle.
      * apply Nat.leb_le in Hle.
        change [Some ""] with (Some <$> [""]).
        rewrite <- !fmap_app.
        rewrite !outAdd_strs
          by (rewrite ?length_app, ?prefixFirst_length; simpl; lia).
        simpl. by rewrite addPrefix_strs, prefixFirst_alter, prefixFirst_app.
      * apply Nat.leb_gt in Hle.
        rewrite !outAdd_strs by (rewrite ?prefixFirst_length; lia).
        simpl. by rewrite addPrefix_strs, prefixFirst_alter.
    + destruct Hturn as [[Hd' Hall'] Hdepth].
      destruct (0 <? suspenseDepth r) eqn:Hpos0.
      * apply Nat.ltb_lt in Hpos0.
        destruct (length strs <=? suspenseDepth r) eqn:Hle;
          [apply Nat.leb_le in Hle; lia|].
        rewrite !outAdd_strs by (rewrite ?prefixFirst_length; lia).
        simpl. by rewrite addPrefix_strs, prefixFirst_alter.
      * simpl. by rewrite addPrefix_strs.
    + simpl. by rewrite addPrefix_strs.
  - simpl. by rewrite addPrefix_strs.
Qed.

Lemma betweenTurns_prefixed pre st : betweenTurns st -> betweenTurns (addPrefix pre st).
Proof.
  intros (Hd & Hall & (strs & Hout & Hlen) & Hsus).
  split_and!; try done.
  exists (prefixFirst pre strs). split; [|by rewrite prefixFirst_length].
  unfold addPrefix. simpl. rewrite Hout. by destruct strs.
Qed.

Lemma readSteps_prefixed pre n st :
  betweenTurns st ->
  readSteps n (addPrefix pre st) = mapStep (addPrefix pre) (readSteps n st).
Proof.
  revert st. induction n as [|n IH]; intros st Hinv; [reflexivity|].
  simpl. rewrite readStep_prefixed by done.
  destruct (readStep st) as [st1|st1|e st1] eqn:Hstep; simpl; [|reflexivity..].
  apply IH. by destruct (readStep_betweenTurns _ _ Hinv Hstep).
Qed.

Lemma readSteps_break_string n st stE :
  betweenTurns st -> readSteps n st = Break stE ->
  exists s, mjoin (head (rs_out stE)) = Some s.
Proof.
  revert st. induction n as [|n IH]; intros st Hinv Hrun; [discriminate|].
  simpl in Hrun. destruct (readStep st) as [st1|st1|e st1] eqn:Hstep.
  - eapply IH; [|exact Hrun]. by destruct (readStep_betweenTurns _ _ Hinv Hstep).
  - injection Hrun as <-.
    destruct (readStep_break_out _ _ Hstep) as [_ ->].
    destruct Hinv as (_ & _ & (strs & -> & Hlen) & _).
    destruct strs as [|s0 tl]; [simpl in Hlen; lia|]. by exists s0.
  - discriminate.
Qed.

(** From a state of the loop of [read(bytes)], with [m] turns to go before
    the run ends: the calls that follow return, joined, the rest of what the
    run writes. *)
Lemma readLoop_pieces b m :
  below 0 b = true ->
  forall st inner outer,
    betweenTurns st -> exhausted (rs_renderer st) = false -> headBelow b st ->
    m <= inner -> m < outer ->
    match readSteps m st with
    | Break stE =>
        exists rE wE,
          finishRead (readLoop inner b st) outer b = Finished (finalString stE, rE, wE)
    | Throw e _ => exists x, finishRead (readLoop inner b st) outer b = Crashed e x
    | Continue _ => True
    end.
Proof.
  intros Hb. induction m as [|m IH]; intros st inner outer Hinv Hex Hhead Hin Hout;
    [done|].
  assert (forall st inner outer,
    betweenTurns st -> exhausted (rs_renderer st) = false ->
    (exists s, mjoin (head (rs_out st)) = Some s /\ below (String.length s) b = true) ->
    S m <= inner -> S m <= outer ->
    match readSteps (S m) st with
    | Break stE =>
        exists rE wE,
          finishRead (readLoop inner b st) outer b = Finished (finalString stE, rE, wE)
    | Throw e _ => exists x, finishRead (readLoop inner b st) outer b = Crashed e x
    | Continue _ => True
    end) as Hgo.
  { clear st inner outer Hinv Hex Hhead Hin Hout.
    intros st inner outer Hinv Hex (s & Hs & Hbelow) Hin Hout.
    destruct inner as [|inner]; [lia|].
    cbn [readSteps readLoop]. unfold out0Length. rewrite Hs.
    cbn [fmap option_fmap option_map]. rewrite Hbelow.
    destruct (readStep st) as [st1|stE|e stE] eqn:Hstep.
    - destruct (readStep_betweenTurns _ _ Hinv Hstep) as [Hinv1 Hhead1].
      apply IH; [done| | |lia|lia].
      + by rewrite (readStep_keeps_exhausted _ _ Hstep).
      + intros Hd. exists s. split; [|done]. by rewrite (Hhead1 Hd).
    - destruct (readStep_break_out _ _ Hstep) as (Hexh & Houteq).
      destruct outer as [|outer]; [lia|].
      exists (rs_renderer stE), (rs_world stE). cbn [finishRead].
      rewrite Houteq, Hs. rewrite readAll_exhausted by done.
      unfold finalString. rewrite Houteq, Hs. simpl. by rewrite string_app_empty_r.
    - eexists. reflexivity. }
  pose proof Hinv as (Hd & Hall & (strs & Houts & Hlen) & Hsus).
  destruct strs as [|s0 tl]; [simpl in Hlen; lia|].
  destruct (below (String.length s0) b) eqn:Hbelow.
  - apply Hgo; try done; [|lia].
    exists s0. split; [|done]. by rewrite Houts.
  - assert (suspenseDepth (rs_renderer st) = 0) as Hd0.
    { destruct (suspenseDepth (rs_renderer st)) eqn:E; [done|].
      destruct Hhead as (s & Hs & Hbs); [lia|]. rewrite Houts in Hs. simpl in Hs.
      injection Hs as <-. congruence. }
    assert (tl = []) as ->.
    { rewrite Hd0 in Hlen. destruct tl; [done|simpl in Hlen; lia]. }
    assert (rs_suspended st = false) as Hnot.
    { destruct (rs_suspended st); [|done]. specialize (Hsus eq_refl). lia. }
    destruct inner as [|inner]; [lia|]. destruct outer as [|outer]; [lia|].
    cbn [readLoop]. unfold out0Length. rewrite Houts.
    cbn [fmap list_fmap head mjoin option_join option_fmap option_map].
    rewrite Hbelow. cbn [finishRead]. rewrite Houts.
    cbn [fmap list_fmap head mjoin option_join].
    rewrite readAll_unfold by done.
    set (st0 := mkReadState (rs_renderer st) (rs_world st) [Some ""] false).
    assert (betweenTurns st0) as Hinv0.
    { split_and!; try done. exists [""]. split; [done|]. simpl. by rewrite Hd0. }
    assert (st = addPrefix s0 st0) as Hst.
    { destruct st as [r w out sus]. simpl in *. subst. unfold addPrefix, st0. simpl.
      by rewrite string_app_empty_r. }
    specialize (Hgo st0 outer outer Hinv0 Hex).
    assert (readSteps (S m) st = mapStep (addPrefix s0) (readSteps (S m) st0)) as ->.
    { rewrite <- readSteps_prefixed by done. by rewrite <- Hst. }
    destruct (readSteps (S m) st0) as [st1|stE|e stE] eqn:Hrun; cbn [mapStep].
    + done.
    + destruct Hgo as (rE & wE & Hgo); [|lia|lia|].
      { exists "". split; [done|]. exact Hb. }
      rewrite Hgo. exists rE, wE.
      destruct (readSteps_break_string _ _ _ Hinv0 Hrun) as [s Hs].
      by rewrite (finalString_addPrefix _ _ s).
    + destruct Hgo as (x & Hgo); [|lia|lia|].
      { exists "". split; [done|]. exact Hb. }
      rewrite Hgo. by eexists.
Qed.

End AnyTree.

(** X14. The strings of the calls [read(bytes)] on a new renderer, up to
    the first null and joined, are the markup of the tree, whatever
    positive number of bytes each call asks for and whatever the tree
    holds, a Suspense element written as its fallback too: no call returns
    between what a boundary buffers and its closing marker, and the fields
    that one call leaves in the renderer are what the next call goes on
    from.  When the markup of the tree is an error, a call throws it. *)
Theorem chunks_join_to_the_markup `{Encoder}
    (children : Node) (static : bool) (w : World) (bytes : Bytes) :
  below 0 bytes = true ->
  let r := fst (newRenderer children static w) in
  let w1 := snd (newRenderer children static w) in
  exists fuel0, forall fuel, fuel0 <= fuel ->
    outcome (readAll fuel bytes r w1) = Some (markup static (threadID r) children w1).
Proof.
  intros Hb r w1.
  destruct (run_of_a_tree children static w) as [Hbt Hrun]. fold r w1 in Hbt, Hrun.
  set (st0 := mkReadState r w1 [Some ""] false) in *.
  assert (headBelow bytes st0) as Hhead.
  { intros Hpos. simpl in Hpos. lia. }
  assert (exhausted r = false) as Hex by done.
  destruct (markup static (threadID r) children w1) as [s|e].
  - destruct Hrun as (n & r' & Hn & _). exists (n + 2).
    intros fuel Hfuel. destruct fuel as [|fuel]; [lia|].
    rewrite readAll_unfold by done. fold st0.
    pose proof (readLoop_pieces bytes n Hb st0 fuel fuel Hbt Hex Hhead) as Hsync.
    rewrite Hn in Hsync.
    destruct Hsync as (rE & wE & ->); [lia|lia|]. reflexivity.
  - destruct Hrun as (n & stE & Hn). exists (n + 2).
    intros fuel Hfuel. destruct fuel as [|fuel]; [lia|].
    rewrite readAll_unfold by done. fold st0.
    pose proof (readLoop_pieces bytes n Hb st0 fuel fuel Hbt Hex Hhead) as Hsync.
    rewrite Hn in Hsync.
    destruct Hsync as (x & ->); [lia|lia|]. reflexivity.
Qed.

(** The tree of [contextTree], three characters at a time. *)
Lemma chunks_markup_witness :
  below 0 (Finite 3) = true
  /\ exists fuel0, forall fuel, fuel0 <= fuel ->
       outcome (readAll (H := Demo.encoder) fuel (Finite 3)
                  (fst (newRenderer MoreExamples.contextTree false Examples.defaultWorld))
                  (snd (newRenderer MoreExamples.contextTree false Examples.defaultWorld)))
       = Some (inl "d<div data-reactroot>v<!-- -->w</div><!--$!-->fb<!--/$-->d").
Proof.
  split; [reflexivity|].
  exact (chunks_join_to_the_markup (H := Demo.encoder) MoreExamples.contextTree false
           Examples.defaultWorld (Finite 3) eq_refl).
Defined.

(** ** The previous-was-text flag over a session *)

Section Flag.
Context `{Encoder}.

Lemma pushProvider_flag c v r w r1 w1 :
  pushProvider c v r w = Ok (r1, w1) ->
  previousWasTextNode r1 = previousWasTextNode r
  /\ makeStaticMarkup r1 = makeStaticMarkup r.
Proof.
  unfold pushProvider. destruct (validateContextBounds c (threadID r) w); [|discriminate].
  destruct (decide (0 <= contextIndex r + 1)%Z); intros Heq; by injection Heq as <- <-.
Qed.

Lemma popProvider_static r w r' w' :
  popProvider r w = Ok (r', w') -> makeStaticMarkup r' = makeStaticMarkup r.
Proof.
  unfold popProvider. intros Hp.
  destruct (arrayGet (contextStack r) (contextIndex r)); [|discriminate].
  inversion Hp; subst. by destruct (decide (0 <= contextIndex r)%Z).
Qed.

(** What a call of [render] that returns does to the flag: a non-empty
    text leaf sets it unless the markup is static, a host element clears it,
    and nothing else touches it. *)
Lemma render_flag child r w s r' w' :
  render child r w = (Returned s, r', w') ->
  makeStaticMarkup r' = makeStaticMarkup r
  /\ previousWasTextNode r'
     = match child with
       | Text text =>
           if decide (text = "") then previousWasTextNode r
           else if makeStaticMarkup r then previousWasTextNode r else true
       | _ =>
           match resolve child w with
           | ResolvedTo (Host _ _) => false
           | _ => previousWasTextNode r
           end
       end.
Proof.
  intros Hr. unfold render, renderDOM in Hr.
  destruct child;
    [ destruct (decide (text = ""));
        [| destruct (makeStaticMarkup r) eqn:?; [| destruct (previousWasTextNode r) eqn:?]];
        injection Hr as <- <- <-; by rewrite ?Heqb
    | .. ];
    (destruct (resolve _ w) as [nextChild|p'|e'];
      [| discriminate ..]);
    (destruct nextChild as [t'| |cs'|h' cs'|fb' cs'|c0 v' cs'|c0 f'|p' body'|body'|p' body'|e'];
      try (injection Hr as <- <- <-; by auto); try discriminate).
  all: try (destruct (negb (h_validTag h')); [discriminate|];
            destruct (decide (h_tag h' = "select"));
            (destruct (negb (h_validProps h')); [discriminate|]);
            destruct (h_omittedClose h'), (h_innerMarkup h');
            injection Hr as <- <- <-; by auto).
  all: try (simpl in Hr; destruct fb'; injection Hr as <- <- <-; by auto).
  all: try (destruct (pushProvider c0 v' r w) as [[r1 w1]|e1 [r1 w1]] eqn:Hpp;
            [|discriminate];
            destruct (pushProvider_flag _ _ _ _ _ _ Hpp) as [? ?];
            injection Hr as <- <- <-; by auto).
  all: try (destruct (validateContextBounds c0 (threadID r) w);
            [destruct (readSlot c0 (threadID r) w)|];
            try discriminate; injection Hr as <- <- <-; by auto).
  all: try (destruct (isSettled p' w); try discriminate;
            injection Hr as <- <- <-; by auto).
Qed.

(** [renderDOM] throws no thenable. *)
Lemma render_host_never_waits child h children r w p r' w' :
  resolve child w = ResolvedTo (Host h children) ->
  render child r w <> (ThrewThenable p, r', w').
Proof.
  intros Hres Hr. unfold render in Hr.
  destruct child;
    [destruct (decide (text = "")), (makeStaticMarkup r), (previousWasTextNode r);
     discriminate|..];
    rewrite Hres in Hr; unfold renderDOM in Hr;
    (destruct (negb (h_validTag h)); [discriminate|]);
    destruct (decide (h_tag h = "select"));
    (destruct (negb (h_validProps h)); [discriminate|]);
    destruct (h_omittedClose h), (h_innerMarkup h); discriminate.
Qed.

Lemma turn_flag sus r w :
  match turn sus r w with
  | TurnFooter r' _ _ | TurnBoundary r' _ _ _
  | TurnRender (Returned _) r' _ | TurnRender (ThrewThenable _) r' _ =>
      flagStep sus r w r'
  | _ => True
  end.
Proof.
  unfold turn, flagStep, endingFrame, nextChild.
  destruct (stack r) as [|frame rest]; [done|].
  destruct (sus || frameDone frame).
  - destruct (f_type frame) as [|tag|c| |].
    + by destruct (decide (footer frame = "")).
    + destruct (decide (tag = "select")); by destruct (decide (footer frame = "")).
    + destruct (popProvider _ w) as [[r3 w3]|e [r3 w3]] eqn:Hpop; [|done].
      rewrite (popProvider_previousWasTextNode _ _ _ _ Hpop),
        (popProvider_static _ _ _ _ Hpop).
      by destruct (decide (footer frame = "")).
    + by destruct (decide (footer frame = "")).
    + by destruct (decide (footer frame = "")).
  - destruct (f_children frame !! childIndex frame) as [child|]; [|done].
    destruct (render child _ w) as [[c r2] w2] eqn:Hr.
    destruct c as [s|p|e]; [| |done].
    + destruct (render_flag _ _ _ _ _ _ Hr) as [Hst Hflag]. simpl in Hst, Hflag.
      split; [done|]. rewrite Hflag. by destruct child.
    + pose proof Hr as Hr'. destruct (render_thenable _ _ _ _ _ _ Hr) as [-> _].
      simpl. split; [done|].
      destruct child as [t| | | | | | | | | |];
        [unfold render in Hr';
         repeat (match type of Hr' with
                 | context [if ?x then _ else _] => destruct x
                 end);
         discriminate|..];
        (destruct (resolve _ w) as [next|p'|e'] eqn:Hres; [|done..];
         destruct next; try done;
         by destruct (render_host_never_waits _ _ _ _ _ _ _ _ Hres Hr')).
Qed.

Lemma readStep_flag st st' :
  readStep st = Continue st' ->
  flagStep (rs_suspended st) (rs_renderer st) (rs_world st) (rs_renderer st').
Proof.
  rewrite readStep_turn. cbn zeta.
  pose proof (turn_flag (rs_suspended st) (rs_renderer st) (rs_world st)) as Hflag.
  destruct (turn (rs_suspended st) (rs_renderer st) (rs_world st))
    as [r w|r w foot|r w foot fb|c r w|e r w] eqn:Hturn; try discriminate.
  - intros Heq. by injection Heq as <-.
  - destruct (outPop (rs_out st)) as [buffered out1].
    destruct (rs_suspended st) eqn:Hsus.
    + destruct fb as [f|]; [|discriminate]. intros Heq. injection Heq as <-.
      destruct Hflag as [Hst Hf]. split; [done|]. exact Hf.
    + intros Heq. by injection Heq as <-.
  - destruct c as [s|p|e]; [| |discriminate].
    + intros Heq. by injection Heq as <-.
    + destruct (0 <? suspenseDepth r); [|discriminate].
      intros Heq. by injection Heq as <-.
Qed.


Lemma readAsyncStep_flag r w r' w' :
  readAsyncStep r w = Continue (r', w') -> flagStep false r w r'.
Proof.
  rewrite readAsyncStep_turn.
  pose proof (turn_flag false r w) as Hflag.
  destruct (turn false r w) as [r1 w1|r1 w1 foot|r1 w1 foot fb|c r1 w1|e r1 w1] eqn:Hturn;
    try discriminate.
  - destruct (pushToOutQueue _ _ _); [|discriminate]. intros Heq. by injection Heq as <- <-.
  - destruct (last _); [|discriminate].
    destruct (pushToOutQueue _ _ _); [|discriminate]. intros Heq. by injection Heq as <- <-.
  - destruct c as [s|p|e]; [| |discriminate].
    + cbn zeta. destruct (length (outQueue r1) <=? suspenseDepth r1);
        (destruct (pushToOutQueue _ _ _); [|discriminate]);
        intros Heq; by injection Heq as <- <-.
    + destruct (stack r) as [|frame rest]; [discriminate|].
      destruct (f_children frame !! childIndex frame); [|discriminate].
      destruct ((0 <? suspenseDepth r) || isChildRenderer r); [|discriminate].
      cbn zeta. destruct (length (outQueue r1) <=? suspenseDepth r1);
        (destruct (pushToOutQueue _ _ _); [|discriminate]);
        intros Heq; by injection Heq as <- <-.
Qed.

(** A turn that renders a non-empty text leaf sets the flag. *)
Lemma flagStep_text sus r w r' text :
  flagStep sus r w r' -> textTurn sus r text -> makeStaticMarkup r = false ->
  previousWasTextNode r' = true /\ makeStaticMarkup r' = false.
Proof.
  intros [Hst Hflag] [Hnext Htext] Hstatic. split; [|congruence].
  rewrite Hflag, Hnext.
  assert (endingFrame sus r = None) as ->.
  { unfold endingFrame. unfold nextChild in Hnext.
    destruct (stack r) as [|frame rest]; [done|].
    by destruct (sus || frameDone frame). }
  destruct (decide (text = "")); [done|]. by rewrite Hstatic.
Qed.

(** A turn that is not a clearing turn leaves a flag that is set. *)
Lemma flagStep_keeps sus r w r' :
  flagStep sus r w r' -> ~ clearingTurn sus r w ->
  previousWasTextNode r = true -> makeStaticMarkup r = false ->
  previousWasTextNode r' = true /\ makeStaticMarkup r' = false.
Proof.
  intros [Hst Hflag] Hclear Hprev Hstatic. split; [|congruence].
  rewrite Hflag. unfold clearingTurn in Hclear.
  destruct (endingFrame sus r) as [frame|] eqn:Hend.
  - destruct (decide (footer frame = "")) as [|Hfoot]; [done|].
    destruct Hclear. left. by exists frame.
  - destruct (nextChild sus r) as [child|] eqn:Hnext; [|done].
    assert (forall h cs, resolve child w <> ResolvedTo (Host h cs)) as Hno.
    { intros h cs Hres. apply Hclear. right. by exists child, h, cs. }
    destruct child as [t| | | | | | | | | |];
      [destruct (decide (t = "")); [done|by rewrite Hstatic]|..];
      (destruct (resolve _ w) as [next|p'|e'] eqn:Hres; [|done..];
       destruct next; try done; by destruct (Hno _ _ eq_refl)).
Qed.

Lemma flag_set_by (child : Node) (w : World) (prev static : bool) :
  match child with
  | Text text =>
      if decide (text = "") then prev else if static then prev else true
  | _ =>
      match resolve child w with
      | ResolvedTo (Host _ _) => false
      | _ => prev
      end
  end = true ->
  (exists text, child = Text text /\ text <> "" /\ static = false)
  \/ (prev = true /\ forall h cs, resolve child w <> ResolvedTo (Host h cs)).
Proof.
  destruct child as [t| | | | | | | | | |]; cbv beta iota.
  - destruct (decide (t = "")) as [->|Hne].
    + intros ->. right. split; [done|]. intros h cs. simpl. discriminate.
    + destruct static.
      * intros ->. right. split; [done|]. intros h cs. simpl. discriminate.
      * intros _. left. by exists t.
  - intros Hset. right. split; [exact Hset|]. intros h cs. simpl. discriminate.
  - intros Hset. right. split; [exact Hset|]. intros h cs. simpl. discriminate.
  - simpl. discriminate.
  - intros Hset. right. split; [exact Hset|]. intros h cs. simpl. discriminate.
  - intros Hset. right. split; [exact Hset|]. intros h cs. simpl. discriminate.
  - intros Hset. right. split; [exact Hset|]. intros h cs. simpl. discriminate.
  - intros Hset. right. split; [exact Hset|]. intros h cs. simpl. discriminate.
  - destruct (resolve _ w) as [next|p'|e']; [destruct next|..]; intros Hset;
      try discriminate Hset; right; (split; [exact Hset|]); intros h cs; discriminate.
  - destruct (resolve _ w) as [next|p'|e']; [destruct next|..]; intros Hset;
      try discriminate Hset; right; (split; [exact Hset|]); intros h cs; discriminate.
  - intros Hset. right. split; [exact Hset|]. intros h cs. simpl. discriminate.
Qed.

(** A flag that is set after a turn was set by the turn, which rendered a
    non-empty text leaf, or was set before it and the turn is no clearing
    turn. *)
Lemma flagStep_set sus r w r' :
  flagStep sus r w r' -> previousWasTextNode r' = true ->
  (exists text, textTurn sus r text /\ makeStaticMarkup r = false)
  \/ (previousWasTextNode r = true /\ ~ clearingTurn sus r w).
Proof.
  intros [Hst Hflag] Hset. rewrite Hflag in Hset. unfold clearingTurn, textTurn.
  assert (forall frame, endingFrame sus r = Some frame -> nextChild sus r = None)
    as Hends.
  { intros frame. unfold endingFrame, nextChild.
    destruct (stack r) as [|fr rest]; [done|]. by destruct (sus || frameDone fr). }
  destruct (endingFrame sus r) as [frame|] eqn:Hend.
  - destruct (decide (footer frame = "")) as [Hfoot|]; [|done].
    right. split; [done|]. intros [(f & Hf & Hne)|(child & h & cs & Hnext & _)].
    + congruence.
    + by rewrite (Hends frame eq_refl) in Hnext.
  - destruct (nextChild sus r) as [child|] eqn:Hnext.
    + assert (match child with
              | Text text =>
                  if decide (text = "") then previousWasTextNode r
                  else if makeStaticMarkup r then previousWasTextNode r else true
              | _ =>
                  match resolve child w with
                  | ResolvedTo (Host _ _) => false
                  | _ => previousWasTextNode r
                  end
              end = true) as Hset' by (by destruct child).
      destruct (flag_set_by _ _ _ _ Hset') as [(t & -> & Hne & Hstatic)|[Hprev Hno]].
      * left. by exists t.
      * right. split; [done|].
        intros [(f & Hf & _)|(child' & h & cs & Hc & Hres)]; [done|].
        injection Hc as <-. by destruct (Hno h cs).
    + right. split; [done|]. by intros [(f & Hf & _)|(child & h & cs & Hc & _)].
Qed.

End Flag.

Section FlagRuns.
Context `{Encoder}.

Lemma readSteps_last n st st' :
  readSteps (S n) st = Continue st' ->
  exists stn, readSteps n st = Continue stn /\ readStep stn = Continue st'.
Proof.
  replace (S n) with (n + 1) by lia. rewrite readSteps_add.
  destruct (readSteps n st) as [stn|stn|e stn]; [|discriminate..].
  cbn [readSteps]. intros Hstep. exists stn. split; [done|].
  by destruct (readStep stn).
Qed.

Lemma readAsyncSteps_last n r w r' w' :
  readAsyncSteps (S n) r w = Continue (r', w') ->
  exists rn wn,
    readAsyncSteps n r w = Continue (rn, wn) /\ readAsyncStep rn wn = Continue (r', w').
Proof.
  revert r w. induction n as [|n IH]; intros r w.
  - cbn [readAsyncSteps]. intros Hstep. exists r, w. split; [done|].
    destruct (readAsyncStep r w) as [[r1 w1]|[r1 w1]|e [r1 w1]]; by try discriminate.
  - intros Hrun. cbn [readAsyncSteps] in Hrun |- *.
    destruct (readAsyncStep r w) as [[r1 w1]|[r1 w1]|e [r1 w1]]; [|discriminate..].
    by apply IH.
Qed.

(** In the synchronous reader a flag that is set stays set over turns of
    which none is a clearing turn. *)
Lemma sync_flag_kept n :
  forall st1 st2,
    previousWasTextNode (rs_renderer st1) = true ->
    makeStaticMarkup (rs_renderer st1) = false ->
    readSteps n st1 = Continue st2 ->
    (forall j stj, j < n -> readSteps j st1 = Continue stj ->
       ~ clearingTurn (rs_suspended stj) (rs_renderer stj) (rs_world stj)) ->
    previousWasTextNode (rs_renderer st2) = true
    /\ makeStaticMarkup (rs_renderer st2) = false.
Proof.
  induction n as [|n IH]; intros st1 st2 Hprev Hstatic Hrun Hquiet.
  - by injection Hrun as <-.
  - cbn [readSteps] in Hrun.
    destruct (readStep st1) as [st'|st'|e st'] eqn:Hstep; [|discriminate..].
    destruct (flagStep_keeps _ _ _ _ (readStep_flag _ _ Hstep)
                (Hquiet 0 st1 ltac:(lia) eq_refl) Hprev Hstatic) as [Hprev' Hstatic'].
    apply (IH st' st2 Hprev' Hstatic' Hrun).
    intros j stj Hj Hrunj. apply (Hquiet (S j) stj); [lia|].
    cbn [readSteps]. by rewrite Hstep.
Qed.

(** In the synchronous reader a flag that is set, in a session that started
    with the flag clear, was set by a turn that rendered a non-empty text
    leaf, and no turn after that one was a clearing turn. *)
Lemma sync_flag_origin n :
  forall st0 st,
    previousWasTextNode (rs_renderer st0) = false ->
    readSteps n st0 = Continue st ->
    previousWasTextNode (rs_renderer st) = true ->
    exists k stk text,
      k < n /\ readSteps k st0 = Continue stk
      /\ textTurn (rs_suspended stk) (rs_renderer stk) text
      /\ makeStaticMarkup (rs_renderer stk) = false
      /\ forall j stj, k < j -> j < n -> readSteps j st0 = Continue stj ->
           ~ clearingTurn (rs_suspended stj) (rs_renderer stj) (rs_world stj).
Proof.
  induction n as [|n IH]; intros st0 st Hclear Hrun Hset.
  - injection Hrun as <-. congruence.
  - destruct (readSteps_last _ _ _ Hrun) as (stn & Hn & Hstep).
    destruct (flagStep_set _ _ _ _ (readStep_flag _ _ Hstep) Hset)
      as [(text & Htext & Hstatic)|[Hprev Hquiet]].
    + exists n, stn, text. split_and!; try done; [lia|]. intros j stj ? ?. lia.
    + destruct (IH st0 stn Hclear Hn Hprev) as (k & stk & text & Hk & Hrunk & Ht & Hs & Hq).
      exists k, stk, text. split_and!; try done; [lia|].
      intros j stj Hkj Hj Hrunj. destruct (decide (j = n)) as [->|Hne].
      * rewrite Hn in Hrunj. by injection Hrunj as <-.
      * apply (Hq j stj); [lia|lia|done].
Qed.

Lemma async_flag_kept n :
  forall r1 w1 r2 w2,
    previousWasTextNode r1 = true -> makeStaticMarkup r1 = false ->
    readAsyncSteps n r1 w1 = Continue (r2, w2) ->
    (forall j rj wj, j < n -> readAsyncSteps j r1 w1 = Continue (rj, wj) ->
       ~ clearingTurn false rj wj) ->
    previousWasTextNode r2 = true /\ makeStaticMarkup r2 = false.
Proof.
  induction n as [|n IH]; intros r1 w1 r2 w2 Hprev Hstatic Hrun Hquiet.
  - by injection Hrun as <- <-.
  - cbn [readAsyncSteps] in Hrun.
    destruct (readAsyncStep r1 w1) as [[r' w']|[r' w']|e [r' w']] eqn:Hstep;
      [|discriminate..].
    destruct (flagStep_keeps _ _ _ _ (readAsyncStep_flag _ _ _ _ Hstep)
                (Hquiet 0 r1 w1 ltac:(lia) eq_refl) Hprev Hstatic) as [Hprev' Hstatic'].
    apply (IH r' w' r2 w2 Hprev' Hstatic' Hrun).
    intros j rj wj Hj Hrunj. apply (Hquiet (S j) rj wj); [lia|].
    cbn [readAsyncSteps]. by rewrite Hstep.
Qed.

Lemma async_flag_origin n :
  forall r0 w0 r w,
    previousWasTextNode r0 = false ->
    readAsyncSteps n r0 w0 = Continue (r, w) ->
    previousWasTextNode r = true ->
    exists k rk wk text,
      k < n /\ readAsyncSteps k r0 w0 = Continue (rk, wk)
      /\ textTurn false rk text
      /\ makeStaticMarkup rk = false
      /\ forall j rj wj, k < j -> j < n -> readAsyncSteps j r0 w0 = Continue (rj, wj) ->
           ~ clearingTurn false rj wj.
Proof.
  induction n as [|n IH]; intros r0 w0 r w Hclear Hrun Hset.
  - injection Hrun as <- <-. congruence.
  - destruct (readAsyncSteps_last _ _ _ _ _ Hrun) as (rn & wn & Hn & Hstep).
    destruct (flagStep_set _ _ _ _ (readAsyncStep_flag _ _ _ _ Hstep) Hset)
      as [(text & Htext & Hstatic)|[Hprev Hquiet]].
    + exists n, rn, wn, text. split_and!; try done; [lia|]. intros j rj wj ? ?. lia.
    + destruct (IH r0 w0 rn wn Hclear Hn Hprev)
        as (k & rk & wk & text & Hk & Hrunk & Ht & Hs & Hq).
      exists k, rk, wk, text. split_and!; try done; [lia|].
      intros j rj wj Hkj Hj Hrunj. destruct (decide (j = n)) as [->|Hne].
      * rewrite Hn in Hrunj. by injection Hrunj as <- <-.
      * apply (Hq j rj wj); [lia|lia|done].
Qed.

(** The turn that renders a non-empty text leaf while the flag is set. *)
Lemma readStep_separated st text :
  textTurn (rs_suspended st) (rs_renderer st) text ->
  makeStaticMarkup (rs_renderer st) = false ->
  previousWasTextNode (rs_renderer st) = true ->
  exists r',
    readStep st
    = Continue
        (mkReadState r' (rs_world st)
           (outAdd
              (if length (rs_out st) <=? suspenseDepth (rs_renderer st)
               then (rs_out st ++ [Some ""])%list else rs_out st)
              (suspenseDepth (rs_renderer st))
              (textSeparator +:+ escapeTextForBrowser text))
           false).
Proof.
  intros [Hnext Htext] Hstatic Hprev. unfold nextChild in Hnext.
  destruct (stack (rs_renderer st)) as [|frame rest] eqn:Hs; [done|].
  destruct (rs_suspended st || frameDone frame) eqn:Hdone; [done|].
  apply orb_false_iff in Hdone as [Hsus Hdone].
  exists (setStack (rs_renderer st) (advance frame :: rest)).
  unfold readStep. rewrite Hs, Hsus, Hdone, Hnext. cbn [orb].
  unfold render. destruct (decide (text = "")); [done|].
  cbn [setStack makeStaticMarkup previousWasTextNode]. rewrite Hstatic, Hprev.
  reflexivity.
Qed.

Lemma readAsyncStep_separated r w text :
  textTurn false r text ->
  makeStaticMarkup r = false -> previousWasTextNode r = true ->
  exists r',
    suspenseDepth r' = suspenseDepth r
    /\ outQueue r'
       = (if length (outQueue r) <=? suspenseDepth r
          then (outQueue r ++ [[Str ""]])%list else outQueue r)
    /\ readAsyncStep r w
       = match pushToOutQueue (Str (textSeparator +:+ escapeTextForBrowser text))
                 (suspenseDepth r') (outQueue r') with
         | Some q => Continue (setOutQueue r' q, w)
         | None => Throw TypeError (r', w)
         end.
Proof.
  intros [Hnext Htext] Hstatic Hprev. unfold nextChild in Hnext.
  destruct (stack r) as [|frame rest] eqn:Hs; [done|].
  destruct (frameDone frame) eqn:Hdone; [done|]. cbn [orb] in Hnext.
  set (r1 := setStack r (advance frame :: rest)).
  exists (if length (outQueue r1) <=? suspenseDepth r1
          then setOutQueue r1 (outQueue r1 ++ [[Str ""]])%list else r1).
  split_and!.
  - by destruct (length (outQueue r1) <=? suspenseDepth r1).
  - subst r1. cbn [setStack outQueue suspenseDepth].
    by destruct (length (outQueue r) <=? suspenseDepth r).
  - unfold readAsyncStep. rewrite Hs, Hdone, Hnext. cbv zeta. fold r1.
    unfold renderEventually, render. destruct (decide (text = "")); [done|].
    change (makeStaticMarkup r1) with (makeStaticMarkup r).
    change (previousWasTextNode r1) with (previousWasTextNode r).
    rewrite Hstatic, Hprev. reflexivity.
Qed.

End FlagRuns.

(** C9, as the code has it.  When static markup is off, a non-empty text
    leaf is written with the separator in front exactly when the
    previous-was-text flag is set, and it sets the flag; when static markup
    is on, no separator is written at all.  A new session starts with the
    flag clear, and the session that resumes a suspended child with the flag
    its parent had when the child suspended.  The open tag of a host element
    clears the flag and so does every frame that ends with a footer that is
    not empty, in either reader; no other turn clears it.  So, in a session
    of either reader without static markup: of two non-empty text leaves
    rendered with no clearing turn in between, the second is written with
    the separator in front, whatever else was written in between; and when
    the flag is set in a session that started with the flag clear, a
    non-empty text leaf was rendered before and no turn since then was a
    clearing turn. *)
Theorem text_separator_between_text_nodes `{Encoder} :
  (forall text r w,
     text <> "" -> makeStaticMarkup r = false ->
     render (Text text) r w
     = (Returned ((if previousWasTextNode r then textSeparator else "")
                  +:+ escapeTextForBrowser text),
        setPreviousWasTextNode r true, w))
  /\ (forall text r w,
        text <> "" -> makeStaticMarkup r = true ->
        render (Text text) r w = (Returned (escapeTextForBrowser text), r, w))
  /\ (forall children static w0,
        previousWasTextNode (fst (newRenderer children static w0)) = false
        /\ previousWasTextNode (fst (newRendererAsync children static None w0)) = false
        /\ forall rc,
             previousWasTextNode (fst (newRendererAsync children static (Some rc) w0))
             = rc_previousWasTextNode rc)
  /\ (forall h children r w out r' w',
        renderDOM h children r w = (Returned out, r', w') ->
        previousWasTextNode r' = false)
  /\ (forall st frame rest st',
        stack (rs_renderer st) = frame :: rest ->
        (rs_suspended st || frameDone frame) = true ->
        footer frame <> "" ->
        readStep st = Continue st' ->
        previousWasTextNode (rs_renderer st') = false)
  /\ (forall ra wa frame rest ra' wa',
        stack ra = frame :: rest ->
        frameDone frame = true ->
        footer frame <> "" ->
        readAsyncStep ra wa = Continue (ra', wa') ->
        previousWasTextNode ra' = false)
  /\ (forall n st st1 st2 t1 t2,
        makeStaticMarkup (rs_renderer st) = false ->
        textTurn (rs_suspended st) (rs_renderer st) t1 ->
        readStep st = Continue st1 ->
        readSteps n st1 = Continue st2 ->
        (forall j stj, j < n -> readSteps j st1 = Continue stj ->
           ~ clearingTurn (rs_suspended stj) (rs_renderer stj) (rs_world stj)) ->
        textTurn (rs_suspended st2) (rs_renderer st2) t2 ->
        exists r',
          readStep st2
          = Continue
              (mkReadState r' (rs_world st2)
                 (outAdd
                    (if length (rs_out st2) <=? suspenseDepth (rs_renderer st2)
                     then (rs_out st2 ++ [Some ""])%list else rs_out st2)
                    (suspenseDepth (rs_renderer st2))
                    (textSeparator +:+ escapeTextForBrowser t2))
                 false))
  /\ (forall n st0 st,
        previousWasTextNode (rs_renderer st0) = false ->
        readSteps n st0 = Continue st ->
        previousWasTextNode (rs_renderer st) = true ->
        exists k stk text,
          k < n /\ readSteps k st0 = Continue stk
          /\ textTurn (rs_suspended stk) (rs_renderer stk) text
          /\ makeStaticMarkup (rs_renderer stk) = false
          /\ forall j stj, k < j -> j < n -> readSteps j st0 = Continue stj ->
               ~ clearingTurn (rs_suspended stj) (rs_renderer stj) (rs_world stj))
  /\ (forall n r w r1 w1 r2 w2 t1 t2,
        makeStaticMarkup r = false ->
        textTurn false r t1 ->
        readAsyncStep r w = Continue (r1, w1) ->
        readAsyncSteps n r1 w1 = Continue (r2, w2) ->
        (forall j rj wj, j < n -> readAsyncSteps j r1 w1 = Continue (rj, wj) ->
           ~ clearingTurn false rj wj) ->
        textTurn false r2 t2 ->
        exists r',
          suspenseDepth r' = suspenseDepth r2
          /\ outQueue r'
             = (if length (outQueue r2) <=? suspenseDepth r2
                then (outQueue r2 ++ [[Str ""]])%list else outQueue r2)
          /\ readAsyncStep r2 w2
             = match pushToOutQueue (Str (textSeparator +:+ escapeTextForBrowser t2))
                       (suspenseDepth r') (outQueue r') with
               | Some q => Continue (setOutQueue r' q, w2)
               | None => Throw TypeError (r', w2)
               end)
  /\ (forall n r0 w0 r w,
        previousWasTextNode r0 = false ->
        readAsyncSteps n r0 w0 = Continue (r, w) ->
        previousWasTextNode r = true ->
        exists k rk wk text,
          k < n /\ readAsyncSteps k r0 w0 = Continue (rk, wk)
          /\ textTurn false rk text
          /\ makeStaticMarkup rk = false
          /\ forall j rj wj, k < j -> j < n ->
               readAsyncSteps j r0 w0 = Continue (rj, wj) ->
               ~ clearingTurn false rj wj).
Proof.
  split_and!.
  - intros text r w Htext Hst. unfold render. destruct (decide (text = "")) as [|_]; [done|].
    rewrite Hst. destruct r as [? ? ? ? prev ? ? ? ? ? ? ?]; simpl in *. by destruct prev.
  - intros text r w Htext Hst. unfold render. destruct (decide (text = "")) as [|_]; [done|].
    by rewrite Hst.
  - intros children static w0. unfold newRendererAsync, newRenderer.
    destruct (allocThreadID w0). by split_and!.
  - intros h children r w out r' w'. unfold renderDOM.
    destruct (negb (h_validTag h)); [discriminate|].
    destruct (negb (h_validProps h)); [discriminate|].
    destruct (h_omittedClose h), (h_innerMarkup h); intros Hr; by inversion Hr.
  - intros st frame rest st' Hs Hdone Hfoot Hstep.
    destruct (readStep_flag _ _ Hstep) as [_ Hflag]. rewrite Hflag.
    unfold endingFrame. rewrite Hs, Hdone. by destruct (decide (footer frame = "")).
  - intros ra wa frame rest ra' wa' Hs Hdone Hfoot Hstep.
    destruct (readAsyncStep_flag _ _ _ _ Hstep) as [_ Hflag]. rewrite Hflag.
    unfold endingFrame. rewrite Hs, Hdone. cbn [orb].
    by destruct (decide (footer frame = "")).
  - intros n st st1 st2 t1 t2 Hstatic Ht1 Hstep Hrun Hquiet Ht2.
    destruct (flagStep_text _ _ _ _ _ (readStep_flag _ _ Hstep) Ht1 Hstatic)
      as [Hprev1 Hstatic1].
    destruct (sync_flag_kept n st1 st2 Hprev1 Hstatic1 Hrun Hquiet) as [Hprev2 Hstatic2].
    by apply readStep_separated.
  - intros n st0 st. apply sync_flag_origin.
  - intros n r w r1 w1 r2 w2 t1 t2 Hstatic Ht1 Hstep Hrun Hquiet Ht2.
    destruct (flagStep_text _ _ _ _ _ (readAsyncStep_flag _ _ _ _ Hstep) Ht1 Hstatic)
      as [Hprev1 Hstatic1].
    destruct (async_flag_kept n r1 w1 r2 w2 Hprev1 Hstatic1 Hrun Hquiet)
      as [Hprev2 Hstatic2].
    by apply readAsyncStep_separated.
  - intros n r0 w0 r w. apply async_flag_origin.
Qed.

(** C9, as the spec has it, fails in three ways.  With static markup two
    text leaves written one after the other are joined with nothing between
    them.  Without static markup the separator is written after something
    that is not a text, the opening marker of a boundary, which does not
    clear the flag that the text before it has set.  And in the asynchronous
    reader the text that a resumed child renders and the text of the sibling
    after it are joined with nothing between them. *)
Lemma text_separator_counterexamples :
  (outcome
     (readAll (H := Demo.encoder) 6 Infinity
        (fst (newRenderer Examples.twoTexts true Demo.emptyWorld))
        (snd (newRenderer Examples.twoTexts true Demo.emptyWorld)))
   = Some (inl "ab")
   /\ "ab" <> "a" +:+ textSeparator +:+ "b")
  /\ outcome
       (readAll (H := Demo.encoder) 12 Infinity
          (fst (newRenderer Examples.textThenBoundary false Demo.emptyWorld))
          (snd (newRenderer Examples.textThenBoundary false Demo.emptyWorld)))
     = Some (inl ("a" +:+ suspenseOpen +:+ textSeparator +:+ "p" +:+ suspenseClose))
  /\ outcome
       (readAllAsync (H := Demo.encoder) 14 Infinity
          (fst (newRendererAsync Examples.pendingThenText false None Demo.emptyWorld))
          (snd (newRendererAsync Examples.pendingThenText false None Demo.emptyWorld)))
     = Some (inl ("<div data-reactroot>" +:+ suspenseOpen +:+ "late" +:+ "q"
                  +:+ suspenseClose +:+ "</div>")).
Proof.
  split_and!; [vm_compute; reflexivity|discriminate|vm_compute; reflexivity..].
Qed.

(** Two text leaves next to each other: the second is written with the
    separator in front. *)
Lemma text_separator_witness :
  makeStaticMarkup (rs_renderer Examples.twoTextsStart) = false
  /\ textTurn false (rs_renderer Examples.twoTextsStart) "a"
  /\ readStep (H := Demo.encoder) Examples.twoTextsStart = Continue Examples.twoTextsNext
  /\ textTurn false (rs_renderer Examples.twoTextsNext) "b"
  /\ exists r',
       readStep (H := Demo.encoder) Examples.twoTextsNext
       = Continue
           (mkReadState r' (rs_world Examples.twoTextsNext) [Some "a<!-- -->b"] false).
Proof.
  assert (textTurn false (rs_renderer Examples.twoTextsStart) "a") as Ha
    by (split; [reflexivity|discriminate]).
  assert (textTurn false (rs_renderer Examples.twoTextsNext) "b") as Hb
    by (split; [reflexivity|discriminate]).
  split; [reflexivity|]. split; [exact Ha|]. split; [reflexivity|]. split; [exact Hb|].
  destruct (proj1 (proj2 (proj2 (proj2 (proj2 (proj2 (proj2
              (text_separator_between_text_nodes (H := Demo.encoder))))))))
              0 Examples.twoTextsStart Examples.twoTextsNext Examples.twoTextsNext
              "a" "b" eq_refl Ha eq_refl eq_refl
              (fun j stj Hj => match Nat.nlt_0_r j Hj with end) Hb)
    as [r' Hstep].
  exists r'. rewrite Hstep. vm_compute. reflexivity.
Defined.

(** ** The order of the output of the asynchronous reader, to the end *)

Lemma chunk_induction (P : Chunk -> Prop) :
  (forall s, P (Str s)) ->
  (forall parts foot, Forall P parts -> P (Boundary parts foot)) ->
  (forall p child static rc, P (Resume p child static rc)) ->
  forall c, P c.
Proof.
  intros Hs Hb Hr.
  refine (fix go (c : Chunk) : P c :=
            match c with
            | Str s => Hs s
            | Boundary parts foot =>
                Hb parts foot
                  ((fix all (l : list Chunk) : Forall P l :=
                      match l with
                      | [] => Forall_nil_2 P
                      | x :: l' => Forall_cons_2 P x l' (go x) (all l')
                      end) parts)
            | Resume p child static rc => Hr p child static rc
            end).
Qed.

(** [Promise.all] keeps the order of the promises: the values it resolves to
    are the values of the promises, one for one. *)
Lemma awaitAll_values (await : Chunk -> World -> Run (option string * World)) :
  forall parts w values w',
    awaitAll await parts w = Finished (values, w') ->
    Forall2 (fun c v => exists w1 w2, await c w1 = Finished (v, w2)) parts values.
Proof.
  induction parts as [|c parts IH]; intros w values w' Hrun.
  - injection Hrun as <- <-. constructor.
  - cbn [awaitAll] in Hrun.
    destruct (await c w) as [[v w1]|e [v w1]|] eqn:Hc; [|discriminate..].
    destruct (awaitAll await parts w1) as [[vs w2]|e x|] eqn:Hrest; [|discriminate..].
    injection Hrun as <- <-. constructor; [by eexists _, _|by eapply IH].
Qed.

Lemma concat_cons (x : string) (xs : list string) :
  String.concat "" (x :: xs) = x +:+ String.concat "" xs.
Proof. destruct xs; [by rewrite string_app_empty_r|reflexivity]. Qed.

(** [join]: the values in their order, null as the empty string, and the
    footer last. *)
Lemma joinMarkup_concat (values : list (option string)) (foot : string) :
  joinMarkup values foot = String.concat "" (default "" <$> values) +:+ foot.
Proof.
  unfold joinMarkup. induction values as [|v values IH]; [reflexivity|].
  cbn [foldr fmap list_fmap]. rewrite IH.
  change (String.concat "" (default "" v :: list_fmap _ _ (default "") values))
    with (String.concat "" (default "" v :: (default "" <$> values))).
  by rewrite concat_cons, string_app_assoc.
Qed.

(** With [bytes = Infinity] and whatever the awaiting of one promise is,
    [flattenAndResolveQueue] joins the first buffer in its order: the
    strings as they are and every promise by the value it resolved to, null
    written out as it is by the [+=] of the source. *)
Lemma flattenFrom_values (await : Chunk -> World -> Run (option string * World)) :
  forall rest s0 w result level w',
    flattenFrom await Infinity s0 rest w = Finished (result, level, w') ->
    exists values,
      Forall2 (fun c v =>
                 match c with
                 | Str s => v = Some s
                 | _ => exists w1 w2, await c w1 = Finished (v, w2)
                 end) rest values
      /\ result = s0 +:+ String.concat "" (default "null" <$> values)
      /\ level = [Str ""].
Proof.
  induction rest as [|c rest IH]; intros s0 w result level w' Hrun.
  - exists []. cbn [flattenFrom] in Hrun. split; [constructor|].
    destruct (String.length s0 =? 0) eqn:E; injection Hrun as <- <- <-.
    + apply Nat.eqb_eq, string_length_zero in E. by subst s0.
    + split; [|done]. cbn. by rewrite string_app_empty_r.
  - cbn [flattenFrom below] in Hrun.
    assert (forall v values,
              String.concat "" (default "null" <$> v :: values)
              = default "null" v +:+ String.concat "" (default "null" <$> values))
      as Hcons by (intros v values; apply concat_cons).
    destruct c as [s1|parts foot|p child static rc].
    + destruct (IH _ _ _ _ _ Hrun) as (values & Hall & -> & ->).
      exists (Some s1 :: values). split; [by constructor|]. split; [|done].
      by rewrite Hcons, string_app_assoc.
    + cbn [isInfinity negb andb] in Hrun.
      destruct (await (Boundary parts foot) w) as [[v w1]|e [v w1]|] eqn:Hc;
        [|discriminate..].
      destruct (IH _ _ _ _ _ Hrun) as (values & Hall & -> & ->).
      exists (v :: values). split; [constructor; [by eexists _, _|done]|].
      split; [|done]. by rewrite Hcons, string_app_assoc.
    + cbn [isInfinity negb andb] in Hrun.
      destruct (await (Resume p child static rc) w) as [[v w1]|e [v w1]|] eqn:Hc;
        [|discriminate..].
      destruct (IH _ _ _ _ _ Hrun) as (values & Hall & -> & ->).
      exists (v :: values). split; [constructor; [by eexists _, _|done]|].
      split; [|done]. by rewrite Hcons, string_app_assoc.
Qed.

Lemma awaitWith_joins resume :
  forall c w v w',
    awaitWith resume c w = Finished (v, w') ->
    joinsInOrder
      (fun p child static rc v =>
         exists w1 w2, resume p child static rc w1 = Finished (v, w2)) c v.
Proof.
  induction c as [s|parts foot IH|p child static rc] using chunk_induction;
    intros w v w' Hrun.
  - injection Hrun as <- <-. constructor.
  - cbn [awaitWith] in Hrun.
    destruct (awaitAll (awaitWith resume) parts w) as [[values w1]|e [x w1]|] eqn:Hall;
      [|discriminate..].
    injection Hrun as <- <-. rewrite joinMarkup_concat. constructor.
    apply awaitAll_values in Hall.
    induction Hall as [|c v parts values (wa & wb & Hc) _ IHall]; [constructor|].
    apply Forall_cons in IH as [IHc IHparts].
    constructor; [by eapply IHc|by apply IHall].
  - constructor. by eexists _, _.
Qed.

Section AwaitChunk.
Context `{Encoder}.

Lemma awaitChunk_joins fuel :
  forall c w v w',
    awaitChunk fuel c w = Finished (v, w') ->
    joinsInOrder
      (fun p child static rc v =>
         exists fuel1 w1 w2,
           awaitChunk fuel1 (Resume p child static rc) w1 = Finished (v, w2)) c v.
Proof.
  induction fuel as [|fuel IH]; intros c w v w' Hrun; [discriminate|].
  destruct c as [s|parts foot|p child static rc].
  - injection Hrun as <- <-. constructor.
  - cbn [awaitChunk] in Hrun.
    destruct (awaitAll (awaitChunk fuel) parts w) as [[values w1]|e [x w1]|] eqn:Hall;
      [|discriminate..].
    injection Hrun as <- <-. rewrite joinMarkup_concat. constructor.
    apply awaitAll_values in Hall.
    eapply Forall2_impl; [exact Hall|].
    intros c v (w2 & w3 & Hc). by eapply IH.
  - constructor. by eexists (S fuel), _, _.
Qed.

End AwaitChunk.

Section Valued.
Variable resumed : nat -> Node -> bool -> RenderContext -> string.
Variable resume :
  nat -> Node -> bool -> RenderContext -> World -> Run (option string * World).
Hypothesis Hresume :
  forall p child static rc w,
    exists w', resume p child static rc w = Finished (Some (resumed p child static rc), w').

Lemma joinMarkup_values (parts : list Chunk) (foot : string) :
  joinMarkup ((fun c => Some (chunkValue resumed c)) <$> parts) foot
  = levelValue resumed parts +:+ foot.
Proof.
  rewrite <- chunkValue_boundary. unfold joinMarkup. cbn [chunkValue].
  induction parts as [|c parts IH]; [reflexivity|].
  cbn [fmap list_fmap foldr default]. f_equal. exact IH.
Qed.

Lemma awaitWith_value :
  forall c w, exists w', awaitWith resume c w = Finished (Some (chunkValue resumed c), w').
Proof.
  induction c as [s|parts foot IH|p child static rc] using chunk_induction; intros w.
  - by exists w.
  - assert (forall w, exists w',
              awaitAll (awaitWith resume) parts w
              = Finished ((fun c => Some (chunkValue resumed c)) <$> parts, w')) as Hall.
    { induction IH as [|c parts Hc _ IHparts]; intros w0; [by exists w0|].
      cbn [awaitAll]. destruct (Hc w0) as [w1 ->]. destruct (IHparts w1) as [w2 ->].
      by exists w2. }
    destruct (Hall w) as [w' Hw]. exists w'. cbn [awaitWith]. rewrite Hw.
    by rewrite joinMarkup_values, chunkValue_boundary.
  - apply Hresume.
Qed.

Lemma awaitAll_value :
  forall parts w, exists w',
    awaitAll (awaitWith resume) parts w
    = Finished ((fun c => Some (chunkValue resumed c)) <$> parts, w').
Proof.
  induction parts as [|c parts IH]; intros w; [by exists w|].
  cbn [awaitAll]. destruct (awaitWith_value c w) as [w1 ->].
  destruct (IH w1) as [w2 ->]. by exists w2.
Qed.

(** With [bytes = Infinity] the first buffer is flattened to one string. *)
Lemma flattenFrom_value :
  forall rest s0 w, exists w',
    flattenFrom (awaitWith resume) Infinity s0 rest w
    = Finished (s0 +:+ levelValue resumed rest, [Str ""], w').
Proof.
  induction rest as [|c rest IH]; intros s0 w.
  - exists w. cbn [flattenFrom]. destruct (String.length s0 =? 0) eqn:E.
    + apply Nat.eqb_eq, string_length_zero in E. by subst s0.
    + change (levelValue resumed []) with "". by rewrite string_app_empty_r.
  - cbn [flattenFrom below].
    assert (levelValue resumed (c :: rest)
            = chunkValue resumed c +:+ levelValue resumed rest) as Hcons by reflexivity.
    destruct c as [s1|parts foot|p child static rc].
    + destruct (IH (s0 +:+ s1) w) as [w' ->]. exists w'.
      by rewrite Hcons, string_app_assoc.
    + cbn [isInfinity negb andb].
      destruct (awaitWith_value (Boundary parts foot) w) as [w1 ->]. cbn [default id].
      destruct (IH (s0 +:+ chunkValue resumed (Boundary parts foot)) w1) as [w' ->].
      exists w'. by rewrite Hcons, string_app_assoc.
    + cbn [isInfinity negb andb].
      destruct (awaitWith_value (Resume p child static rc) w) as [w1 ->]. cbn [default id].
      destruct (IH (s0 +:+ chunkValue resumed (Resume p child static rc)) w1) as [w' ->].
      exists w'. by rewrite Hcons, string_app_assoc.
Qed.

End Valued.

(** *** The queue between two turns *)

Lemma pushToOutQueue_heads (x : Chunk) (d : nat) (q q' : list (list Chunk)) :
  Forall (fun level => exists s rest, level = Str s :: rest) q ->
  pushToOutQueue x d q = Some q' ->
  Forall (fun level => exists s rest, level = Str s :: rest) q'.
Proof.
  intros Hq. unfold pushToOutQueue.
  destruct (q !! d) as [level|] eqn:Hlevel; [|discriminate].
  destruct (proj1 (Forall_lookup _ q) Hq d level Hlevel) as (s0 & rest & ->).
  assert (forall l, (exists s rest', l = Str s :: rest') ->
            Forall (fun level => exists s rest, level = Str s :: rest) (<[d := l]> q))
    as Hins by (intros l Hl; apply Forall_insert; [exact Hq|exact Hl]).
  assert (forall tail, exists s rest', ((Str s0 :: rest) ++ tail)%list = Str s :: rest')
    as Happ by (intros tail; by eexists _, _).
  destruct x as [s|parts foot|p child static rc];
    [|intros Heq; injection Heq as <-; apply Hins, Happ..].
  destruct (last (Str s0 :: rest)) as [[s1| |]|] eqn:Hlast; [| | |discriminate];
    intros Heq; injection Heq as <-; apply Hins; [|apply Happ..].
  destruct rest as [|c rest]; [by eexists _, _|].
  change (removelast (Str s0 :: c :: rest)) with (Str s0 :: removelast (c :: rest)).
  by eexists _, _.
Qed.

Section QueueRuns.
Context `{Encoder}.
Variable resumed : nat -> Node -> bool -> RenderContext -> string.

Lemma turn_keeps_queue sus r w :
  match turn sus r w with
  | TurnBreak r' _ | TurnFooter r' _ _ | TurnBoundary r' _ _ _
  | TurnRender _ r' _ | TurnThrow _ r' _ => outQueue r' = outQueue r
  end.
Proof.
  pose proof (turn_setOutQueue sus r w (outQueue r)) as Hq.
  assert (setOutQueue r (outQueue r) = r) as Hr by (by destruct r).
  rewrite Hr in Hq.
  destruct (turn sus r w) as [r1 w1|r1 w1 foot|r1 w1 foot fb|c r1 w1|e r1 w1];
    cbn [turnWithQueue] in Hq; injection Hq as Hq;
    apply (f_equal outQueue) in Hq; exact Hq.
Qed.

(** The invariant of the queue is kept by a turn, which adds what
    [turnChunk] says at the end of what the queue holds. *)
Lemma readAsyncStep_queueInv r w r' w' :
  queueInv r -> readAsyncStep r w = Continue (r', w') ->
  queueInv r'
  /\ exists x,
       turnChunk r w = Some x
       /\ queueValue resumed (outQueue r')
          = queueValue resumed (outQueue r) +:+ chunkValue resumed x.
Proof.
  intros (Hex & Hd & Hpf & Hlen & Hheads) Hstep.
  destruct (stack r) as [|frame rest] eqn:Hs.
  { rewrite (readAsyncStep_empty_stack r w Hs) in Hstep. discriminate. }
  rewrite <- Hs in Hd, Hpf.
  destruct (readAsyncStep_appends resumed r w frame rest r' w' Hlen Hs Hstep)
    as (Hlen' & Hdone & Hrender & _).
  split.
  - pose proof (turn_boundaries false r w Hd Hpf) as Hb.
    pose proof (turn_exhausted false r w) as He.
    pose proof (turn_keeps_queue false r w) as Hq.
    rewrite readAsyncStep_turn in Hstep.
    assert (forall l : list (list Chunk),
              Forall (fun level => exists s rest, level = Str s :: rest) l ->
              Forall (fun level => exists s rest, level = Str s :: rest)
                (l ++ [[Str ""]])) as Hsnoc.
    { intros l Hl. apply Forall_app. split; [done|].
      constructor; [by eexists _, _|constructor]. }
    destruct (turn false r w) as [r1 w1|r1 w1 foot|r1 w1 foot fb|c r1 w1|e r1 w1] eqn:Ht;
      [discriminate| | | |discriminate].
    + destruct (pushToOutQueue _ _ _) as [q|] eqn:Hpush; [|discriminate].
      injection Hstep as <- <-. destruct Hb as [[Hd1 Hpf1] _].
      split_and!; [by rewrite <- Hex, <- He| done | done | done |].
      cbn [outQueue setOutQueue]. eapply pushToOutQueue_heads; [|exact Hpush].
      by rewrite Hq.
    + destruct (last (outQueue r1)) as [results|]; [|discriminate].
      destruct (pushToOutQueue _ _ _) as [q|] eqn:Hpush; [|discriminate].
      injection Hstep as <- <-. destruct Hb as [[Hd1 Hpf1] _].
      split_and!; [by rewrite <- Hex, <- He| done | done | done |].
      cbn [outQueue setOutQueue]. eapply pushToOutQueue_heads; [|exact Hpush].
      rewrite Hq. clear -Hheads.
      destruct (decide (outQueue r = [])) as [->|Hne]; [constructor|].
      destruct (exists_last Hne) as (q0 & l & Hq0). rewrite Hq0 in Hheads |- *.
      rewrite removelast_last. by apply Forall_app in Hheads as [? _].
    + destruct c as [s|p|e]; [| |discriminate].
      * destruct Hb as [_ [[Hd1 Hpf1] _]].
        cbv zeta in Hstep.
        match type of Hstep with
        | context [pushToOutQueue _ (suspenseDepth ?r0) (outQueue ?r0)] =>
            set (r3 := r0) in Hstep
        end.
        destruct (pushToOutQueue _ _ _) as [q|] eqn:Hpush; [|discriminate].
        injection Hstep as <- <-.
        assert (exhausted r3 = exhausted r1 /\ stack r3 = stack r1
                /\ suspenseDepth r3 = suspenseDepth r1
                /\ Forall (fun level => exists s rest, level = Str s :: rest)
                     (outQueue r3)) as (He3 & Hs3 & Hd3 & Hh3).
        { subst r3. destruct (length (outQueue r1) <=? suspenseDepth r1);
            (split_and!; [done..|]); cbn [outQueue setOutQueue]; rewrite Hq;
            [by apply Hsnoc|done]. }
        split_and!; cbn [exhausted stack suspenseDepth setOutQueue];
          [by rewrite He3, He| by rewrite Hd3, Hs3 | by rewrite Hs3 | done |].
        cbn [outQueue]. by eapply pushToOutQueue_heads; [|exact Hpush].
      * unfold turn in Ht. rewrite Hs in Ht. cbn [orb] in Ht.
        destruct (frameDone frame) eqn:Hfd.
        { destruct (f_type frame); try discriminate;
            try (destruct (decide (_ = "select")); discriminate).
          destruct (popProvider _ w) as [[? ?]|? [? ?]]; discriminate. }
        destruct (f_children frame !! childIndex frame) as [child|] eqn:Hc;
          [|discriminate].
        destruct (render child _ w) as [[c2 r2] w2] eqn:Hr.
        injection Ht as -> -> ->.
        destruct (render_thenable _ _ _ _ _ _ Hr) as [-> ->].
        rewrite Hs, Hc in Hstep.
        destruct ((0 <? suspenseDepth r) || isChildRenderer r); [|discriminate].
        destruct Hb as [_ [[Hd1 Hpf1] _]].
        cbv zeta in Hstep.
        match type of Hstep with
        | context [pushToOutQueue _ (suspenseDepth ?r0) (outQueue ?r0)] =>
            set (r3 := r0) in Hstep
        end.
        destruct (pushToOutQueue _ _ _) as [q|] eqn:Hpush; [|discriminate].
        injection Hstep as <- <-.
        set (r1 := setStack r (advance frame :: rest)) in *.
        assert (exhausted r3 = exhausted r1 /\ stack r3 = stack r1
                /\ suspenseDepth r3 = suspenseDepth r1
                /\ Forall (fun level => exists s rest, level = Str s :: rest)
                     (outQueue r3)) as (He3 & Hs3 & Hd3 & Hh3).
        { subst r3. destruct (length (outQueue r1) <=? suspenseDepth r1);
            (split_and!; [done..|]); cbn [outQueue setOutQueue];
            [by apply Hsnoc|done]. }
        split_and!; cbn [exhausted stack suspenseDepth setOutQueue];
          [by rewrite He3| by rewrite Hd3, Hs3 | by rewrite Hs3 | done |].
        cbn [outQueue]. by eapply pushToOutQueue_heads; [|exact Hpush].
  - unfold turnChunk. rewrite Hs. destruct (frameDone frame) eqn:Hfd.
    + eexists. split; [reflexivity|]. by apply Hdone.
    + destruct (Hrender eq_refl) as (child & x & r2 & w2 & Hc & Hre & Hv).
      rewrite Hc. cbn [suspenseDepth isChildRenderer setStack]. rewrite Hre.
      by exists x.
Qed.

(** What the queue holds after [n] turns: what it held, then what the turns
    pushed, in their order.  When the stack is found empty the queue is one
    buffer. *)
Lemma readAsyncSteps_value n :
  forall r w,
    queueInv r ->
    match readAsyncSteps n r w with
    | Continue (r', w') =>
        queueInv r'
        /\ queueValue resumed (outQueue r')
           = queueValue resumed (outQueue r) +:+ levelValue resumed (turnChunks n r w)
    | Break (rE, wE) =>
        exhausted rE = true
        /\ (exists s rest, outQueue rE = [Str s :: rest])
        /\ queueValue resumed (outQueue rE)
           = queueValue resumed (outQueue r) +:+ levelValue resumed (turnChunks n r w)
    | Throw _ _ => True
    end.
Proof.
  induction n as [|n IH]; intros r w Hinv.
  { cbn [readAsyncSteps turnChunks]. split; [done|].
    change (levelValue resumed []) with "". by rewrite string_app_empty_r. }
  cbn [readAsyncSteps turnChunks].
  destruct (readAsyncStep r w) as [[r1 w1]|[rE wE]|e x] eqn:Hstep; [| |done].
  - destruct (readAsyncStep_queueInv r w r1 w1 Hinv Hstep) as (Hinv1 & x & -> & Hv).
    specialize (IH r1 w1 Hinv1).
    assert (levelValue resumed (x :: turnChunks n r1 w1)
            = chunkValue resumed x +:+ levelValue resumed (turnChunks n r1 w1)) as ->
      by reflexivity.
    destruct (readAsyncSteps n r1 w1) as [[r2 w2]|[rE wE]|e x']; [| |done].
    + destruct IH as [Hinv2 ->]. split; [done|]. by rewrite Hv, string_app_assoc.
    + destruct IH as (HexE & Hq & ->). split_and!; [done..|].
      by rewrite Hv, string_app_assoc.
  - destruct Hinv as (Hex & Hd & Hpf & Hlen & Hheads).
    destruct (stack r) as [|frame rest] eqn:Hs.
    + rewrite (readAsyncStep_empty_stack r w Hs) in Hstep. injection Hstep as <- <-.
      cbn [outQueue setExhausted]. cbn [boundariesOf] in Hd. rewrite Hd in Hlen.
      assert (levelValue resumed
                match turnChunk r w with Some _ => [] | None => [] end = "") as ->
        by (by destruct (turnChunk r w)).
      rewrite string_app_empty_r. split_and!; [done| |done].
      destruct (outQueue r) as [|level [|level' q]]; [done| |done].
      apply Forall_cons in Hheads as [(s & rest & ->) _]. by eexists _, _.
    + exfalso. unfold readAsyncStep in Hstep. rewrite Hs in Hstep.
      destruct (frameDone frame).
      * destruct (f_type frame);
          repeat (match type of Hstep with
                  | context [match ?x with _ => _ end] => destruct x
                  | context [if ?x then _ else _] => destruct x
                  end; try discriminate).
      * repeat (match type of Hstep with
                | context [match ?x with _ => _ end] => destruct x
                | context [if ?x then _ else _] => destruct x
                end; try discriminate).
Qed.

(** With [bytes = Infinity] the loop of [readAsync] runs until the stack is
    found empty. *)
Lemma readAsyncLoop_to_the_end n :
  forall r w rE wE fuel,
    queueInv r -> readAsyncSteps n r w = Break (rE, wE) -> n <= fuel ->
    readAsyncLoop fuel Infinity r w = Finished (rE, wE).
Proof.
  induction n as [|n IH]; intros r w rE wE fuel Hinv Hrun Hfuel; [discriminate|].
  destruct fuel as [|fuel]; [lia|].
  cbn [readAsyncSteps] in Hrun. cbn [readAsyncLoop].
  pose proof Hinv as (Hex & _ & _ & Hlen & Hheads). rewrite Hex.
  assert (queueBelow (outQueue r) Infinity = Some true) as ->.
  { destruct (outQueue r) as [|level q]; [done|].
    apply Forall_cons in Hheads as [(s & rest & ->) _]. reflexivity. }
  destruct (readAsyncStep r w) as [[r1 w1]|[rB wB]|e x] eqn:Hstep; [| |discriminate].
  - apply IH; [|done|lia].
    by destruct (readAsyncStep_queueInv r w r1 w1 Hinv Hstep).
  - by injection Hrun as <- <-.
Qed.

(** Under the invariant the push of a turn finds its buffer. *)
Lemma readAsyncStep_child r w frame rest child x r2 w2 :
  queueInv r -> stack r = frame :: rest ->
  f_children frame !! childIndex frame = Some child ->
  renderEventually child ((0 <? suspenseDepth r) || isChildRenderer r)
    (setStack r (advance frame :: rest)) w = (Ok x, r2, w2) ->
  turnChunk r w = Some x
  /\ exists q, readAsyncStep r w = Continue (setOutQueue r2 q, w2).
Proof.
  intros (Hex & Hd & Hpf & Hlen & Hheads) Hs Hc Hre.
  assert (frameDone frame = false) as Hfd.
  { unfold frameDone. apply Nat.leb_gt. by eapply lookup_lt_Some. }
  split.
  { unfold turnChunk. rewrite Hs, Hfd, Hc.
    cbn [suspenseDepth isChildRenderer setStack]. by rewrite Hre. }
  unfold readAsyncStep. rewrite Hs, Hfd, Hc.
  cbn [suspenseDepth isChildRenderer setStack]. rewrite Hre.
  assert (outQueue r2 = outQueue r
          /\ (suspenseDepth r2 = suspenseDepth r \/ suspenseDepth r2 = S (suspenseDepth r)))
    as [Hq2 Hd2].
  { unfold renderEventually in Hre.
    destruct (render child _ w) as [[c r3] w3] eqn:Hr.
    destruct (render_queue _ _ _ _ _ _ Hr) as [Hq3 Hd3]. simpl in Hq3, Hd3.
    destruct c as [s|p|e]; [| |discriminate].
    - by injection Hre as <- <- <-.
    - destruct (_ || _); [|discriminate]. by injection Hre as <- <- <-. }
  cbv zeta.
  match goal with
  | |- context [pushToOutQueue x (suspenseDepth ?r0) (outQueue ?r0)] => set (r3 := r0)
  end.
  assert (exists level s tail,
            outQueue r3 !! suspenseDepth r3 = Some level /\ level = Str s :: tail)
    as (level & s & tail & Hlevel & ->).
  { subst r3. rewrite Hq2. destruct Hd2 as [Hd2|Hd2]; rewrite Hd2.
    - assert ((length (outQueue r) <=? suspenseDepth r) = false) as ->
        by (apply Nat.leb_gt; lia).
      cbv iota. rewrite Hq2, Hd2.
      destruct (lookup_lt_is_Some_2 (outQueue r) (suspenseDepth r)) as [level Hl]; [lia|].
      destruct (proj1 (Forall_lookup _ _) Hheads _ _ Hl) as (s & tail & ->).
      by eexists _, _, _.
    - assert ((length (outQueue r) <=? S (suspenseDepth r)) = true) as ->
        by (apply Nat.leb_le; lia).
      cbn [outQueue suspenseDepth setOutQueue]. rewrite Hd2, <- Hlen.
      exists [Str ""], "", []. split; [|done].
      by rewrite (list_lookup_middle (outQueue r) [] [Str ""] _ eq_refl). }
  assert (exists q, pushToOutQueue x (suspenseDepth r3) (outQueue r3) = Some q)
    as [q ->].
  { unfold pushToOutQueue. rewrite Hlevel.
    destruct x as [s1| |]; [|by eexists..].
    assert (is_Some (last (Str s :: tail))) as [c ->].
    { destruct (decide (tail = [])) as [->|Hne]; [by eexists|].
      destruct (exists_last Hne) as (t0 & c & ->).
      rewrite app_comm_cons, last_snoc. by eexists. }
    destruct c; by eexists. }
  exists q. subst r3. by destruct (length (outQueue r2) <=? suspenseDepth r2).
Qed.

(** Three sibling leaves, the one in the middle pending: the turns push the
    text of the first, the promise of the second and the text of the third,
    in this order. *)
Lemma readAsyncSteps_three_siblings r w frame rest a b c p :
  queueInv r -> stack r = frame :: rest ->
  f_children frame !! childIndex frame = Some (Text a) ->
  f_children frame !! S (childIndex frame) = Some b ->
  f_children frame !! S (S (childIndex frame)) = Some (Text c) ->
  a <> "" -> c <> "" -> pendingOn b w p ->
  (0 <? suspenseDepth r) || isChildRenderer r = true ->
  exists rc r3,
    readAsyncSteps 3 r w = Continue (r3, w)
    /\ turnChunks 3 r w
       = [Str ((if makeStaticMarkup r then ""
                else if previousWasTextNode r then textSeparator else "")
               +:+ escapeTextForBrowser a);
          Resume p b (makeStaticMarkup r) rc;
          Str ((if makeStaticMarkup r then "" else textSeparator)
               +:+ escapeTextForBrowser c)].
Proof.
  intros Hinv Hs Ha Hb Hc Hane Hcne Hpending Hcan.
  set (sa := (if makeStaticMarkup r then ""
              else if previousWasTextNode r then textSeparator else "")
             +:+ escapeTextForBrowser a).
  set (r1 := if makeStaticMarkup r then setStack r (advance frame :: rest)
             else setPreviousWasTextNode (setStack r (advance frame :: rest)) true).
  assert (renderEventually (Text a) ((0 <? suspenseDepth r) || isChildRenderer r)
            (setStack r (advance frame :: rest)) w = (Ok (Str sa), r1, w)) as Hre1.
  { unfold renderEventually, render. destruct (decide (a = "")) as [|_]; [done|].
    subst sa r1. cbn [makeStaticMarkup previousWasTextNode setStack].
    destruct (makeStaticMarkup r) eqn:Hst; [done|].
    destruct (previousWasTextNode r) eqn:Hprev; [|done].
    do 2 f_equal. destruct r; simpl in *; by subst. }
  destruct (readAsyncStep_child r w frame rest (Text a) _ _ _ Hinv Hs Ha Hre1)
    as [Hchunk1 [q1 Hstep1]].
  destruct (readAsyncStep_queueInv r w _ _ Hinv Hstep1) as [Hinv1 _].
  set (r1' := setOutQueue r1 q1) in *.
  assert (stack r1' = advance frame :: rest /\ suspenseDepth r1' = suspenseDepth r
          /\ isChildRenderer r1' = isChildRenderer r
          /\ makeStaticMarkup r1' = makeStaticMarkup r
          /\ (makeStaticMarkup r = false -> previousWasTextNode r1' = true))
    as (Hs1 & Hd1 & Hch1 & Hst1 & Hprev1).
  { subst r1' r1. destruct (makeStaticMarkup r) eqn:Hst;
      cbn [stack suspenseDepth isChildRenderer makeStaticMarkup previousWasTextNode
           setOutQueue setStack setPreviousWasTextNode];
      rewrite ?Hst; by split_and!. }
  set (f1 := advance frame) in *.
  assert (renderEventually b ((0 <? suspenseDepth r1') || isChildRenderer r1')
            (setStack r1' (advance f1 :: rest)) w
          = (Ok (Resume p b (makeStaticMarkup r1')
                   (getClonedRenderContext (setStack r1' (advance f1 :: rest)) w)),
             setStack r1' (advance f1 :: rest), w)) as Hre2.
  { unfold renderEventually. rewrite Hpending, Hd1, Hch1, Hcan. reflexivity. }
  destruct (readAsyncStep_child r1' w f1 rest b _ _ _ Hinv1 Hs1 Hb Hre2)
    as [Hchunk2 [q2 Hstep2]].
  destruct (readAsyncStep_queueInv r1' w _ _ Hinv1 Hstep2) as [Hinv2 _].
  set (r2 := setOutQueue (setStack r1' (advance f1 :: rest)) q2) in *.
  assert (stack r2 = advance f1 :: rest
          /\ makeStaticMarkup r2 = makeStaticMarkup r
          /\ (makeStaticMarkup r = false -> previousWasTextNode r2 = true))
    as (Hs2 & Hst2 & Hprev2) by done.
  set (f2 := advance f1) in *.
  set (sc := (if makeStaticMarkup r then "" else textSeparator)
             +:+ escapeTextForBrowser c).
  assert (renderEventually (Text c) ((0 <? suspenseDepth r2) || isChildRenderer r2)
            (setStack r2 (advance f2 :: rest)) w
          = (Ok (Str sc), setStack r2 (advance f2 :: rest), w)) as Hre3.
  { unfold renderEventually, render. destruct (decide (c = "")) as [|_]; [done|].
    subst sc. cbn [makeStaticMarkup previousWasTextNode setStack]. rewrite Hst2.
    destruct (makeStaticMarkup r) eqn:Hst; [done|]. by rewrite Hprev2. }
  destruct (readAsyncStep_child r2 w f2 rest (Text c) _ _ _ Hinv2 Hs2 Hc Hre3)
    as [Hchunk3 [q3 Hstep3]].
  eexists _, _.
  cbn [readAsyncSteps turnChunks].
  rewrite Hstep1, Hchunk1, Hstep2, Hchunk2, Hstep3, Hchunk3, Hst1.
  split; reflexivity.
Qed.

End QueueRuns.

Section WholeRead.
Context `{Encoder}.
Variable resumed : nat -> Node -> bool -> RenderContext -> string.
Variable resume :
  nat -> Node -> bool -> RenderContext -> World -> Run (option string * World).
Hypothesis Hresume :
  forall p child static rc w,
    exists w', resume p child static rc w = Finished (Some (resumed p child static rc), w').

(** One call [readAsync(Infinity)] returns what the queue held and what the
    turns pushed, in their order, and the call after it returns null. *)
Lemma readAsyncWith_value n r w rE wE fuel :
  queueInv r -> readAsyncSteps n r w = Break (rE, wE) -> n <= fuel ->
  exists w',
    readAsyncWith (awaitWith resume) fuel Infinity r w
    = Finished (Some (queueValue resumed (outQueue r)
                      +:+ levelValue resumed (turnChunks n r w)),
                setOutQueue rE [[Str ""]], w')
    /\ forall fuel',
         readAsyncWith (awaitWith resume) fuel' Infinity (setOutQueue rE [[Str ""]]) w'
         = Finished (None, setOutQueue rE [[Str ""]], w').
Proof.
  intros Hinv Hrun Hfuel.
  pose proof (readAsyncSteps_value resumed n r w Hinv) as Hv. rewrite Hrun in Hv.
  destruct Hv as (HexE & (s & rest & HqE) & Hv).
  destruct (flattenFrom_value resumed resume Hresume rest s wE) as [w' Hflat].
  exists w'. split.
  - unfold readAsyncWith, drained. pose proof Hinv as (Hex & _). rewrite Hex.
    rewrite (readAsyncLoop_to_the_end resumed n r w rE wE fuel Hinv Hrun Hfuel).
    rewrite HqE. cbn [flattenAndResolveQueue]. rewrite Hflat.
    rewrite <- Hv, HqE. unfold queueValue. cbn [foldr].
    by rewrite string_app_empty_r.
  - intros fuel'. unfold readAsyncWith, drained.
    cbn [exhausted outQueue setOutQueue]. by rewrite HexE.
Qed.

End WholeRead.

Lemma newRendererAsync_queueInv children static rc w0 :
  queueInv (fst (newRendererAsync children static rc w0)).
Proof.
  unfold newRendererAsync, newRenderer. destruct (allocThreadID w0) as [id w1].
  assert (Forall plainFallback [plainFrame (flattenTopLevelChildren children)]) as Hpf
    by (constructor; [exact I|constructor]).
  assert (Forall (fun level : list Chunk => exists s rest, level = Str s :: rest)
            [[Str ""]]) as Hq
    by (constructor; [by eexists _, _|constructor]).
  destruct rc as [rc|]; by split_and!.
Qed.

(** C7. What the asynchronous reader returns keeps the order in which the
    output was pushed, whatever the suspended children end up with and
    whenever they do: [resume] is what the promise of a suspended child
    settles to, and [resumed] the markup it gives.  Every turn only adds to
    the end of what the queue holds of the output: the footer of the frame
    that ends, or the string or the promise that rendering the next child
    gave.  The promise made for a boundary that ends holds the fragments
    buffered at its depth in the order they were pushed and is pushed at the
    end of the buffer of the enclosing depth; awaiting it awaits every
    fragment and gives their values joined in that order with the footer
    last.  A new renderer starts with the invariant of the queue, which every
    turn keeps.  One call [readAsync(Infinity)] returns what the turns
    pushed, in the order of the turns, and the call after it returns null.
    Of three sibling leaves, the one in the middle pending, the text of the
    first comes before the markup of the second, and that before the text of
    the third.  Whatever the awaiting of one promise is, [Promise.all] gives
    the values of the promises one for one, [join] concatenates them in
    their order, and [flattenAndResolveQueue] joins the first buffer in its
    order; so the value of a promise is the in-order join, under every
    schedule and under the one of [awaitChunk].  On the tree
    ["a"; boundary around "p", a pending child that resolves to "late" and
    "q"; "c"] the joined output has "p", "late", "q" in that order. *)
Theorem async_output_keeps_insertion_order `{Encoder}
    (resumed : nat -> Node -> bool -> RenderContext -> string)
    (resume : nat -> Node -> bool -> RenderContext -> World
              -> Run (option string * World)) :
  (forall p child static rc w,
     exists w',
       resume p child static rc w = Finished (Some (resumed p child static rc), w')) ->
  (forall r w frame rest r' w',
     length (outQueue r) = S (suspenseDepth r) ->
     stack r = frame :: rest ->
     readAsyncStep r w = Continue (r', w') ->
     length (outQueue r') = S (suspenseDepth r')
     /\ (frameDone frame = true ->
           queueValue resumed (outQueue r')
           = queueValue resumed (outQueue r) +:+ footer frame)
     /\ (frameDone frame = false ->
           exists child x r2 w2,
             f_children frame !! childIndex frame = Some child
             /\ renderEventually child
                  ((0 <? suspenseDepth r) || isChildRenderer r)
                  (setStack r (advance frame :: rest)) w = (Ok x, r2, w2)
             /\ queueValue resumed (outQueue r')
                = queueValue resumed (outQueue r) +:+ chunkValue resumed x)
     /\ (frameDone frame = true -> f_type frame = TySuspense ->
           exists before parent results,
             outQueue r = before ++ [parent; results]
             /\ outQueue r' = before ++ [parent ++ [Boundary results (footer frame)]]))
  /\ (forall c w,
        exists w', awaitWith resume c w = Finished (Some (chunkValue resumed c), w'))
  /\ (forall parts foot w,
        exists w',
          awaitAll (awaitWith resume) parts w
          = Finished ((fun c => Some (chunkValue resumed c)) <$> parts, w')
          /\ awaitWith resume (Boundary parts foot) w
             = Finished (Some (levelValue resumed parts +:+ foot), w'))
  /\ (forall children static rc w0,
        queueInv (fst (newRendererAsync children static rc w0)))
  /\ (forall r w r' w',
        queueInv r -> readAsyncStep r w = Continue (r', w') ->
        queueInv r'
        /\ exists x,
             turnChunk r w = Some x
             /\ queueValue resumed (outQueue r')
                = queueValue resumed (outQueue r) +:+ chunkValue resumed x)
  /\ (forall n r w rE wE fuel,
        queueInv r -> readAsyncSteps n r w = Break (rE, wE) -> n <= fuel ->
        exists w',
          readAsyncWith (awaitWith resume) fuel Infinity r w
          = Finished (Some (queueValue resumed (outQueue r)
                            +:+ levelValue resumed (turnChunks n r w)),
                      setOutQueue rE [[Str ""]], w')
          /\ forall fuel',
               readAsyncWith (awaitWith resume) fuel' Infinity
                 (setOutQueue rE [[Str ""]]) w'
               = Finished (None, setOutQueue rE [[Str ""]], w'))
  /\ (forall r w frame rest a b c p,
        queueInv r -> stack r = frame :: rest ->
        f_children frame !! childIndex frame = Some (Text a) ->
        f_children frame !! S (childIndex frame) = Some b ->
        f_children frame !! S (S (childIndex frame)) = Some (Text c) ->
        a <> "" -> c <> "" -> pendingOn b w p ->
        (0 <? suspenseDepth r) || isChildRenderer r = true ->
        exists rc r3,
          readAsyncSteps 3 r w = Continue (r3, w)
          /\ queueValue resumed (outQueue r3)
             = queueValue resumed (outQueue r)
               +:+ ((if makeStaticMarkup r then ""
                     else if previousWasTextNode r then textSeparator else "")
                    +:+ escapeTextForBrowser a)
               +:+ resumed p b (makeStaticMarkup r) rc
               +:+ ((if makeStaticMarkup r then "" else textSeparator)
                    +:+ escapeTextForBrowser c))
  /\ (forall (await : Chunk -> World -> Run (option string * World))
             parts w values w',
        awaitAll await parts w = Finished (values, w') ->
        Forall2 (fun c v => exists w1 w2, await c w1 = Finished (v, w2)) parts values)
  /\ (forall values foot,
        joinMarkup values foot = String.concat "" (default "" <$> values) +:+ foot)
  /\ (forall (await : Chunk -> World -> Run (option string * World))
             rest s0 w result level w',
        flattenFrom await Infinity s0 rest w = Finished (result, level, w') ->
        exists values,
          Forall2 (fun c v =>
                     match c with
                     | Str s => v = Some s
                     | _ => exists w1 w2, await c w1 = Finished (v, w2)
                     end) rest values
          /\ result = s0 +:+ String.concat "" (default "null" <$> values)
          /\ level = [Str ""])
  /\ (forall resume' c w v w',
        awaitWith resume' c w = Finished (v, w') ->
        joinsInOrder
          (fun p child static rc v =>
             exists w1 w2, resume' p child static rc w1 = Finished (v, w2)) c v)
  /\ (forall fuel c w v w',
        awaitChunk fuel c w = Finished (v, w') ->
        joinsInOrder
          (fun p child static rc v =>
             exists fuel1 w1 w2,
               awaitChunk fuel1 (Resume p child static rc) w1 = Finished (v, w2)) c v)
  /\ outcome
       (readAllAsync (H := Demo.encoder) 12 Infinity
          (fst (newRendererAsync Examples.boundaryWithPending false None Demo.emptyWorld))
          (snd (newRendererAsync Examples.boundaryWithPending false None Demo.emptyWorld)))
     = Some (inl "a<!--$--><!-- -->p<!-- -->late<!-- -->q<!--/$-->c").
Proof.
  intros Hresume. split_and!.
  - intros r w frame rest r' w'. apply readAsyncStep_appends.
  - apply awaitWith_value, Hresume.
  - intros parts foot w.
    destruct (awaitAll_value resumed resume Hresume parts w) as [w' Hall].
    exists w'. split; [exact Hall|]. cbn [awaitWith]. rewrite Hall.
    by rewrite joinMarkup_values.
  - apply newRendererAsync_queueInv.
  - apply readAsyncStep_queueInv.
  - intros n r w rE wE fuel. by apply readAsyncWith_value.
  - intros r w frame rest a b c p Hinv Hs Ha Hb Hc Hane Hcne Hpending Hcan.
    destruct (readAsyncSteps_three_siblings resumed r w frame rest a b c p
                Hinv Hs Ha Hb Hc Hane Hcne Hpending Hcan) as (rc & r3 & Hrun & Hchunks).
    exists rc, r3. split; [exact Hrun|].
    pose proof (readAsyncSteps_value resumed 3 r w Hinv) as Hv.
    rewrite Hrun, Hchunks in Hv. destruct Hv as [_ ->].
    unfold levelValue. cbn [foldr chunkValue].
    by rewrite string_app_empty_r, !string_app_assoc.
  - apply awaitAll_values.
  - apply joinMarkup_concat.
  - apply flattenFrom_values.
  - apply awaitWith_joins.
  - apply awaitChunk_joins.
  - vm_compute. reflexivity.
Qed.

(** The session of ["a"; boundary around "p", a pending child and "q"; "c"]
    when every suspended child ends up with "late". *)
Lemma async_order_witness :
  (forall p child static rc w,
     exists w',
       OrderExample.resumeLate p child static rc w
       = Finished (Some (OrderExample.late p child static rc), w'))
  /\ queueInv (fst OrderExample.start)
  /\ readAsyncSteps (H := Demo.encoder) 9 (fst OrderExample.start) (snd OrderExample.start)
     = Break OrderExample.finish
  /\ 9 <= 9
  /\ exists w',
       readAsyncWith (H := Demo.encoder) (awaitWith OrderExample.resumeLate) 9 Infinity
         (fst OrderExample.start) (snd OrderExample.start)
       = Finished (Some "a<!--$--><!-- -->plate<!-- -->q<!--/$-->c",
                   setOutQueue (fst OrderExample.finish) [[Str ""]], w').
Proof.
  assert (forall p child static rc w,
            exists w',
              OrderExample.resumeLate p child static rc w
              = Finished (Some (OrderExample.late p child static rc), w')) as Hresume
    by (intros p child static rc w; exists w; reflexivity).
  assert (queueInv (fst OrderExample.start)) as Hinv.
  { split_and!; [reflexivity|reflexivity| |reflexivity|].
    - constructor; [exact I|constructor].
    - constructor; [by eexists _, _|constructor]. }
  assert (readAsyncSteps (H := Demo.encoder) 9 (fst OrderExample.start)
            (snd OrderExample.start)
          = Break (fst OrderExample.finish, snd OrderExample.finish)) as Hrun
    by (vm_compute; reflexivity).
  split; [exact Hresume|]. split; [exact Hinv|].
  split; [vm_compute; reflexivity|]. split; [lia|].
  destruct (proj1 (proj2 (proj2 (proj2 (proj2 (proj2
              (async_output_keeps_insertion_order (H := Demo.encoder)
                 OrderExample.late OrderExample.resumeLate Hresume))))))
              9 (fst OrderExample.start) (snd OrderExample.start)
              (fst OrderExample.finish) (snd OrderExample.finish) 9
              Hinv Hrun (le_n 9)) as [w' [Hread _]].
  exists w'. rewrite Hread. vm_compute. reflexivity.
Defined.
